(** * BusTub storage core: buffer pool, LRU-K replacer, extendible hash
      table, B+ tree index and lock manager.

    A shallow embedding of the C++ sources under [src/bustub] and the
    properties of the specification that were checked against them.

    Conventions.
    - C++ integers are [Z]; conversions between widths are written out
      ([to_int32], [to_size_t]).
    - A member function becomes a function from the object's state to a
      [result]: a normal return, a C++ exception (with the state reached
      when it was thrown), undefined behaviour, or an exhausted loop
      budget for the loops that the source writes as [while].
    - [std::unordered_map] is [gmap]; [std::list] and [std::vector] are
      [list]. *)

From Stdlib Require Import ZArith Lia Bool.
From stdpp Require Import gmap list sorting.

Local Open Scope Z_scope.

(** ** Outcomes of a call *)

Inductive result (E S A : Type) : Type :=
| Ok (a : A) (s : S)
| Throw (e : E) (s : S)
| Undefined
| OutOfFuel.

Arguments Ok {E S A} a s.
Arguments Throw {E S A} e s.
Arguments Undefined {E S A}.
Arguments OutOfFuel {E S A}.

Definition bind {E S A B} (m : result E S A) (f : A -> S -> result E S B)
  : result E S B :=
  match m with
  | Ok a s => f a s
  | Throw e s => Throw e s
  | Undefined => Undefined
  | OutOfFuel => OutOfFuel
  end.

(** ** Machine integers *)

Definition INT32_MAX : Z := 2147483647.
Definition SIZE_MAX : Z := 18446744073709551615.

(** [static_cast<int32_t>] of an unsigned value: reduction modulo 2^32
    into the signed range. *)
Definition to_int32 (z : Z) : Z := (z + 2 ^ 31) mod 2 ^ 32 - 2 ^ 31.

(** Arithmetic on [size_t] wraps modulo 2^64. *)
Definition to_size_t (z : Z) : Z := z mod 2 ^ 64.

(** * LRU-K replacer ([src/bustub/src/buffer/lru_k_replacer.cpp]) *)

Module Replacer.

(** Exceptions thrown by the replacer. *)
Inductive exn := InvalidArgument | LogicError.

(** [FrameEntry::pos_] is an iterator into one of the two lists.  The
    model keeps which list the node it designates lives in; [None] is a
    default-constructed (singular) iterator.  Each list holds a frame at
    most once (part of [wf] below), so the node is the frame's
    occurrence. *)
Inductive list_id := InHist | InCache.

Record FrameEntry := mkEntry {
  hit_count_ : Z;
  evictable_ : bool;
  pos_ : option list_id
}.

Record LRUKReplacer := mkReplacer {
  replacer_size_ : Z;
  k_ : Z;
  curr_size_ : Z;
  hist_list_ : list Z;
  cache_list_ : list Z;
  entries_ : gmap Z FrameEntry
}.

Definition set_hit_count (c : Z) (e : FrameEntry) : FrameEntry :=
  mkEntry c (evictable_ e) (pos_ e).
Definition set_evictable (b : bool) (e : FrameEntry) : FrameEntry :=
  mkEntry (hit_count_ e) b (pos_ e).
Definition set_pos (p : list_id) (e : FrameEntry) : FrameEntry :=
  mkEntry (hit_count_ e) (evictable_ e) (Some p).

Definition with_lists (r : LRUKReplacer) (sz : Z) (h c : list Z)
    (m : gmap Z FrameEntry) : LRUKReplacer :=
  mkReplacer (replacer_size_ r) (k_ r) sz h c m.

(** [std::list::erase] of the node holding [f]. *)
Fixpoint erase (f : Z) (l : list Z) : list Z :=
  match l with
  | [] => []
  | x :: l' => if decide (x = f) then l' else x :: erase f l'
  end.

Section WithDefault.

(** The declaration of [FrameEntry] (header [lru_k_replacer.h]) is not
    part of the sources; the initial value of [evictable_] in a
    default-constructed entry is a parameter of the model. *)
Variable default_evictable : bool.

Definition default_entry : FrameEntry := mkEntry 0 default_evictable None.

(** [entries_[f]]: [operator[]] of [std::unordered_map] inserts a
    default-constructed entry when the key is absent. *)
Definition entry_at (f : Z) (m : gmap Z FrameEntry)
  : FrameEntry * gmap Z FrameEntry :=
  match m !! f with
  | Some e => (e, m)
  | None => (default_entry, <[f := default_entry]> m)
  end.

(** [LRUKReplacer::LRUKReplacer(num_frames, k)] *)
Definition make (num_frames k : Z) : LRUKReplacer :=
  mkReplacer num_frames k 0 [] [] ∅.

(** The loop of [Evict] over one list, from [rbegin()] to [rend()].  The
    argument is the list reversed; the result is the victim (if any),
    the reversed list without the victim's node, and the entry table
    (which [operator[]] may have extended). *)
Fixpoint scan (rl : list Z) (m : gmap Z FrameEntry)
  : option Z * list Z * gmap Z FrameEntry :=
  match rl with
  | [] => (None, [], m)
  | f :: rl' =>
      let '(e, m1) := entry_at f m in
      if evictable_ e then (Some f, rl', m1)
      else let '(v, rest, m2) := scan rl' m1 in (v, f :: rest, m2)
  end.

(** [LRUKReplacer::Evict]: [Some f] is a [true] return with
    [*frame_id = f]. *)
Definition Evict (r : LRUKReplacer) : result exn LRUKReplacer (option Z) :=
  let '(v1, h1, m1) := scan (rev (hist_list_ r)) (entries_ r) in
  let hist := rev h1 in
  match v1 with
  | Some f =>
      Ok (Some f)
         (with_lists r (to_size_t (curr_size_ r - 1)) hist (cache_list_ r)
                     (delete f m1))
  | None =>
      let '(v2, c2, m2) := scan (rev (cache_list_ r)) m1 in
      let cache := rev c2 in
      match v2 with
      | Some f =>
          Ok (Some f)
             (with_lists r (to_size_t (curr_size_ r - 1)) hist cache
                         (delete f m2))
      | None => Ok None (with_lists r (curr_size_ r) hist cache m2)
      end
  end.

(** The guard shared by [RecordAccess], [SetEvictable] and [Remove]:
    [frame_id > static_cast<int32_t>(replacer_size_)]. *)
Definition invalid_frame (r : LRUKReplacer) (frame_id : Z) : bool :=
  to_int32 (replacer_size_ r) <? frame_id.

(** [LRUKReplacer::RecordAccess] *)
Definition RecordAccess (frame_id : Z) (r : LRUKReplacer)
  : result exn LRUKReplacer unit :=
  if invalid_frame r frame_id then Throw InvalidArgument r
  else
    let '(e0, m0) := entry_at frame_id (entries_ r) in
    let count := to_size_t (hit_count_ e0 + 1) in
    let e := set_hit_count count e0 in
    if count =? 1 then
      Ok tt (with_lists r (to_size_t (curr_size_ r + 1))
                        (frame_id :: hist_list_ r) (cache_list_ r)
                        (<[frame_id := set_pos InHist e]> m0))
    else if count =? k_ r then
      match pos_ e with
      | Some InHist =>
          Ok tt (with_lists r (curr_size_ r)
                            (erase frame_id (hist_list_ r))
                            (frame_id :: cache_list_ r)
                            (<[frame_id := set_pos InCache e]> m0))
      | _ => Undefined
      end
    else if k_ r <? count then
      match pos_ e with
      | Some InCache =>
          Ok tt (with_lists r (curr_size_ r) (hist_list_ r)
                            (frame_id :: erase frame_id (cache_list_ r))
                            (<[frame_id := set_pos InCache e]> m0))
      | _ => Undefined
      end
    else
      Ok tt (with_lists r (curr_size_ r) (hist_list_ r) (cache_list_ r)
                        (<[frame_id := e]> m0)).

(** [LRUKReplacer::SetEvictable] *)
Definition SetEvictable (frame_id : Z) (b : bool) (r : LRUKReplacer)
  : result exn LRUKReplacer unit :=
  if invalid_frame r frame_id then Throw InvalidArgument r
  else
    match entries_ r !! frame_id with
    | None => Ok tt r
    | Some e =>
        let sz :=
          if negb (evictable_ e) && b then to_size_t (curr_size_ r + 1)
          else if evictable_ e && negb b then to_size_t (curr_size_ r - 1)
          else curr_size_ r in
        Ok tt (with_lists r sz (hist_list_ r) (cache_list_ r)
                          (<[frame_id := set_evictable b e]> (entries_ r)))
    end.

(** [LRUKReplacer::Remove] *)
Definition Remove (frame_id : Z) (r : LRUKReplacer)
  : result exn LRUKReplacer unit :=
  if invalid_frame r frame_id then Throw InvalidArgument r
  else
    match entries_ r !! frame_id with
    | None => Ok tt r
    | Some e =>
        if negb (evictable_ e) then Throw LogicError r
        else if hit_count_ e <? k_ r then
          match pos_ e with
          | Some InHist =>
              Ok tt (with_lists r (to_size_t (curr_size_ r - 1))
                                (erase frame_id (hist_list_ r))
                                (cache_list_ r)
                                (delete frame_id (entries_ r)))
          | _ => Undefined
          end
        else
          match pos_ e with
          | Some InCache =>
              Ok tt (with_lists r (to_size_t (curr_size_ r - 1))
                                (hist_list_ r)
                                (erase frame_id (cache_list_ r))
                                (delete frame_id (entries_ r)))
          | _ => Undefined
          end
    end.

(** [LRUKReplacer::Size] *)
Definition Size (r : LRUKReplacer) : Z := curr_size_ r.

(** *** Histories of calls

    The replacer keeps no timestamps.  To state which frame is "oldest"
    the calls made on a replacer are replayed next to a logical clock
    that records, per frame, the time of the most recent [RecordAccess]
    ([last_at]) and the time of the first [RecordAccess] since the frame
    last had no entry ([first_at]). *)

Inductive op :=
| ORecordAccess (f : Z)
| OSetEvictable (f : Z) (b : bool)
| ORemove (f : Z)
| OEvict.

Record ghost := mkGhost {
  clock : Z;
  first_at : gmap Z Z;
  last_at : gmap Z Z
}.

Definition ghost0 : ghost := mkGhost 0 ∅ ∅.

Definition step (o : op) (r : LRUKReplacer) : result exn LRUKReplacer unit :=
  match o with
  | ORecordAccess f => RecordAccess f r
  | OSetEvictable f b => SetEvictable f b r
  | ORemove f => Remove f r
  | OEvict => bind (Evict r) (fun _ r' => Ok tt r')
  end.

(** The clock advances on every [RecordAccess] that returns. *)
Definition tick (o : op) (r : LRUKReplacer) (g : ghost) : ghost :=
  match o with
  | ORecordAccess f =>
      mkGhost (clock g + 1)
              (match entries_ r !! f with
               | None => <[f := clock g]> (first_at g)
               | Some _ => first_at g
               end)
              (<[f := clock g]> (last_at g))
  | _ => g
  end.

(** Replay of a history; a call that throws leaves the clock alone, a
    call with undefined behaviour ends the replay. *)
Fixpoint run (ops : list op) (r : LRUKReplacer) (g : ghost)
  : option (LRUKReplacer * ghost) :=
  match ops with
  | [] => Some (r, g)
  | o :: ops' =>
      match step o r with
      | Ok _ r' => run ops' r' (tick o r g)
      | Throw _ r' => run ops' r' g
      | _ => None
      end
  end.

End WithDefault.

(** Time stamps of a frame (0 when it was never accessed). *)
Definition first_access (g : ghost) (f : Z) : Z := default 0 (first_at g !! f).
Definition last_access (g : ghost) (f : Z) : Z := default 0 (last_at g !! f).

(** The two classes of frames and evictability, read off the entry
    table: [hit_count_] is the number of recorded accesses. *)
Definition history_class (r : LRUKReplacer) (f : Z) : Prop :=
  exists e, entries_ r !! f = Some e /\ hit_count_ e < k_ r.
Definition cache_class (r : LRUKReplacer) (f : Z) : Prop :=
  exists e, entries_ r !! f = Some e /\ k_ r <= hit_count_ e.
Definition is_evictable (r : LRUKReplacer) (f : Z) : Prop :=
  exists e, entries_ r !! f = Some e /\ evictable_ e = true.

(** *** The invariant of the replacer and its clock *)

Record wf (r : LRUKReplacer) (g : ghost) : Prop := mkWf {
  wf_k : 2 <= k_ r;
  wf_clock : 0 <= clock g;
  wf_nodup : NoDup (hist_list_ r ++ cache_list_ r);
  wf_entry : forall f e, entries_ r !! f = Some e ->
    1 <= hit_count_ e <= clock g /\
    ((hit_count_ e < k_ r /\ pos_ e = Some InHist /\ f ∈ hist_list_ r) \/
     (k_ r <= hit_count_ e /\ pos_ e = Some InCache /\ f ∈ cache_list_ r));
  wf_listed : forall f,
    f ∈ hist_list_ r ++ cache_list_ r -> is_Some (entries_ r !! f);
  wf_hist_sorted :
    StronglySorted (fun a b => first_access g b < first_access g a)
                   (hist_list_ r);
  wf_cache_sorted :
    StronglySorted (fun a b => last_access g b < last_access g a)
                   (cache_list_ r);
  wf_hist_before : forall f, f ∈ hist_list_ r -> first_access g f < clock g;
  wf_cache_before : forall f, f ∈ cache_list_ r -> last_access g f < clock g
}.

Definition not_evictable (m : gmap Z FrameEntry) (x : Z) : Prop :=
  forall e, m !! x = Some e -> evictable_ e = false.

(** The ordering of the specification: within its class the victim has
    the oldest most recent access. *)
Definition evicts_least_recent (d : bool) (r : LRUKReplacer) (g : ghost)
  : Prop :=
  forall f r', Evict d r = Ok (Some f) r' ->
  forall f', is_evictable r f' ->
    (history_class r f <-> history_class r f') ->
    last_access g f <= last_access g f'.

End Replacer.
(** * Lock manager
      ([src/concurrency/lock_manager.cpp], which the sources keep in the
       file [src/bustub/src/optimizer/sort_limit_as_topn.cpp]) *)

Module LockManager.

Inductive LockMode :=
| SHARED | EXCLUSIVE | INTENTION_SHARED | INTENTION_EXCLUSIVE
| SHARED_INTENTION_EXCLUSIVE.

Inductive TransactionState := GROWING | SHRINKING | COMMITTED | ABORTED.

Inductive IsolationLevel := READ_UNCOMMITTED | REPEATABLE_READ | READ_COMMITTED.

Inductive AbortReason :=
| LOCK_ON_SHRINKING
| UPGRADE_CONFLICT
| LOCK_SHARED_ON_READ_UNCOMMITTED
| TABLE_LOCK_NOT_PRESENT
| ATTEMPTED_INTENTION_LOCK_ON_ROW
| TABLE_UNLOCKED_BEFORE_UNLOCKING_ROWS
| INCOMPATIBLE_UPGRADE
| ATTEMPTED_UNLOCK_BUT_NO_LOCK_HELD.

Inductive exn :=
| TransactionAbortException (txn_id : Z) (reason : AbortReason)
| logic_error.

#[global] Instance LockMode_eq_dec : EqDecision LockMode.
Proof. solve_decision. Defined.
#[global] Instance TransactionState_eq_dec : EqDecision TransactionState.
Proof. solve_decision. Defined.
#[global] Instance IsolationLevel_eq_dec : EqDecision IsolationLevel.
Proof. solve_decision. Defined.

Definition INVALID_TXN_ID : Z := -1.

(** A record id: (page id, slot number). *)
Definition RID : Type := Z * Z.

(** The members of [Transaction] that the lock manager reads and writes
    (the class itself is declared outside the sources). *)
Record Transaction := mkTxn {
  txn_id_ : Z;
  state_ : TransactionState;
  isolation_level_ : IsolationLevel;
  s_table_lock_set_ : gset Z;
  x_table_lock_set_ : gset Z;
  is_table_lock_set_ : gset Z;
  ix_table_lock_set_ : gset Z;
  six_table_lock_set_ : gset Z;
  s_row_lock_set_ : gmap Z (gset RID);
  x_row_lock_set_ : gmap Z (gset RID)
}.

Definition SetState (st : TransactionState) (t : Transaction) : Transaction :=
  mkTxn (txn_id_ t) st (isolation_level_ t)
        (s_table_lock_set_ t) (x_table_lock_set_ t) (is_table_lock_set_ t)
        (ix_table_lock_set_ t) (six_table_lock_set_ t)
        (s_row_lock_set_ t) (x_row_lock_set_ t).

Definition with_table_sets (t : Transaction) (s x is_ ix six : gset Z)
  : Transaction :=
  mkTxn (txn_id_ t) (state_ t) (isolation_level_ t) s x is_ ix six
        (s_row_lock_set_ t) (x_row_lock_set_ t).

Definition with_row_sets (t : Transaction) (s x : gmap Z (gset RID))
  : Transaction :=
  mkTxn (txn_id_ t) (state_ t) (isolation_level_ t)
        (s_table_lock_set_ t) (x_table_lock_set_ t) (is_table_lock_set_ t)
        (ix_table_lock_set_ t) (six_table_lock_set_ t) s x.

Record LockRequest := mkRequest {
  req_txn_id_ : Z;
  lock_mode_ : LockMode;
  oid_ : Z;
  rid_ : option RID;
  granted_ : bool
}.

Definition grant (r : LockRequest) : LockRequest :=
  mkRequest (req_txn_id_ r) (lock_mode_ r) (oid_ r) (rid_ r) true.

Record LockRequestQueue := mkQueue {
  request_queue_ : list LockRequest;
  upgrading_ : Z
}.

Definition empty_queue : LockRequestQueue := mkQueue [] INVALID_TXN_ID.

(** The lock manager, together with the transactions it is handed
    pointers to ([txn_map_], keyed by transaction id). *)
Record LockManager := mkLM {
  table_lock_map_ : gmap Z LockRequestQueue;
  row_lock_map_ : gmap RID LockRequestQueue;
  waits_for_ : gmap Z (gset Z);
  txn_id_set_ : gmap Z Z;
  txn_map_ : gmap Z Transaction
}.

Definition with_table_map (m : gmap Z LockRequestQueue) (s : LockManager) :=
  mkLM m (row_lock_map_ s) (waits_for_ s) (txn_id_set_ s) (txn_map_ s).
Definition with_row_map (m : gmap RID LockRequestQueue) (s : LockManager) :=
  mkLM (table_lock_map_ s) m (waits_for_ s) (txn_id_set_ s) (txn_map_ s).
Definition with_graph (w : gmap Z (gset Z)) (ids : gmap Z Z) (s : LockManager) :=
  mkLM (table_lock_map_ s) (row_lock_map_ s) w ids (txn_map_ s).
Definition with_txn (t : Transaction) (s : LockManager) :=
  mkLM (table_lock_map_ s) (row_lock_map_ s) (waits_for_ s) (txn_id_set_ s)
       (<[txn_id_ t := t]> (txn_map_ s)).

(** [LockManager::IsCompatible]: may a held lock be upgraded? *)
Definition IsCompatible (before after : LockMode) : bool :=
  match before, after with
  | SHARED, (EXCLUSIVE | SHARED_INTENTION_EXCLUSIVE) => true
  | INTENTION_EXCLUSIVE, (EXCLUSIVE | SHARED_INTENTION_EXCLUSIVE) => true
  | INTENTION_SHARED,
    (SHARED | EXCLUSIVE | INTENTION_EXCLUSIVE | SHARED_INTENTION_EXCLUSIVE) =>
      true
  | SHARED_INTENTION_EXCLUSIVE, EXCLUSIVE => true
  | _, _ => false
  end.

(** [LockManager::GrantCompatiable] *)
Definition GrantCompatiable (first second : LockMode) : bool :=
  if bool_decide (first = EXCLUSIVE) || bool_decide (second = EXCLUSIVE)
  then false
  else if (bool_decide (first = SHARED)
             && bool_decide (second = INTENTION_EXCLUSIVE))
          || (bool_decide (first = INTENTION_EXCLUSIVE)
                && bool_decide (second = SHARED))
  then false
  else if (bool_decide (first = SHARED_INTENTION_EXCLUSIVE)
             && negb (bool_decide (second = INTENTION_SHARED)))
          || (negb (bool_decide (first = INTENTION_SHARED))
                && bool_decide (second = SHARED_INTENTION_EXCLUSIVE))
  then false
  else true.

(** [LockManager::UnLockChangeState] *)
Definition UnLockChangeState (lock_mode : LockMode) (t : Transaction)
  : Transaction :=
  if negb (bool_decide (state_ t = GROWING)) then t
  else if bool_decide (isolation_level_ t = REPEATABLE_READ)
          && (bool_decide (lock_mode = SHARED)
              || bool_decide (lock_mode = EXCLUSIVE))
  then SetState SHRINKING t
  else if bool_decide (isolation_level_ t = READ_COMMITTED)
          && bool_decide (lock_mode = EXCLUSIVE)
  then SetState SHRINKING t
  else if bool_decide (isolation_level_ t = READ_UNCOMMITTED)
          && bool_decide (lock_mode = EXCLUSIVE)
  then SetState SHRINKING t
  else t.

(** [table_lock_map_[oid]], creating the queue when there is none
    ([GetLRQueuePtr(table_oid_t)]). *)
Definition GetLRQueuePtr_table (oid : Z) (s : LockManager)
  : LockRequestQueue * LockManager :=
  match table_lock_map_ s !! oid with
  | Some q => (q, s)
  | None => (empty_queue,
             with_table_map (<[oid := empty_queue]> (table_lock_map_ s)) s)
  end.

(** [GetLRQueuePtr(RID)] *)
Definition GetLRQueuePtr_row (rid : RID) (s : LockManager)
  : LockRequestQueue * LockManager :=
  match row_lock_map_ s !! rid with
  | Some q => (q, s)
  | None => (empty_queue,
             with_row_map (<[rid := empty_queue]> (row_lock_map_ s)) s)
  end.

(** The queues are shared objects: writing one back is what a mutation
    through the [shared_ptr] does. *)
Definition put_table_queue (oid : Z) (q : LockRequestQueue) (s : LockManager) :=
  with_table_map (<[oid := q]> (table_lock_map_ s)) s.
Definition put_row_queue (rid : RID) (q : LockRequestQueue) (s : LockManager) :=
  with_row_map (<[rid := q]> (row_lock_map_ s)) s.

(** [BookKeeping(txn, lock_mode, oid)] *)
Definition BookKeeping_table (m : LockMode) (oid : Z) (t : Transaction) :=
  match m with
  | EXCLUSIVE =>
      with_table_sets t (s_table_lock_set_ t) ({[oid]} ∪ x_table_lock_set_ t)
        (is_table_lock_set_ t) (ix_table_lock_set_ t) (six_table_lock_set_ t)
  | SHARED =>
      with_table_sets t ({[oid]} ∪ s_table_lock_set_ t) (x_table_lock_set_ t)
        (is_table_lock_set_ t) (ix_table_lock_set_ t) (six_table_lock_set_ t)
  | INTENTION_EXCLUSIVE =>
      with_table_sets t (s_table_lock_set_ t) (x_table_lock_set_ t)
        (is_table_lock_set_ t) ({[oid]} ∪ ix_table_lock_set_ t)
        (six_table_lock_set_ t)
  | INTENTION_SHARED =>
      with_table_sets t (s_table_lock_set_ t) (x_table_lock_set_ t)
        ({[oid]} ∪ is_table_lock_set_ t) (ix_table_lock_set_ t)
        (six_table_lock_set_ t)
  | SHARED_INTENTION_EXCLUSIVE =>
      with_table_sets t (s_table_lock_set_ t) (x_table_lock_set_ t)
        (is_table_lock_set_ t) (ix_table_lock_set_ t)
        ({[oid]} ∪ six_table_lock_set_ t)
  end.

(** [BookKeepingRemove(txn, lock_mode, oid)] *)
Definition BookKeepingRemove_table (m : LockMode) (oid : Z) (t : Transaction) :=
  match m with
  | EXCLUSIVE =>
      with_table_sets t (s_table_lock_set_ t) (x_table_lock_set_ t ∖ {[oid]})
        (is_table_lock_set_ t) (ix_table_lock_set_ t) (six_table_lock_set_ t)
  | SHARED =>
      with_table_sets t (s_table_lock_set_ t ∖ {[oid]}) (x_table_lock_set_ t)
        (is_table_lock_set_ t) (ix_table_lock_set_ t) (six_table_lock_set_ t)
  | INTENTION_EXCLUSIVE =>
      with_table_sets t (s_table_lock_set_ t) (x_table_lock_set_ t)
        (is_table_lock_set_ t) (ix_table_lock_set_ t ∖ {[oid]})
        (six_table_lock_set_ t)
  | INTENTION_SHARED =>
      with_table_sets t (s_table_lock_set_ t) (x_table_lock_set_ t)
        (is_table_lock_set_ t ∖ {[oid]}) (ix_table_lock_set_ t)
        (six_table_lock_set_ t)
  | SHARED_INTENTION_EXCLUSIVE =>
      with_table_sets t (s_table_lock_set_ t) (x_table_lock_set_ t)
        (is_table_lock_set_ t) (ix_table_lock_set_ t)
        (six_table_lock_set_ t ∖ {[oid]})
  end.

(** [m[oid]] on a row-lock map: [operator[]] creates an empty set. *)
Definition row_set_at (oid : Z) (m : gmap Z (gset RID)) : gset RID :=
  default ∅ (m !! oid).

(** [BookKeeping(txn, lock_mode, oid, rid)] *)
Definition BookKeeping_row (m : LockMode) (oid : Z) (rid : RID)
    (t : Transaction) :=
  match m with
  | EXCLUSIVE =>
      with_row_sets t (s_row_lock_set_ t)
        (<[oid := {[rid]} ∪ row_set_at oid (x_row_lock_set_ t)]>
           (x_row_lock_set_ t))
  | SHARED =>
      with_row_sets t
        (<[oid := {[rid]} ∪ row_set_at oid (s_row_lock_set_ t)]>
           (s_row_lock_set_ t))
        (x_row_lock_set_ t)
  | _ => t
  end.

(** [BookKeepingRemove(txn, lock_mode, oid, rid)] *)
Definition BookKeepingRemove_row (m : LockMode) (oid : Z) (rid : RID)
    (t : Transaction) :=
  match m with
  | EXCLUSIVE =>
      with_row_sets t (s_row_lock_set_ t)
        (<[oid := row_set_at oid (x_row_lock_set_ t) ∖ {[rid]}]>
           (x_row_lock_set_ t))
  | SHARED =>
      with_row_sets t
        (<[oid := row_set_at oid (s_row_lock_set_ t) ∖ {[rid]}]>
           (s_row_lock_set_ t))
        (x_row_lock_set_ t)
  | _ => t
  end.


(** *** Request queues *)

Definition new_request (txn_id : Z) (m : LockMode) (oid : Z)
    (rid : option RID) : LockRequest :=
  mkRequest txn_id m oid rid false.

(** The first request of a transaction in a queue (the loops over
    [request_queue_] stop at the first match). *)
Fixpoint find_request (txn_id : Z) (l : list LockRequest)
  : option LockRequest :=
  match l with
  | [] => None
  | r :: l' =>
      if req_txn_id_ r =? txn_id then Some r else find_request txn_id l'
  end.

(** [request_queue_.erase(iter)] at the first request of [txn_id]. *)
Fixpoint erase_request (txn_id : Z) (l : list LockRequest)
  : list LockRequest :=
  match l with
  | [] => []
  | r :: l' =>
      if req_txn_id_ r =? txn_id then l' else r :: erase_request txn_id l'
  end.

(** The common body of the two [UpdateLock] overloads, on the queue.
    [Some q'] is a [true] return; the old mode of an upgraded request is
    returned for the bookkeeping. *)
Inductive update_outcome :=
| Same
| Upgraded (old : LockMode) (q : LockRequestQueue)
| Appended (q : LockRequestQueue)
| Refused (reason : AbortReason).

Definition UpdateLock (txn_id : Z) (m : LockMode) (oid : Z)
    (rid : option RID) (q : LockRequestQueue) : update_outcome :=
  match find_request txn_id (request_queue_ q) with
  | Some r =>
      if bool_decide (lock_mode_ r = m) then Same
      else if upgrading_ q =? INVALID_TXN_ID then
        if IsCompatible (lock_mode_ r) m then
          Upgraded (lock_mode_ r)
            (mkQueue (erase_request txn_id (request_queue_ q)
                        ++ [new_request txn_id m oid rid])
                     txn_id)
        else Refused INCOMPATIBLE_UPGRADE
      else Refused UPGRADE_CONFLICT
  | None =>
      Appended (mkQueue (request_queue_ q ++ [new_request txn_id m oid rid])
                        (upgrading_ q))
  end.

(** [UpdateLock(txn, lock_mode, oid)] *)
Definition UpdateLock_table (txn : Transaction) (m : LockMode) (oid : Z)
    (s : LockManager) : result exn LockManager bool :=
  let '(q, s1) := GetLRQueuePtr_table oid s in
  match UpdateLock (txn_id_ txn) m oid None q with
  | Same => Ok true s1
  | Upgraded old q' =>
      Ok true (put_table_queue oid q'
                 (with_txn (BookKeepingRemove_table old oid txn) s1))
  | Appended q' => Ok true (put_table_queue oid q' s1)
  | Refused reason =>
      Throw (TransactionAbortException (txn_id_ txn) reason)
            (with_txn (SetState ABORTED txn) s1)
  end.

(** [UpdateLock(txn, lock_mode, oid, rid)]; the bookkeeping of an
    upgrade is called with the new mode here. *)
Definition UpdateLock_row (txn : Transaction) (m : LockMode) (oid : Z)
    (rid : RID) (s : LockManager) : result exn LockManager bool :=
  let '(q, s1) := GetLRQueuePtr_row rid s in
  match UpdateLock (txn_id_ txn) m oid (Some rid) q with
  | Same => Ok true s1
  | Upgraded _ q' =>
      Ok true (put_row_queue rid q'
                 (with_txn (BookKeepingRemove_row m oid rid txn) s1))
  | Appended q' => Ok true (put_row_queue rid q' s1)
  | Refused reason =>
      Throw (TransactionAbortException (txn_id_ txn) reason)
            (with_txn (SetState ABORTED txn) s1)
  end.

(** The requests of a queue that are granted, in queue order. *)
Fixpoint granted_requests (l : list LockRequest) : list LockRequest :=
  match l with
  | [] => []
  | r :: l' =>
      if granted_ r then r :: granted_requests l' else granted_requests l'
  end.

(** Is [m] compatible with every request of [has_granted]? *)
Definition compatible_with_all (has_granted : list LockRequest) (m : LockMode)
  : bool :=
  forallb (fun g => GrantCompatiable (lock_mode_ g) m) has_granted.

(** The upgrade branch of [GrantLock]: grant the first request of the
    transaction. *)
Fixpoint grant_first (txn_id : Z) (l : list LockRequest)
  : option (list LockRequest) :=
  match l with
  | [] => None
  | r :: l' =>
      if req_txn_id_ r =? txn_id then Some (grant r :: l')
      else option_map (cons r) (grant_first txn_id l')
  end.

(** The last loop of [GrantLock]: every request that is not granted yet
    and is compatible with the granted ones (which grow) is granted;
    the flag tells whether the transaction's own request is granted. *)
Fixpoint grant_scan (txn_id : Z) (has_granted l : list LockRequest)
  : bool * list LockRequest :=
  match l with
  | [] => (false, [])
  | r :: l' =>
      if granted_ r then
        let '(flag, l'') := grant_scan txn_id has_granted l' in
        ((req_txn_id_ r =? txn_id) || flag, r :: l'')
      else if compatible_with_all has_granted (lock_mode_ r) then
        let '(flag, l'') :=
          grant_scan txn_id (has_granted ++ [grant r]) l' in
        ((req_txn_id_ r =? txn_id) || flag, grant r :: l'')
      else
        let '(flag, l'') := grant_scan txn_id has_granted l' in
        (flag, r :: l'')
  end.

(** The common body of the two [GrantLock] overloads, on the queue. *)
Definition GrantLock (txn_id : Z) (m : LockMode) (q : LockRequestQueue)
  : bool * LockRequestQueue :=
  let has_granted := granted_requests (request_queue_ q) in
  if negb (compatible_with_all has_granted m) then (false, q)
  else
    match (if upgrading_ q =? txn_id
           then grant_first txn_id (request_queue_ q) else None) with
    | Some l' => (true, mkQueue l' INVALID_TXN_ID)
    | None =>
        let '(flag, l') := grant_scan txn_id has_granted (request_queue_ q) in
        (flag, mkQueue l' (upgrading_ q))
    end.

(** [GrantLock(txn, lock_mode, oid)] *)
Definition GrantLock_table (txn : Transaction) (m : LockMode) (oid : Z)
    (s : LockManager) : bool * LockManager :=
  let '(q, s1) := GetLRQueuePtr_table oid s in
  let '(b, q') := GrantLock (txn_id_ txn) m q in
  (b, put_table_queue oid q' s1).

(** [GrantLock(txn, lock_mode, rid)] *)
Definition GrantLock_row (txn : Transaction) (m : LockMode) (rid : RID)
    (s : LockManager) : bool * LockManager :=
  let '(q, s1) := GetLRQueuePtr_row rid s in
  let '(b, q') := GrantLock (txn_id_ txn) m q in
  (b, put_row_queue rid q' s1).


(** *** Lock and unlock calls

    A lock call blocks inside [while(!GrantLock(...)) cv_.wait(latch)].
    The queue latch is released while the thread waits, so other threads
    run in between.  A call is therefore split at the points where the
    latch is released: its beginning (the admission checks and
    [UpdateLock]), an evaluation of the loop condition, and the code
    that runs when [wait] returns. *)

Inductive wait_point :=
| InLockTable (m : LockMode) (oid : Z)
| InLockRow (m : LockMode) (oid : Z) (rid : RID)
  (** the loop of the SHRINKING branch of [LockRow], which works on the
      table queue of [oid] *)
| InLockRowShrinking (m : LockMode) (oid : Z) (rid : RID).

Inductive progress :=
| Returned (b : bool)
| AtLoop (w : wait_point)
| Waiting (w : wait_point).

Definition abort (txn : Transaction) (reason : AbortReason) (s : LockManager)
  : result exn LockManager progress :=
  Throw (TransactionAbortException (txn_id_ txn) reason)
        (with_txn (SetState ABORTED txn) s).

Definition enter_loop (w : wait_point) (r : result exn LockManager bool)
  : result exn LockManager progress :=
  bind r (fun b s => if b then Ok (AtLoop w) s else Ok (Returned false) s).

(** [LockManager::LockTable], up to the first evaluation of the loop
    condition. *)
Definition LockTable (txn_id : Z) (m : LockMode) (oid : Z) (s : LockManager)
  : result exn LockManager progress :=
  match txn_map_ s !! txn_id with
  | None => Undefined
  | Some txn =>
      match state_ txn with
      | COMMITTED | ABORTED => Throw logic_error s
      | GROWING =>
          if bool_decide (isolation_level_ txn = READ_UNCOMMITTED)
             && (bool_decide (m = SHARED) || bool_decide (m = INTENTION_SHARED)
                 || bool_decide (m = SHARED_INTENTION_EXCLUSIVE))
          then abort txn LOCK_SHARED_ON_READ_UNCOMMITTED s
          else enter_loop (InLockTable m oid) (UpdateLock_table txn m oid s)
      | SHRINKING =>
          match isolation_level_ txn with
          | REPEATABLE_READ => abort txn LOCK_ON_SHRINKING s
          | READ_UNCOMMITTED =>
              if bool_decide (m = EXCLUSIVE)
                 || bool_decide (m = INTENTION_EXCLUSIVE)
              then abort txn LOCK_ON_SHRINKING s
              else abort txn LOCK_SHARED_ON_READ_UNCOMMITTED s
          | READ_COMMITTED =>
              if bool_decide (m = SHARED) || bool_decide (m = INTENTION_SHARED)
              then enter_loop (InLockTable m oid)
                              (UpdateLock_table txn m oid s)
              else abort txn LOCK_ON_SHRINKING s
          end
      end
  end.

(** [LockManager::IsTableFit]: [Some reason] when it aborts. *)
Definition IsTableFit (txn : Transaction) (m : LockMode) (oid : Z)
  : option AbortReason :=
  if bool_decide (m = EXCLUSIVE) then
    if negb (bool_decide (oid ∈ ix_table_lock_set_ txn)
             || bool_decide (oid ∈ x_table_lock_set_ txn)
             || bool_decide (oid ∈ six_table_lock_set_ txn))
    then Some TABLE_LOCK_NOT_PRESENT
    else None
  else None.

(** [LockManager::LockRow], up to the first evaluation of the loop
    condition. *)
Definition LockRow (txn_id : Z) (m : LockMode) (oid : Z) (rid : RID)
    (s : LockManager) : result exn LockManager progress :=
  match txn_map_ s !! txn_id with
  | None => Undefined
  | Some txn =>
      match IsTableFit txn m oid with
      | Some reason => abort txn reason s
      | None =>
          if bool_decide (m = INTENTION_SHARED)
             || bool_decide (m = INTENTION_EXCLUSIVE)
             || bool_decide (m = SHARED_INTENTION_EXCLUSIVE)
          then Throw logic_error s
          else
            match state_ txn with
            | COMMITTED | ABORTED => Throw logic_error s
            | GROWING =>
                if bool_decide (isolation_level_ txn = READ_UNCOMMITTED)
                   && negb (bool_decide (m = EXCLUSIVE))
                then abort txn LOCK_SHARED_ON_READ_UNCOMMITTED s
                else enter_loop (InLockRow m oid rid)
                                (UpdateLock_row txn m oid rid s)
            | SHRINKING =>
                match isolation_level_ txn with
                | REPEATABLE_READ => abort txn LOCK_ON_SHRINKING s
                | READ_UNCOMMITTED =>
                    if bool_decide (m = EXCLUSIVE)
                    then abort txn LOCK_ON_SHRINKING s
                    else abort txn LOCK_SHARED_ON_READ_UNCOMMITTED s
                | READ_COMMITTED =>
                    if bool_decide (m = SHARED)
                    then enter_loop (InLockRowShrinking m oid rid)
                                    (UpdateLock_table txn m oid s)
                    else abort txn LOCK_ON_SHRINKING s
                end
            end
      end
  end.

(** The loop condition [!GrantLock(...)], followed by the code after
    the loop when the lock is granted. *)
Definition loop_condition (w : wait_point) (txn_id : Z) (s : LockManager)
  : result exn LockManager progress :=
  match txn_map_ s !! txn_id with
  | None => Undefined
  | Some txn =>
      let '(b, s1) :=
        match w with
        | InLockTable m oid => GrantLock_table txn m oid s
        | InLockRow m oid rid => GrantLock_row txn m rid s
        | InLockRowShrinking m oid rid => GrantLock_table txn m oid s
        end in
      if b then
        Ok (Returned true)
           (with_txn
              (match w with
               | InLockTable m oid => BookKeeping_table m oid txn
               | InLockRow m oid rid => BookKeeping_row m oid rid txn
               | InLockRowShrinking m oid rid => BookKeeping_row m oid rid txn
               end) s1)
      else Ok (Waiting w) s1
  end.

Definition reset_upgrading (txn_id : Z) (q : LockRequestQueue) :=
  if upgrading_ q =? txn_id then mkQueue (request_queue_ q) INVALID_TXN_ID
  else q.

(** The body of the loop after [cv_.wait] returns: an aborted
    transaction withdraws its request and the call returns [false];
    otherwise the loop condition is evaluated again. *)
Definition loop_wake (w : wait_point) (txn_id : Z) (s : LockManager)
  : result exn LockManager progress :=
  match txn_map_ s !! txn_id with
  | None => Undefined
  | Some txn =>
      if bool_decide (state_ txn = ABORTED) then
        match w with
        | InLockRow m oid rid =>
            let '(q, s1) := GetLRQueuePtr_row rid s in
            let q1 := reset_upgrading txn_id q in
            match find_request txn_id (request_queue_ q1) with
            | Some _ =>
                Ok (Returned false)
                   (put_row_queue rid
                      (mkQueue (erase_request txn_id (request_queue_ q1))
                               (upgrading_ q1)) s1)
            | None => loop_condition w txn_id (put_row_queue rid q1 s1)
            end
        | InLockTable m oid | InLockRowShrinking m oid _ =>
            let '(q, s1) := GetLRQueuePtr_table oid s in
            let q1 := reset_upgrading txn_id q in
            match find_request txn_id (request_queue_ q1) with
            | Some _ =>
                Ok (Returned false)
                   (put_table_queue oid
                      (mkQueue (erase_request txn_id (request_queue_ q1))
                               (upgrading_ q1)) s1)
            | None => loop_condition w txn_id (put_table_queue oid q1 s1)
            end
        end
      else loop_condition w txn_id s
  end.

(** The first granted request of a transaction, and its erasure. *)
Fixpoint find_granted (txn_id : Z) (l : list LockRequest)
  : option LockRequest :=
  match l with
  | [] => None
  | r :: l' =>
      if (req_txn_id_ r =? txn_id) && granted_ r then Some r
      else find_granted txn_id l'
  end.

Fixpoint erase_granted (txn_id : Z) (l : list LockRequest)
  : list LockRequest :=
  match l with
  | [] => []
  | r :: l' =>
      if (req_txn_id_ r =? txn_id) && granted_ r then l'
      else r :: erase_granted txn_id l'
  end.

(** [m[oid]] through [operator[]], which leaves an entry behind. *)
Definition touch (oid : Z) (m : gmap Z (gset RID)) : gmap Z (gset RID) :=
  match m !! oid with
  | Some _ => m
  | None => <[oid := ∅]> m
  end.

(** [LockManager::UnlockTable] *)
Definition UnlockTable (txn_id : Z) (oid : Z) (s : LockManager)
  : result exn LockManager bool :=
  match txn_map_ s !! txn_id with
  | None => Undefined
  | Some txn =>
      let t1 := with_row_sets txn (s_row_lock_set_ txn)
                              (touch oid (x_row_lock_set_ txn)) in
      if negb (bool_decide (row_set_at oid (x_row_lock_set_ txn) = ∅)) then
        Throw (TransactionAbortException txn_id
                 TABLE_UNLOCKED_BEFORE_UNLOCKING_ROWS)
              (with_txn (SetState ABORTED t1) s)
      else
        let t2 := with_row_sets t1 (touch oid (s_row_lock_set_ t1))
                                (x_row_lock_set_ t1) in
        if negb (bool_decide (row_set_at oid (s_row_lock_set_ txn) = ∅)) then
          Throw (TransactionAbortException txn_id
                   TABLE_UNLOCKED_BEFORE_UNLOCKING_ROWS)
                (with_txn (SetState ABORTED t2) s)
        else
          let '(q, s1) := GetLRQueuePtr_table oid s in
          match find_granted txn_id (request_queue_ q) with
          | Some r =>
              Ok true
                 (put_table_queue oid
                    (mkQueue (erase_granted txn_id (request_queue_ q))
                             (upgrading_ q))
                    (with_txn
                       (BookKeepingRemove_table (lock_mode_ r) oid
                          (UnLockChangeState (lock_mode_ r) t2)) s1))
          | None =>
              Throw (TransactionAbortException txn_id
                       ATTEMPTED_UNLOCK_BUT_NO_LOCK_HELD)
                    (with_txn (SetState ABORTED t2) s1)
          end
  end.

(** [LockManager::UnlockRow] *)
Definition UnlockRow (txn_id : Z) (oid : Z) (rid : RID) (s : LockManager)
  : result exn LockManager bool :=
  match txn_map_ s !! txn_id with
  | None => Undefined
  | Some txn =>
      let '(q, s1) := GetLRQueuePtr_row rid s in
      match find_granted txn_id (request_queue_ q) with
      | Some r =>
          Ok true
             (put_row_queue rid
                (mkQueue (erase_granted txn_id (request_queue_ q))
                         (upgrading_ q))
                (with_txn
                   (BookKeepingRemove_row (lock_mode_ r) oid rid
                      (UnLockChangeState (lock_mode_ r) txn)) s1))
      | None =>
          Throw (TransactionAbortException txn_id
                   ATTEMPTED_UNLOCK_BUT_NO_LOCK_HELD)
                (with_txn (SetState ABORTED txn) s1)
      end
  end.


(** *** Deadlock detection: the waits-for graph *)

(** [LockManager::AddEdge] *)
Definition AddEdge (t1 t2 : Z) (s : LockManager) : LockManager :=
  with_graph
    (<[t1 := {[t2]} ∪ default ∅ (waits_for_ s !! t1)]> (waits_for_ s))
    (<[t2 := 1]> (<[t1 := 1]> (txn_id_set_ s)))
    s.

(** [LockManager::RemoveEdge] *)
Definition RemoveEdge (t1 t2 : Z) (s : LockManager) : LockManager :=
  with_graph
    (<[t1 := default ∅ (waits_for_ s !! t1) ∖ {[t2]}]> (waits_for_ s))
    (txn_id_set_ s)
    s.

(** The condition under which the two loops of [RunCycleDetection] add
    an edge for a pair of requests of one queue. *)
Definition conflicting (first second : LockRequest) : bool :=
  ((granted_ first && negb (granted_ second))
   || (negb (granted_ first) && granted_ second))
  && negb (GrantCompatiable (lock_mode_ first) (lock_mode_ second)).

(** The inner loop over [iter_second] for a table queue. *)
Fixpoint table_edges_from (first : LockRequest) (rest : list LockRequest)
    (s : LockManager) : LockManager :=
  match rest with
  | [] => s
  | second :: rest' =>
      table_edges_from first rest'
        (if conflicting first second then
           if granted_ first
           then AddEdge (req_txn_id_ second) (req_txn_id_ first) s
           else AddEdge (req_txn_id_ first) (req_txn_id_ second) s
         else s)
  end.

(** The outer loop over [iter_first] for a table queue. *)
Fixpoint table_edges (l : list LockRequest) (s : LockManager) : LockManager :=
  match l with
  | [] => s
  | first :: rest => table_edges rest (table_edges_from first rest s)
  end.

(** The inner loop over [iter_second] for a row queue. *)
Fixpoint row_edges_from (first : LockRequest) (rest : list LockRequest)
    (s : LockManager) : LockManager :=
  match rest with
  | [] => s
  | second :: rest' =>
      row_edges_from first rest'
        (if conflicting first second then
           if granted_ first
           then AddEdge (req_txn_id_ first) (req_txn_id_ second) s
           else AddEdge (req_txn_id_ second) (req_txn_id_ first) s
         else s)
  end.

(** The outer loop over [iter_first] for a row queue. *)
Fixpoint row_edges (l : list LockRequest) (s : LockManager) : LockManager :=
  match l with
  | [] => s
  | first :: rest => row_edges rest (row_edges_from first rest s)
  end.

(** Step 2 of [LockManager::RunCycleDetection]: the edges of every table
    queue, then of every row queue, are added to [waits_for_]. *)
Definition build_waits_for (s : LockManager) : LockManager :=
  let s1 :=
    foldr (fun '(_, q) acc => table_edges (request_queue_ q) acc) s
          (map_to_list (table_lock_map_ s)) in
  foldr (fun '(_, q) acc => row_edges (request_queue_ q) acc) s1
        (map_to_list (row_lock_map_ s)).

(** An edge of the waits-for graph. *)
Definition has_edge (s : LockManager) (t1 t2 : Z) : Prop :=
  exists ts, waits_for_ s !! t1 = Some ts /\ t2 ∈ ts.

(** *** The lock manager and its client threads *)

(** Every transaction is run by one thread; [threads] records the
    threads that are inside a lock call, and where. *)
Inductive pc := PcAtLoop (w : wait_point) | PcWaiting (w : wait_point).

Record System := mkSystem {
  lm : LockManager;
  threads : gmap Z pc
}.

Definition after_call (t : Z) (p : progress) (th : gmap Z pc) : gmap Z pc :=
  match p with
  | Returned _ => delete t th
  | AtLoop w => <[t := PcAtLoop w]> th
  | Waiting w => <[t := PcWaiting w]> th
  end.

(** The outcome of a call, seen by the system: exceptions propagate to
    the caller, whose thread is then outside the lock manager. *)
Definition settle (t : Z) (th : gmap Z pc)
    (r : result exn LockManager progress) (sys' : System) : Prop :=
  match r with
  | Ok p s' => sys' = mkSystem s' (after_call t p th)
  | Throw _ s' => sys' = mkSystem s' (delete t th)
  | _ => False
  end.

Definition settle_bool (t : Z) (th : gmap Z pc)
    (r : result exn LockManager bool) (sys' : System) : Prop :=
  match r with
  | Ok _ s' => sys' = mkSystem s' th
  | Throw _ s' => sys' = mkSystem s' th
  | _ => False
  end.

Inductive step : System -> System -> Prop :=
| step_lock_table sys t m oid sys' :
    threads sys !! t = None ->
    settle t (threads sys) (LockTable t m oid (lm sys)) sys' ->
    step sys sys'
| step_lock_row sys t m oid rid sys' :
    threads sys !! t = None ->
    settle t (threads sys) (LockRow t m oid rid (lm sys)) sys' ->
    step sys sys'
| step_condition sys t w sys' :
    threads sys !! t = Some (PcAtLoop w) ->
    settle t (threads sys) (loop_condition w t (lm sys)) sys' ->
    step sys sys'
| step_wake sys t w sys' :
    threads sys !! t = Some (PcWaiting w) ->
    settle t (threads sys) (loop_wake w t (lm sys)) sys' ->
    step sys sys'
| step_unlock_table sys t oid sys' :
    threads sys !! t = None ->
    settle_bool t (threads sys) (UnlockTable t oid (lm sys)) sys' ->
    step sys sys'
| step_unlock_row sys t oid rid sys' :
    threads sys !! t = None ->
    settle_bool t (threads sys) (UnlockRow t oid rid (lm sys)) sys' ->
    step sys sys'
  (** Everything else that happens to the shared state leaves the
      queues alone: the deadlock detector rebuilds the graph and marks
      victims as aborted, the transaction manager begins, commits and
      aborts transactions. *)
| step_environment sys s' :
    table_lock_map_ s' = table_lock_map_ (lm sys) ->
    row_lock_map_ s' = row_lock_map_ (lm sys) ->
    (forall t txn, txn_map_ s' !! t = Some txn -> txn_id_ txn = t) ->
    step sys (mkSystem s' (threads sys)).

Definition initial : System := mkSystem (mkLM ∅ ∅ ∅ ∅ ∅) ∅.

Inductive reachable : System -> Prop :=
| reachable_initial : reachable initial
| reachable_step sys sys' : reachable sys -> step sys sys' -> reachable sys'.

(** The compatibility matrix of the specification (rows: requested,
    columns: held). *)
Definition compatible (requested held : LockMode) : bool :=
  match requested, held with
  | INTENTION_SHARED, EXCLUSIVE => false
  | INTENTION_SHARED, _ => true
  | INTENTION_EXCLUSIVE, (INTENTION_SHARED | INTENTION_EXCLUSIVE) => true
  | INTENTION_EXCLUSIVE, _ => false
  | SHARED, (INTENTION_SHARED | SHARED) => true
  | SHARED, _ => false
  | SHARED_INTENTION_EXCLUSIVE, INTENTION_SHARED => true
  | SHARED_INTENTION_EXCLUSIVE, _ => false
  | EXCLUSIVE, _ => false
  end.

(** No two granted requests of a queue conflict. *)
Definition granted_compatible (q : LockRequestQueue) : Prop :=
  forall i j r1 r2,
    i <> j ->
    request_queue_ q !! i = Some r1 -> request_queue_ q !! j = Some r2 ->
    granted_ r1 = true -> granted_ r2 = true ->
    compatible (lock_mode_ r1) (lock_mode_ r2) = true.

(** *** The invariant of the queues

    Besides the compatibility of the granted requests, a queue holds at
    most one request per transaction, and the request of a thread that
    is inside a lock call carries the mode the call asks for. *)

Definition mode_of (w : wait_point) : LockMode :=
  match w with
  | InLockTable m _ | InLockRow m _ _ | InLockRowShrinking m _ _ => m
  end.

Definition queue_of (s : LockManager) (w : wait_point)
  : option LockRequestQueue :=
  match w with
  | InLockTable _ oid | InLockRowShrinking _ oid _ => table_lock_map_ s !! oid
  | InLockRow _ _ rid => row_lock_map_ s !! rid
  end.

Definition wait_point_of (p : pc) : wait_point :=
  match p with PcAtLoop w | PcWaiting w => w end.

Definition granted_modes (l : list LockRequest) : list LockMode :=
  lock_mode_ <$> granted_requests l.

Definition compat (a b : LockMode) : Prop := GrantCompatiable a b = true.

Definition queue_ok (q : LockRequestQueue) : Prop :=
  StronglySorted compat (granted_modes (request_queue_ q)) /\
  NoDup (req_txn_id_ <$> request_queue_ q).

(** What never changes about a request once it is queued. *)
Definition request_key (r : LockRequest) : Z * LockMode :=
  (req_txn_id_ r, lock_mode_ r).

Definition request_of (t : Z) (m : LockMode) (q : LockRequestQueue) : Prop :=
  forall r, r ∈ request_queue_ q -> req_txn_id_ r = t -> lock_mode_ r = m.

Definition txns_ok (s : LockManager) : Prop :=
  forall t txn, txn_map_ s !! t = Some txn -> txn_id_ txn = t.

Record invariant (sys : System) : Prop := mkInvariant {
  inv_table : forall oid q,
    table_lock_map_ (lm sys) !! oid = Some q -> queue_ok q;
  inv_row : forall rid q,
    row_lock_map_ (lm sys) !! rid = Some q -> queue_ok q;
  inv_txns : txns_ok (lm sys);
  inv_threads : forall t p q,
    threads sys !! t = Some p ->
    queue_of (lm sys) (wait_point_of p) = Some q ->
    request_of t (mode_of (wait_point_of p)) q
}.

(** The footprint of a call that works on one table queue, or on one
    row queue. *)
Definition table_effect (s s' : LockManager) (oid : Z) (q' : LockRequestQueue)
  : Prop :=
  table_lock_map_ s' = <[oid := q']> (table_lock_map_ s) /\
  row_lock_map_ s' = row_lock_map_ s /\
  (txns_ok s -> txns_ok s').

Definition row_effect (s s' : LockManager) (rid : RID) (q' : LockRequestQueue)
  : Prop :=
  row_lock_map_ s' = <[rid := q']> (row_lock_map_ s) /\
  table_lock_map_ s' = table_lock_map_ s /\
  (txns_ok s -> txns_ok s').

Definition table_queue (s : LockManager) (oid : Z) : LockRequestQueue :=
  default empty_queue (table_lock_map_ s !! oid).

Definition row_queue (s : LockManager) (rid : RID) : LockRequestQueue :=
  default empty_queue (row_lock_map_ s !! rid).

(** A queue whose requests, except those of [t], were already in [q]
    with the same transaction and mode. *)
Definition others_from (t : Z) (q q' : LockRequestQueue) : Prop :=
  forall r', r' ∈ request_queue_ q' -> req_txn_id_ r' <> t ->
    exists r, r ∈ request_queue_ q /\ request_key r = request_key r'.

(** *** Admission

    A transaction in state SHRINKING under READ_UNCOMMITTED, and a lock
    manager that knows one transaction. *)

Definition shrinking_ru : Transaction :=
  mkTxn 1 SHRINKING READ_UNCOMMITTED ∅ ∅ ∅ ∅ ∅ ∅ ∅.

Definition one_txn (t : Transaction) : LockManager :=
  mkLM ∅ ∅ ∅ ∅ {[txn_id_ t := t]}.

(** A call is admitted when it gets as far as queueing its request. *)
Definition admitted (r : result exn LockManager progress) : Prop :=
  exists p s, r = Ok p s.

(** *** Waiting behind a granted request

    [t1] has a request that is not granted and [t2] a granted request in
    the same queue, and the two modes conflict. *)
Definition waits_behind (l : list LockRequest) (t1 t2 : Z) : Prop :=
  exists r1 r2,
    r1 ∈ l /\ r2 ∈ l /\
    granted_ r1 = false /\ granted_ r2 = true /\
    GrantCompatiable (lock_mode_ r1) (lock_mode_ r2) = false /\
    req_txn_id_ r1 = t1 /\ req_txn_id_ r2 = t2.

(** A queue in which transaction 1 holds X and transaction 2 waits for
    X, as the queue of row (0,0) and as the queue of table 0. *)
Definition blocked_queue : LockRequestQueue :=
  mkQueue [mkRequest 1 EXCLUSIVE 0 (Some (0, 0)) true;
           mkRequest 2 EXCLUSIVE 0 (Some (0, 0)) false] INVALID_TXN_ID.

Definition blocked_on_row : LockManager :=
  mkLM ∅ {[(0, 0) := blocked_queue]} ∅ ∅ ∅.

Definition blocked_on_table : LockManager :=
  mkLM {[0 := blocked_queue]} ∅ ∅ ∅ ∅.

(** *** A run with two readers and a writer

    Transactions 1 and 2 take table 0 in mode S and are granted;
    transaction 3 asks for X and waits. *)

Definition begin_txn (t : Z) : Transaction :=
  mkTxn t GROWING REPEATABLE_READ ∅ ∅ ∅ ∅ ∅ ∅ ∅.

Definition next_system (t : Z) (r : result exn LockManager progress)
    (sys : System) : System :=
  match r with
  | Ok p s' => mkSystem s' (after_call t p (threads sys))
  | Throw _ s' => mkSystem s' (delete t (threads sys))
  | _ => sys
  end.

Definition lock_table_call (t : Z) (m : LockMode) (oid : Z) (sys : System)
  : System :=
  let sys1 := next_system t (LockTable t m oid (lm sys)) sys in
  next_system t (loop_condition (InLockTable m oid) t (lm sys1)) sys1.

Definition readers_and_writer : System :=
  lock_table_call 3 EXCLUSIVE 0
    (lock_table_call 2 SHARED 0
       (lock_table_call 1 SHARED 0
          (mkSystem
             (mkLM ∅ ∅ ∅ ∅
                   {[1 := begin_txn 1; 2 := begin_txn 2; 3 := begin_txn 3]})
             ∅))).

(** The queues of a wait point that sit in the table map. *)
Definition on_table (w : wait_point) (oid : Z) : Prop :=
  match w with
  | InLockTable _ oid' | InLockRowShrinking _ oid' _ => oid' = oid
  | InLockRow _ _ _ => False
  end.

End LockManager.
(** * Extendible hash table
      ([src/container/hash/extendible_hash_table.cpp], which the sources
       keep in the file
       [src/bustub/src/buffer/buffer_pool_manager_instance.cpp]) *)

Module HashTable.

(** The table throws nothing. *)
Definition exn := Empty_set.

Section WithHash.

Context {K V : Type} `{EqDecision K}.

(** [std::hash<K>()(key)], a [size_t]. *)
Variable hash : K -> Z.

Record Bucket := mkBucket {
  size_ : Z;
  depth_ : Z;
  list_ : list (K * V)
}.

(** The directory holds [shared_ptr]s: several slots may designate one
    bucket.  Buckets live in a store, the directory holds addresses. *)
Record ExtendibleHashTable := mkTable {
  global_depth_ : Z;
  bucket_size_ : Z;
  num_buckets_ : Z;
  dir_ : list nat;
  buckets : gmap nat Bucket;
  next_bucket : nat
}.

(** Modelled from the spec: [Bucket::IsFull] is defined in the header,
    which is not part of the sources; a bucket holds up to [size_]
    entries. *)
Definition IsFull (b : Bucket) : bool := Z.of_nat (length (list_ b)) =? size_ b.

(** [Bucket::Find] *)
Fixpoint Bucket_Find (key : K) (l : list (K * V)) : option V :=
  match l with
  | [] => None
  | (k, v) :: l' => if decide (k = key) then Some v else Bucket_Find key l'
  end.

(** [Bucket::Remove]: the first entry with the key is erased. *)
Fixpoint Bucket_Remove (key : K) (l : list (K * V)) : bool * list (K * V) :=
  match l with
  | [] => (false, [])
  | (k, v) :: l' =>
      if decide (k = key) then (true, l')
      else let '(b, l'') := Bucket_Remove key l' in (b, (k, v) :: l'')
  end.

(** The first loop of [Bucket::Insert]: overwrite the value of an entry
    with the key. *)
Fixpoint overwrite (key : K) (value : V) (l : list (K * V))
  : option (list (K * V)) :=
  match l with
  | [] => None
  | (k, v) :: l' =>
      if decide (k = key) then Some ((k, value) :: l')
      else option_map (cons (k, v)) (overwrite key value l')
  end.

(** [Bucket::Insert] *)
Definition Bucket_Insert (key : K) (value : V) (b : Bucket) : bool * Bucket :=
  match overwrite key value (list_ b) with
  | Some l' => (true, mkBucket (size_ b) (depth_ b) l')
  | None =>
      if negb (IsFull b)
      then (true, mkBucket (size_ b) (depth_ b) (list_ b ++ [(key, value)]))
      else (false, b)
  end.

(** [1 << d] on [int].  For [d = 31] the result is not representable
    (and the code goes on to subtract 1 from it), for larger [d] the
    shift itself is undefined. *)
Definition shl1 (d : Z) : option Z :=
  if (0 <=? d) && (d <=? 30) then Some (2 ^ d) else None.

(** [ExtendibleHashTable::ExtendibleHashTable(bucket_size)] *)
Definition make (bucket_size : Z) : ExtendibleHashTable :=
  mkTable 0 bucket_size 1 [0%nat] {[0%nat := mkBucket bucket_size 0 []]} 1.

(** [ExtendibleHashTable::IndexOf] *)
Definition IndexOf (key : K) (t : ExtendibleHashTable) : option Z :=
  match shl1 (global_depth_ t) with
  | Some p => Some (Z.land (hash key) (p - 1))
  | None => None
  end.

(** [dir_[index]], dereferenced. *)
Definition bucket_at (index : Z) (t : ExtendibleHashTable)
  : option (nat * Bucket) :=
  if index <? 0 then None
  else
    match dir_ t !! Z.to_nat index with
    | Some a =>
        match buckets t !! a with
        | Some b => Some (a, b)
        | None => None
        end
    | None => None
    end.

(** [ExtendibleHashTable::Find] *)
Definition Find (key : K) (t : ExtendibleHashTable)
  : result exn ExtendibleHashTable (option V) :=
  match IndexOf key t with
  | None => Undefined
  | Some index =>
      match bucket_at index t with
      | None => Undefined
      | Some (_, b) => Ok (Bucket_Find key (list_ b)) t
      end
  end.

Definition with_buckets (m : gmap nat Bucket) (t : ExtendibleHashTable) :=
  mkTable (global_depth_ t) (bucket_size_ t) (num_buckets_ t) (dir_ t) m
          (next_bucket t).

(** [ExtendibleHashTable::Remove] *)
Definition Remove (key : K) (t : ExtendibleHashTable)
  : result exn ExtendibleHashTable bool :=
  match IndexOf key t with
  | None => Undefined
  | Some index =>
      match bucket_at index t with
      | None => Undefined
      | Some (a, b) =>
          let '(found, l') := Bucket_Remove key (list_ b) in
          Ok found
             (with_buckets
                (<[a := mkBucket (size_ b) (depth_ b) l']> (buckets t)) t)
      end
  end.

(** The loop of [Insert] that moves the entries of the full bucket into
    the two new ones, by the bit of the hash that [local_mask] selects. *)
Fixpoint distribute (local_mask : Z) (items : list (K * V))
    (b0 b1 : Bucket) : Bucket * Bucket :=
  match items with
  | [] => (b0, b1)
  | (k, v) :: items' =>
      if Z.land (hash k) local_mask =? 0
      then distribute local_mask items' (Bucket_Insert k v b0).2 b1
      else distribute local_mask items' b0 (Bucket_Insert k v b1).2
  end.

(** The loop [for (i = hash & (local_mask - 1); i < dir_.size();
    i += local_mask)] that points the slots of the old bucket to the new
    ones.  The stride is positive, so [dir_.size()] rounds are enough;
    [n] counts them. *)
Fixpoint redirect (n : nat) (i local_mask : Z) (a0 a1 : nat)
    (dir : list nat) : list nat :=
  match n with
  | O => dir
  | S n' =>
      if i <? Z.of_nat (length dir) then
        redirect n' (i + local_mask) local_mask a0 a1
          (<[Z.to_nat i := if Z.land i local_mask =? 0 then a0 else a1]> dir)
      else dir
  end.

(** One round of the [while] loop of [Insert]: the bucket at [index] is
    full and is split. *)
Definition split (key : K) (b : Bucket) (t : ExtendibleHashTable)
  : option ExtendibleHashTable :=
  let local_depth := depth_ b in
  let '(dir1, global1) :=
    if local_depth =? global_depth_ t
    then (dir_ t ++ dir_ t, global_depth_ t + 1)
    else (dir_ t, global_depth_ t) in
  match shl1 local_depth with
  | None => None
  | Some local_mask =>
      let a0 := next_bucket t in
      let a1 := S (next_bucket t) in
      let '(b0, b1) :=
        distribute local_mask (list_ b)
          (mkBucket (bucket_size_ t) (local_depth + 1) [])
          (mkBucket (bucket_size_ t) (local_depth + 1) []) in
      let dir2 :=
        redirect (length dir1) (Z.land (hash key) (local_mask - 1))
                 local_mask a0 a1 dir1 in
      Some (mkTable global1 (bucket_size_ t) (num_buckets_ t) dir2
                    (<[a1 := b1]> (<[a0 := b0]> (buckets t)))
                    (S (S (next_bucket t))))
  end.

(** The [while (dir_[index]->IsFull())] loop of [Insert]; it returns
    the index of a bucket with room. *)
Fixpoint split_loop (fuel : nat) (key : K) (index : Z)
    (t : ExtendibleHashTable) : result exn ExtendibleHashTable Z :=
  match bucket_at index t with
  | None => Undefined
  | Some (_, b) =>
      if IsFull b then
        match fuel with
        | O => OutOfFuel
        | S fuel' =>
            match split key b t with
            | None => Undefined
            | Some t' =>
                match IndexOf key t' with
                | None => Undefined
                | Some index' => split_loop fuel' key index' t'
                end
            end
        end
      else Ok index t
  end.

Definition insert_at (index : Z) (key : K) (value : V)
    (t : ExtendibleHashTable) : result exn ExtendibleHashTable unit :=
  match bucket_at index t with
  | None => Undefined
  | Some (a, b) =>
      Ok tt (with_buckets
               (<[a := (Bucket_Insert key value b).2]> (buckets t)) t)
  end.

(** [ExtendibleHashTable::Insert] *)
Definition Insert (fuel : nat) (key : K) (value : V)
    (t : ExtendibleHashTable) : result exn ExtendibleHashTable unit :=
  match IndexOf key t with
  | None => Undefined
  | Some index =>
      match bucket_at index t with
      | None => Undefined
      | Some (_, b) =>
          match Bucket_Find key (list_ b) with
          | Some _ => insert_at index key value t
          | None =>
              bind (split_loop fuel key index t)
                   (fun index' t' => insert_at index' key value t')
          end
      end
  end.

(** A sequence of [Insert] calls. *)
Fixpoint insert_all (fuel : nat) (kvs : list (K * V))
    (t : ExtendibleHashTable) : result exn ExtendibleHashTable unit :=
  match kvs with
  | [] => Ok tt t
  | (k, v) :: kvs' =>
      bind (Insert fuel k v t) (fun _ t' => insert_all fuel kvs' t')
  end.

(** The value of the most recent insertion of a key in a sequence. *)
Fixpoint last_inserted (key : K) (kvs : list (K * V)) : option V :=
  match kvs with
  | [] => None
  | (k, v) :: kvs' =>
      match last_inserted key kvs' with
      | Some v' => Some v'
      | None => if decide (k = key) then Some v else None
      end
  end.

(** *** The invariant of the directory

    Slot [i] designates a bucket of local depth [d <= global_depth_]
    that holds keys whose hash agrees with [i] on the [d] low bits, and
    the slots that designate the same bucket are those that agree with
    [i] on these bits.  Keys are not repeated in a bucket. *)

Record slot_ok (t : ExtendibleHashTable) (i : Z) (a : nat) (b : Bucket)
  : Prop := mkSlotOk {
  slot_dir : dir_ t !! Z.to_nat i = Some a;
  slot_bucket : buckets t !! a = Some b;
  slot_depth : 0 <= depth_ b <= global_depth_ t;
  slot_size : size_ b = bucket_size_ t;
  slot_nodup : NoDup (fst <$> list_ b);
  slot_keys : forall k v,
    (k, v) ∈ list_ b -> hash k mod 2 ^ depth_ b = i mod 2 ^ depth_ b;
  slot_shared : forall j,
    0 <= j < 2 ^ global_depth_ t ->
    j mod 2 ^ depth_ b = i mod 2 ^ depth_ b ->
    dir_ t !! Z.to_nat j = Some a;
  slot_only : forall j,
    0 <= j < 2 ^ global_depth_ t ->
    dir_ t !! Z.to_nat j = Some a ->
    j mod 2 ^ depth_ b = i mod 2 ^ depth_ b
}.

Record wf (t : ExtendibleHashTable) : Prop := mkWf {
  wf_depth : 0 <= global_depth_ t <= 30;
  wf_length : length (dir_ t) = Z.to_nat (2 ^ global_depth_ t);
  wf_slots : forall i,
    0 <= i < 2 ^ global_depth_ t -> exists a b, slot_ok t i a b;
  wf_fresh : forall a, a ∈ dir_ t -> (a < next_bucket t)%nat
}.

(** The contents of the table, as [Find] reads them. *)
Definition lookup (t : ExtendibleHashTable) (key : K) : option V :=
  match bucket_at (hash key mod 2 ^ global_depth_ t) t with
  | Some (_, b) => Bucket_Find key (list_ b)
  | None => None
  end.

(** The keys of a sequence are told apart by the [d] low bits of their
    hashes. *)
Definition separated (d : Z) (keys : list K) : Prop :=
  forall k1 k2, k1 ∈ keys -> k2 ∈ keys ->
    hash k1 mod 2 ^ d = hash k2 mod 2 ^ d -> k1 = k2.

End WithHash.

End HashTable.
(** * Buffer pool manager
      ([src/bustub/src/buffer/buffer_pool_manager_instance.cpp]) *)

Module BufferPool.

Import Replacer.

(** Modelled from the spec: [common/config.h] is not part of the
    sources; the page id of a frame that holds no page is -1. *)
Definition INVALID_PAGE_ID : Z := -1.

Definition INT32_MIN : Z := - 2147483648.

Section WithParams.

(** The payload of a page; [zero_data] is what [ResetMemory] leaves. *)
Context {Data : Type}.
Variable zero_data : Data.

(** Parameters of the components: the initial [evictable_] of a
    replacer entry, [std::hash<page_id_t>], the [bucket_size_] constant
    of the header, and the budget of the page table's [while] loop. *)
Variable default_evictable : bool.
Variable hash : Z -> Z.
Variable bucket_size : Z.
Variable fuel : nat.

(** Modelled from the spec: the class [Page] (header [page.h]) is not
    part of the sources.  It carries the page identifier, the pin count
    (an [int]), the dirty flag and the payload. *)
Record Page := mkPage {
  page_id_ : Z;
  pin_count_ : Z;
  is_dirty_ : bool;
  data_ : Data
}.

Definition set_dirty (b : bool) (p : Page) : Page :=
  mkPage (page_id_ p) (pin_count_ p) b (data_ p).
Definition set_pin_count (n : Z) (p : Page) : Page :=
  mkPage (page_id_ p) n (is_dirty_ p) (data_ p).

(** A frame as the constructor of [Page] and [DeletePgImp] leave it. *)
Definition empty_page : Page := mkPage INVALID_PAGE_ID 0 false zero_data.

Record BufferPoolManagerInstance := mkBPM {
  pool_size_ : Z;
  pages_ : list Page;
  page_table_ : @HashTable.ExtendibleHashTable Z Z;
  replacer_ : LRUKReplacer;
  free_list_ : list Z;
  next_page_id_ : Z;
  (** Modelled from the spec: the disk adapter, as the pages written. *)
  disk_ : gmap Z Data
}.

Definition with_pages (ps : list Page) (s : BufferPoolManagerInstance) :=
  mkBPM (pool_size_ s) ps (page_table_ s) (replacer_ s) (free_list_ s)
        (next_page_id_ s) (disk_ s).
Definition with_page_table (t : @HashTable.ExtendibleHashTable Z Z)
    (s : BufferPoolManagerInstance) :=
  mkBPM (pool_size_ s) (pages_ s) t (replacer_ s) (free_list_ s)
        (next_page_id_ s) (disk_ s).
Definition with_replacer (r : LRUKReplacer) (s : BufferPoolManagerInstance) :=
  mkBPM (pool_size_ s) (pages_ s) (page_table_ s) r (free_list_ s)
        (next_page_id_ s) (disk_ s).
Definition with_free_list (l : list Z) (s : BufferPoolManagerInstance) :=
  mkBPM (pool_size_ s) (pages_ s) (page_table_ s) (replacer_ s) l
        (next_page_id_ s) (disk_ s).
Definition with_next_page_id (n : Z) (s : BufferPoolManagerInstance) :=
  mkBPM (pool_size_ s) (pages_ s) (page_table_ s) (replacer_ s)
        (free_list_ s) n (disk_ s).

(** [disk_manager_->WritePage] and [ReadPage]; a page never written
    reads as zeroes. *)
Definition WritePage (page_id : Z) (d : Data)
    (s : BufferPoolManagerInstance) :=
  mkBPM (pool_size_ s) (pages_ s) (page_table_ s) (replacer_ s)
        (free_list_ s) (next_page_id_ s) (<[page_id := d]> (disk_ s)).
Definition ReadPage (page_id : Z) (s : BufferPoolManagerInstance) : Data :=
  default zero_data (disk_ s !! page_id).

(** [pages_[frame_id]]; an index outside the array is undefined. *)
Definition frame (frame_id : Z) (s : BufferPoolManagerInstance)
  : option Page :=
  if frame_id <? 0 then None else pages_ s !! Z.to_nat frame_id.
Definition set_frame (frame_id : Z) (p : Page)
    (s : BufferPoolManagerInstance) :=
  with_pages (<[Z.to_nat frame_id := p]> (pages_ s)) s.

(** Calls on the replacer and on the page table, seen from the pool. *)
Definition on_replacer {A} (m : result exn LRUKReplacer A)
    (s : BufferPoolManagerInstance)
  : result exn BufferPoolManagerInstance A :=
  match m with
  | Ok a r => Ok a (with_replacer r s)
  | Throw e r => Throw e (with_replacer r s)
  | Undefined => Undefined
  | OutOfFuel => OutOfFuel
  end.

Definition on_page_table {A}
    (m : result HashTable.exn (@HashTable.ExtendibleHashTable Z Z) A)
    (s : BufferPoolManagerInstance)
  : result exn BufferPoolManagerInstance A :=
  match m with
  | Ok a t => Ok a (with_page_table t s)
  | Throw e _ => match e with end
  | Undefined => Undefined
  | OutOfFuel => OutOfFuel
  end.

(** The constructor: every frame is on the free list. *)
Definition make (pool_size replacer_k : Z) : BufferPoolManagerInstance :=
  mkBPM pool_size
        (replicate (Z.to_nat pool_size) empty_page)
        (HashTable.make bucket_size)
        (Replacer.make pool_size replacer_k)
        ((fun i => to_int32 (Z.of_nat i)) <$> seq 0 (Z.to_nat pool_size))
        0
        ∅.

(** [GetAvailableFrame] *)
Definition GetAvailableFrame (s : BufferPoolManagerInstance)
  : result exn BufferPoolManagerInstance (option Z) :=
  match free_list_ s with
  | f :: rest => Ok (Some f) (with_free_list rest s)
  | [] =>
      bind (on_replacer (Evict default_evictable (replacer_ s)) s)
        (fun v s1 =>
           match v with
           | Some f =>
               match frame f s1 with
               | None => Undefined
               | Some p =>
                   let s2 :=
                     if is_dirty_ p
                     then WritePage (page_id_ p) (data_ p) s1 else s1 in
                   bind (on_page_table
                           (HashTable.Remove hash (page_id_ p)
                                             (page_table_ s2)) s2)
                        (fun _ s3 => Ok (Some f) s3)
               end
           | None => Ok None s1
           end)
  end.

(** [AllocatePage]: [next_page_id_++].  Modelled from the spec: the
    counter is declared in the header; page ids are allocated in
    increasing order, and the counter is atomic, so that its increment
    wraps. *)
Definition AllocatePage (s : BufferPoolManagerInstance)
  : Z * BufferPoolManagerInstance :=
  (next_page_id_ s, with_next_page_id (to_int32 (next_page_id_ s + 1)) s).

(** The steps that [NewPgImp] and [FetchPgImp] share once a frame is
    available: the fields of the page are set, the page is entered in
    the page table, the access is recorded and the frame is made
    non-evictable. *)
Definition install (frame_id page_id : Z) (d : Data)
    (s : BufferPoolManagerInstance)
  : result exn BufferPoolManagerInstance unit :=
  match frame frame_id s with
  | None => Undefined
  | Some _ =>
      let s1 := set_frame frame_id (mkPage page_id 1 false d) s in
      bind (on_page_table
              (HashTable.Insert hash fuel page_id frame_id (page_table_ s1))
              s1)
        (fun _ s2 =>
           bind (on_replacer
                   (RecordAccess default_evictable frame_id (replacer_ s2))
                   s2)
             (fun _ s3 =>
                on_replacer (SetEvictable frame_id false (replacer_ s3)) s3))
  end.

(** [NewPgImp]: [Some (page_id, frame_id)] stands for [*page_id] and
    the returned [&pages_[frame_id]], [None] for [nullptr]. *)
Definition NewPgImp (s : BufferPoolManagerInstance)
  : result exn BufferPoolManagerInstance (option (Z * Z)) :=
  bind (GetAvailableFrame s)
    (fun v s1 =>
       match v with
       | Some frame_id =>
           let '(page_id, s2) := AllocatePage s1 in
           bind (install frame_id page_id zero_data s2)
                (fun _ s3 => Ok (Some (page_id, frame_id)) s3)
       | None => Ok None s1
       end).

(** [FetchPgImp] *)
Definition FetchPgImp (page_id : Z) (s : BufferPoolManagerInstance)
  : result exn BufferPoolManagerInstance (option Z) :=
  bind (on_page_table (HashTable.Find hash page_id (page_table_ s)) s)
    (fun v s1 =>
       match v with
       | Some frame_id =>
           match frame frame_id s1 with
           | None => Undefined
           | Some p =>
               if pin_count_ p =? INT32_MAX then Undefined
               else
                 let s2 :=
                   set_frame frame_id (set_pin_count (pin_count_ p + 1) p)
                             s1 in
                 bind (on_replacer
                         (RecordAccess default_evictable frame_id
                                       (replacer_ s2)) s2)
                   (fun _ s3 =>
                      bind (on_replacer
                              (SetEvictable frame_id false (replacer_ s3))
                              s3)
                        (fun _ s4 => Ok (Some frame_id) s4))
           end
       | None =>
           bind (GetAvailableFrame s1)
             (fun v' s2 =>
                match v' with
                | Some frame_id =>
                    bind (install frame_id page_id (ReadPage page_id s2) s2)
                         (fun _ s3 => Ok (Some frame_id) s3)
                | None => Ok None s2
                end)
       end).

(** [UnpinPgImp] *)
Definition UnpinPgImp (page_id : Z) (is_dirty : bool)
    (s : BufferPoolManagerInstance)
  : result exn BufferPoolManagerInstance bool :=
  bind (on_page_table (HashTable.Find hash page_id (page_table_ s)) s)
    (fun v s1 =>
       match v with
       | None => Ok false s1
       | Some frame_id =>
           match frame frame_id s1 with
           | None => Undefined
           | Some p =>
               let p1 := if is_dirty then set_dirty true p else p in
               let s2 := set_frame frame_id p1 s1 in
               if negb (pin_count_ p1 =? 0) then
                 if pin_count_ p1 =? INT32_MIN then Undefined
                 else
                   let p2 := set_pin_count (pin_count_ p1 - 1) p1 in
                   let s3 := set_frame frame_id p2 s2 in
                   if pin_count_ p2 =? 0 then
                     bind (on_replacer
                             (SetEvictable frame_id true (replacer_ s3)) s3)
                          (fun _ s4 => Ok true s4)
                   else Ok true s3
               else Ok false s2
           end
       end).

(** The body shared by [FlushPgImp] and the loop of [FlushAllPgsImp]:
    the page is looked up, written, and its dirty flag cleared. *)
Definition flush (page_id : Z) (s : BufferPoolManagerInstance)
  : result exn BufferPoolManagerInstance bool :=
  bind (on_page_table (HashTable.Find hash page_id (page_table_ s)) s)
    (fun v s1 =>
       match v with
       | Some frame_id =>
           match frame frame_id s1 with
           | None => Undefined
           | Some p =>
               Ok true (set_frame frame_id (set_dirty false p)
                          (WritePage page_id (data_ p) s1))
           end
       | None => Ok false s1
       end).

(** [FlushPgImp] *)
Definition FlushPgImp (page_id : Z) (s : BufferPoolManagerInstance)
  : result exn BufferPoolManagerInstance bool :=
  flush page_id s.

(** [FlushAllPgsImp]: the loop over [i = 0 .. pool_size_ - 1]. *)
Fixpoint flush_from (frames : list nat) (s : BufferPoolManagerInstance)
  : result exn BufferPoolManagerInstance unit :=
  match frames with
  | [] => Ok tt s
  | i :: frames' =>
      match pages_ s !! i with
      | None => Undefined
      | Some p =>
          bind (flush (page_id_ p) s) (fun _ s1 => flush_from frames' s1)
      end
  end.

Definition FlushAllPgsImp (s : BufferPoolManagerInstance)
  : result exn BufferPoolManagerInstance unit :=
  flush_from (seq 0 (Z.to_nat (pool_size_ s))) s.

(** [DeletePgImp].  [DeallocatePage] is declared in the header and
    keeps no state. *)
Definition DeletePgImp (page_id : Z) (s : BufferPoolManagerInstance)
  : result exn BufferPoolManagerInstance bool :=
  bind (on_page_table (HashTable.Find hash page_id (page_table_ s)) s)
    (fun v s1 =>
       match v with
       | None => Ok true s1
       | Some frame_id =>
           match frame frame_id s1 with
           | None => Undefined
           | Some p =>
               if 0 <? pin_count_ p then Ok false s1
               else
                 bind (on_page_table
                         (HashTable.Remove hash page_id (page_table_ s1)) s1)
                   (fun _ s2 =>
                      bind (on_replacer (Remove frame_id (replacer_ s2)) s2)
                        (fun _ s3 =>
                           let s4 :=
                             with_free_list (free_list_ s3 ++ [frame_id]) s3
                           in
                           Ok true (set_frame frame_id empty_page s4)))
           end
       end).

(** *** Histories of calls *)

Inductive op :=
| new_page
| fetch_page (page_id : Z)
| unpin (page_id : Z) (is_dirty : bool)
| flush_page (page_id : Z)
| flush_all
| delete_page (page_id : Z).

Definition step (o : op) (s : BufferPoolManagerInstance)
  : result exn BufferPoolManagerInstance unit :=
  match o with
  | new_page => bind (NewPgImp s) (fun _ s' => Ok tt s')
  | fetch_page p => bind (FetchPgImp p s) (fun _ s' => Ok tt s')
  | unpin p d => bind (UnpinPgImp p d s) (fun _ s' => Ok tt s')
  | flush_page p => bind (FlushPgImp p s) (fun _ s' => Ok tt s')
  | flush_all => FlushAllPgsImp s
  | delete_page p => bind (DeletePgImp p s) (fun _ s' => Ok tt s')
  end.

Fixpoint run (ops : list op) (s : BufferPoolManagerInstance)
  : result exn BufferPoolManagerInstance unit :=
  match ops with
  | [] => Ok tt s
  | o :: ops' => bind (step o s) (fun _ s' => run ops' s')
  end.

(** *** Frames

    A frame is free when it is on the free list and resident
    otherwise. *)
Definition resident (s : BufferPoolManagerInstance) (f : Z) : Prop :=
  0 <= f < pool_size_ s /\ f ∉ free_list_ s.

(** The page id under which the page table finds a frame. *)
Definition mapped (s : BufferPoolManagerInstance) (page_id f : Z) : Prop :=
  HashTable.lookup hash (page_table_ s) page_id = Some f.

(** The invariant of the pool after [n] calls.  Between the moment
    [GetAvailableFrame] hands out a frame and the moment the frame
    holds its new page, the frame is resident but belongs to no page:
    [skip] names this frame. *)
Record invariant_but (skip : option Z) (n : Z)
    (s : BufferPoolManagerInstance) : Prop := mkInv {
  inv_pool : 0 <= pool_size_ s <= INT32_MAX;
  inv_pages : length (pages_ s) = Z.to_nat (pool_size_ s);
  inv_table : HashTable.wf hash (page_table_ s);
  inv_replacer : exists g, wf (replacer_ s) g /\ clock g <= n;
  inv_size : replacer_size_ (replacer_ s) = pool_size_ s;
  inv_free : NoDup (free_list_ s);
  inv_free_range : forall f, f ∈ free_list_ s -> 0 <= f < pool_size_ s;
  inv_entry : forall f e,
    entries_ (replacer_ s) !! f = Some e -> resident s f /\ skip <> Some f;
  inv_resident : forall f,
    resident s f -> skip <> Some f ->
    exists p e, frame f s = Some p /\
                entries_ (replacer_ s) !! f = Some e /\
                (evictable_ e = true <-> pin_count_ p = 0) /\
                0 <= pin_count_ p;
  inv_mapped : forall page_id f,
    mapped s page_id f ->
    resident s f /\ skip <> Some f /\
    exists p, frame f s = Some p /\ page_id_ p = page_id;
  inv_skip : forall f, skip = Some f -> resident s f
}.

Definition invariant := invariant_but None.

(** The reading of [unpin] under which a refused call changes nothing:
    when the page is not in the page table, or is there with no pin,
    [UnpinPgImp] returns [false] and leaves the pool as it was. *)
Definition unpin_refusal_keeps_state (s : BufferPoolManagerInstance)
  : Prop :=
  forall page_id is_dirty,
    (HashTable.lookup hash (page_table_ s) page_id = None \/
     exists f p, mapped s page_id f /\ frame f s = Some p /\
                 pin_count_ p = 0) ->
    UnpinPgImp page_id is_dirty s = Ok false s.

End WithParams.

End BufferPool.
(** * B+ tree index
      ([src/storage/index/b_plus_tree.cpp] and
       [src/storage/page/b_plus_tree_page.cpp], both in the file
       [src/bustub/src/storage/page/b_plus_tree_page.cpp];
       [src/storage/page/b_plus_tree_leaf_page.cpp] and
       [src/storage/page/b_plus_tree_internal_page.cpp], both in the file
       [src/bustub/src/storage/page/b_plus_tree_leaf_page.cpp])

    Calls run one at a time: the latches ([root_latch_], [WLatch],
    [RLatch]) guard against other threads and are left out.  The pages
    that a call has latched are still recorded in the page set of the
    transaction, as in the source. *)

Module BPlusTree.

(** [Exception(ExceptionType::OUT_OF_MEMORY, ...)] and
    [std::logic_error]. *)
Inductive exn := OUT_OF_MEMORY | logic_error.

Inductive Operation := SEARCH | INSERT | DELETE.

#[global] Instance Operation_eq_dec : EqDecision Operation.
Proof. solve_decision. Defined.

Definition INVALID_PAGE_ID : Z := -1.
Definition HEADER_PAGE_ID : Z := 0.

Section WithKeys.

Context {K V : Type}.

(** [comparator_]: negative, zero or positive. *)
Variable comparator : K -> K -> Z.

(** A slot of a page that was never written holds zero bytes. *)
Variable zero_key : K.
Variable zero_value : V.

(** The fields of [BPlusTreePage] that the code reads. *)
Record BPlusTreePage := mkPage {
  size_ : Z;
  max_size_ : Z;
  parent_page_id_ : Z;
  page_id_ : Z
}.

(** The data of a page, by [page_type_].  The array of a tree page is
    the sequence of slots that have been written; [size_] says how many
    of them are in use.  [HeaderPage] is the page with id 0, which keeps
    the root page id of the index ([header_page.h] is not part of the
    sources).  [Blank] is a page of zero bytes, as [NewPage] returns
    it. *)
Inductive Node :=
| LeafPage (h : BPlusTreePage) (next_page_id_ : Z) (array_ : list (K * V))
| InternalPage (h : BPlusTreePage) (array_ : list (K * Z))
| HeaderPage (root : option Z)
| Blank.

(** Modelled from the spec: the tree reaches the buffer pool through
    the interface [BufferPoolManager] ([buffer_pool_manager.h] is not
    part of the sources), which [BufferPoolManagerInstance] implements.
    The tree knows the pages by their page ids, so the pool is kept as
    the pages it serves, each with its pin count, dirty flag and data,
    together with the number of its frames.  A pinned page occupies a
    frame.  [FetchPgImp] for a page that is in no frame and [NewPgImp]
    call [GetAvailableFrame], which fails when the free list is empty
    and the replacer has no frame to evict, that is, when every frame
    holds a pinned page; they return [nullptr] then.  A page without a
    pin is in a frame that is not pinned, or needs one. *)
Record Frame := mkFrame {
  pin_count_ : Z;
  is_dirty_ : bool;
  data_ : Node
}.

(** Modelled from the spec: the part of [Transaction]
    ([concurrency/transaction.h]) that the tree uses, the deque of
    latched pages ([None] stands for [nullptr], the mark of the root
    latch) and the set of pages to delete. *)
Record Transaction := mkTransaction {
  page_set_ : list (option Z);
  deleted_page_set_ : gset Z
}.

(** The tree, the pool it works on ([pool_size_] frames, the pages
    [frames] and the counter of page ids) and the transaction object
    that a non-null [Transaction *] argument designates. *)
Record BPlusTree := mkTree {
  root_page_id_ : Z;
  leaf_max_size_ : Z;
  internal_max_size_ : Z;
  pool_size_ : Z;
  frames : gmap Z Frame;
  next_page_id : Z;
  txn : Transaction
}.

Definition with_root (r : Z) (t : BPlusTree) : BPlusTree :=
  mkTree r (leaf_max_size_ t) (internal_max_size_ t) (pool_size_ t)
         (frames t) (next_page_id t) (txn t).
Definition with_frames (m : gmap Z Frame) (t : BPlusTree) : BPlusTree :=
  mkTree (root_page_id_ t) (leaf_max_size_ t) (internal_max_size_ t)
         (pool_size_ t) m (next_page_id t) (txn t).
Definition with_txn (x : Transaction) (t : BPlusTree) : BPlusTree :=
  mkTree (root_page_id_ t) (leaf_max_size_ t) (internal_max_size_ t)
         (pool_size_ t) (frames t) (next_page_id t) x.

(** ** Calls as state transformers *)

Definition M (A : Type) : Type := BPlusTree -> result exn BPlusTree A.

Definition ret {A} (a : A) : M A := fun t => Ok a t.
Definition bindM {A B} (m : M A) (f : A -> M B) : M B :=
  fun t => bind (m t) f.
Definition throw {A} (e : exn) : M A := fun t => Throw e t.
Definition undefined {A} : M A := fun _ => Undefined.
Definition out_of_fuel {A} : M A := fun _ => OutOfFuel.
Definition gets {A} (f : BPlusTree -> A) : M A := fun t => Ok (f t) t.
Definition modify (f : BPlusTree -> BPlusTree) : M unit :=
  fun t => Ok tt (f t).

Notation "'let*' x ':=' m 'in' k" := (bindM m (fun x => k))
  (at level 10, x pattern, m at level 100, k at level 200).
Notation "m ';;' k" := (bindM m (fun _ => k))
  (at level 100, k at level 200, right associativity).

(** ** The buffer pool *)

(** The pages that are pinned, and the number of frames they occupy. *)
Definition pinned_pages (t : BPlusTree) : gset Z :=
  dom (filter (fun x : Z * Frame => 0 < pin_count_ x.2) (frames t)).
Definition pinned_frames (t : BPlusTree) : Z :=
  Z.of_nat (size (pinned_pages t)).

(** [GetAvailableFrame] finds a frame: one is free or holds a page
    without a pin. *)
Definition frame_available (t : BPlusTree) : bool :=
  pinned_frames t <? pool_size_ t.

(** [FetchPage]: the page is pinned; [Some page_id] stands for the
    pointer to the page.  A page that is pinned is in its frame; any
    other page needs a frame to have or to keep. *)
Definition FetchPage (page_id : Z) : M (option Z) := fun t =>
  match frames t !! page_id with
  | Some f =>
      if (0 <? pin_count_ f) || frame_available t then
        Ok (Some page_id)
           (with_frames
              (<[page_id := mkFrame (pin_count_ f + 1) (is_dirty_ f)
                                    (data_ f)]>
                 (frames t)) t)
      else Ok None t
  | None => Ok None t
  end.

(** [NewPage]: a pinned page of zero bytes with the next page id, when
    there is a frame for it. *)
Definition NewPage : M (option Z) := fun t =>
  if frame_available t then
    let page_id := next_page_id t in
    Ok (Some page_id)
       (mkTree (root_page_id_ t) (leaf_max_size_ t) (internal_max_size_ t)
               (pool_size_ t)
               (<[page_id := mkFrame 1 false Blank]> (frames t))
               (page_id + 1) (txn t))
  else Ok None t.

(** [UnpinPage] *)
Definition UnpinPage (page_id : Z) (is_dirty : bool) : M bool := fun t =>
  match frames t !! page_id with
  | None => Ok false t
  | Some f =>
      let dirty := if is_dirty then true else is_dirty_ f in
      if pin_count_ f =? 0 then
        Ok false
           (with_frames
              (<[page_id := mkFrame (pin_count_ f) dirty (data_ f)]>
                 (frames t)) t)
      else
        Ok true
           (with_frames
              (<[page_id := mkFrame (pin_count_ f - 1) dirty (data_ f)]>
                 (frames t)) t)
  end.

(** [DeletePage] *)
Definition DeletePage (page_id : Z) : M bool := fun t =>
  match frames t !! page_id with
  | None => Ok true t
  | Some f =>
      if 0 <? pin_count_ f then Ok false t
      else Ok true (with_frames (delete page_id (frames t)) t)
  end.

(** The data of a page, through a pointer to it. *)
Definition node (page : Z) : M Node := fun t =>
  match frames t !! page with
  | Some f => Ok (data_ f) t
  | None => Undefined
  end.

Definition set_node (page : Z) (n : Node) : M unit := fun t =>
  match frames t !! page with
  | Some f =>
      Ok tt (with_frames
               (<[page := mkFrame (pin_count_ f) (is_dirty_ f) n]> (frames t))
               t)
  | None => Undefined
  end.

(** ** [BPlusTreePage] *)

(** The fields shared by leaf and internal pages; a page that is
    neither is not read as a tree page. *)
Definition page_fields (n : Node) : option BPlusTreePage :=
  match n with
  | LeafPage h _ _ => Some h
  | InternalPage h _ => Some h
  | _ => None
  end.

Definition fields (page : Z) : M BPlusTreePage :=
  let* n := node page in
  match page_fields n with
  | Some h => ret h
  | None => undefined
  end.

Definition set_fields (page : Z) (h : BPlusTreePage) : M unit :=
  let* n := node page in
  match n with
  | LeafPage _ next a => set_node page (LeafPage h next a)
  | InternalPage _ a => set_node page (InternalPage h a)
  | _ => undefined
  end.

Definition is_leaf (n : Node) : bool :=
  match n with LeafPage _ _ _ => true | _ => false end.

Definition IsLeafPage (page : Z) : M bool :=
  let* n := node page in
  match page_fields n with
  | Some _ => ret (is_leaf n)
  | None => undefined
  end.

Definition IsRootPage (page : Z) : M bool :=
  let* h := fields page in ret (parent_page_id_ h =? INVALID_PAGE_ID).

Definition GetSize (page : Z) : M Z :=
  let* h := fields page in ret (size_ h).
Definition GetMaxSize (page : Z) : M Z :=
  let* h := fields page in ret (max_size_ h).
Definition GetParentPageId (page : Z) : M Z :=
  let* h := fields page in ret (parent_page_id_ h).
Definition GetPageId (page : Z) : M Z :=
  let* h := fields page in ret (page_id_ h).

Definition SetSize (page : Z) (n : Z) : M unit :=
  let* h := fields page in
  set_fields page (mkPage n (max_size_ h) (parent_page_id_ h) (page_id_ h)).
Definition IncreaseSize (page : Z) (amount : Z) : M unit :=
  let* h := fields page in
  set_fields page
    (mkPage (size_ h + amount) (max_size_ h) (parent_page_id_ h)
            (page_id_ h)).
Definition SetParentPageId (page : Z) (parent : Z) : M unit :=
  let* h := fields page in
  set_fields page (mkPage (size_ h) (max_size_ h) parent (page_id_ h)).

(** [GetMinSize]; [/] and [%] on [int] truncate. *)
Definition min_size (leaf : bool) (max_size : Z) : Z :=
  if leaf then Z.quot max_size 2
  else if Z.rem max_size 2 =? 0 then Z.quot max_size 2
       else Z.quot (max_size + 1) 2.

Definition GetMinSize (page : Z) : M Z :=
  let* n := node page in
  match page_fields n with
  | Some h => ret (min_size (is_leaf n) (max_size_ h))
  | None => undefined
  end.

(** ** Arrays of slots

    [slot] reads a slot (zero bytes beyond the slots written), [put]
    writes one. *)
Definition slot {A} (zero : A) (l : list A) (i : Z) : A :=
  nth (Z.to_nat i) l zero.
Definition put {A} (zero : A) (i : Z) (x : A) (l : list A) : list A :=
  if (Z.to_nat i <? length l)%nat then <[Z.to_nat i := x]> l
  else l ++ replicate (Z.to_nat i - length l) zero ++ [x].

(** The number of elements of the range [[first, last)] of an
    algorithm of the standard library; the range must not be
    reversed. *)
Definition distance (first last : Z) : M nat :=
  if last <? first then undefined else ret (Z.to_nat (last - first)).

(** ** [BPlusTreeLeafPage] *)

Definition zero_item : K * V := (zero_key, zero_value).

Definition leaf_array (page : Z) : M (list (K * V)) :=
  let* n := node page in
  match n with
  | LeafPage _ _ a => ret a
  | _ => undefined
  end.

(** [array_[i]], read and written. *)
Definition leaf_item (page i : Z) : M (K * V) :=
  if i <? 0 then undefined
  else let* a := leaf_array page in ret (slot zero_item a i).

Definition set_leaf_item (page i : Z) (x : K * V) : M unit :=
  if i <? 0 then undefined
  else
    let* n := node page in
    match n with
    | LeafPage h next a => set_node page (LeafPage h next (put zero_item i x a))
    | _ => undefined
    end.

(** [std::copy] and [std::move] on ranges of slots: [n] elements are
    assigned in increasing order, from slot [from] of page [src] to slot
    [to] of page [dst]. *)
Fixpoint leaf_copy (n : nat) (src from dst to : Z) : M unit :=
  match n with
  | O => ret tt
  | S n' =>
      let* x := leaf_item src from in
      set_leaf_item dst to x;;
      leaf_copy n' src (from + 1) dst (to + 1)
  end.

(** [std::move_backward]: [n] elements are assigned in decreasing
    order; [last] and [d_last] are the ends of source and
    destination. *)
Fixpoint leaf_copy_backward (n : nat) (page last d_last : Z) : M unit :=
  match n with
  | O => ret tt
  | S n' =>
      let* x := leaf_item page (last - 1) in
      set_leaf_item page (d_last - 1) x;;
      leaf_copy_backward n' page (last - 1) (d_last - 1)
  end.

(** [std::lower_bound] over the slots [[first, first + len)], with the
    predicate [comparator(pair.first, key) < 0]: the binary search of
    the standard library. *)
Fixpoint lower_bound {A} (fuel : nat) (zero : K * A) (a : list (K * A))
    (key : K) (first len : Z) : Z :=
  match fuel with
  | O => first
  | S fuel' =>
      if 0 <? len then
        let half := Z.shiftr len 1 in
        let middle := first + half in
        if comparator (slot zero a middle).1 key <? 0
        then lower_bound fuel' zero a key (middle + 1) (len - half - 1)
        else lower_bound fuel' zero a key first half
      else first
  end.

(** [Init] *)
Definition Leaf_Init (this page_id parent_id max_size : Z) : M unit :=
  let* n := node this in
  match n with
  | LeafPage _ _ a =>
      set_node this
        (LeafPage (mkPage 0 max_size parent_id page_id) INVALID_PAGE_ID a)
  | Blank =>
      set_node this
        (LeafPage (mkPage 0 max_size parent_id page_id) INVALID_PAGE_ID [])
  | _ => undefined
  end.

Definition GetNextPageId (this : Z) : M Z :=
  let* n := node this in
  match n with
  | LeafPage _ next _ => ret next
  | _ => undefined
  end.

Definition SetNextPageId (this next : Z) : M unit :=
  let* n := node this in
  match n with
  | LeafPage h _ a => set_node this (LeafPage h next a)
  | _ => undefined
  end.

(** [KeyIndex] *)
Definition Leaf_KeyIndex (this : Z) (key : K) : M Z :=
  let* a := leaf_array this in
  let* size := GetSize this in
  ret (lower_bound (Z.to_nat size) zero_item a key 0 size).

Definition Leaf_KeyAt (this index : Z) : M K :=
  let* x := leaf_item this index in ret x.1.

(** [LookUp]: [Some value] for [true] with [*value] set. *)
Definition LookUp (this : Z) (key : K) : M (option V) :=
  let* key_it := Leaf_KeyIndex this key in
  let* size := GetSize this in
  if key_it =? size then ret None
  else
    let* x := leaf_item this key_it in
    if negb (comparator x.1 key =? 0) then ret None else ret (Some x.2).

(** [Insert] *)
Definition Leaf_Insert (this : Z) (key : K) (value : V) : M Z :=
  let* key_it := Leaf_KeyIndex this key in
  let* size := GetSize this in
  let* absent :=
    if key_it =? size then ret true
    else let* x := leaf_item this key_it in
         ret (negb (comparator x.1 key =? 0)) in
  if absent : bool then
    (if negb (key_it =? size) then
       let* n := distance key_it size in
       leaf_copy_backward n this size (size + 1)
     else ret tt);;
    set_leaf_item this key_it (key, value);;
    IncreaseSize this 1;;
    GetSize this
  else GetSize this.

(** [CopyNFrom]; [items] is a pointer to slot [from] of page [src]. *)
Definition Leaf_CopyNFrom (this src from size : Z) : M unit :=
  let* n := distance 0 size in
  let* to := GetSize this in
  leaf_copy n src from this to;;
  IncreaseSize this size.

(** [CopyLastFrom] and [CopyFirstFrom]; the argument is a reference to
    slot [i] of page [src], read when the item is assigned. *)
Definition Leaf_CopyLastFrom (this src i : Z) : M unit :=
  let* size := GetSize this in
  let* x := leaf_item src i in
  set_leaf_item this size x;;
  IncreaseSize this 1.

Definition Leaf_CopyFirstFrom (this src i : Z) : M unit :=
  let* size := GetSize this in
  let* n := distance 0 size in
  leaf_copy_backward n this size (size + 1);;
  let* x := leaf_item src i in
  set_leaf_item this 0 x;;
  IncreaseSize this 1.

(** [MoveHalfTo] *)
Definition Leaf_MoveHalfTo (this sibling : Z) : M unit :=
  let* move_start := GetMinSize this in
  let* max := GetMaxSize this in
  let move_size := max - move_start in
  Leaf_CopyNFrom sibling this move_start move_size;;
  IncreaseSize this (-1 * move_size).

(** [Remove] *)
Definition Leaf_Remove (this : Z) (key : K) : M Z :=
  let* key_it := Leaf_KeyIndex this key in
  let* size := GetSize this in
  let* absent :=
    if key_it =? size then ret true
    else let* x := leaf_item this key_it in
         ret (negb (comparator x.1 key =? 0)) in
  if absent : bool then GetSize this
  else
    let* n := distance (key_it + 1) size in
    leaf_copy n this (key_it + 1) this key_it;;
    IncreaseSize this (-1);;
    GetSize this.

(** [MoveFirstToEnd]: [first_item] is a reference to slot 0 of this
    page and is read by [CopyLastFrom], after the slots have moved. *)
Definition Leaf_MoveFirstToEnd (this sibling : Z) : M unit :=
  let* size := GetSize this in
  let* n := distance 1 size in
  leaf_copy n this 1 this 0;;
  IncreaseSize this (-1);;
  Leaf_CopyLastFrom sibling this 0.

(** [MoveLastToFront]: [last_item] is a reference to the last slot in
    use. *)
Definition Leaf_MoveLastToFront (this sibling : Z) : M unit :=
  let* size := GetSize this in
  IncreaseSize this (-1);;
  Leaf_CopyFirstFrom sibling this (size - 1).

(** [MoveAllTo] *)
Definition Leaf_MoveAllTo (this sibling : Z) : M unit :=
  let* size := GetSize this in
  Leaf_CopyNFrom sibling this 0 size;;
  let* size' := GetSize this in
  IncreaseSize this (-1 * size').

(** ** [BPlusTreeInternalPage] *)

Definition zero_entry : K * Z := (zero_key, 0).

Definition internal_array (page : Z) : M (list (K * Z)) :=
  let* n := node page in
  match n with
  | InternalPage _ a => ret a
  | _ => undefined
  end.

Definition internal_item (page i : Z) : M (K * Z) :=
  if i <? 0 then undefined
  else let* a := internal_array page in ret (slot zero_entry a i).

Definition set_internal_item (page i : Z) (x : K * Z) : M unit :=
  if i <? 0 then undefined
  else
    let* n := node page in
    match n with
    | InternalPage h a => set_node page (InternalPage h (put zero_entry i x a))
    | _ => undefined
    end.

Fixpoint internal_copy (n : nat) (src from dst to : Z) : M unit :=
  match n with
  | O => ret tt
  | S n' =>
      let* x := internal_item src from in
      set_internal_item dst to x;;
      internal_copy n' src (from + 1) dst (to + 1)
  end.

Fixpoint internal_copy_backward (n : nat) (page last d_last : Z) : M unit :=
  match n with
  | O => ret tt
  | S n' =>
      let* x := internal_item page (last - 1) in
      set_internal_item page (d_last - 1) x;;
      internal_copy_backward n' page (last - 1) (d_last - 1)
  end.

(** [Init] *)
Definition Internal_Init (this page_id parent_id max_size : Z) : M unit :=
  let* n := node this in
  match n with
  | InternalPage _ a =>
      set_node this (InternalPage (mkPage 0 max_size parent_id page_id) a)
  | Blank =>
      set_node this (InternalPage (mkPage 0 max_size parent_id page_id) [])
  | _ => undefined
  end.

Definition KeyAt (this index : Z) : M K :=
  let* x := internal_item this index in ret x.1.
Definition SetKeyAt (this index : Z) (key : K) : M unit :=
  let* x := internal_item this index in
  set_internal_item this index (key, x.2).
Definition ValueAt (this index : Z) : M Z :=
  let* x := internal_item this index in ret x.2.

(** [std::find_if] on the values of the slots [[i, i + n)]: the index of
    the first slot with the value, [i + n] when there is none. *)
Fixpoint find_value (n : nat) (a : list (K * Z)) (value i : Z) : Z :=
  match n with
  | O => i
  | S n' =>
      if (slot zero_entry a i).2 =? value then i
      else find_value n' a value (i + 1)
  end.

(** [ValueIndex] *)
Definition ValueIndex (this value : Z) : M Z :=
  let* a := internal_array this in
  let* size := GetSize this in
  let* n := distance 0 size in
  ret (find_value n a value 0).

(** [PopulateNewRoot] *)
Definition PopulateNewRoot (this first_value : Z) (second_key : K)
    (second_value : Z) : M unit :=
  let* x := internal_item this 0 in
  set_internal_item this 0 (x.1, first_value);;
  set_internal_item this 1 (second_key, second_value);;
  IncreaseSize this 2.

(** [Insert] *)
Definition Internal_Insert (this old_value : Z) (new_key : K)
    (new_value : Z) : M Z :=
  let* i := ValueIndex this old_value in
  let index := i + 1 in
  let* size := GetSize this in
  let* n := distance index size in
  internal_copy_backward n this size (size + 1);;
  set_internal_item this index (new_key, new_value);;
  IncreaseSize this 1;;
  GetSize this.

(** The body shared by [CopyNFrom], [CopyLastFrom] and [CopyFirstFrom]:
    the child page is fetched, gets the parent page id [page_id] and is
    unpinned under the page id it carries. *)
Definition adopt (page_id child : Z) : M unit :=
  let* page := FetchPage child in
  match page with
  | None => throw OUT_OF_MEMORY
  | Some bplus_page =>
      SetParentPageId bplus_page page_id;;
      let* id := GetPageId bplus_page in
      let* _ := UnpinPage id true in
      ret tt
  end.

(** The loop of [CopyNFrom] over the slots copied. *)
Fixpoint adopt_range (n : nat) (this page_id index : Z) : M unit :=
  match n with
  | O => ret tt
  | S n' =>
      let* child := ValueAt this index in
      adopt page_id child;;
      adopt_range n' this page_id (index + 1)
  end.

(** [CopyNFrom] *)
Definition Internal_CopyNFrom (this src from size : Z) : M unit :=
  let* before_copy_size := GetSize this in
  let* n := distance 0 size in
  internal_copy n src from this before_copy_size;;
  let* page_id := GetPageId this in
  adopt_range n this page_id before_copy_size;;
  IncreaseSize this size.

(** [CopyLastFrom] and [CopyFirstFrom]; the item is passed by value. *)
Definition Internal_CopyLastFrom (this : Z) (item : K * Z) : M unit :=
  let* size := GetSize this in
  set_internal_item this size item;;
  let* page_id := GetPageId this in
  adopt page_id item.2;;
  IncreaseSize this 1.

Definition Internal_CopyFirstFrom (this : Z) (item : K * Z) : M unit :=
  let* size := GetSize this in
  let* n := distance 0 size in
  internal_copy_backward n this size (size + 1);;
  set_internal_item this 0 item;;
  let* page_id := GetPageId this in
  adopt page_id item.2;;
  IncreaseSize this 1.

(** [MoveHalfTo] *)
Definition Internal_MoveHalfTo (this sibling : Z) : M unit :=
  let* move_start := GetMinSize this in
  let* max := GetMaxSize this in
  let move_size := max - move_start + 1 in
  Internal_CopyNFrom sibling this move_start move_size;;
  IncreaseSize this (-1 * move_size).

(** [Remove] *)
Definition Internal_Remove (this index : Z) : M unit :=
  let* size := GetSize this in
  let* n := distance (index + 1) size in
  internal_copy n this (index + 1) this index;;
  IncreaseSize this (-1).

(** [MoveFirstToEnd] *)
Definition Internal_MoveFirstToEnd (this sibling : Z) (middle_key : K)
  : M unit :=
  SetKeyAt this 0 middle_key;;
  let* first_item := internal_item this 0 in
  Internal_CopyLastFrom sibling first_item;;
  let* size := GetSize this in
  let* n := distance 1 size in
  internal_copy n this 1 this 0;;
  IncreaseSize this (-1).

(** [MoveLastToFront] *)
Definition Internal_MoveLastToFront (this sibling : Z) (middle_key : K)
  : M unit :=
  SetKeyAt sibling 0 middle_key;;
  let* size := GetSize this in
  let* last_item := internal_item this (size - 1) in
  Internal_CopyFirstFrom sibling last_item;;
  IncreaseSize this (-1).

(** [MoveAllTo] *)
Definition Internal_MoveAllTo (this sibling : Z) (middle_key : K) : M unit :=
  SetKeyAt this 0 middle_key;;
  let* size := GetSize this in
  Internal_CopyNFrom sibling this 0 size;;
  let* size' := GetSize this in
  IncreaseSize this (-1 * size').

(** ** The transaction

    A [Transaction *] argument is [true] when it designates the
    transaction object of the state and [false] when it is
    [nullptr]. *)

Definition AddIntoPageSet (transaction : bool) (page : option Z) : M unit :=
  if transaction then
    modify (fun t =>
      with_txn (mkTransaction (page_set_ (txn t) ++ [page])
                              (deleted_page_set_ (txn t))) t)
  else undefined.

Definition AddIntoDeletedPageSet (transaction : bool) (page_id : Z)
  : M unit :=
  if transaction then
    modify (fun t =>
      with_txn (mkTransaction (page_set_ (txn t))
                              ({[page_id]} ∪ deleted_page_set_ (txn t))) t)
  else undefined.

(** ** [BPlusTree] *)

Definition IsEmpty : M bool :=
  gets (fun t => root_page_id_ t =? INVALID_PAGE_ID).

(** [IsPageSafe] *)
Definition IsPageSafe (btree_page : Z) (op : Operation) : M bool :=
  match op with
  | SEARCH => ret true
  | INSERT =>
      let* leaf := IsLeafPage btree_page in
      let* size := GetSize btree_page in
      let* max := GetMaxSize btree_page in
      if leaf : bool then ret (size <? max - 1) else ret (size <? max)
  | DELETE =>
      let* root := IsRootPage btree_page in
      if root : bool then
        let* leaf := IsLeafPage btree_page in
        let* size := GetSize btree_page in
        if leaf : bool then ret (1 <? size) else ret (2 <? size)
      else
        let* size := GetSize btree_page in
        let* min := GetMinSize btree_page in
        ret (min <? size)
  end.

(** The [while (!page_set->empty())] loop of [ReleaseWLatches]; [n]
    bounds its rounds by the length of the page set. *)
Fixpoint release (n : nat) (is_dirty : bool) : M unit :=
  match n with
  | O => ret tt
  | S n' =>
      let* pages := gets (fun t => page_set_ (txn t)) in
      match pages with
      | [] => ret tt
      | page :: rest =>
          modify (fun t =>
            with_txn (mkTransaction rest (deleted_page_set_ (txn t))) t);;
          match page with
          | None => ret tt
          | Some page_id => let* _ := UnpinPage page_id is_dirty in ret tt
          end;;
          release n' is_dirty
      end
  end.

(** [ReleaseWLatches] *)
Definition ReleaseWLatches (transaction : bool) (is_dirty : bool) : M unit :=
  if transaction then
    let* n := gets (fun t => length (page_set_ (txn t))) in
    release n is_dirty
  else ret tt.

(** The loop of [GetLeafPage] over the keys of an internal page:
    [page_id] starts as the last child and becomes the child before
    the first key greater than [key]. *)
Fixpoint child_loop (n : nat) (a : list (K * Z)) (key : K) (i : Z)
    (page_id : Z) : Z :=
  match n with
  | O => page_id
  | S n' =>
      if 0 <? comparator (slot zero_entry a i).1 key
      then (slot zero_entry a (i - 1)).2
      else child_loop n' a key (i + 1) page_id
  end.

Definition find_child (internal_page : Z) (key : K) : M Z :=
  let* size := GetSize internal_page in
  let* page_id := ValueAt internal_page (size - 1) in
  let* a := internal_array internal_page in
  ret (child_loop (Z.to_nat (size - 1)) a key 1 page_id).

(** The outcome of one pass of [GetLeafPage]: the leaf, or the need of
    a second pass. *)
Inductive descent := Found (page : Z) | Restart.

(** The [while (true)] loop of [GetLeafPage]. *)
Fixpoint descend (fuel : nat) (key : K) (transaction : bool)
    (op : Operation) (first_pass : bool) (page_id : Z)
    (pre_page : option Z) : M descent :=
  match fuel with
  | O => out_of_fuel
  | S fuel' =>
      let* fetched := FetchPage page_id in
      match fetched with
      | None => throw OUT_OF_MEMORY
      | Some page =>
          let* leaf := IsLeafPage page in
          (if first_pass then
             (if leaf && negb (bool_decide (op = SEARCH))
              then AddIntoPageSet transaction (Some page)
              else ret tt);;
             match pre_page with
             | Some pre => let* _ := UnpinPage pre false in ret tt
             | None => ret tt
             end
           else
             (if bool_decide (op = SEARCH) then undefined else ret tt);;
             let* safe := IsPageSafe page op in
             (if safe : bool then ReleaseWLatches transaction false
              else ret tt);;
             AddIntoPageSet transaction (Some page));;
          if leaf : bool then
            if first_pass then
              let* safe := IsPageSafe page op in
              if safe : bool then ret (Found page)
              else ReleaseWLatches transaction false;; ret Restart
            else ret (Found page)
          else
            let* next := find_child page key in
            descend fuel' key transaction op first_pass next (Some page)
      end
  end.

(** One call of [GetLeafPage], up to the point where it returns the
    leaf or calls itself for the second pass. *)
Definition GetLeafPage_pass (fuel : nat) (key : K) (transaction : bool)
    (op : Operation) (first_pass : bool) : M descent :=
  (if negb transaction && negb (bool_decide (op = SEARCH))
   then throw logic_error else ret tt);;
  (if first_pass then ret tt else AddIntoPageSet transaction None);;
  let* page_id := gets root_page_id_ in
  descend fuel key transaction op first_pass page_id None.

(** [GetLeafPage] *)
Definition GetLeafPage (fuel : nat) (key : K) (transaction : bool)
    (op : Operation) (first_pass : bool) : M Z :=
  let* r := GetLeafPage_pass fuel key transaction op first_pass in
  match r with
  | Found page => ret page
  | Restart =>
      let* r' := GetLeafPage_pass fuel key transaction op false in
      match r' with
      | Found page => ret page
      | Restart => undefined
      end
  end.

(** [GetValue]: [Some value] for [true] with the value appended to
    [result]. *)
Definition GetValue (fuel : nat) (key : K) : M (option V) :=
  let* empty := IsEmpty in
  if empty : bool then ret None
  else
    let* page := GetLeafPage fuel key false SEARCH true in
    let* found := LookUp page key in
    let* page_id := GetPageId page in
    let* _ := UnpinPage page_id false in
    ret found.

(** [UpdateRootPageId].  Modelled from the spec: the header page keeps
    the root page id of the index under its name; [InsertRecord] adds
    the record when there is none, [UpdateRecord] changes the one that
    is there. *)
Definition UpdateRootPageId (insert_record : Z) : M unit :=
  let* fetched := FetchPage HEADER_PAGE_ID in
  match fetched with
  | None => undefined
  | Some header_page =>
      let* n := node header_page in
      match n with
      | HeaderPage record =>
          let* root := gets root_page_id_ in
          set_node header_page
            (HeaderPage
               (if negb (insert_record =? 0)
                then match record with
                     | None => Some root
                     | Some r => Some r
                     end
                else match record with
                     | None => None
                     | Some _ => Some root
                     end));;
          let* _ := UnpinPage HEADER_PAGE_ID true in
          ret tt
      | _ => undefined
      end
  end.

(** [StartNewTree] *)
Definition StartNewTree (key : K) (value : V) : M unit :=
  let* fetched := NewPage in
  match fetched with
  | None => throw OUT_OF_MEMORY
  | Some page =>
      modify (with_root page);;
      let* root := gets root_page_id_ in
      let* max := gets leaf_max_size_ in
      Leaf_Init page root INVALID_PAGE_ID max;;
      let* _ := Leaf_Insert page key value in
      let* _ := UnpinPage root true in
      UpdateRootPageId 1
  end.

(** [Split] *)
Definition Split (node_page : Z) : M Z :=
  let* fetched := NewPage in
  match fetched with
  | None => throw OUT_OF_MEMORY
  | Some page =>
      let* leaf := IsLeafPage node_page in
      let* parent := GetParentPageId node_page in
      (if leaf : bool then
         let* max := gets leaf_max_size_ in
         Leaf_Init page page parent max;;
         Leaf_MoveHalfTo node_page page
       else
         let* max := gets internal_max_size_ in
         Internal_Init page page parent max;;
         Internal_MoveHalfTo node_page page);;
      ret page
  end.

(** [InsertIntoParent] *)
Fixpoint InsertIntoParent (fuel : nat) (left_page : Z) (key : K)
    (right_page : Z) (transaction : bool) : M unit :=
  match fuel with
  | O => out_of_fuel
  | S fuel' =>
      let* root := IsRootPage left_page in
      if root : bool then
        let* fetched := NewPage in
        match fetched with
        | None => throw OUT_OF_MEMORY
        | Some page =>
            modify (with_root page);;
            let* root_id := gets root_page_id_ in
            let* max := gets internal_max_size_ in
            Internal_Init page root_id INVALID_PAGE_ID max;;
            let* left_id := GetPageId left_page in
            let* right_id := GetPageId right_page in
            PopulateNewRoot page left_id key right_id;;
            let* id := GetPageId page in
            SetParentPageId left_page id;;
            let* id' := GetPageId page in
            SetParentPageId right_page id';;
            let* _ := UnpinPage page true in
            UpdateRootPageId 0;;
            ReleaseWLatches transaction true
        end
      else
        let* parent_id := GetParentPageId left_page in
        let* fetched := FetchPage parent_id in
        match fetched with
        | None => throw OUT_OF_MEMORY
        | Some parent_page =>
            let* left_id := GetPageId left_page in
            let* right_id := GetPageId right_page in
            let* after_insert_size :=
              Internal_Insert parent_page left_id key right_id in
            let* max := gets internal_max_size_ in
            if after_insert_size <=? max then
              ReleaseWLatches transaction true;;
              let* id := GetPageId parent_page in
              let* _ := UnpinPage id true in
              ret tt
            else
              let* sibling := Split parent_page in
              let* parent_key := KeyAt sibling 0 in
              InsertIntoParent fuel' parent_page parent_key sibling
                               transaction;;
              let* id := GetPageId parent_page in
              let* _ := UnpinPage id true in
              let* id' := GetPageId sibling in
              let* _ := UnpinPage id' true in
              ret tt
        end
  end.

(** [InsertIntoLeaf] *)
Definition InsertIntoLeaf (fuel : nat) (key : K) (value : V)
    (transaction : bool) : M bool :=
  let* page := GetLeafPage fuel key transaction INSERT true in
  let* before_insert_size := GetSize page in
  let* after_insert_size := Leaf_Insert page key value in
  if before_insert_size =? after_insert_size then
    ReleaseWLatches transaction false;;
    ret false
  else
    let* max := gets leaf_max_size_ in
    if after_insert_size <? max then
      ReleaseWLatches transaction true;;
      ret true
    else
      let* sibling := Split page in
      let* next := GetNextPageId page in
      SetNextPageId sibling next;;
      let* sibling_id := GetPageId sibling in
      SetNextPageId page sibling_id;;
      let* parent_key := Leaf_KeyAt sibling 0 in
      InsertIntoParent fuel page parent_key sibling transaction;;
      let* sibling_id' := GetPageId sibling in
      let* _ := UnpinPage sibling_id' true in
      ret true.

(** [Insert] *)
Definition Insert (fuel : nat) (key : K) (value : V) (transaction : bool)
  : M bool :=
  let* empty := IsEmpty in
  if empty : bool then StartNewTree key value;; ret true
  else InsertIntoLeaf fuel key value transaction.

(** [AdjustRoot] *)
Definition AdjustRoot (root_node : Z) : M bool :=
  let* leaf := IsLeafPage root_node in
  let* size := GetSize root_node in
  if negb leaf && (size =? 1) then
    let* child_page_id := ValueAt root_node 0 in
    let* fetched := FetchPage child_page_id in
    match fetched with
    | None => throw OUT_OF_MEMORY
    | Some child_page =>
        modify (with_root child_page_id);;
        SetParentPageId child_page INVALID_PAGE_ID;;
        UpdateRootPageId 0;;
        let* _ := UnpinPage child_page_id true in
        ret true
    end
  else if leaf && (size =? 0) then
    modify (with_root INVALID_PAGE_ID);;
    UpdateRootPageId 0;;
    ret true
  else ret false.

(** [Redistribute].  In the branch for leaf pages both [leaf_page] and
    [sibling_leaf_page] are obtained from [node]. *)
Definition Redistribute (sibling_node node_page parent_page index : Z)
  : M unit :=
  let* leaf := IsLeafPage node_page in
  if leaf : bool then
    let leaf_page := node_page in
    let sibling_leaf_page := node_page in
    if index =? 0 then
      Leaf_MoveFirstToEnd sibling_leaf_page leaf_page;;
      let* k := Leaf_KeyAt sibling_leaf_page 0 in
      SetKeyAt parent_page 1 k
    else
      Leaf_MoveLastToFront sibling_leaf_page leaf_page;;
      let* k := Leaf_KeyAt leaf_page 0 in
      SetKeyAt parent_page index k
  else
    let internal_page := node_page in
    let sibling_internal_page := sibling_node in
    if index =? 0 then
      let* middle_key := KeyAt parent_page 1 in
      Internal_MoveFirstToEnd sibling_internal_page internal_page middle_key;;
      let* k := KeyAt sibling_internal_page 0 in
      SetKeyAt parent_page 1 k
    else
      let* middle_key := KeyAt parent_page index in
      Internal_MoveLastToFront sibling_internal_page internal_page
                               middle_key;;
      let* k := KeyAt internal_page 0 in
      SetKeyAt parent_page index k.

(** [CoalesceOrRedistribute] and [Coalesce], which call each other. *)
Fixpoint CoalesceOrRedistribute (fuel : nat) (node_page : Z)
    (transaction : bool) : M bool :=
  match fuel with
  | O => out_of_fuel
  | S fuel' =>
      let* root := IsRootPage node_page in
      if root : bool then AdjustRoot node_page
      else
        let* size := GetSize node_page in
        let* min := GetMinSize node_page in
        if min <=? size then ret false
        else
          let* parent_page_id := GetParentPageId node_page in
          let* fetched := FetchPage parent_page_id in
          match fetched with
          | None => throw OUT_OF_MEMORY
          | Some parent_page =>
              let* node_id := GetPageId node_page in
              let* index := ValueIndex parent_page node_id in
              let* sibling_page_id :=
                ValueAt parent_page (if index =? 0 then 1 else index - 1) in
              let* fetched' := FetchPage sibling_page_id in
              match fetched' with
              | None => throw OUT_OF_MEMORY
              | Some sibling_page =>
                  let* size := GetSize node_page in
                  let* sibling_size := GetSize sibling_page in
                  let* max := GetMaxSize node_page in
                  if max <=? size + sibling_size then
                    Redistribute sibling_page node_page parent_page index;;
                    let* id := GetPageId sibling_page in
                    let* _ := UnpinPage id true in
                    let* id' := GetPageId parent_page in
                    let* _ := UnpinPage id' true in
                    ret false
                  else
                    let* should_delete_parent_page :=
                      Coalesce fuel' sibling_page node_page parent_page
                               index transaction in
                    (if should_delete_parent_page : bool
                     then AddIntoDeletedPageSet transaction parent_page
                     else ret tt);;
                    let* _ := UnpinPage sibling_page true in
                    let* _ := UnpinPage parent_page true in
                    ret true
              end
          end
  end
with Coalesce (fuel : nat) (sibling_node node_page parent_page index : Z)
    (transaction : bool) : M bool :=
  match fuel with
  | O => out_of_fuel
  | S fuel' =>
      let '(node', sibling', parent_key_index) :=
        if index =? 0 then (sibling_node, node_page, 1)
        else (node_page, sibling_node, index) in
      let* leaf := IsLeafPage node' in
      (if leaf : bool then
         Leaf_MoveAllTo node' sibling';;
         let* next := GetNextPageId node' in
         SetNextPageId sibling' next
       else
         let* middle_key := KeyAt parent_page parent_key_index in
         Internal_MoveAllTo node' sibling' middle_key);;
      Internal_Remove parent_page parent_key_index;;
      CoalesceOrRedistribute fuel' parent_page transaction
  end.

(** The deletion of the pages of the deleted page set. *)
Fixpoint delete_pages (pages : list Z) : M unit :=
  match pages with
  | [] => ret tt
  | page_id :: pages' =>
      let* _ := DeletePage page_id in delete_pages pages'
  end.

(** [Remove] *)
Definition Remove (fuel : nat) (key : K) (transaction : bool) : M unit :=
  let* empty := IsEmpty in
  if empty : bool then ret tt
  else
    let* page := GetLeafPage fuel key transaction DELETE true in
    let* before_remove_size := GetSize page in
    let* after_remove_size := Leaf_Remove page key in
    if before_remove_size =? after_remove_size then
      ReleaseWLatches transaction false
    else
      let* should_delete_leaf_page :=
        CoalesceOrRedistribute fuel page transaction in
      (if should_delete_leaf_page : bool then
         let* id := GetPageId page in
         AddIntoDeletedPageSet transaction id
       else ret tt);;
      ReleaseWLatches transaction true;;
      let* deleted := gets (fun t => elements (deleted_page_set_ (txn t))) in
      delete_pages deleted;;
      modify (fun t => with_txn (mkTransaction (page_set_ (txn t)) ∅) t).

(** ** The tree as a set of entries *)

(** A new index over a pool of [pool_size] frames that holds the
    header page and nothing else. *)
Definition make (pool_size leaf_max_size internal_max_size : Z)
  : BPlusTree :=
  mkTree INVALID_PAGE_ID leaf_max_size internal_max_size pool_size
         {[HEADER_PAGE_ID := mkFrame 0 false (HeaderPage None)]}
         1 (mkTransaction [] ∅).

(** The data of the pages, without pins and dirty flags. *)
Definition contents (t : BPlusTree) : gmap Z Node := data_ <$> frames t.

(** The state in which page [p] has one pin more. *)
Definition pinned (p : Z) (t : BPlusTree) : BPlusTree :=
  with_frames
    (alter (fun f => mkFrame (pin_count_ f + 1) (is_dirty_ f) (data_ f)) p
           (frames t)) t.

(** The pin count of a page; 0 for a page that the pool does not
    have. *)
Definition pin_of (t : BPlusTree) (p : Z) : Z :=
  from_option pin_count_ 0 (frames t !! p).

(** Two states hold the same tree: the same data in the same pages,
    under the same root and sizes.  Pins, dirty flags and the page set
    of the transaction are not part of the tree. *)
Record same_tree (t t' : BPlusTree) : Prop := mkSame {
  same_contents : contents t' = contents t;
  same_root : root_page_id_ t' = root_page_id_ t;
  same_leaf_max : leaf_max_size_ t' = leaf_max_size_ t;
  same_internal_max : internal_max_size_ t' = internal_max_size_ t;
  same_next : next_page_id t' = next_page_id t;
  same_deleted : deleted_page_set_ (txn t') = deleted_page_set_ (txn t)
}.

(** The leaf that the descent from [page_id] reaches, read off the
    data of the pages. *)
Fixpoint find_leaf (fuel : nat) (c : gmap Z Node) (key : K) (page_id : Z)
  : option Z :=
  match fuel with
  | O => None
  | S fuel' =>
      match c !! page_id with
      | Some (LeafPage _ _ _) => Some page_id
      | Some (InternalPage h a) =>
          if size_ h - 1 <? 0 then None
          else
            find_leaf fuel' c key
              (child_loop (Z.to_nat (size_ h - 1)) a key 1
                          (slot zero_entry a (size_ h - 1)).2)
      | _ => None
      end
  end.

(** The number of pages on the way of the descent from [page_id] to
    the leaf. *)
Fixpoint depth (fuel : nat) (c : gmap Z Node) (key : K) (page_id : Z)
  : nat :=
  match fuel with
  | O => O
  | S fuel' =>
      match c !! page_id with
      | Some (LeafPage _ _ _) => 1%nat
      | Some (InternalPage h a) =>
          if size_ h - 1 <? 0 then O
          else
            S (depth fuel' c key
                 (child_loop (Z.to_nat (size_ h - 1)) a key 1
                             (slot zero_entry a (size_ h - 1)).2))
      | _ => O
      end
  end.

(** How often the page [q] occurs in a list of pages. *)
Definition occurrences (pages : list Z) (q : Z) : Z :=
  Z.of_nat (length (filter (eq q) pages)).

(** The state [cur] holds the tree of [t] in the same pool, with no
    more pins on a page than it has in [t], but for one more for each
    occurrence of the page in [pages]. *)
Definition holds (pages : list Z) (t cur : BPlusTree) : Prop :=
  contents cur = contents t /\
  root_page_id_ cur = root_page_id_ t /\
  leaf_max_size_ cur = leaf_max_size_ t /\
  internal_max_size_ cur = internal_max_size_ t /\
  next_page_id cur = next_page_id t /\
  deleted_page_set_ (txn cur) = deleted_page_set_ (txn t) /\
  pool_size_ cur = pool_size_ t /\
  forall q, pin_of cur q <= Z.max 0 (pin_of t q) + occurrences pages q.

(** The value that [LookUp] finds for a key in a leaf page. *)
Definition leaf_find (n : Node) (key : K) : option V :=
  match n with
  | LeafPage h _ a =>
      let key_it :=
        lower_bound (Z.to_nat (size_ h)) zero_item a key 0 (size_ h) in
      if (key_it =? size_ h) || (key_it <? 0) then None
      else
        let x := slot zero_item a key_it in
        if comparator x.1 key =? 0 then Some x.2 else None
  | _ => None
  end.

(** Sequences of calls. *)
Fixpoint insert_all (fuel : nat) (kvs : list (K * V)) : M unit :=
  match kvs with
  | [] => ret tt
  | (k, v) :: kvs' =>
      let* _ := Insert fuel k v true in insert_all fuel kvs'
  end.

(** A call writes at most the pages [pages] of the pool. *)
Definition touches {A} (pages : list Z) (m : M A) : Prop :=
  forall t a t', m t = Ok a t' ->
  forall q, q ∉ pages -> frames t' !! q = frames t !! q.

(** The entries in use of a leaf page and of an internal page. *)
Definition leaf_entries (n : Node) : list (K * V) :=
  match n with
  | LeafPage h _ a => take (Z.to_nat (size_ h)) a
  | _ => []
  end.
Definition internal_entries (n : Node) : list (K * Z) :=
  match n with
  | InternalPage h a => take (Z.to_nat (size_ h)) a
  | _ => []
  end.

End WithKeys.

(** ** Integer keys

    The comparator of the keys that the tests and the executors build
    from integers. *)
Definition compare_int (a b : Z) : Z :=
  match a ?= b with
  | Lt => -1
  | Eq => 0
  | Gt => 1
  end.

(** The tree with leaf and internal pages of at most four entries, in
    a pool of 50 frames, that holds the keys 1 to 5: leaf 1 has 1 and 2,
    leaf 2 has 3, 4 and 5, and the root, page 3, separates them by the
    key 3. *)
Definition five_keys : result exn (@BPlusTree Z Z) unit :=
  insert_all compare_int 0 0 8
             [(1, 10); (2, 20); (3, 30); (4, 40); (5, 50)] (make 50 4 4).

(** The same tree in a pool of four frames that are all taken: other
    users of the pool have fetched the two leaf pages and hold two new
    pages. *)
Definition crowded : result exn (@BPlusTree Z Z) unit :=
  bindM (insert_all compare_int 0 0 8
           [(1, 10); (2, 20); (3, 30); (4, 40); (5, 50)])
    (fun _ => bindM (FetchPage 1)
    (fun _ => bindM (FetchPage 2)
    (fun _ => bindM NewPage
    (fun _ => bindM NewPage
    (fun _ => ret tt))))) (make 4 4 4).

End BPlusTree.
(** * LRU-K replacer: counting the evictable frames *)

Module ReplacerCount.

Import Replacer.

(** The number of frames that have an entry marked evictable: what
    [LRUKReplacer::Size] is documented to return. *)
Definition evictable_entry (p : Z * FrameEntry) : Prop :=
  evictable_ p.2 = true.

#[global] Instance evictable_entry_dec p : Decision (evictable_entry p).
Proof. unfold evictable_entry. apply _. Defined.

Definition evictable_count (r : LRUKReplacer) : Z :=
  Z.of_nat (size (filter evictable_entry (entries_ r))).

(** A replacer with capacity 7 and k = 2 after frames 1, 2, 3 were
    accessed (frame 1 twice) and frame 2 was pinned down. *)
Definition three_frames : list op :=
  [ORecordAccess 1; ORecordAccess 2; ORecordAccess 3; ORecordAccess 1;
   OSetEvictable 1 true; OSetEvictable 2 false; OSetEvictable 3 true].

End ReplacerCount.
(** * Extendible hash table: the accessors and histories of calls *)

Module HashTableOps.

Import HashTable.

Section WithHash.

Context {K V : Type} `{EqDecision K}.

Variable hash : K -> Z.

(** [GetGlobalDepth] *)
Definition GetGlobalDepth (t : @ExtendibleHashTable K V) : Z :=
  global_depth_ t.

(** [GetLocalDepth(dir_index)]: [dir_[dir_index]->GetDepth()];
    [None] when the index is outside the directory. *)
Definition GetLocalDepth (dir_index : Z) (t : @ExtendibleHashTable K V)
  : option Z :=
  match bucket_at dir_index t with
  | Some (_, b) => Some (depth_ b)
  | None => None
  end.

(** [GetNumBuckets] *)
Definition GetNumBuckets (t : @ExtendibleHashTable K V) : Z :=
  num_buckets_ t.

(** The buckets that the directory designates, each once. *)
Definition designated (t : @ExtendibleHashTable K V) : list nat :=
  remove_dups (dir_ t).

(** Calls that change the table. *)
Inductive op :=
| insert (key : K) (value : V)
| remove (key : K).

Definition step (fuel : nat) (o : op) (t : @ExtendibleHashTable K V)
  : result exn (@ExtendibleHashTable K V) unit :=
  match o with
  | insert key value => Insert hash fuel key value t
  | remove key => bind (Remove hash key t) (fun _ t' => Ok tt t')
  end.

Fixpoint run (fuel : nat) (ops : list op) (t : @ExtendibleHashTable K V)
  : result exn (@ExtendibleHashTable K V) unit :=
  match ops with
  | [] => Ok tt t
  | o :: ops' => bind (step fuel o t) (fun _ t' => run fuel ops' t')
  end.

(** The finite map that a history of calls describes, as a function
    from keys to values. *)
Definition update (o : op) (m : K -> option V) : K -> option V :=
  fun k =>
    match o with
    | insert key value => if decide (k = key) then Some value else m k
    | remove key => if decide (k = key) then None else m k
    end.

Fixpoint model (ops : list op) (m : K -> option V) : K -> option V :=
  match ops with
  | [] => m
  | o :: ops' => model ops' (update o m)
  end.

Definition nothing : K -> option V := fun _ => None.

(** No bucket of the store holds more entries than its capacity. *)
Definition within_capacity (t : @ExtendibleHashTable K V) : Prop :=
  0 <= bucket_size_ t /\
  forall a b, buckets t !! a = Some b ->
              Z.of_nat (length (list_ b)) <= size_ b.

Definition present (o : option V) : bool :=
  match o with Some _ => true | None => false end.

End WithHash.

(** A history on a table of integers with buckets of two entries. *)
Definition small_history : list (@op Z Z) :=
  [insert 1 10; insert 2 20; insert 3 30; remove 2; insert 1 11].

End HashTableOps.
(** * Buffer pool manager: a small pool for examples *)

Module BufferPoolExamples.

Import BufferPool.

(** A history on a pool of two frames: pages 0 and 1 are created, page
    0 is unpinned as dirty and evicted for page 2, page 1 is unpinned
    and evicted when page 0 is fetched again. *)
Definition busy_history : list op :=
  [new_page; new_page; unpin 0 true; new_page; unpin 1 false; fetch_page 0].

(** The same pool with every frame pinned: pages 0 and 1 have just
    been created. *)
Definition pinned_history : list op := [new_page; new_page].

(** Page 0 is created and unpinned as dirty. *)
Definition dirty_history : list op := [new_page; unpin 0 true].

End BufferPoolExamples.
(** * Lock manager: states for examples *)

Module LockManagerExamples.

Import LockManager.

(** Transaction 1 holds table 0 in mode X. *)
Definition holding_x : LockManager :=
  mkLM {[0 := mkQueue [mkRequest 1 EXCLUSIVE 0 None true] INVALID_TXN_ID]}
       ∅ ∅ ∅
       {[1 := mkTxn 1 GROWING REPEATABLE_READ ∅ {[0]} ∅ ∅ ∅ ∅ ∅]}.

(** Transaction 1 holds table 0 in mode IX and row (0,0) of it in mode
    S. *)
Definition holding_row_s : LockManager :=
  mkLM {[0 := mkQueue [mkRequest 1 INTENTION_EXCLUSIVE 0 None true]
                      INVALID_TXN_ID]}
       {[(0, 0) := mkQueue [mkRequest 1 SHARED 0 (Some (0, 0)) true]
                           INVALID_TXN_ID]}
       ∅ ∅
       {[1 := mkTxn 1 GROWING REPEATABLE_READ ∅ ∅ ∅ {[0]} ∅
                    {[0 := {[(0, 0)]}]} ∅]}.

End LockManagerExamples.
(** * Deadlock detection: the cycle search

    [LockManager::DFS], [LockManager::HasCycle] and step 3 of
    [LockManager::RunCycleDetection]
    (src/bustub/src/optimizer/sort_limit_as_topn.cpp). *)

Module Deadlock.

Import LockManager.

Definition INT_MAX : Z := 2147483647.

(** The three containers that [HasCycle] hands to [DFS]; the top of
    [cycle_stack] is the head of the list. *)
Record search := mkSearch {
  cycle_stack : list Z;
  traversed_flag : gmap Z Z;
  has_traversed_txn_set : gset Z
}.

Definition push (txn_id : Z) (st : search) : search :=
  mkSearch (txn_id :: cycle_stack st)
           (<[txn_id := 1]> (traversed_flag st))
           ({[txn_id]} ∪ has_traversed_txn_set st).

Definition pop (txn_id : Z) (st : search) : search :=
  mkSearch (tail (cycle_stack st))
           (<[txn_id := 0]> (traversed_flag st))
           (has_traversed_txn_set st).

(** [traversed_flag[next_txn_id]]: [operator[]] leaves a 0 behind for a
    key that was absent. *)
Definition flag_of (next_txn_id : Z) (st : search) : Z * search :=
  match traversed_flag st !! next_txn_id with
  | Some v => (v, st)
  | None =>
      (0, mkSearch (cycle_stack st)
                   (<[next_txn_id := 0]> (traversed_flag st))
                   (has_traversed_txn_set st))
  end.

(** The loop of [DFS] over [waits_for_[txn_id]], with the recursive call
    as a parameter. *)
Fixpoint visit (dfs : Z -> search -> option (bool * search)) (txn_id : Z)
    (l : list Z) (st : search) : option (bool * search) :=
  match l with
  | [] => Some (false, pop txn_id st)
  | next_txn_id :: l' =>
      let '(v, st1) := flag_of next_txn_id st in
      if v =? 1 then Some (true, st1)
      else
        match dfs next_txn_id st1 with
        | Some (true, st2) => Some (true, st2)
        | Some (false, st2) => visit dfs txn_id l' st2
        | None => None
        end
  end.

Section WithOrder.

(** The order in which the range-for of [DFS] visits
    [waits_for_[txn_id]]: the container is declared outside the
    sources. *)
Variable order : gset Z -> list Z.

(** [LockManager::DFS]; [fuel] bounds the depth of the recursion. *)
Fixpoint DFS (fuel : nat) (w : gmap Z (gset Z)) (txn_id : Z) (st : search)
  : option (bool * search) :=
  match fuel with
  | O => None
  | S fuel' =>
      let st1 := push txn_id st in
      match w !! txn_id with
      | Some nexts => visit (DFS fuel' w) txn_id (order nexts) st1
      | None => Some (false, pop txn_id st1)
      end
  end.

(** The first loop of [HasCycle] over [txn_id_set_]. *)
Definition first_min (ids : gmap Z Z) : Z :=
  foldr (fun '(key, val) min_txn_id =>
           if val =? 1 then Z.min min_txn_id key else min_txn_id)
        INT_MAX (map_to_list ids).

(** The loop over [txn_id_set_] in the body of the [while]. *)
Definition next_min (ids : gmap Z Z) (traversed : gset Z) : Z :=
  foldr (fun '(key, val) min_txn_id =>
           if (val =? 1) && bool_decide (key ∉ traversed)
           then Z.min min_txn_id key else min_txn_id)
        INT_MAX (map_to_list ids).

(** [while(!DFS(min_txn_id, ...))]: [None] is out of fuel, [Some None]
    the [return false] of the body, [Some (Some st)] the exit of the
    loop. *)
Fixpoint search_from (rounds fuel : nat) (w : gmap Z (gset Z))
    (ids : gmap Z Z) (min_txn_id : Z) (st : search)
  : option (option search) :=
  match rounds with
  | O => None
  | S rounds' =>
      match DFS fuel w min_txn_id st with
      | None => None
      | Some (true, st1) => Some (Some st1)
      | Some (false, st1) =>
          let min_txn_id' := next_min ids (has_traversed_txn_set st1) in
          if min_txn_id' =? INT_MAX then Some None
          else search_from rounds' fuel w ids min_txn_id' st1
      end
  end.

(** Step 4 of [HasCycle]: the largest id on the stack ([top] of an
    empty stack has no defined result). *)
Definition largest (stack : list Z) : option Z :=
  match stack with
  | [] => None
  | top :: rest => Some (foldl (fun txn_id x => Z.max x txn_id) top rest)
  end.

(** [LockManager::HasCycle]: [Some (Some v, s')] is [true] with
    [*txn_id = v], [Some (None, s')] is [false]; [None] is out of
    fuel. *)
Definition HasCycle (fuel : nat) (s : LockManager)
  : option (option Z * LockManager) :=
  let min_txn_id := first_min (txn_id_set_ s) in
  if min_txn_id =? INT_MAX then Some (None, s)
  else
    match search_from fuel fuel (waits_for_ s) (txn_id_set_ s) min_txn_id
            (mkSearch [] ∅ ∅) with
    | None => None
    | Some None => Some (None, s)
    | Some (Some st) =>
        match largest (cycle_stack st) with
        | None => None
        | Some v =>
            Some (Some v,
                  with_graph (waits_for_ s) (<[v := 0]> (txn_id_set_ s)) s)
        end
    end.

(** Steps 3.1 and 3.2 of [RunCycleDetection]: the victim is aborted,
    [waits_for_.erase(txn_id)], and [RemoveEdge(val.first, txn_id)] for
    every key that is left. *)
Definition abort_victim (v : Z) (txn : Transaction) (s : LockManager)
  : LockManager :=
  let s1 := mkLM (table_lock_map_ s) (row_lock_map_ s) (waits_for_ s)
                 (txn_id_set_ s)
                 (<[v := SetState ABORTED txn]> (txn_map_ s)) in
  let s2 := with_graph (delete v (waits_for_ s1)) (txn_id_set_ s1) s1 in
  foldr (fun '(key, _) acc => RemoveEdge key v acc) s2
        (map_to_list (waits_for_ s2)).

(** [while(HasCycle(&txn_id))] of [RunCycleDetection], with the list of
    the transactions it aborted; the notifications of step 3.3 change
    nothing of the lock manager.  [TransactionManager::GetTransaction]
    of an unknown id has no result. *)
Fixpoint resolve (rounds fuel : nat) (s : LockManager)
  : option (list Z * LockManager) :=
  match rounds with
  | O => None
  | S rounds' =>
      match HasCycle fuel s with
      | None => None
      | Some (None, s1) => Some ([], s1)
      | Some (Some v, s1) =>
          match txn_map_ s1 !! v with
          | None => None
          | Some txn =>
              match resolve rounds' fuel (abort_victim v txn s1) with
              | Some (vs, s2) => Some (v :: vs, s2)
              | None => None
              end
          end
      end
  end.

(** One pass of the body of [RunCycleDetection]. *)
Definition detect (rounds fuel : nat) (s : LockManager)
  : option (list Z * LockManager) :=
  resolve rounds fuel (build_waits_for s).

End WithOrder.

(** Visiting in ascending order of transaction id. *)
Definition ascending (ts : gset Z) : list Z := merge_sort Z.le (elements ts).

(** *** Graph notions for the statements *)

Definition edge (w : gmap Z (gset Z)) (a b : Z) : Prop :=
  exists ts, w !! a = Some ts /\ b ∈ ts.

(** A stack (top first) along which every element waits for the one
    above it. *)
Fixpoint chain (w : gmap Z (gset Z)) (l : list Z) : Prop :=
  match l with
  | a :: (b :: _) as l' => edge w b a /\ chain w l'
  | _ => True
  end.

(** The stack of a search that stopped: a chain whose top waits for an
    element of the stack. *)
Definition closes_cycle (w : gmap Z (gset Z)) (stack : list Z) : Prop :=
  chain w stack /\
  exists top m, head stack = Some top /\ edge w top m /\ m ∈ stack.

(** The flags mark the stack. *)
Definition flags_ok (st : search) : Prop :=
  forall x, traversed_flag st !! x = Some 1 <-> x ∈ cycle_stack st.

(** A cycle can be reached from [n]. *)
Definition reaches_cycle (w : gmap Z (gset Z)) (n : Z) : Prop :=
  exists c, rtc (edge w) n c /\ tc (edge w) c c.

(** From [n] a walk leads back into the stack or into itself. *)
Inductive doomed (w : gmap Z (gset Z)) : list Z -> Z -> Prop :=
| doomed_hit stack n m :
    edge w n m -> m ∈ n :: stack -> doomed w stack n
| doomed_step stack n m :
    edge w n m -> doomed w (n :: stack) m -> doomed w stack n.

(** Every key and every target of the graph, and every key of
    [txn_id_set_]. *)
Definition nodes (s : LockManager) : gset Z :=
  dom (txn_id_set_ s) ∪ dom (waits_for_ s)
  ∪ ⋃ ((map_to_list (waits_for_ s)).*2).

(** What [AddEdge] establishes and the detection keeps: a transaction
    with an outgoing edge is marked 1 in [txn_id_set_], its id is below
    [INT_MAX] and the transaction is known. *)
Definition graph_ok (s : LockManager) : Prop :=
  forall a b, has_edge s a b ->
    txn_id_set_ s !! a = Some 1 /\ a < INT_MAX /\
    is_Some (txn_map_ s !! a).

Definition requests_ok (s : LockManager) : Prop :=
  (forall oid q r, table_lock_map_ s !! oid = Some q ->
     r ∈ request_queue_ q ->
     req_txn_id_ r < INT_MAX /\ is_Some (txn_map_ s !! req_txn_id_ r)) /\
  (forall rid q r, row_lock_map_ s !! rid = Some q ->
     r ∈ request_queue_ q ->
     req_txn_id_ r < INT_MAX /\ is_Some (txn_map_ s !! req_txn_id_ r)).

(** Transaction 1 waits for 5, 5 for 2, and 2 and 3 wait for each
    other. *)
Definition tail_into_cycle : LockManager :=
  AddEdge 3 2 (AddEdge 2 3 (AddEdge 5 2 (AddEdge 1 5
    (mkLM ∅ ∅ ∅ ∅
          {[1 := begin_txn 1; 2 := begin_txn 2; 3 := begin_txn 3;
            5 := begin_txn 5]})))).

(** Transaction 1 holds table 0 in mode X and waits for table 1, which
    transaction 2 holds in mode X while it waits for table 0. *)
Definition deadlocked : LockManager :=
  mkLM {[0 := mkQueue [mkRequest 1 EXCLUSIVE 0 None true;
                       mkRequest 2 EXCLUSIVE 0 None false] INVALID_TXN_ID;
         1 := mkQueue [mkRequest 2 EXCLUSIVE 1 None true;
                       mkRequest 1 EXCLUSIVE 1 None false] INVALID_TXN_ID]}
       ∅ ∅ ∅
       {[1 := begin_txn 1; 2 := begin_txn 2]}.

End Deadlock.
(** * B+ tree leaf pages: notions for the statements *)

Module BPlusTreeLeaf.

Import BPlusTree.

Section WithKeys.

Context {K V : Type}.
Variable comparator : K -> K -> Z.

(** The state in which the data of page [p] is [nd]; pin count and
    dirty flag of the page stay. *)
Definition set_data (p : Z) (nd : @Node K V) (t : @BPlusTree K V)
  : @BPlusTree K V :=
  with_frames
    (alter (fun f => mkFrame (pin_count_ f) (is_dirty_ f) nd) p (frames t)) t.


(** The entries of a page are split at position [i] by [key]: the
    keys before [i] are less than [key], the keys from [i] on are
    not. *)
Definition split_at (key : K) (i : nat) (es : list (K * V)) : Prop :=
  (i <= length es)%nat /\
  Forall (fun x => comparator x.1 key < 0) (take i es) /\
  Forall (fun x => 0 <= comparator x.1 key) (drop i es).

(** Every slot in use of a leaf page has been written. *)
Definition slots_written (nd : @Node K V) : Prop :=
  match nd with
  | LeafPage h _ a => 0 <= size_ h <= Z.of_nat (length a)
  | _ => False
  end.

(** What [LookUp] finds in entries split at [i]. *)
Definition found_at (key : K) (i : nat) (es : list (K * V)) : option V :=
  match es !! i with
  | Some x => if comparator x.1 key =? 0 then Some x.2 else None
  | None => None
  end.

End WithKeys.

(** A tree of one leaf page, page 1, with the keys 1 and 3. *)
Definition two_keys : result exn (@BPlusTree Z Z) unit :=
  insert_all compare_int 0 0 8 [(1, 10); (3, 30)] (make 50 4 4).

End BPlusTreeLeaf.
(** * Index iterator
      ([src/bustub/src/storage/index/index_iterator.cpp] and
       [Begin], [End], [GetLeftMostLeafPage] and [GetRightMostLeafPage]
       of [src/bustub/src/storage/page/b_plus_tree_page.cpp])

    As for the tree, calls run one at a time and the latches are left
    out.  The member [index_] is an [int]: incrementing it beyond
    [INT32_MAX] is undefined. *)

Module Iterator.

Import BPlusTree.

(** The members of [IndexIterator]; [buffer_pool_manager_] is the pool
    of the state, and [None] is [nullptr]. *)
Record IndexIterator := mkIterator {
  page_ : option Z;
  page_id_ : Z;
  index_ : Z
}.

(** [IndexIterator()] *)
Definition default_iterator : IndexIterator :=
  mkIterator None INVALID_PAGE_ID 0.

(** [operator==] and [operator!=] *)
Definition equal (a b : IndexIterator) : bool :=
  (page_id_ a =? page_id_ b) && (index_ a =? index_ b).
Definition not_equal (a b : IndexIterator) : bool :=
  negb (page_id_ a =? page_id_ b) || negb (index_ a =? index_ b).

Section WithKeys.

Context {K V : Type}.
Variable comparator : K -> K -> Z.
Variable zero_key : K.
Variable zero_value : V.

Notation "'let*' x ':=' m 'in' k" := (bindM m (fun x => k))
  (at level 10, x pattern, m at level 100, k at level 200).
Notation "m ';;' k" := (bindM m (fun _ => k))
  (at level 100, k at level 200, right associativity).


(** [IsEnd] *)
Definition IsEnd (it : IndexIterator) : @M K V bool :=
  match page_ it with
  | None => undefined
  | Some leaf_page =>
      let* size := GetSize leaf_page in
      if size =? index_ it then
        let* next := GetNextPageId leaf_page in
        ret (next =? INVALID_PAGE_ID)
      else ret false
  end.

(** [operator*] *)
Definition deref (it : IndexIterator) : @M K V (K * V) :=
  match page_ it with
  | None => undefined
  | Some leaf_page => leaf_item zero_key zero_value leaf_page (index_ it)
  end.

(** [operator++]; the iterator is returned with its new members.
    [index_++] overflows at the largest [int]. *)
Definition increment (it : IndexIterator) : @M K V IndexIterator :=
  match page_ it with
  | None => undefined
  | Some leaf_page =>
      let* next_page_id := GetNextPageId leaf_page in
      let* size := GetSize leaf_page in
      if (index_ it =? size - 1) && negb (next_page_id =? INVALID_PAGE_ID)
      then
        let* fetched := FetchPage next_page_id in
        match fetched with
        | None => throw OUT_OF_MEMORY
        | Some next_page =>
            let* id := GetPageId leaf_page in
            let* _ := UnpinPage id false in
            ret (mkIterator (Some next_page) (page_id_ it) 0)
        end
      else if index_ it =? INT32_MAX then undefined
      else ret (mkIterator (page_ it) (page_id_ it) (index_ it + 1))
  end.

(** The [while (true)] loop of [GetLeftMostLeafPage]. *)
Fixpoint leftmost (fuel : nat) (page_id : Z) (pre_page : option Z)
  : @M K V Z :=
  match fuel with
  | O => out_of_fuel
  | S fuel' =>
      let* fetched := FetchPage page_id in
      match fetched with
      | None => throw OUT_OF_MEMORY
      | Some page =>
          match pre_page with
          | Some pre => let* _ := UnpinPage pre false in ret tt
          | None => ret tt
          end;;
          let* leaf := IsLeafPage page in
          if leaf : bool then ret page
          else
            let* next := ValueAt zero_key page 0 in
            leftmost fuel' next (Some page)
      end
  end.

(** [GetLeftMostLeafPage] *)
Definition GetLeftMostLeafPage (fuel : nat) : @M K V Z :=
  let* page_id := gets root_page_id_ in
  leftmost fuel page_id None.

(** The [while (true)] loop of [GetRightMostLeafPage]. *)
Fixpoint rightmost (fuel : nat) (page_id : Z) (pre_page : option Z)
  : @M K V Z :=
  match fuel with
  | O => out_of_fuel
  | S fuel' =>
      let* fetched := FetchPage page_id in
      match fetched with
      | None => throw OUT_OF_MEMORY
      | Some page =>
          match pre_page with
          | Some pre => let* _ := UnpinPage pre false in ret tt
          | None => ret tt
          end;;
          let* leaf := IsLeafPage page in
          if leaf : bool then ret page
          else
            let* size := GetSize page in
            let last_index := size - 1 in
            let* next := ValueAt zero_key page last_index in
            rightmost fuel' next (Some page)
      end
  end.

(** [GetRightMostLeafPage] *)
Definition GetRightMostLeafPage (fuel : nat) : @M K V Z :=
  let* page_id := gets root_page_id_ in
  rightmost fuel page_id None.

(** [Begin()] *)
Definition Begin (fuel : nat) : @M K V IndexIterator :=
  let* empty := IsEmpty in
  if empty : bool then ret default_iterator
  else
    let* first_leaf_page := GetLeftMostLeafPage fuel in
    ret (mkIterator (Some first_leaf_page) first_leaf_page 0).

(** [Begin(key)] *)
Definition Begin_key (fuel : nat) (key : K) : @M K V IndexIterator :=
  let* empty := IsEmpty in
  if empty : bool then ret default_iterator
  else
    let* page := GetLeafPage comparator zero_key fuel key false SEARCH true in
    let* index := Leaf_KeyIndex comparator zero_key zero_value page key in
    ret (mkIterator (Some page) page index).

(** [End()] *)
Definition End (fuel : nat) : @M K V IndexIterator :=
  let* empty := IsEmpty in
  if empty : bool then ret default_iterator
  else
    let* page := GetRightMostLeafPage fuel in
    let* index := GetSize page in
    ret (mkIterator (Some page) page index).

(** *** Using an iterator *)

(** [n] times [++it]. *)
Fixpoint increments (n : nat) (it : IndexIterator) : @M K V IndexIterator :=
  match n with
  | O => ret it
  | S n' => let* it' := increment it in increments n' it'
  end.

(** A scan: while [IsEnd] is false, the pair under the iterator is
    appended to the result and the iterator is incremented. *)
Fixpoint scan (fuel : nat) (it : IndexIterator)
  : @M K V (list (K * V) * IndexIterator) :=
  match fuel with
  | O => out_of_fuel
  | S fuel' =>
      let* e := IsEnd it in
      if e : bool then ret ([], it)
      else
        let* x := deref it in
        let* it' := increment it in
        let* r := scan fuel' it' in
        ret (x :: r.1, r.2)
  end.




End WithKeys.

(** The tree with the keys 1, 2, 4, 5 and 6: leaf 1 has 1 and 2, leaf 2
    has 4, 5 and 6, and no key lies between the two pages. *)
Definition gap_keys : result exn (@BPlusTree Z Z) unit :=
  insert_all compare_int 0 0 8
             [(1, 10); (2, 20); (4, 40); (5, 50); (6, 60)] (make 50 4 4).

End Iterator.
(** * Properties

    ** Machine integers *)

Lemma to_int32_small z : 0 <= z <= INT32_MAX -> to_int32 z = z.
Proof.
  unfold to_int32, INT32_MAX. intros H.
  rewrite Z.mod_small; lia.
Qed.

Lemma to_size_t_small z : 0 <= z <= SIZE_MAX -> to_size_t z = z.
Proof.
  unfold to_size_t, SIZE_MAX. intros H.
  rewrite Z.mod_small; lia.
Qed.

(** ** LRU-K replacer *)

Module ReplacerProofs.
Import Replacer.

(** ** List erasure *)

Lemma erase_not_elem f l : f ∉ l -> erase f l = l.
Proof.
  induction l as [|x l IH]; simpl; [done|].
  intros Hn. apply not_elem_of_cons in Hn as [Hne Hn].
  destruct (decide (x = f)); [congruence|]. by rewrite IH.
Qed.

Lemma erase_split f l :
  f ∈ l -> exists l1 l2, l = l1 ++ f :: l2 /\ (f ∉ l1) /\ erase f l = l1 ++ l2.
Proof.
  induction l as [|x l IH]; simpl; intros Hin.
  - by apply elem_of_nil in Hin.
  - destruct (decide (x = f)) as [->|Hne].
    + exists [], l. split_and!; [done| apply not_elem_of_nil |done].
    + apply elem_of_cons in Hin as [?|Hin]; [congruence|].
      destruct (IH Hin) as (l1 & l2 & -> & Hn & ->).
      exists (x :: l1), l2. split_and!; [done| |done].
      apply not_elem_of_cons. split; [congruence|done].
Qed.

Lemma elem_of_erase f x l : NoDup l -> x ∈ erase f l <-> x ∈ l /\ x <> f.
Proof.
  intros Hnd. destruct (decide (f ∈ l)) as [Hin|Hn].
  - destruct (erase_split f l Hin) as (l1 & l2 & -> & Hn1 & ->).
    apply NoDup_app in Hnd as (_ & Hd & Hnd2).
    apply NoDup_cons in Hnd2 as [Hn2 _].
    rewrite !elem_of_app, elem_of_cons. split.
    + intros [H|H]; (split; [tauto|]); intros ->; tauto.
    + intros [[H|[H|H]] Hne]; tauto.
  - rewrite erase_not_elem by done. split; [|tauto].
    intros H. split; [done|]. intros ->. tauto.
Qed.

Lemma NoDup_erase f l : NoDup l -> NoDup (erase f l).
Proof.
  intros Hnd. destruct (decide (f ∈ l)) as [Hin|Hn].
  - destruct (erase_split f l Hin) as (l1 & l2 & -> & Hn1 & ->).
    apply NoDup_app in Hnd as (H1 & Hd & Hnd2).
    apply NoDup_cons in Hnd2 as [Hn2 H2].
    apply NoDup_app. split_and!; [done| |done].
    intros x Hx Hx2. apply (Hd x Hx). by apply elem_of_cons; right.
  - by rewrite erase_not_elem.
Qed.

Lemma sorted_erase (R : Z -> Z -> Prop) f l :
  StronglySorted R l -> StronglySorted R (erase f l).
Proof.
  intros Hs. destruct (decide (f ∈ l)) as [Hin|Hn].
  - destruct (erase_split f l Hin) as (l1 & l2 & -> & Hn1 & ->).
    apply StronglySorted_app in Hs as (Hc & H1 & H2).
    apply StronglySorted_cons in H2 as [_ H2].
    apply StronglySorted_app. split_and!; [|done|done].
    intros x y Hx Hy. apply Hc; [done|]. by apply elem_of_cons; right.
  - by rewrite erase_not_elem.
Qed.

Lemma sorted_ext (R R' : Z -> Z -> Prop) l :
  (forall a b, a ∈ l -> b ∈ l -> R a b -> R' a b) ->
  StronglySorted R l -> StronglySorted R' l.
Proof.
  induction l as [|x l IH]; intros Hext Hs; [constructor|].
  apply StronglySorted_cons in Hs as [Hf Hs].
  apply StronglySorted_cons. split.
  - rewrite Forall_forall in *. intros y Hy.
    apply Hext; [by left|by right|auto].
  - apply IH; [|done]. intros a b Ha Hb. apply Hext; by right.
Qed.


Lemma wf_make n k : 2 <= k -> wf (make n k) ghost0.
Proof.
  intros Hk. split; simpl; try done.
  - constructor.
  - intros f Hf. by apply elem_of_nil in Hf.
  - constructor.
  - constructor.
  - intros f Hf. by apply elem_of_nil in Hf.
  - intros f Hf. by apply elem_of_nil in Hf.
Qed.

Lemma wf_hist_entry r g f :
  wf r g -> f ∈ hist_list_ r ->
  exists e, entries_ r !! f = Some e /\ hit_count_ e < k_ r /\
            pos_ e = Some InHist /\ 1 <= hit_count_ e <= clock g.
Proof.
  intros Hwf Hin.
  destruct (wf_listed _ _ Hwf f) as [e He]; [apply elem_of_app; by left|].
  destruct (wf_entry _ _ Hwf f e He) as [Hc [(?&?&?)|(?&?&Hin')]].
  - exists e. split_and!; try done; lia.
  - pose proof (wf_nodup _ _ Hwf) as Hnd.
    apply NoDup_app in Hnd as (_ & Hd & _). by destruct (Hd f Hin).
Qed.

Lemma wf_cache_entry r g f :
  wf r g -> f ∈ cache_list_ r ->
  exists e, entries_ r !! f = Some e /\ k_ r <= hit_count_ e /\
            pos_ e = Some InCache /\ 1 <= hit_count_ e <= clock g.
Proof.
  intros Hwf Hin.
  destruct (wf_listed _ _ Hwf f) as [e He]; [apply elem_of_app; by right|].
  destruct (wf_entry _ _ Hwf f e He) as [Hc [(?&?&Hin')|(?&?&?)]].
  - pose proof (wf_nodup _ _ Hwf) as Hnd.
    apply NoDup_app in Hnd as (_ & Hd & _). by destruct (Hd f Hin').
  - exists e. split_and!; try done; lia.
Qed.

Lemma wf_absent r g f :
  wf r g -> entries_ r !! f = None ->
  (f ∉ hist_list_ r) /\ (f ∉ cache_list_ r).
Proof.
  intros Hwf Hn. split; intros Hin.
  - destruct (wf_listed _ _ Hwf f) as [e He];
      [apply elem_of_app; by left|congruence].
  - destruct (wf_listed _ _ Hwf f) as [e He];
      [apply elem_of_app; by right|congruence].
Qed.


(** ** Time stamps under a tick *)

Lemma first_access_tick_other o r g f x :
  o = ORecordAccess f -> x <> f ->
  first_access (tick o r g) x = first_access g x.
Proof.
  intros -> Hne. unfold first_access, tick; simpl.
  destruct (entries_ r !! f); [done|]. by rewrite lookup_insert_ne.
Qed.

Lemma last_access_tick_other r g f x :
  x <> f -> last_access (tick (ORecordAccess f) r g) x = last_access g x.
Proof.
  intros Hne. unfold last_access, tick; simpl. by rewrite lookup_insert_ne.
Qed.

Lemma last_access_tick_same r g f :
  last_access (tick (ORecordAccess f) r g) f = clock g.
Proof. unfold last_access, tick; simpl. by rewrite lookup_insert_eq. Qed.

Lemma first_access_tick_new r g f :
  entries_ r !! f = None ->
  first_access (tick (ORecordAccess f) r g) f = clock g.
Proof.
  intros Hn. unfold first_access, tick; simpl. rewrite Hn.
  by rewrite lookup_insert_eq.
Qed.

Lemma first_access_tick_old r g f e x :
  entries_ r !! f = Some e ->
  first_access (tick (ORecordAccess f) r g) x = first_access g x.
Proof. intros He. unfold first_access, tick; simpl. by rewrite He. Qed.


(** ** Preservation *)

Local Arguments tick : simpl never.
Local Arguments first_access : simpl never.
Local Arguments last_access : simpl never.

Lemma sorted_push (ts ts' : Z -> Z) f l c :
  StronglySorted (fun a b => ts b < ts a) l ->
  (forall x, x ∈ l -> ts x < c) ->
  (forall x, x ∈ l -> ts' x = ts x) ->
  ts' f = c ->
  StronglySorted (fun a b => ts' b < ts' a) (f :: l).
Proof.
  intros Hs Hlt Heq Hf. apply StronglySorted_cons. split.
  - apply Forall_forall. intros y Hy. rewrite Hf, Heq by done. auto.
  - eapply sorted_ext; [|exact Hs]. simpl. intros a b Ha Hb.
    rewrite !Heq by done. done.
Qed.

Lemma sorted_same (ts ts' : Z -> Z) l :
  StronglySorted (fun a b => ts b < ts a) l ->
  (forall x, x ∈ l -> ts' x = ts x) ->
  StronglySorted (fun a b => ts' b < ts' a) l.
Proof.
  intros Hs Heq. eapply sorted_ext; [|exact Hs]. simpl. intros a b Ha Hb.
  rewrite !Heq by done. done.
Qed.

Lemma RecordAccess_wf d f r g :
  wf r g -> clock g < SIZE_MAX -> invalid_frame r f = false ->
  exists r', RecordAccess d f r = Ok tt r' /\
             wf r' (tick (ORecordAccess f) r g) /\
             k_ r' = k_ r /\ replacer_size_ r' = replacer_size_ r.
Proof.
  intros Hwf Hclk Hinv. unfold RecordAccess. rewrite Hinv.
  pose proof (wf_k _ _ Hwf) as Hk. pose proof (wf_clock _ _ Hwf) as Hc0.
  pose proof (wf_nodup _ _ Hwf) as Hnd.
  unfold entry_at. destruct (entries_ r !! f) as [e0|] eqn:He.
  - (* the frame has an entry *)
    destruct (wf_entry _ _ Hwf f e0 He) as [Hh Hcase].
    assert (Hcount : to_size_t (hit_count_ e0 + 1) = hit_count_ e0 + 1)
      by (apply to_size_t_small; lia).
    rewrite Hcount.
    assert ((hit_count_ e0 + 1 =? 1) = false) as -> by lia.
    destruct (hit_count_ e0 + 1 =? k_ r) eqn:Hk1.
    + (* promotion to the cache list *)
      apply Z.eqb_eq in Hk1.
      destruct Hcase as [(Hlt & Hpos & Hin)|(Hge & _)]; [|lia].
      simpl. rewrite Hpos. eexists. split; [reflexivity|].
      apply NoDup_app in Hnd as (Hnh & Hdis & Hnc).
      split; [|done]. split; simpl; try done; try lia.
      * apply NoDup_app. split_and!.
        -- by apply NoDup_erase.
        -- intros x Hx. apply elem_of_erase in Hx as [Hx Hne]; [|done].
           rewrite elem_of_cons. intros [?|?]; [done|]. by apply (Hdis x).
        -- apply NoDup_cons. split; [|done]. by apply Hdis.
      * intros f' e'. rewrite lookup_insert.
        destruct (decide (f = f')) as [<-|Hne].
        -- intros [= <-]. simpl. split; [lia|]. right.
           split_and!; [lia|done|by left].
        -- intros He'. destruct (wf_entry _ _ Hwf f' e' He') as [? Hcs].
           split; [lia|]. destruct Hcs as [(?&?&?)|(?&?&?)].
           ++ left. split_and!; [done|done|].
              apply elem_of_erase; [done|]. split; [done|congruence].
           ++ right. split_and!; [done|done|by right].
      * intros f'. rewrite elem_of_app, elem_of_cons, lookup_insert.
        destruct (decide (f = f')); [eauto|].
        intros [Hx|[?|Hx]]; [|congruence|].
        -- apply elem_of_erase in Hx as [Hx _]; [|done].
           apply (wf_listed _ _ Hwf). apply elem_of_app; by left.
        -- apply (wf_listed _ _ Hwf). apply elem_of_app; by right.
      * apply sorted_erase. eapply sorted_same; [apply (wf_hist_sorted _ _ Hwf)|].
        intros x _. by eapply first_access_tick_old.
      * eapply sorted_push with (c := clock g);
          [apply (wf_cache_sorted _ _ Hwf)|apply (wf_cache_before _ _ Hwf)| |].
        -- intros x Hx. apply last_access_tick_other. intros ->.
           by apply (Hdis f).
        -- apply last_access_tick_same.
      * intros x Hx. apply elem_of_erase in Hx as [Hx _]; [|done].
        erewrite first_access_tick_old by done.
        pose proof (wf_hist_before _ _ Hwf x Hx). lia.
      * intros x. rewrite elem_of_cons. intros [->|Hx].
        -- rewrite last_access_tick_same. lia.
        -- rewrite last_access_tick_other
             by (intros ->; by apply (Hdis f)).
           pose proof (wf_cache_before _ _ Hwf x Hx). lia.
    + apply Z.eqb_neq in Hk1.
      destruct (k_ r <? hit_count_ e0 + 1) eqn:Hk2.
      * (* a further access of a cached frame *)
        apply Z.ltb_lt in Hk2.
        destruct Hcase as [(Hlt & _)|(Hge & Hpos & Hin)]; [lia|].
        simpl. rewrite Hpos. eexists. split; [reflexivity|].
        apply NoDup_app in Hnd as (Hnh & Hdis & Hnc).
        split; [|done]. split; simpl; try done; try lia.
        -- apply NoDup_app. split_and!; [done| |].
           ++ intros x Hx. rewrite elem_of_cons. intros [->|Hx'].
              ** by apply (Hdis f).
              ** apply elem_of_erase in Hx' as [Hx' _]; [|done].
                 by apply (Hdis x).
           ++ apply NoDup_cons. split; [|by apply NoDup_erase].
              intros Hx. apply elem_of_erase in Hx as [_ ?]; done.
        -- intros f' e'. rewrite lookup_insert.
           destruct (decide (f = f')) as [<-|Hne].
           ++ intros [= <-]. simpl. split; [lia|]. right.
              split_and!; [lia|done|by left].
           ++ intros He'. destruct (wf_entry _ _ Hwf f' e' He') as [? Hcs].
              split; [lia|]. destruct Hcs as [(?&?&?)|(?&?&?)].
              ** left. by split_and!.
              ** right. split_and!; [done|done|]. right.
                 apply elem_of_erase; [done|]. split; [done|congruence].
        -- intros f'. rewrite elem_of_app, elem_of_cons, lookup_insert.
           destruct (decide (f = f')); [eauto|].
           intros [Hx|[?|Hx]]; [|congruence|].
           ++ apply (wf_listed _ _ Hwf). apply elem_of_app; by left.
           ++ apply elem_of_erase in Hx as [Hx _]; [|done].
              apply (wf_listed _ _ Hwf). apply elem_of_app; by right.
        -- eapply sorted_same; [apply (wf_hist_sorted _ _ Hwf)|].
           intros x _. by eapply first_access_tick_old.
        -- eapply sorted_push with (c := clock g).
           ++ apply sorted_erase. apply (wf_cache_sorted _ _ Hwf).
           ++ intros x Hx. apply elem_of_erase in Hx as [Hx _]; [|done].
              by apply (wf_cache_before _ _ Hwf).
           ++ intros x Hx. apply elem_of_erase in Hx as [Hx Hne]; [|done].
              by apply last_access_tick_other.
           ++ apply last_access_tick_same.
        -- intros x Hx. erewrite first_access_tick_old by done.
           pose proof (wf_hist_before _ _ Hwf x Hx). lia.
        -- intros x. rewrite elem_of_cons. intros [->|Hx].
           ++ rewrite last_access_tick_same. lia.
           ++ apply elem_of_erase in Hx as [Hx Hne]; [|done].
              rewrite last_access_tick_other by done.
              pose proof (wf_cache_before _ _ Hwf x Hx). lia.
      * (* still fewer than k accesses *)
        apply Z.ltb_ge in Hk2.
        destruct Hcase as [(Hlt & Hpos & Hin)|(Hge & _)]; [|lia].
        eexists. split; [reflexivity|].
        apply NoDup_app in Hnd as (Hnh & Hdis & Hnc).
        split; [|done]. split; simpl; try done; try lia.
        -- apply NoDup_app. by split_and!.
        -- intros f' e'. rewrite lookup_insert.
           destruct (decide (f = f')) as [<-|Hne].
           ++ intros [= <-]. simpl. split; [lia|]. left.
              split_and!; [lia|done|done].
           ++ intros He'. destruct (wf_entry _ _ Hwf f' e' He') as [? Hcs].
              split; [lia|]. done.
        -- intros f' Hf'. rewrite lookup_insert.
           destruct (decide (f = f')); [eauto|]. by apply (wf_listed _ _ Hwf).
        -- eapply sorted_same; [apply (wf_hist_sorted _ _ Hwf)|].
           intros x _. by eapply first_access_tick_old.
        -- eapply sorted_same; [apply (wf_cache_sorted _ _ Hwf)|].
           intros x Hx. apply last_access_tick_other. intros ->.
           by apply (Hdis f).
        -- intros x Hx. erewrite first_access_tick_old by done.
           pose proof (wf_hist_before _ _ Hwf x Hx). lia.
        -- intros x Hx. rewrite last_access_tick_other
             by (intros ->; by apply (Hdis f)).
           pose proof (wf_cache_before _ _ Hwf x Hx). lia.
  - (* first access of the frame *)
    destruct (wf_absent _ _ _ Hwf He) as [Hnh Hnc].
    change (to_size_t (hit_count_ (default_entry d) + 1)) with 1.
    simpl. eexists. split; [reflexivity|].
    split; [|done]. split; simpl; try done; try lia.
    + apply NoDup_cons. split; [|done]. rewrite elem_of_app. tauto.
    + intros f' e'. rewrite insert_insert_eq, lookup_insert.
      destruct (decide (f = f')) as [<-|Hne].
      * intros [= <-]. simpl. split; [lia|]. left.
        split_and!; [lia|done|by left].
      * intros He'. destruct (wf_entry _ _ Hwf f' e' He') as [? Hcs].
        split; [lia|]. destruct Hcs as [(?&?&?)|(?&?&?)].
        -- left. split_and!; [done|done|by right].
        -- right. by split_and!.
    + intros f'. rewrite insert_insert_eq, lookup_insert.
      destruct (decide (f = f')); [eauto|].
      rewrite elem_of_cons. intros [?|Hx]; [congruence|].
      by apply (wf_listed _ _ Hwf).
    + eapply sorted_push with (c := clock g);
        [apply (wf_hist_sorted _ _ Hwf)|apply (wf_hist_before _ _ Hwf)| |].
      * intros x Hx. eapply first_access_tick_other; [done|].
        intros ->. done.
      * by apply first_access_tick_new.
    + eapply sorted_same; [apply (wf_cache_sorted _ _ Hwf)|].
      intros x Hx. apply last_access_tick_other. intros ->. done.
    + intros x. rewrite elem_of_cons. intros [->|Hx].
      * rewrite first_access_tick_new by done. lia.
      * erewrite first_access_tick_other; [|done|by intros ->].
        pose proof (wf_hist_before _ _ Hwf x Hx). lia.
    + intros x Hx. rewrite last_access_tick_other by (by intros ->).
      pose proof (wf_cache_before _ _ Hwf x Hx). lia.
Qed.


Lemma SetEvictable_wf f b r g :
  wf r g ->
  match SetEvictable f b r with
  | Ok _ r' => wf r' g /\ k_ r' = k_ r /\ replacer_size_ r' = replacer_size_ r
  | Throw _ r' => r' = r
  | _ => False
  end.
Proof.
  intros Hwf. unfold SetEvictable.
  destruct (invalid_frame r f); [done|].
  destruct (entries_ r !! f) as [e|] eqn:He; [|done].
  split; [|done]. destruct Hwf. split; simpl; try done.
  - intros f' e'. rewrite lookup_insert.
    destruct (decide (f = f')) as [<-|Hne]; [|by auto].
    intros [= <-]. simpl. by apply wf_entry0.
  - intros f' Hf'. rewrite lookup_insert.
    destruct (decide (f = f')); [eauto|auto].
Qed.

Lemma erase_middle f (a b : list Z) :
  f ∉ a -> erase f (a ++ f :: b) = a ++ b.
Proof.
  induction a as [|x a IH]; simpl; intros Hn.
  - by rewrite decide_True.
  - apply not_elem_of_cons in Hn as [Hne Hn].
    rewrite decide_False by congruence. by rewrite IH.
Qed.

Lemma wf_drop_hist r g f sz :
  wf r g -> f ∈ hist_list_ r ->
  wf (with_lists r sz (erase f (hist_list_ r)) (cache_list_ r)
                 (delete f (entries_ r))) g.
Proof.
  intros Hwf Hin. pose proof (wf_nodup _ _ Hwf) as Hnd.
  apply NoDup_app in Hnd as (Hnh & Hdis & Hnc).
  split; simpl; try apply Hwf.
  - apply NoDup_app. split_and!; [by apply NoDup_erase| |done].
    intros x Hx. apply elem_of_erase in Hx as [Hx _]; [|done]. by apply Hdis.
  - intros f' e'. rewrite lookup_delete.
    destruct (decide (f = f')) as [<-|Hne]; [done|].
    intros He'. destruct (wf_entry _ _ Hwf f' e' He') as [? Hcs].
    split; [done|]. destruct Hcs as [(?&?&?)|(?&?&?)]; [left|right];
      split_and!; try done.
    apply elem_of_erase; [done|]. split; [done|congruence].
  - intros f'. rewrite elem_of_app, lookup_delete. intros [Hx|Hx].
    + apply elem_of_erase in Hx as [Hx Hne]; [|done].
      rewrite decide_False by congruence.
      apply (wf_listed _ _ Hwf). apply elem_of_app; by left.
    + rewrite decide_False by (intros ->; by apply (Hdis f')).
      apply (wf_listed _ _ Hwf). apply elem_of_app; by right.
  - apply sorted_erase, Hwf.
  - intros x Hx. apply elem_of_erase in Hx as [Hx _]; [|done].
    by apply (wf_hist_before _ _ Hwf).
Qed.

Lemma wf_drop_cache r g f sz :
  wf r g -> f ∈ cache_list_ r ->
  wf (with_lists r sz (hist_list_ r) (erase f (cache_list_ r))
                 (delete f (entries_ r))) g.
Proof.
  intros Hwf Hin. pose proof (wf_nodup _ _ Hwf) as Hnd.
  apply NoDup_app in Hnd as (Hnh & Hdis & Hnc).
  split; simpl; try apply Hwf.
  - apply NoDup_app. split_and!; [done| |by apply NoDup_erase].
    intros x Hx Hx'. apply elem_of_erase in Hx' as [Hx' _]; [|done].
    by apply (Hdis x).
  - intros f' e'. rewrite lookup_delete.
    destruct (decide (f = f')) as [<-|Hne]; [done|].
    intros He'. destruct (wf_entry _ _ Hwf f' e' He') as [? Hcs].
    split; [done|]. destruct Hcs as [(?&?&?)|(?&?&?)]; [left|right];
      split_and!; try done.
    apply elem_of_erase; [done|]. split; [done|congruence].
  - intros f'. rewrite elem_of_app, lookup_delete. intros [Hx|Hx].
    + rewrite decide_False by (intros ->; by apply (Hdis f')).
      apply (wf_listed _ _ Hwf). apply elem_of_app; by left.
    + apply elem_of_erase in Hx as [Hx Hne]; [|done].
      rewrite decide_False by congruence.
      apply (wf_listed _ _ Hwf). apply elem_of_app; by right.
  - apply sorted_erase, Hwf.
  - intros x Hx. apply elem_of_erase in Hx as [Hx _]; [|done].
    by apply (wf_cache_before _ _ Hwf).
Qed.

Lemma Remove_wf f r g :
  wf r g ->
  match Remove f r with
  | Ok _ r' => wf r' g /\ k_ r' = k_ r /\ replacer_size_ r' = replacer_size_ r
  | Throw _ r' => r' = r
  | _ => False
  end.
Proof.
  intros Hwf. unfold Remove.
  destruct (invalid_frame r f); [done|].
  destruct (entries_ r !! f) as [e|] eqn:He; [|done].
  destruct (negb (evictable_ e)); [done|].
  destruct (wf_entry _ _ Hwf f e He) as [_ [(Hlt&Hpos&Hin)|(Hge&Hpos&Hin)]].
  - assert ((hit_count_ e <? k_ r) = true) as -> by lia. rewrite Hpos.
    split; [|done]. by apply wf_drop_hist.
  - assert ((hit_count_ e <? k_ r) = false) as -> by lia. rewrite Hpos.
    split; [|done]. by apply wf_drop_cache.
Qed.

(** ** The scan of [Evict] *)

Lemma scan_spec d rl m :
  (forall x, x ∈ rl -> is_Some (m !! x)) ->
  exists v rest, scan d rl m = (v, rest, m) /\
    match v with
    | Some f => exists l1 l2 e,
        rl = l1 ++ f :: l2 /\ rest = l1 ++ l2 /\
        Forall (not_evictable m) l1 /\
        m !! f = Some e /\ evictable_ e = true
    | None => rest = rl /\ Forall (not_evictable m) rl
    end.
Proof.
  induction rl as [|x rl IH]; intros Hall; simpl.
  - exists None, []. by split_and!.
  - destruct (Hall x) as [e He]; [by left|].
    unfold entry_at. rewrite He.
    destruct (evictable_ e) eqn:Hev.
    + exists (Some x), rl. split; [done|].
      exists [], rl, e. by split_and!.
    + destruct IH as (v & rest & Hscan & Hv).
      { intros y Hy. apply Hall. by right. }
      rewrite Hscan. exists v, (x :: rest). split; [done|].
      assert (not_evictable m x) as Hx.
      { intros e' He'. congruence. }
      destruct v as [f|].
      * destruct Hv as (l1 & l2 & e' & -> & -> & Hl1 & Hf & Hfe).
        exists (x :: l1), l2, e'. split_and!; try done.
        by constructor.
      * destruct Hv as [-> Hne]. split; [done|]. by constructor.
Qed.


Lemma hist_iff_class r g f : wf r g -> f ∈ hist_list_ r <-> history_class r f.
Proof.
  intros Hwf. split.
  - intros Hin. destruct (wf_hist_entry _ _ _ Hwf Hin) as (e & ? & ? & _).
    by exists e.
  - intros (e & He & Hlt).
    destruct (wf_entry _ _ Hwf f e He) as [_ [(?&?&?)|(?&?&?)]]; [done|lia].
Qed.

Lemma cache_iff_class r g f : wf r g -> f ∈ cache_list_ r <-> cache_class r f.
Proof.
  intros Hwf. split.
  - intros Hin. destruct (wf_cache_entry _ _ _ Hwf Hin) as (e & ? & ? & _).
    by exists e.
  - intros (e & He & Hlt).
    destruct (wf_entry _ _ Hwf f e He) as [_ [(?&?&?)|(?&?&?)]]; [lia|done].
Qed.

Lemma elem_of_rev (x : Z) l : x ∈ rev l <-> x ∈ l.
Proof. rewrite !list_elem_of_In. symmetry. apply in_rev. Qed.

(** What a scan from the tail finds in a list sorted newest-first. *)
Lemma scan_oldest d (ts : Z -> Z) l m :
  NoDup l ->
  StronglySorted (fun a b => ts b < ts a) l ->
  (forall x, x ∈ l -> is_Some (m !! x)) ->
  exists v rest, scan d (rev l) m = (v, rest, m) /\
    match v with
    | Some f =>
        f ∈ l /\ rev rest = erase f l /\
        (exists e, m !! f = Some e /\ evictable_ e = true) /\
        (forall f' e', f' ∈ l -> m !! f' = Some e' -> evictable_ e' = true ->
                       ts f <= ts f')
    | None => rev rest = l /\ Forall (not_evictable m) l
    end.
Proof.
  intros Hnd Hs Hall.
  destruct (scan_spec d (rev l) m) as (v & rest & Hscan & Hv).
  { intros x Hx. apply Hall. by rewrite elem_of_rev in Hx. }
  exists v, rest. split; [done|]. destruct v as [f|].
  - destruct Hv as (l1 & l2 & e & Hrl & -> & Hl1 & Hf & Hfe).
    assert (l = rev l2 ++ f :: rev l1) as Hl.
    { rewrite <- (rev_involutive l), Hrl, rev_app_distr. simpl.
      by rewrite <- app_assoc. }
    rewrite Hl in Hnd, Hs. rewrite Hl.
    apply NoDup_app in Hnd as (Hn2 & Hdis & Hn1).
    apply StronglySorted_app in Hs as (Hcross & _ & _).
    split_and!.
    + apply elem_of_app. right. by left.
    + rewrite rev_app_distr. rewrite erase_middle; [done|].
      intros Hin. apply (Hdis f Hin). by left.
    + by exists e.
    + intros f' e' Hin He' Hev'.
      apply elem_of_app in Hin as [Hin|Hin].
      * assert (ts f < ts f'); [|lia]. apply Hcross; [done|by left].
      * apply elem_of_cons in Hin as [->|Hin]; [lia|].
        rewrite elem_of_rev in Hin.
        rewrite Forall_forall in Hl1. specialize (Hl1 f' Hin e' He').
        congruence.
  - destruct Hv as [-> Hne]. split; [apply rev_involutive|].
    rewrite Forall_forall in *. intros x Hx. apply Hne.
    by rewrite elem_of_rev.
Qed.

Lemma Evict_wf d r g :
  wf r g ->
  exists v r', Evict d r = Ok v r' /\ wf r' g /\ k_ r' = k_ r /\
    replacer_size_ r' = replacer_size_ r /\
    match v with
    | Some f =>
        is_evictable r f /\ entries_ r' !! f = None /\
        ((history_class r f /\
          forall f', is_evictable r f' -> history_class r f' ->
                     first_access g f <= first_access g f') \/
         (cache_class r f /\
          (forall f', is_evictable r f' -> ~ history_class r f') /\
          forall f', is_evictable r f' -> cache_class r f' ->
                     last_access g f <= last_access g f'))
    | None => r' = r /\ forall f, ~ is_evictable r f
    end.
Proof.
  intros Hwf. unfold Evict.
  pose proof (wf_nodup _ _ Hwf) as Hnd.
  apply NoDup_app in Hnd as (Hnh & Hdis & Hnc).
  destruct (scan_oldest d (first_access g) (hist_list_ r) (entries_ r))
    as (v1 & h1 & Hs1 & Hv1); [done|apply Hwf| |].
  { intros x Hx. apply (wf_listed _ _ Hwf). apply elem_of_app; by left. }
  rewrite Hs1. destruct v1 as [f|].
  - destruct Hv1 as (Hin & -> & (e & He & Hev) & Hold).
    eexists _, _. split; [reflexivity|]. split_and!; try done.
    + by apply wf_drop_hist.
    + by exists e.
    + simpl. apply lookup_delete_eq.
    + left. split; [by eapply hist_iff_class|].
      intros f' (e' & He' & Hev') Hc'. eapply Hold; [|done|done].
      by eapply hist_iff_class.
  - destruct Hv1 as [-> Hne1].
    destruct (scan_oldest d (last_access g) (cache_list_ r) (entries_ r))
      as (v2 & c2 & Hs2 & Hv2); [done|apply Hwf| |].
    { intros x Hx. apply (wf_listed _ _ Hwf). apply elem_of_app; by right. }
    rewrite Hs2. destruct v2 as [f|].
    + destruct Hv2 as (Hin & -> & (e & He & Hev) & Hold).
      eexists _, _. split; [reflexivity|]. split_and!; try done.
      * by apply wf_drop_cache.
      * by exists e.
      * simpl. apply lookup_delete_eq.
      * right. split_and!; [by eapply cache_iff_class| |].
        -- intros f' (e' & He' & Hev') Hc'.
           apply (hist_iff_class _ _ _ Hwf) in Hc'.
           rewrite Forall_forall in Hne1. specialize (Hne1 f' Hc' e' He').
           congruence.
        -- intros f' (e' & He' & Hev') Hc'. eapply Hold; [|done|done].
           by eapply cache_iff_class.
    + destruct Hv2 as [-> Hne2].
      assert (with_lists r (curr_size_ r) (hist_list_ r) (cache_list_ r)
                         (entries_ r) = r) as Hr by (by destruct r).
      eexists _, _. split; [reflexivity|]. rewrite Hr.
      split_and!; try done.
      intros f (e & He & Hev).
      destruct (wf_entry _ _ Hwf f e He) as [_ [(?&?&Hin)|(?&?&Hin)]].
      * rewrite Forall_forall in Hne1. specialize (Hne1 f Hin e He).
        congruence.
      * rewrite Forall_forall in Hne2. specialize (Hne2 f Hin e He).
        congruence.
Qed.


Lemma step_wf d o r g :
  wf r g -> clock g < SIZE_MAX ->
  match step d o r with
  | Ok _ r' => wf r' (tick o r g) /\ k_ r' = k_ r
  | Throw _ r' => r' = r
  | _ => False
  end.
Proof.
  intros Hwf Hclk. destruct o as [f|f b|f|]; simpl.
  - destruct (invalid_frame r f) eqn:Hinv.
    + unfold RecordAccess. by rewrite Hinv.
    + destruct (RecordAccess_wf d f r g Hwf Hclk Hinv) as (r' & -> & ? & ? & _).
      done.
  - pose proof (SetEvictable_wf f b r g Hwf) as H.
    destruct (SetEvictable f b r); try done. tauto.
  - pose proof (Remove_wf f r g Hwf) as H.
    destruct (Remove f r); try done. tauto.
  - destruct (Evict_wf d r g Hwf) as (v & r' & -> & ? & ? & _). done.
Qed.

Lemma clock_tick o r g : clock g <= clock (tick o r g) <= clock g + 1.
Proof. destruct o; unfold tick; simpl; lia. Qed.

Lemma run_wf d ops : forall r g,
  wf r g -> clock g + Z.of_nat (length ops) <= SIZE_MAX ->
  exists r' g', run d ops r g = Some (r', g') /\ wf r' g' /\ k_ r' = k_ r.
Proof.
  induction ops as [|o ops IH]; intros r g Hwf Hlen.
  - by exists r, g.
  - rewrite length_cons, Nat2Z.inj_succ in Hlen.
    assert (clock g < SIZE_MAX) as Hclk by lia.
    pose proof (step_wf d o r g Hwf Hclk) as Hstep. simpl.
    destruct (step d o r) as [[] r'|e r'| |]; [| |done|done].
    + destruct Hstep as [Hwf' Hk].
      pose proof (clock_tick o r g).
      destruct (IH r' (tick o r g) Hwf') as (r'' & g'' & ? & ? & ?); [lia|].
      exists r'', g''. split_and!; [done|done|congruence].
    + subst r'.
      destruct (IH r g Hwf) as (r'' & g'' & ? & ? & ?); [lia|].
      by exists r'', g''.
Qed.

(** ** The ordering guarantee of [Evict] *)

(** C3, as the specification states it, fails at k = 3: frame 0 is
    accessed at times 0 and 2, frame 1 at time 1; both are evictable and
    in the history class, and the victim is frame 0. *)
Lemma evict_history_not_least_recent :
  match run true [ORecordAccess 0; ORecordAccess 1; ORecordAccess 0;
                  OSetEvictable 0 true; OSetEvictable 1 true]
            (make 7 3) ghost0 with
  | Some (r, g) => ~ evicts_least_recent true r g
  | None => False
  end.
Proof.
  vm_compute run. intros H.
  specialize (H 0 _ eq_refl 1).
  assert (last_access
            {| clock := 3; first_at := <[1:=1]> (<[0:=0]> ∅);
               last_at := <[0:=2]> (<[1:=1]> (<[0:=0]> ∅)) |} 0
          <= last_access
            {| clock := 3; first_at := <[1:=1]> (<[0:=0]> ∅);
               last_at := <[0:=2]> (<[1:=1]> (<[0:=0]> ∅)) |} 1) as Hle.
  { apply H.
    - eexists. split; [vm_compute; reflexivity|done].
    - split; intros _; eexists; (split; [vm_compute; reflexivity|simpl; lia]). }
  vm_compute in Hle. by apply Hle.
Qed.


(** C3 (amended).  After any history of calls on a fresh replacer with
    k >= 2, a successful [Evict] returns an evictable frame; it is of
    the history class (fewer than k recorded accesses) whenever an
    evictable history-class frame exists, and of the cache class
    otherwise.  Among the evictable frames of the history class the
    victim is the one whose first recorded access is the oldest; among
    those of the cache class it is the one whose most recent recorded
    access is the oldest. *)
Theorem evict_order d n k ops :
  2 <= k -> Z.of_nat (length ops) <= SIZE_MAX ->
  exists r g, run d ops (make n k) ghost0 = Some (r, g) /\
  exists v r', Evict d r = Ok v r' /\
    match v with
    | Some f =>
        is_evictable r f /\
        ((history_class r f /\
          forall f', is_evictable r f' -> history_class r f' ->
                     first_access g f <= first_access g f') \/
         (cache_class r f /\
          (forall f', is_evictable r f' -> ~ history_class r f') /\
          forall f', is_evictable r f' -> cache_class r f' ->
                     last_access g f <= last_access g f'))
    | None => forall f, ~ is_evictable r f
    end.
Proof.
  intros Hk Hlen.
  destruct (run_wf d ops (make n k) ghost0 (wf_make n k Hk))
    as (r & g & Hrun & Hwf & _); [simpl; lia|].
  exists r, g. split; [done|].
  destruct (Evict_wf d r g Hwf) as (v & r' & Hev & _ & _ & _ & Hv).
  exists v, r'. split; [done|].
  destruct v as [f|]; [|tauto].
  destruct Hv as (? & _ & ?). done.
Qed.

Lemma evict_order_witness :
  exists r g,
    run true [ORecordAccess 0; ORecordAccess 1; ORecordAccess 0;
              OSetEvictable 0 true; OSetEvictable 1 true]
        (make 7 3) ghost0 = Some (r, g) /\
  exists v r', Evict true r = Ok v r' /\
    match v with
    | Some f =>
        is_evictable r f /\
        ((history_class r f /\
          forall f', is_evictable r f' -> history_class r f' ->
                     first_access g f <= first_access g f') \/
         (cache_class r f /\
          (forall f', is_evictable r f' -> ~ history_class r f') /\
          forall f', is_evictable r f' -> cache_class r f' ->
                     last_access g f <= last_access g f'))
    | None => forall f, ~ is_evictable r f
    end.
Proof.
  apply (evict_order true 7 3); [lia|].
  unfold SIZE_MAX. simpl. lia.
Defined.

(** ** The frame-id guard *)

(** C10.  With a capacity that fits [int32_t], each of [RecordAccess],
    [SetEvictable] and [Remove] throws [std::invalid_argument] exactly
    when [frame_id > num_frames]; the id [num_frames] itself is accepted,
    and a first access to it creates an entry at the head of the history
    list like for any other frame. *)
Theorem frame_guard_boundary d r f b :
  0 <= replacer_size_ r <= INT32_MAX ->
  ((exists s, RecordAccess d f r = Throw InvalidArgument s)
     <-> replacer_size_ r < f) /\
  ((exists s, SetEvictable f b r = Throw InvalidArgument s)
     <-> replacer_size_ r < f) /\
  ((exists s, Remove f r = Throw InvalidArgument s)
     <-> replacer_size_ r < f) /\
  (entries_ r !! replacer_size_ r = None ->
   RecordAccess d (replacer_size_ r) r =
     Ok tt (with_lists r (to_size_t (curr_size_ r + 1))
              (replacer_size_ r :: hist_list_ r) (cache_list_ r)
              (<[replacer_size_ r := mkEntry 1 d (Some InHist)]>
                 (entries_ r)))).
Proof.
  intros Hn.
  assert (Hinv : forall x, invalid_frame r x = true <-> replacer_size_ r < x).
  { intros x. unfold invalid_frame. rewrite to_int32_small by done. lia. }
  split_and!.
  - unfold RecordAccess. split.
    + intros [s Hs]. apply Hinv.
      destruct (invalid_frame r f); [done|].
      destruct (entry_at d f (entries_ r)) as [e0 m0].
      repeat (match type of Hs with
              | context [if ?c then _ else _] => destruct c
              | context [match ?c with _ => _ end] => destruct c
              end; try discriminate).
    + intros Hf. apply Hinv in Hf. rewrite Hf. by exists r.
  - unfold SetEvictable. split.
    + intros [s Hs]. apply Hinv.
      destruct (invalid_frame r f); [done|].
      destruct (entries_ r !! f); discriminate.
    + intros Hf. apply Hinv in Hf. rewrite Hf. by exists r.
  - unfold Remove. split.
    + intros [s Hs]. apply Hinv.
      destruct (invalid_frame r f); [done|].
      destruct (entries_ r !! f) as [e|]; [|discriminate].
      repeat (match type of Hs with
              | context [if ?c then _ else _] => destruct c
              | context [match ?c with _ => _ end] => destruct c
              end; try discriminate).
    + intros Hf. apply Hinv in Hf. rewrite Hf. by exists r.
  - intros He. unfold RecordAccess.
    assert (invalid_frame r (replacer_size_ r) = false) as ->.
    { destruct (invalid_frame r (replacer_size_ r)) eqn:H; [|done].
      apply Hinv in H. lia. }
    unfold entry_at. rewrite He.
    change (to_size_t (hit_count_ (default_entry d) + 1)) with 1.
    simpl. by rewrite insert_insert_eq.
Qed.

Lemma frame_guard_boundary_witness :
  ((exists s, RecordAccess true 4 (make 3 2) = Throw InvalidArgument s)
     <-> 3 < 4) /\
  ((exists s, SetEvictable 4 true (make 3 2) = Throw InvalidArgument s)
     <-> 3 < 4) /\
  ((exists s, Remove 4 (make 3 2) = Throw InvalidArgument s) <-> 3 < 4) /\
  (entries_ (make 3 2) !! 3 = None ->
   RecordAccess true 3 (make 3 2) =
     Ok tt (with_lists (make 3 2) (to_size_t (0 + 1)) [3] []
              (<[3 := mkEntry 1 true (Some InHist)]> ∅))).
Proof.
  apply (frame_guard_boundary true (make 3 2) 4 true).
  unfold INT32_MAX. simpl. lia.
Defined.

(** The boundary frame of a three-frame replacer can be made evictable
    and is then the victim. *)
Example boundary_frame_evicted :
  bind (RecordAccess true 3 (make 3 2)) (fun _ r =>
  bind (SetEvictable 3 true r) (fun _ r => Evict true r))
  = Ok (Some 3) (make 3 2).
Proof. vm_compute. reflexivity. Qed.

End ReplacerProofs.
(** ** Lock manager *)

Module LockManagerProofs.
Import LockManager.

(** *** Admission of a lock request while shrinking *)

(** C7, as the specification states it, fails: a SHRINKING transaction
    under READ_UNCOMMITTED is not admitted for mode X either, neither on
    a table nor on a row whose table it holds in mode IX. *)
Lemma shrinking_read_uncommitted_exclusive_refused :
  ~ admitted (LockTable 1 EXCLUSIVE 7 (one_txn shrinking_ru)) /\
  ~ admitted (LockTable 1 INTENTION_EXCLUSIVE 7 (one_txn shrinking_ru)) /\
  ~ admitted
      (LockRow 1 EXCLUSIVE 7 (0, 0)
         (one_txn (BookKeeping_table INTENTION_EXCLUSIVE 7 shrinking_ru))).
Proof.
  split_and!; intros (p & s & H); vm_compute in H; discriminate.
Qed.

(** C7 (amended).  In state SHRINKING under READ_UNCOMMITTED no lock
    request is admitted.  [LockTable] aborts the transaction for every
    mode: with LOCK_ON_SHRINKING for X and IX, with
    LOCK_SHARED_ON_READ_UNCOMMITTED for S, IS and SIX.  [LockRow]
    aborts the transaction for X (TABLE_LOCK_NOT_PRESENT when it holds
    none of IX, X, SIX on the table, LOCK_ON_SHRINKING otherwise) and
    for S (LOCK_SHARED_ON_READ_UNCOMMITTED); for the intention modes it
    raises a logic error and leaves the transaction as it is. *)
Theorem shrinking_read_uncommitted_refused s txn m oid rid :
  txn_map_ s !! txn_id_ txn = Some txn ->
  state_ txn = SHRINKING ->
  isolation_level_ txn = READ_UNCOMMITTED ->
  LockTable (txn_id_ txn) m oid s =
    Throw (TransactionAbortException (txn_id_ txn)
             (match m with
              | EXCLUSIVE | INTENTION_EXCLUSIVE => LOCK_ON_SHRINKING
              | _ => LOCK_SHARED_ON_READ_UNCOMMITTED
              end))
          (with_txn (SetState ABORTED txn) s) /\
  LockRow (txn_id_ txn) m oid rid s =
    match m with
    | EXCLUSIVE =>
        Throw (TransactionAbortException (txn_id_ txn)
                 (if bool_decide (oid ∈ ix_table_lock_set_ txn)
                     || bool_decide (oid ∈ x_table_lock_set_ txn)
                     || bool_decide (oid ∈ six_table_lock_set_ txn)
                  then LOCK_ON_SHRINKING else TABLE_LOCK_NOT_PRESENT))
              (with_txn (SetState ABORTED txn) s)
    | SHARED =>
        Throw (TransactionAbortException (txn_id_ txn)
                 LOCK_SHARED_ON_READ_UNCOMMITTED)
              (with_txn (SetState ABORTED txn) s)
    | _ => Throw logic_error s
    end.
Proof.
  intros Htxn Hst Hiso. split.
  - unfold LockTable. rewrite Htxn, Hst, Hiso. by destruct m.
  - unfold LockRow, IsTableFit. rewrite Htxn.
    destruct m; simpl; rewrite ?Hst, ?Hiso; try done.
    by destruct (bool_decide (oid ∈ ix_table_lock_set_ txn)
                 || bool_decide (oid ∈ x_table_lock_set_ txn)
                 || bool_decide (oid ∈ six_table_lock_set_ txn)).
Qed.

Lemma shrinking_read_uncommitted_refused_witness :
  LockTable 1 SHARED 7 (one_txn shrinking_ru) =
    Throw (TransactionAbortException 1 LOCK_SHARED_ON_READ_UNCOMMITTED)
          (with_txn (SetState ABORTED shrinking_ru) (one_txn shrinking_ru)) /\
  LockRow 1 SHARED 7 (0, 0) (one_txn shrinking_ru) =
    Throw (TransactionAbortException 1 LOCK_SHARED_ON_READ_UNCOMMITTED)
          (with_txn (SetState ABORTED shrinking_ru) (one_txn shrinking_ru)).
Proof.
  apply (shrinking_read_uncommitted_refused
           (one_txn shrinking_ru) shrinking_ru SHARED 7 (0, 0));
    reflexivity.
Defined.

(** *** Edges of the waits-for graph *)

Lemma GrantCompatiable_sym a b : GrantCompatiable a b = GrantCompatiable b a.
Proof. by destruct a, b. Qed.

Lemma GrantCompatiable_matrix a b : GrantCompatiable a b = compatible a b.
Proof. by destruct a, b. Qed.

Lemma has_edge_AddEdge a b s t1 t2 :
  has_edge (AddEdge a b s) t1 t2 <-> (t1 = a /\ t2 = b) \/ has_edge s t1 t2.
Proof.
  unfold has_edge, AddEdge; simpl. split.
  - intros (ts & Hts & Hin). rewrite lookup_insert in Hts.
    destruct (decide (a = t1)) as [->|Hne].
    + injection Hts as <-. apply elem_of_union in Hin as [Hin|Hin].
      * apply elem_of_singleton in Hin. by left.
      * right. destruct (waits_for_ s !! t1) as [ts|] eqn:E; [by exists ts|].
        simpl in Hin. by apply not_elem_of_empty in Hin.
    + right. by exists ts.
  - intros [[-> ->]|(ts & Hts & Hin)].
    + eexists. rewrite lookup_insert_eq. split; [done|]. set_solver.
    + rewrite lookup_insert. destruct (decide (a = t1)) as [->|Hne].
      * eexists. split; [done|]. rewrite Hts. set_solver.
      * by exists ts.
Qed.

Lemma table_edges_from_sound first rest s t1 t2 :
  has_edge (table_edges_from first rest s) t1 t2 ->
  has_edge s t1 t2 \/ waits_behind (first :: rest) t1 t2.
Proof.
  revert s. induction rest as [|second rest IH]; intros s; simpl; [by left|].
  intros H. apply IH in H as [H|H].
  - destruct (conflicting first second) eqn:Hc; [|by left].
    apply andb_true_iff in Hc as [Hg Hm]. apply negb_true_iff in Hm.
    destruct (granted_ first) eqn:Hf, (granted_ second) eqn:Hs;
      try discriminate Hg;
      apply has_edge_AddEdge in H as [[-> ->]|H]; try (by left); right.
    + exists second, first. split_and!; try done.
      * right; by left.
      * by left.
      * by rewrite GrantCompatiable_sym.
    + exists first, second. split_and!; try done.
      * by left.
      * right; by left.
  - right. destruct H as (r1 & r2 & H1 & H2 & ?).
    exists r1, r2. split_and!; try tauto.
    + apply elem_of_cons in H1 as [->|H1]; [by left|]. right; by right.
    + apply elem_of_cons in H2 as [->|H2]; [by left|]. right; by right.
Qed.

(** Table queues: every edge added goes from the waiting transaction to
    the one that holds the conflicting lock. *)
Lemma table_edges_sound l s t1 t2 :
  has_edge (table_edges l s) t1 t2 ->
  has_edge s t1 t2 \/ waits_behind l t1 t2.
Proof.
  revert s. induction l as [|first rest IH]; intros s; simpl; [by left|].
  intros H. apply IH in H as [H|H].
  - by apply table_edges_from_sound in H.
  - right. destruct H as (r1 & r2 & H1 & H2 & ?).
    exists r1, r2. split_and!; try tauto; by right.
Qed.

Lemma row_edges_from_reversed first rest s t1 t2 :
  has_edge (row_edges_from first rest s) t1 t2 ->
  has_edge s t1 t2 \/ waits_behind (first :: rest) t2 t1.
Proof.
  revert s. induction rest as [|second rest IH]; intros s; simpl; [by left|].
  intros H. apply IH in H as [H|H].
  - destruct (conflicting first second) eqn:Hc; [|by left].
    apply andb_true_iff in Hc as [Hg Hm]. apply negb_true_iff in Hm.
    destruct (granted_ first) eqn:Hf, (granted_ second) eqn:Hs;
      try discriminate Hg;
      apply has_edge_AddEdge in H as [[-> ->]|H]; try (by left); right.
    + exists second, first. split_and!; try done.
      * right; by left.
      * by left.
      * by rewrite GrantCompatiable_sym.
    + exists first, second. split_and!; try done.
      * by left.
      * right; by left.
  - right. destruct H as (r1 & r2 & H1 & H2 & ?).
    exists r1, r2. split_and!; try tauto.
    + apply elem_of_cons in H1 as [->|H1]; [by left|]. right; by right.
    + apply elem_of_cons in H2 as [->|H2]; [by left|]. right; by right.
Qed.

(** Row queues: every edge added goes the other way, from the holder to
    the waiting transaction. *)
Lemma row_edges_reversed l s t1 t2 :
  has_edge (row_edges l s) t1 t2 ->
  has_edge s t1 t2 \/ waits_behind l t2 t1.
Proof.
  revert s. induction l as [|first rest IH]; intros s; simpl; [by left|].
  intros H. apply IH in H as [H|H].
  - by apply row_edges_from_reversed in H.
  - right. destruct H as (r1 & r2 & H1 & H2 & ?).
    exists r1, r2. split_and!; try tauto; by right.
Qed.

(** C9 fails on the code for row queues.  Transaction 2 waits for the X
    lock that transaction 1 holds on a row: the graph that the detector
    builds has the edge 1 -> 2 and not the edge 2 -> 1.  The same queue
    on a table gives 2 -> 1. *)
Theorem row_queue_edge_reversed :
  waits_behind (request_queue_ blocked_queue) 2 1 /\
  has_edge (build_waits_for blocked_on_row) 1 2 /\
  ~ has_edge (build_waits_for blocked_on_row) 2 1 /\
  has_edge (build_waits_for blocked_on_table) 2 1 /\
  ~ has_edge (build_waits_for blocked_on_table) 1 2.
Proof.
  assert (Hrow : waits_for_ (build_waits_for blocked_on_row) = {[1 := {[2]}]})
    by (vm_compute; reflexivity).
  assert (Htab : waits_for_ (build_waits_for blocked_on_table) = {[2 := {[1]}]})
    by (vm_compute; reflexivity).
  unfold has_edge. rewrite Hrow, Htab. split_and!.
  - exists (mkRequest 2 EXCLUSIVE 0 (Some (0, 0)) false),
           (mkRequest 1 EXCLUSIVE 0 (Some (0, 0)) true).
    split_and!; [right; by left|by left|done..].
  - exists {[2]}. split; [done|set_solver].
  - intros (ts & Hts & _). by rewrite lookup_singleton_ne in Hts.
  - exists {[1]}. split; [done|set_solver].
  - intros (ts & Hts & _). by rewrite lookup_singleton_ne in Hts.
Qed.

(** *** Requests of a queue *)

Lemma granted_requests_app l1 l2 :
  granted_requests (l1 ++ l2) = granted_requests l1 ++ granted_requests l2.
Proof.
  induction l1 as [|r l1 IH]; simpl; [done|].
  destruct (granted_ r); simpl; by rewrite IH.
Qed.

Lemma granted_modes_app l1 l2 :
  granted_modes (l1 ++ l2) = granted_modes l1 ++ granted_modes l2.
Proof. unfold granted_modes. by rewrite granted_requests_app, fmap_app. Qed.

Lemma granted_modes_cons r l :
  granted_modes (r :: l) =
    (if granted_ r then [lock_mode_ r] else []) ++ granted_modes l.
Proof. unfold granted_modes. simpl. by destruct (granted_ r). Qed.

Lemma sorted_drop_middle {A} (R : A -> A -> Prop) a x b :
  StronglySorted R (a ++ x ++ b) -> StronglySorted R (a ++ b).
Proof.
  rewrite !StronglySorted_app. intros (H1 & H2 & H3 & H4 & H5).
  split_and!; try done. intros u v Hu Hv. apply H1; [done|].
  apply elem_of_app; by right.
Qed.

Lemma sorted_perm_sym {A} (R : A -> A -> Prop) l l' :
  (forall a b, R a b -> R b a) ->
  l ≡ₚ l' -> StronglySorted R l -> StronglySorted R l'.
Proof.
  intros Hsym Hp. induction Hp as [|x l l' Hp IH|x y l|l l' l'' _ IH1 _ IH2].
  - done.
  - rewrite !StronglySorted_cons. intros [Hf Hs]. split; [|by apply IH].
    by rewrite <- Hp.
  - rewrite !StronglySorted_cons, !Forall_cons.
    intros [[Hyx Hy] [Hx Hs]]. split_and!; auto.
  - auto.
Qed.

Lemma compat_sym a b : compat a b -> compat b a.
Proof. unfold compat. by rewrite GrantCompatiable_sym. Qed.

Lemma compatible_with_all_spec hg m :
  compatible_with_all hg m = true <->
  Forall (fun a => compat a m) (lock_mode_ <$> hg).
Proof.
  unfold compatible_with_all. induction hg as [|g hg IH]; simpl.
  - split; [constructor|done].
  - rewrite andb_true_iff, Forall_cons, IH. done.
Qed.

Lemma find_request_Some t l r :
  find_request t l = Some r -> r ∈ l /\ req_txn_id_ r = t.
Proof.
  induction l as [|x l IH]; simpl; [done|].
  destruct (req_txn_id_ x =? t) eqn:E.
  - intros [= ->]. split; [by left|lia].
  - intros H. destruct (IH H). split; [by right|done].
Qed.

Lemma find_request_None t l r :
  find_request t l = None -> r ∈ l -> req_txn_id_ r <> t.
Proof.
  induction l as [|x l IH]; simpl; intros H Hin.
  - by apply elem_of_nil in Hin.
  - destruct (req_txn_id_ x =? t) eqn:E; [done|].
    apply elem_of_cons in Hin as [->|Hin]; [lia|auto].
Qed.

Lemma request_unique t l r r' :
  NoDup (req_txn_id_ <$> l) ->
  r ∈ l -> r' ∈ l -> req_txn_id_ r = t -> req_txn_id_ r' = t -> r = r'.
Proof.
  induction l as [|x l IH]; simpl; intros Hnd Hr Hr' Ht Ht'.
  - by apply elem_of_nil in Hr.
  - apply NoDup_cons in Hnd as [Hx Hnd].
    apply elem_of_cons in Hr as [->|Hr], Hr' as [->|Hr']; try done.
    + destruct Hx. apply list_elem_of_fmap. exists r'. split; [congruence|done].
    + destruct Hx. apply list_elem_of_fmap. exists r. split; [congruence|done].
    + by apply IH.
Qed.

Lemma erase_request_split t l r :
  find_request t l = Some r ->
  exists l1 l2, l = l1 ++ r :: l2 /\ erase_request t l = l1 ++ l2.
Proof.
  induction l as [|x l IH]; simpl; [done|].
  destruct (req_txn_id_ x =? t) eqn:E.
  - intros [= ->]. by exists [], l.
  - intros H. destruct (IH H) as (l1 & l2 & -> & ->).
    by exists (x :: l1), l2.
Qed.

Lemma erase_request_None t l :
  find_request t l = None -> erase_request t l = l.
Proof.
  induction l as [|x l IH]; simpl; [done|].
  destruct (req_txn_id_ x =? t); [done|]. intros H. by rewrite IH.
Qed.

Lemma find_granted_Some t l r :
  find_granted t l = Some r ->
  exists l1 l2, l = l1 ++ r :: l2 /\ erase_granted t l = l1 ++ l2.
Proof.
  induction l as [|x l IH]; simpl; [done|].
  destruct ((req_txn_id_ x =? t) && granted_ x) eqn:E.
  - intros [= ->]. by exists [], l.
  - intros H. destruct (IH H) as (l1 & l2 & -> & ->).
    by exists (x :: l1), l2.
Qed.

(** Dropping a request keeps a queue well formed. *)
Lemma queue_ok_drop l1 r l2 u u' :
  queue_ok (mkQueue (l1 ++ r :: l2) u) -> queue_ok (mkQueue (l1 ++ l2) u').
Proof.
  unfold queue_ok; simpl. intros [Hs Hnd]. split.
  - rewrite granted_modes_app in *. rewrite granted_modes_cons in Hs.
    by apply sorted_drop_middle in Hs.
  - rewrite fmap_app in *. rewrite fmap_cons in Hnd.
    apply NoDup_app in Hnd as (H1 & H2 & H3).
    apply NoDup_cons in H3 as [H3 H4].
    apply NoDup_app. split_and!; [done| |done].
    intros x Hx Hx'. apply (H2 x Hx). by right.
Qed.

Lemma queue_ok_upgrading l u u' :
  queue_ok (mkQueue l u) -> queue_ok (mkQueue l u').
Proof. done. Qed.

Lemma queue_ok_empty : queue_ok empty_queue.
Proof. split; simpl; constructor. Qed.

(** Appending a request that is not granted, for a transaction that has
    none in the queue. *)
Lemma queue_ok_append l u u' t m oid rid :
  queue_ok (mkQueue l u) ->
  (forall r, r ∈ l -> req_txn_id_ r <> t) ->
  queue_ok (mkQueue (l ++ [new_request t m oid rid]) u').
Proof.
  unfold queue_ok; simpl. intros [Hs Hnd] Hfresh. split.
  - rewrite granted_modes_app. unfold granted_modes at 2. simpl.
    by rewrite app_nil_r.
  - rewrite fmap_app. simpl. apply NoDup_app. split_and!; [done| |].
    + intros x Hx Hx'. apply list_elem_of_singleton in Hx'. subst x.
      apply list_elem_of_fmap in Hx as (r & Hr & Hin).
      by apply (Hfresh r Hin).
    + apply NoDup_singleton.
Qed.

(** *** [UpdateLock] on a well-formed queue *)

Lemma UpdateLock_ok t m oid rid q :
  queue_ok q ->
  match UpdateLock t m oid rid q with
  | Same => request_of t m q
  | Upgraded _ q' | Appended q' =>
      queue_ok q' /\ request_of t m q' /\
      forall r, r ∈ request_queue_ q' -> req_txn_id_ r <> t ->
                r ∈ request_queue_ q
  | Refused _ => True
  end.
Proof.
  intros Hok. unfold UpdateLock. destruct q as [l u]; simpl.
  destruct (find_request t l) as [r|] eqn:Hfind.
  - destruct (find_request_Some _ _ _ Hfind) as [Hin Ht].
    case_bool_decide as Hm.
    + intros r' Hr' Ht'. destruct Hok as [_ Hnd]. simpl in Hnd.
      by rewrite (request_unique t l r' r Hnd Hr' Hin Ht' Ht).
    + destruct (u =? INVALID_TXN_ID); [|done].
      destruct (IsCompatible (lock_mode_ r) m); [|done].
      destruct (erase_request_split _ _ _ Hfind) as (l1 & l2 & -> & ->).
      assert (forall x, x ∈ l1 ++ l2 -> req_txn_id_ x <> t) as Hfresh.
      { intros x Hx Hxt. destruct Hok as [_ Hnd]. simpl in Hnd.
        rewrite fmap_app, fmap_cons in Hnd.
        apply NoDup_app in Hnd as (H1 & H2 & H3).
        apply NoDup_cons in H3 as [H3 H4].
        apply elem_of_app in Hx as [Hx|Hx].
        - apply (H2 (req_txn_id_ x)).
          + apply list_elem_of_fmap. by exists x.
          + rewrite Hxt, <- Ht. by left.
        - apply H3. apply list_elem_of_fmap. exists x. split; [congruence|done]. }
      split_and!.
      * apply (queue_ok_append _ u); [|exact Hfresh].
        by apply (queue_ok_drop l1 r l2 u).
      * intros r' Hr' Ht'. simpl in Hr'.
        apply elem_of_app in Hr' as [Hr'|Hr'].
        -- by destruct (Hfresh r' Hr').
        -- apply list_elem_of_singleton in Hr'. by subst r'.
      * intros r' Hr' Ht'. simpl in Hr'.
        apply elem_of_app in Hr' as [Hr'|Hr'].
        -- apply elem_of_app in Hr' as [?|?]; apply elem_of_app;
             [by left|right; by right].
        -- apply list_elem_of_singleton in Hr'. by subst r'.
  - split_and!.
    + apply (queue_ok_append _ u); [done|].
      intros r Hr. by eapply find_request_None.
    + intros r' Hr' Ht'. simpl in Hr'.
      apply elem_of_app in Hr' as [Hr'|Hr'].
      * by destruct (find_request_None _ _ _ Hfind Hr').
      * apply list_elem_of_singleton in Hr'. by subst r'.
    + intros r' Hr' Ht'. simpl in Hr'.
      apply elem_of_app in Hr' as [Hr'|Hr']; [done|].
      apply list_elem_of_singleton in Hr'. by subst r'.
Qed.

(** *** [GrantLock] on a well-formed queue *)

Lemma request_key_grant r : request_key (grant r) = request_key r.
Proof. done. Qed.

Lemma keys_txn_ids (l l' : list LockRequest) :
  request_key <$> l' = request_key <$> l ->
  req_txn_id_ <$> l' = req_txn_id_ <$> l.
Proof.
  intros H. apply (f_equal (fmap fst)) in H.
  by rewrite <- !list_fmap_compose in H.
Qed.

Lemma keys_request_of t m l l' u u' :
  request_key <$> l' = request_key <$> l ->
  request_of t m (mkQueue l u) -> request_of t m (mkQueue l' u').
Proof.
  intros Hk Hreq r' Hr' Ht'. simpl in *.
  assert (request_key r' ∈ request_key <$> l) as Hin.
  { rewrite <- Hk. apply list_elem_of_fmap. by exists r'. }
  apply list_elem_of_fmap in Hin as (r & Hkey & Hr).
  injection Hkey as Hid Hmode. rewrite Hmode. apply Hreq; [done|congruence].
Qed.

Lemma grant_scan_ok t : forall l hg pre,
  (lock_mode_ <$> hg) ≡ₚ pre ++ granted_modes l ->
  StronglySorted compat (lock_mode_ <$> hg) ->
  StronglySorted compat (pre ++ granted_modes (grant_scan t hg l).2) /\
  request_key <$> (grant_scan t hg l).2 = request_key <$> l.
Proof.
  induction l as [|r l IH]; intros hg pre Hp Hs; cbn [grant_scan].
  - split; [|done]. eapply sorted_perm_sym; [apply compat_sym|exact Hp|done].
  - rewrite granted_modes_cons in Hp.
    destruct (granted_ r) eqn:Hg.
    + destruct (IH hg (pre ++ [lock_mode_ r])) as [H1 H2]; [|done|].
      { rewrite Hp. cbn [app]. by rewrite <- app_assoc. }
      destruct (grant_scan t hg l) as [flag l'']. cbn [snd] in *.
      rewrite granted_modes_cons, Hg, !fmap_cons, H2.
      rewrite <- app_assoc in H1. by split.
    + cbn [app] in Hp.
      destruct (compatible_with_all hg (lock_mode_ r)) eqn:Hc.
      * apply compatible_with_all_spec in Hc.
        destruct (IH (hg ++ [grant r]) (pre ++ [lock_mode_ r])) as [H1 H2].
        { rewrite fmap_app, Hp. cbn [fmap list_fmap grant lock_mode_].
          rewrite <- !app_assoc. apply Permutation_app_head.
          apply Permutation_app_comm. }
        { rewrite fmap_app. apply StronglySorted_app.
          split_and!; [|done|repeat constructor].
          intros a b Ha Hb. apply list_elem_of_singleton in Hb. subst b.
          rewrite Forall_forall in Hc. by apply Hc. }
        destruct (grant_scan t (hg ++ [grant r]) l) as [flag l''].
        cbn [snd] in *.
        rewrite granted_modes_cons, !fmap_cons, H2.
        rewrite <- app_assoc in H1. by split.
      * destruct (IH hg pre) as [H1 H2]; [done|done|].
        destruct (grant_scan t hg l) as [flag l'']. cbn [snd] in *.
        rewrite granted_modes_cons, Hg, !fmap_cons, H2. by split.
Qed.

Lemma grant_first_Some t l l' :
  grant_first t l = Some l' ->
  exists l1 r l2, l = l1 ++ r :: l2 /\ l' = l1 ++ grant r :: l2 /\
                  req_txn_id_ r = t.
Proof.
  revert l'. induction l as [|x l IH]; simpl; intros l'; [done|].
  destruct (req_txn_id_ x =? t) eqn:E.
  - intros [= <-]. exists [], x, l. split_and!; [done|done|lia].
  - destruct (grant_first t l) as [l0|]; [|done]. simpl. intros [= <-].
    destruct (IH l0 eq_refl) as (l1 & r & l2 & -> & -> & Ht).
    by exists (x :: l1), r, l2.
Qed.

Lemma GrantLock_ok t m q :
  queue_ok q -> request_of t m q ->
  queue_ok (GrantLock t m q).2 /\
  request_key <$> request_queue_ (GrantLock t m q).2
    = request_key <$> request_queue_ q.
Proof.
  intros [Hs Hnd] Hreq. unfold GrantLock. destruct q as [l u]; simpl in *.
  destruct (compatible_with_all (granted_requests l) m) eqn:Hc; simpl;
    [|by split].
  apply compatible_with_all_spec in Hc.
  destruct (if u =? t then grant_first t l else None) as [l'|] eqn:Hup.
  - destruct (u =? t); [|done].
    destruct (grant_first_Some _ _ _ Hup) as (l1 & r & l2 & -> & -> & Ht).
    simpl. split; [split; simpl|].
    + assert (lock_mode_ r = m) as Hm.
      { apply Hreq; [|done]. apply elem_of_app. right. by left. }
      fold (granted_modes (l1 ++ r :: l2)) in Hc.
      rewrite granted_modes_app, granted_modes_cons in Hs, Hc |- *.
      cbn [grant granted_ lock_mode_].
      destruct (granted_ r); [done|]. cbn [app] in Hs, Hc.
      eapply sorted_perm_sym; [apply compat_sym|apply Permutation_middle|].
      apply StronglySorted_cons. split; [|done].
      rewrite Hm. eapply Forall_impl; [exact Hc|].
      intros x Hx. by apply compat_sym.
    + erewrite keys_txn_ids; [exact Hnd|].
      by rewrite !fmap_app, !fmap_cons, request_key_grant.
    + by rewrite !fmap_app, !fmap_cons, request_key_grant.
  - destruct (grant_scan_ok t l (granted_requests l) []) as [H1 H2];
      [done|done|].
    destruct (grant_scan t (granted_requests l) l) as [flag l']. simpl in *.
    split; [split; simpl|done]; [done|].
    by rewrite (keys_txn_ids _ _ H2).
Qed.

(** *** Footprints *)

Lemma txns_ok_with_txn txn s : txns_ok s -> txns_ok (with_txn txn s).
Proof.
  intros Hok t txn'. unfold with_txn; simpl. rewrite lookup_insert.
  destruct (decide (txn_id_ txn = t)) as [<-|Hne]; [|by apply Hok].
  by intros [= <-].
Qed.

Lemma GetLRQueuePtr_table_effect oid s :
  (GetLRQueuePtr_table oid s).1 = table_queue s oid /\
  table_effect s (GetLRQueuePtr_table oid s).2 oid (table_queue s oid).
Proof.
  unfold GetLRQueuePtr_table, table_queue, table_effect.
  destruct (table_lock_map_ s !! oid) as [q|] eqn:E; simpl.
  - split_and!; try done. by rewrite insert_id.
  - by split_and!.
Qed.

Lemma GetLRQueuePtr_row_effect rid s :
  (GetLRQueuePtr_row rid s).1 = row_queue s rid /\
  row_effect s (GetLRQueuePtr_row rid s).2 rid (row_queue s rid).
Proof.
  unfold GetLRQueuePtr_row, row_queue, row_effect.
  destruct (row_lock_map_ s !! rid) as [q|] eqn:E; simpl.
  - split_and!; try done. by rewrite insert_id.
  - by split_and!.
Qed.

Lemma table_effect_put s s1 oid q q' :
  table_effect s s1 oid q -> table_effect s (put_table_queue oid q' s1) oid q'.
Proof.
  intros (Ht & Hr & Hx). unfold table_effect, put_table_queue; simpl.
  rewrite Ht, insert_insert_eq. by split_and!.
Qed.

Lemma row_effect_put s s1 rid q q' :
  row_effect s s1 rid q -> row_effect s (put_row_queue rid q' s1) rid q'.
Proof.
  intros (Ht & Hr & Hx). unfold row_effect, put_row_queue; simpl.
  rewrite Ht, insert_insert_eq. by split_and!.
Qed.

Lemma table_effect_txn s s1 oid q txn :
  table_effect s s1 oid q -> table_effect s (with_txn txn s1) oid q.
Proof.
  intros (Ht & Hr & Hx). unfold table_effect; simpl. split_and!; try done.
  intros H. by apply txns_ok_with_txn, Hx.
Qed.

Lemma row_effect_txn s s1 rid q txn :
  row_effect s s1 rid q -> row_effect s (with_txn txn s1) rid q.
Proof.
  intros (Ht & Hr & Hx). unfold row_effect; simpl. split_and!; try done.
  intros H. by apply txns_ok_with_txn, Hx.
Qed.

Lemma table_effect_refl s oid q :
  table_lock_map_ s !! oid = Some q -> table_effect s s oid q.
Proof. intros H. unfold table_effect. by rewrite insert_id. Qed.

Lemma others_from_refl t q : others_from t q q.
Proof. intros r Hr _. by exists r. Qed.

Lemma others_from_keys t q q' :
  request_key <$> request_queue_ q' = request_key <$> request_queue_ q ->
  others_from t q q'.
Proof.
  intros Hk r' Hr' _.
  assert (request_key r' ∈ request_key <$> request_queue_ q) as Hin.
  { rewrite <- Hk. apply list_elem_of_fmap. by exists r'. }
  apply list_elem_of_fmap in Hin as (r & Hkey & Hr). by exists r.
Qed.

Lemma others_from_sub t q q' :
  (forall r, r ∈ request_queue_ q' -> req_txn_id_ r <> t ->
             r ∈ request_queue_ q) ->
  others_from t q q'.
Proof. intros H r Hr Ht. exists r. split; [by apply H|done]. Qed.

Lemma request_of_others t t' m q q' :
  t' <> t -> others_from t q q' -> request_of t' m q -> request_of t' m q'.
Proof.
  intros Hne Hoth Hreq r' Hr' Ht'.
  destruct (Hoth r' Hr') as (r & Hr & Hkey); [congruence|].
  injection Hkey as Hid Hmode. rewrite <- Hmode. apply Hreq; [done|congruence].
Qed.

(** *** Preservation of the invariant by a change to one queue *)

Lemma queue_ok_table sys oid :
  invariant sys -> queue_ok (table_queue (lm sys) oid).
Proof.
  intros Hinv. unfold table_queue.
  destruct (table_lock_map_ (lm sys) !! oid) as [q|] eqn:E; simpl.
  - by eapply inv_table.
  - apply queue_ok_empty.
Qed.

Lemma queue_ok_row sys rid :
  invariant sys -> queue_ok (row_queue (lm sys) rid).
Proof.
  intros Hinv. unfold row_queue.
  destruct (row_lock_map_ (lm sys) !! rid) as [q|] eqn:E; simpl.
  - by eapply inv_row.
  - apply queue_ok_empty.
Qed.

Lemma invariant_table_step sys t oid q' s' th' :
  invariant sys ->
  table_effect (lm sys) s' oid q' ->
  queue_ok q' ->
  others_from t (table_queue (lm sys) oid) q' ->
  (forall t', t' <> t -> th' !! t' = threads sys !! t') ->
  (forall p q, th' !! t = Some p -> queue_of s' (wait_point_of p) = Some q ->
               request_of t (mode_of (wait_point_of p)) q) ->
  invariant (mkSystem s' th').
Proof.
  intros Hinv (Ht & Hr & Hx) Hok Hoth Hth Hself. split; simpl.
  - intros oid' q. rewrite Ht, lookup_insert.
    destruct (decide (oid = oid')) as [<-|Hne]; [by intros [= <-]|].
    by apply (inv_table _ Hinv).
  - intros rid q. rewrite Hr. by apply (inv_row _ Hinv).
  - apply Hx, Hinv.
  - intros t' p q Hp Hq.
    destruct (decide (t' = t)) as [->|Hne]; [by eapply Hself|].
    rewrite Hth in Hp by done.
    assert (forall oid', table_lock_map_ s' !! oid' = Some q ->
              table_lock_map_ (lm sys) !! oid' = Some q \/
              (oid' = oid /\ q = q')) as Hcase.
    { intros oid'. rewrite Ht, lookup_insert.
      destruct (decide (oid = oid')) as [<-|?]; [|by left].
      intros [= <-]. by right. }
    pose proof (inv_threads _ Hinv t' p) as Hold.
    assert (forall oid', table_lock_map_ s' !! oid' = Some q ->
              (forall q0, table_lock_map_ (lm sys) !! oid' = Some q0 ->
                          request_of t' (mode_of (wait_point_of p)) q0) ->
              request_of t' (mode_of (wait_point_of p)) q) as Hgo.
    { intros oid' Hl Hq0. destruct (Hcase oid' Hl) as [Hl'|[-> ->]]; [auto|].
      eapply request_of_others; [exact Hne|exact Hoth|].
      unfold table_queue.
      destruct (table_lock_map_ (lm sys) !! oid) as [q0|] eqn:E; simpl.
      - by apply Hq0.
      - intros r Hr'. by apply elem_of_nil in Hr'. }
    destruct (wait_point_of p) as [m oid'|m oid' rid|m oid' rid]; simpl in *.
    + apply (Hgo oid' Hq). intros q0 Hq0. by apply Hold.
    + rewrite Hr in Hq. by apply Hold.
    + apply (Hgo oid' Hq). intros q0 Hq0. by apply Hold.
Qed.

Lemma invariant_row_step sys t rid q' s' th' :
  invariant sys ->
  row_effect (lm sys) s' rid q' ->
  queue_ok q' ->
  others_from t (row_queue (lm sys) rid) q' ->
  (forall t', t' <> t -> th' !! t' = threads sys !! t') ->
  (forall p q, th' !! t = Some p -> queue_of s' (wait_point_of p) = Some q ->
               request_of t (mode_of (wait_point_of p)) q) ->
  invariant (mkSystem s' th').
Proof.
  intros Hinv (Hr & Ht & Hx) Hok Hoth Hth Hself. split; simpl.
  - intros oid q. rewrite Ht. by apply (inv_table _ Hinv).
  - intros rid' q. rewrite Hr, lookup_insert.
    destruct (decide (rid = rid')) as [<-|Hne]; [by intros [= <-]|].
    by apply (inv_row _ Hinv).
  - apply Hx, Hinv.
  - intros t' p q Hp Hq.
    destruct (decide (t' = t)) as [->|Hne]; [by eapply Hself|].
    rewrite Hth in Hp by done.
    pose proof (inv_threads _ Hinv t' p) as Hold.
    destruct (wait_point_of p) as [m oid'|m oid' rid'|m oid' rid'];
      simpl in *.
    + rewrite Ht in Hq. by apply Hold.
    + rewrite Hr, lookup_insert in Hq.
      destruct (decide (rid = rid')) as [<-|?]; [|by apply Hold].
      injection Hq as <-.
      eapply request_of_others; [exact Hne|exact Hoth|].
      unfold row_queue.
      destruct (row_lock_map_ (lm sys) !! rid) as [q0|] eqn:E; simpl.
      * by apply Hold.
      * intros r Hr'. by apply elem_of_nil in Hr'.
    + rewrite Ht in Hq. by apply Hold.
Qed.

(** *** Preservation by the calls *)

Lemma invariant_txn sys txn th' :
  invariant sys ->
  (forall t p, th' !! t = Some p -> threads sys !! t = Some p) ->
  invariant (mkSystem (with_txn txn (lm sys)) th').
Proof.
  intros Hinv Hsub. split; simpl.
  - apply (inv_table _ Hinv).
  - apply (inv_row _ Hinv).
  - apply txns_ok_with_txn, Hinv.
  - intros t p q Hp Hq. apply (inv_threads _ Hinv t p q); [by apply Hsub|].
    by destruct (wait_point_of p).
Qed.

Lemma invariant_threads sys th' :
  invariant sys ->
  (forall t p, th' !! t = Some p -> threads sys !! t = Some p) ->
  invariant (mkSystem (lm sys) th').
Proof.
  intros Hinv Hsub. split; simpl; try apply Hinv.
  intros t p q Hp Hq. apply (inv_threads _ Hinv t p q); [by apply Hsub|done].
Qed.

Lemma delete_sub (th : gmap Z pc) t t' p :
  delete t th !! t' = Some p -> th !! t' = Some p.
Proof.
  rewrite lookup_delete. by destruct (decide (t = t')).
Qed.

Lemma abort_invariant sys t txn reason sys' :
  invariant sys ->
  settle t (threads sys) (abort txn reason (lm sys)) sys' ->
  invariant sys'.
Proof.
  intros Hinv Hs. unfold abort, settle in Hs. subst sys'.
  apply invariant_txn; [done|]. intros t' p. apply delete_sub.
Qed.

Lemma logic_error_invariant sys t sys' :
  invariant sys ->
  settle t (threads sys) (Throw logic_error (lm sys)) sys' ->
  invariant sys'.
Proof.
  intros Hinv Hs. unfold settle in Hs. subst sys'.
  apply invariant_threads; [done|]. intros t' p. apply delete_sub.
Qed.

Lemma queue_of_on_table s w oid :
  on_table w oid -> queue_of s w = table_lock_map_ s !! oid.
Proof. destruct w; simpl; by intros; subst. Qed.

Lemma UpdateLock_table_invariant sys txn m oid w sys' :
  invariant sys ->
  on_table w oid -> mode_of w = m ->
  settle (txn_id_ txn) (threads sys)
         (enter_loop w (UpdateLock_table txn m oid (lm sys))) sys' ->
  invariant sys'.
Proof.
  intros Hinv Hw Hm Hs. unfold UpdateLock_table in Hs.
  destruct (GetLRQueuePtr_table_effect oid (lm sys)) as [Hq Heff].
  destruct (GetLRQueuePtr_table oid (lm sys)) as [q s1]. simpl in Hq, Heff.
  subst q.
  pose proof (queue_ok_table sys oid Hinv) as Hok.
  pose proof (UpdateLock_ok (txn_id_ txn) m oid None _ Hok) as Hup.
  destruct (UpdateLock (txn_id_ txn) m oid None (table_queue (lm sys) oid))
    as [|old q'|q'|reason]; simpl in Hs; subst sys'.
  - eapply (invariant_table_step sys (txn_id_ txn) oid); try done.
    + apply others_from_refl.
    + intros t' Hne. by rewrite lookup_insert_ne.
    + intros p q. rewrite lookup_insert_eq. intros [= <-]. simpl.
      rewrite (queue_of_on_table _ _ _ Hw). destruct Heff as (-> & _).
      rewrite lookup_insert_eq. intros [= <-]. by rewrite Hm.
  - destruct Hup as (Hok' & Hreq & Hsub).
    eapply (invariant_table_step sys (txn_id_ txn) oid); try done.
    + by eapply table_effect_put, table_effect_txn.
    + by apply others_from_sub.
    + intros t' Hne. by rewrite lookup_insert_ne.
    + intros p q. rewrite lookup_insert_eq. intros [= <-]. simpl.
      rewrite (queue_of_on_table _ _ _ Hw). simpl.
      rewrite lookup_insert_eq. intros [= <-]. by rewrite Hm.
  - destruct Hup as (Hok' & Hreq & Hsub).
    eapply (invariant_table_step sys (txn_id_ txn) oid); try done.
    + by eapply table_effect_put.
    + by apply others_from_sub.
    + intros t' Hne. by rewrite lookup_insert_ne.
    + intros p q. rewrite lookup_insert_eq. intros [= <-]. simpl.
      rewrite (queue_of_on_table _ _ _ Hw). simpl.
      rewrite lookup_insert_eq. intros [= <-]. by rewrite Hm.
  - eapply (invariant_table_step sys (txn_id_ txn) oid); try done.
    + by eapply table_effect_txn.
    + apply others_from_refl.
    + intros t' Hne. by rewrite lookup_delete_ne.
    + intros p q. by rewrite lookup_delete_eq.
Qed.

Lemma UpdateLock_row_invariant sys txn m oid rid sys' :
  invariant sys ->
  settle (txn_id_ txn) (threads sys)
         (enter_loop (InLockRow m oid rid)
                     (UpdateLock_row txn m oid rid (lm sys))) sys' ->
  invariant sys'.
Proof.
  intros Hinv Hs. unfold UpdateLock_row in Hs.
  destruct (GetLRQueuePtr_row_effect rid (lm sys)) as [Hq Heff].
  destruct (GetLRQueuePtr_row rid (lm sys)) as [q s1]. simpl in Hq, Heff.
  subst q.
  pose proof (queue_ok_row sys rid Hinv) as Hok.
  pose proof (UpdateLock_ok (txn_id_ txn) m oid (Some rid) _ Hok) as Hup.
  destruct (UpdateLock (txn_id_ txn) m oid (Some rid)
              (row_queue (lm sys) rid))
    as [|old q'|q'|reason]; simpl in Hs; subst sys'.
  - eapply (invariant_row_step sys (txn_id_ txn) rid); try done.
    + apply others_from_refl.
    + intros t' Hne. by rewrite lookup_insert_ne.
    + intros p q. rewrite lookup_insert_eq. intros [= <-]. simpl.
      destruct Heff as (-> & _).
      rewrite lookup_insert_eq. by intros [= <-].
  - destruct Hup as (Hok' & Hreq & Hsub).
    eapply (invariant_row_step sys (txn_id_ txn) rid); try done.
    + by eapply row_effect_put, row_effect_txn.
    + by apply others_from_sub.
    + intros t' Hne. by rewrite lookup_insert_ne.
    + intros p q. rewrite lookup_insert_eq. intros [= <-]. simpl.
      rewrite lookup_insert_eq. by intros [= <-].
  - destruct Hup as (Hok' & Hreq & Hsub).
    eapply (invariant_row_step sys (txn_id_ txn) rid); try done.
    + by eapply row_effect_put.
    + by apply others_from_sub.
    + intros t' Hne. by rewrite lookup_insert_ne.
    + intros p q. rewrite lookup_insert_eq. intros [= <-]. simpl.
      rewrite lookup_insert_eq. by intros [= <-].
  - eapply (invariant_row_step sys (txn_id_ txn) rid); try done.
    + by eapply row_effect_txn.
    + apply others_from_refl.
    + intros t' Hne. by rewrite lookup_delete_ne.
    + intros p q. by rewrite lookup_delete_eq.
Qed.

Lemma LockTable_invariant sys t m oid sys' :
  invariant sys ->
  settle t (threads sys) (LockTable t m oid (lm sys)) sys' ->
  invariant sys'.
Proof.
  intros Hinv Hs. unfold LockTable in Hs.
  destruct (txn_map_ (lm sys) !! t) as [txn|] eqn:Htxn; [|done].
  pose proof (inv_txns _ Hinv t txn Htxn) as Hid. subst t.
  destruct (state_ txn).
  - destruct (_ && _).
    + by eapply abort_invariant.
    + by eapply (UpdateLock_table_invariant sys txn m oid (InLockTable m oid)).
  - destruct (isolation_level_ txn).
    + destruct (_ || _); by eapply abort_invariant.
    + by eapply abort_invariant.
    + destruct (_ || _).
      * by eapply (UpdateLock_table_invariant sys txn m oid
                     (InLockTable m oid)).
      * by eapply abort_invariant.
  - by eapply logic_error_invariant.
  - by eapply logic_error_invariant.
Qed.

Lemma LockRow_invariant sys t m oid rid sys' :
  invariant sys ->
  settle t (threads sys) (LockRow t m oid rid (lm sys)) sys' ->
  invariant sys'.
Proof.
  intros Hinv Hs. unfold LockRow in Hs.
  destruct (txn_map_ (lm sys) !! t) as [txn|] eqn:Htxn; [|done].
  pose proof (inv_txns _ Hinv t txn Htxn) as Hid. subst t.
  destruct (IsTableFit txn m oid); [by eapply abort_invariant|].
  destruct (_ || _); [by eapply logic_error_invariant|].
  destruct (state_ txn).
  - destruct (_ && _).
    + by eapply abort_invariant.
    + by eapply UpdateLock_row_invariant.
  - destruct (isolation_level_ txn).
    + destruct (bool_decide _); by eapply abort_invariant.
    + by eapply abort_invariant.
    + destruct (bool_decide _).
      * by eapply (UpdateLock_table_invariant sys txn m oid
                     (InLockRowShrinking m oid rid)).
      * by eapply abort_invariant.
  - by eapply logic_error_invariant.
  - by eapply logic_error_invariant.
Qed.

Lemma request_of_table_queue sys t w oid :
  on_table w oid ->
  (forall q, queue_of (lm sys) w = Some q -> request_of t (mode_of w) q) ->
  request_of t (mode_of w) (table_queue (lm sys) oid).
Proof.
  intros Hw Hreq. unfold table_queue.
  rewrite (queue_of_on_table _ _ _ Hw) in Hreq.
  destruct (table_lock_map_ (lm sys) !! oid) as [q|]; simpl; [by apply Hreq|].
  intros r Hr. by apply elem_of_nil in Hr.
Qed.

Lemma GrantLock_table_invariant sys txn w oid (bk : Transaction) sys' :
  invariant sys ->
  on_table w oid ->
  (forall q, queue_of (lm sys) w = Some q ->
             request_of (txn_id_ txn) (mode_of w) q) ->
  settle (txn_id_ txn) (threads sys)
    (let '(b, s1) := GrantLock_table txn (mode_of w) oid (lm sys) in
     if b then Ok (Returned true) (with_txn bk s1) else Ok (Waiting w) s1)
    sys' ->
  invariant sys'.
Proof.
  intros Hinv Hw Hreq Hs. unfold GrantLock_table in Hs.
  destruct (GetLRQueuePtr_table_effect oid (lm sys)) as [Hq Heff].
  destruct (GetLRQueuePtr_table oid (lm sys)) as [q s1]. simpl in Hq, Heff.
  subst q.
  pose proof (queue_ok_table sys oid Hinv) as Hok.
  pose proof (request_of_table_queue sys _ w oid Hw Hreq) as Hreq'.
  destruct (GrantLock_ok _ _ _ Hok Hreq') as [Hok' Hkeys].
  destruct (GrantLock (txn_id_ txn) (mode_of w) (table_queue (lm sys) oid))
    as [b q']. simpl in Hok', Hkeys.
  destruct b; simpl in Hs; subst sys'.
  - eapply (invariant_table_step sys (txn_id_ txn) oid); try done.
    + by eapply table_effect_txn, table_effect_put.
    + by apply others_from_keys.
    + intros t' Hne. by rewrite lookup_delete_ne.
    + intros p q. by rewrite lookup_delete_eq.
  - eapply (invariant_table_step sys (txn_id_ txn) oid); try done.
    + by eapply table_effect_put.
    + by apply others_from_keys.
    + intros t' Hne. by rewrite lookup_insert_ne.
    + intros p q. rewrite lookup_insert_eq. intros [= <-]. simpl.
      rewrite (queue_of_on_table _ _ _ Hw). simpl.
      rewrite lookup_insert_eq. intros [= <-].
      destruct q' as [l' u'], (table_queue (lm sys) oid) as [l u] eqn:E.
      by eapply keys_request_of.
Qed.

Lemma GrantLock_row_invariant sys txn m oid rid (bk : Transaction) sys' :
  invariant sys ->
  (forall q, row_lock_map_ (lm sys) !! rid = Some q ->
             request_of (txn_id_ txn) m q) ->
  settle (txn_id_ txn) (threads sys)
    (let '(b, s1) := GrantLock_row txn m rid (lm sys) in
     if b then Ok (Returned true) (with_txn bk s1)
     else Ok (Waiting (InLockRow m oid rid)) s1)
    sys' ->
  invariant sys'.
Proof.
  intros Hinv Hreq Hs. unfold GrantLock_row in Hs.
  destruct (GetLRQueuePtr_row_effect rid (lm sys)) as [Hq Heff].
  destruct (GetLRQueuePtr_row rid (lm sys)) as [q s1]. simpl in Hq, Heff.
  subst q.
  pose proof (queue_ok_row sys rid Hinv) as Hok.
  assert (request_of (txn_id_ txn) m (row_queue (lm sys) rid)) as Hreq'.
  { unfold row_queue.
    destruct (row_lock_map_ (lm sys) !! rid) as [q|]; simpl; [by apply Hreq|].
    intros r Hr. by apply elem_of_nil in Hr. }
  destruct (GrantLock_ok _ _ _ Hok Hreq') as [Hok' Hkeys].
  destruct (GrantLock (txn_id_ txn) m (row_queue (lm sys) rid))
    as [b q']. simpl in Hok', Hkeys.
  destruct b; simpl in Hs; subst sys'.
  - eapply (invariant_row_step sys (txn_id_ txn) rid); try done.
    + by eapply row_effect_txn, row_effect_put.
    + by apply others_from_keys.
    + intros t' Hne. by rewrite lookup_delete_ne.
    + intros p q. by rewrite lookup_delete_eq.
  - eapply (invariant_row_step sys (txn_id_ txn) rid); try done.
    + by eapply row_effect_put.
    + by apply others_from_keys.
    + intros t' Hne. by rewrite lookup_insert_ne.
    + intros p q. rewrite lookup_insert_eq. intros [= <-]. simpl.
      rewrite lookup_insert_eq. intros [= <-].
      destruct q' as [l' u'], (row_queue (lm sys) rid) as [l u] eqn:E.
      by eapply keys_request_of.
Qed.

Lemma loop_condition_invariant sys t w sys' :
  invariant sys ->
  (forall q, queue_of (lm sys) w = Some q -> request_of t (mode_of w) q) ->
  settle t (threads sys) (loop_condition w t (lm sys)) sys' ->
  invariant sys'.
Proof.
  intros Hinv Hreq Hs. unfold loop_condition in Hs.
  destruct (txn_map_ (lm sys) !! t) as [txn|] eqn:Htxn; [|done].
  pose proof (inv_txns _ Hinv t txn Htxn) as Hid. subst t.
  destruct w as [m oid|m oid rid|m oid rid].
  - by eapply (GrantLock_table_invariant sys txn (InLockTable m oid) oid).
  - by eapply (GrantLock_row_invariant sys txn m oid rid).
  - by eapply (GrantLock_table_invariant sys txn
                 (InLockRowShrinking m oid rid) oid).
Qed.

Lemma reset_upgrading_requests t q :
  request_queue_ (reset_upgrading t q) = request_queue_ q.
Proof. unfold reset_upgrading. by destruct (upgrading_ q =? t). Qed.

Lemma queue_ok_requests q q' :
  request_queue_ q' = request_queue_ q -> queue_ok q -> queue_ok q'.
Proof. unfold queue_ok. by intros ->. Qed.

Lemma others_from_requests t q q' :
  request_queue_ q' = request_queue_ q -> others_from t q q'.
Proof. intros H r Hr _. exists r. by rewrite <- H. Qed.

Lemma request_of_requests t m q q' :
  request_queue_ q' = request_queue_ q -> request_of t m q -> request_of t m q'.
Proof. unfold request_of. by intros ->. Qed.

Lemma withdraw_table_invariant sys t w oid sys' :
  invariant sys ->
  on_table w oid ->
  threads sys !! t = Some (PcWaiting w) ->
  settle t (threads sys)
    (let '(q, s1) := GetLRQueuePtr_table oid (lm sys) in
     let q1 := reset_upgrading t q in
     match find_request t (request_queue_ q1) with
     | Some _ =>
         Ok (Returned false)
            (put_table_queue oid
               (mkQueue (erase_request t (request_queue_ q1))
                        (upgrading_ q1)) s1)
     | None => loop_condition w t (put_table_queue oid q1 s1)
     end) sys' ->
  invariant sys'.
Proof.
  intros Hinv Hw Hth Hs.
  destruct (GetLRQueuePtr_table_effect oid (lm sys)) as [Hq Heff].
  destruct (GetLRQueuePtr_table oid (lm sys)) as [q s1]. simpl in Hq, Heff.
  subst q. cbn zeta in Hs.
  pose proof (queue_ok_table sys oid Hinv) as Hok.
  pose proof (reset_upgrading_requests t (table_queue (lm sys) oid)) as Hrq.
  set (q1 := reset_upgrading t (table_queue (lm sys) oid)) in *.
  destruct (find_request t (request_queue_ q1)) as [r|] eqn:Hfind.
  - simpl in Hs. subst sys'.
    destruct (erase_request_split _ _ _ Hfind) as (l1 & l2 & Hl & He).
    eapply (invariant_table_step sys t oid
              (mkQueue (erase_request t (request_queue_ q1))
                       (upgrading_ q1))); try done.
    + by eapply table_effect_put.
    + rewrite He. apply (queue_ok_drop l1 r l2 (upgrading_ q1)).
      rewrite <- Hl. apply (queue_ok_requests (table_queue (lm sys) oid));
        [by destruct q1|done].
    + apply others_from_sub. simpl. intros x Hx _. rewrite He in Hx.
      rewrite <- Hrq, Hl.
      apply elem_of_app in Hx as [?|?]; apply elem_of_app;
        [by left|right; by right].
    + intros t' Hne. by rewrite lookup_delete_ne.
    + intros p q. by rewrite lookup_delete_eq.
  - assert (invariant (mkSystem (put_table_queue oid q1 s1) (threads sys)))
      as Hmid.
    { eapply (invariant_table_step sys t oid q1); try done.
      - by eapply table_effect_put.
      - by eapply queue_ok_requests.
      - by apply others_from_requests.
      - intros p q. rewrite Hth. intros [= <-]. simpl.
        rewrite (queue_of_on_table _ _ _ Hw). simpl.
        rewrite lookup_insert_eq. intros [= <-].
        eapply request_of_requests; [done|].
        apply (request_of_table_queue sys t w oid Hw).
        intros q0 Hq0. by apply (inv_threads _ Hinv t (PcWaiting w)). }
    eapply (loop_condition_invariant _ t w); [exact Hmid| |exact Hs].
    intros q. by apply (inv_threads _ Hmid t (PcWaiting w)).
Qed.

Lemma withdraw_row_invariant sys t m oid rid sys' :
  invariant sys ->
  threads sys !! t = Some (PcWaiting (InLockRow m oid rid)) ->
  settle t (threads sys)
    (let '(q, s1) := GetLRQueuePtr_row rid (lm sys) in
     let q1 := reset_upgrading t q in
     match find_request t (request_queue_ q1) with
     | Some _ =>
         Ok (Returned false)
            (put_row_queue rid
               (mkQueue (erase_request t (request_queue_ q1))
                        (upgrading_ q1)) s1)
     | None =>
         loop_condition (InLockRow m oid rid) t (put_row_queue rid q1 s1)
     end) sys' ->
  invariant sys'.
Proof.
  intros Hinv Hth Hs.
  destruct (GetLRQueuePtr_row_effect rid (lm sys)) as [Hq Heff].
  destruct (GetLRQueuePtr_row rid (lm sys)) as [q s1]. simpl in Hq, Heff.
  subst q. cbn zeta in Hs.
  pose proof (queue_ok_row sys rid Hinv) as Hok.
  pose proof (reset_upgrading_requests t (row_queue (lm sys) rid)) as Hrq.
  set (q1 := reset_upgrading t (row_queue (lm sys) rid)) in *.
  destruct (find_request t (request_queue_ q1)) as [r|] eqn:Hfind.
  - simpl in Hs. subst sys'.
    destruct (erase_request_split _ _ _ Hfind) as (l1 & l2 & Hl & He).
    eapply (invariant_row_step sys t rid
              (mkQueue (erase_request t (request_queue_ q1))
                       (upgrading_ q1))); try done.
    + by eapply row_effect_put.
    + rewrite He. apply (queue_ok_drop l1 r l2 (upgrading_ q1)).
      rewrite <- Hl. apply (queue_ok_requests (row_queue (lm sys) rid));
        [by destruct q1|done].
    + apply others_from_sub. simpl. intros x Hx _. rewrite He in Hx.
      rewrite <- Hrq, Hl.
      apply elem_of_app in Hx as [?|?]; apply elem_of_app;
        [by left|right; by right].
    + intros t' Hne. by rewrite lookup_delete_ne.
    + intros p q. by rewrite lookup_delete_eq.
  - assert (invariant (mkSystem (put_row_queue rid q1 s1) (threads sys)))
      as Hmid.
    { eapply (invariant_row_step sys t rid q1); try done.
      - by eapply row_effect_put.
      - by eapply queue_ok_requests.
      - by apply others_from_requests.
      - intros p q. rewrite Hth. intros [= <-]. simpl.
        rewrite lookup_insert_eq. intros [= <-].
        eapply request_of_requests; [done|].
        unfold row_queue.
        destruct (row_lock_map_ (lm sys) !! rid) as [q0|] eqn:E; simpl.
        + by apply (inv_threads _ Hinv t (PcWaiting (InLockRow m oid rid))).
        + intros x Hx. by apply elem_of_nil in Hx. }
    eapply (loop_condition_invariant _ t (InLockRow m oid rid));
      [exact Hmid| |exact Hs].
    intros q. by apply (inv_threads _ Hmid t (PcWaiting (InLockRow m oid rid))).
Qed.

Lemma loop_wake_invariant sys t w sys' :
  invariant sys ->
  threads sys !! t = Some (PcWaiting w) ->
  settle t (threads sys) (loop_wake w t (lm sys)) sys' ->
  invariant sys'.
Proof.
  intros Hinv Hth Hs. unfold loop_wake in Hs.
  destruct (txn_map_ (lm sys) !! t) as [txn|] eqn:Htxn; [|done].
  destruct (bool_decide (state_ txn = ABORTED)).
  - destruct w as [m oid|m oid rid|m oid rid].
    + by eapply (withdraw_table_invariant sys t (InLockTable m oid) oid).
    + by eapply withdraw_row_invariant.
    + by eapply (withdraw_table_invariant sys t
                   (InLockRowShrinking m oid rid) oid).
  - eapply (loop_condition_invariant sys t w); [done| |done].
    intros q. by apply (inv_threads _ Hinv t (PcWaiting w)).
Qed.

Lemma UnlockTable_invariant sys t oid sys' :
  invariant sys ->
  threads sys !! t = None ->
  settle_bool t (threads sys) (UnlockTable t oid (lm sys)) sys' ->
  invariant sys'.
Proof.
  intros Hinv Hth Hs. unfold UnlockTable in Hs.
  destruct (txn_map_ (lm sys) !! t) as [txn|] eqn:Htxn; [|done].
  destruct (negb _).
  { simpl in Hs. subst sys'. by apply invariant_txn. }
  destruct (negb _).
  { simpl in Hs. subst sys'. by apply invariant_txn. }
  destruct (GetLRQueuePtr_table_effect oid (lm sys)) as [Hq Heff].
  destruct (GetLRQueuePtr_table oid (lm sys)) as [q s1]. simpl in Hq, Heff.
  subst q.
  pose proof (queue_ok_table sys oid Hinv) as Hok.
  destruct (table_queue (lm sys) oid) as [l u] eqn:E. simpl in Hs.
  destruct (find_granted t l) as [r|] eqn:Hfind; simpl in Hs; subst sys'.
  - destruct (find_granted_Some _ _ _ Hfind) as (l1 & l2 & -> & ->).
    eapply (invariant_table_step sys t oid (mkQueue (l1 ++ l2) u));
      try done.
    + by eapply table_effect_put, table_effect_txn.
    + by eapply queue_ok_drop.
    + apply others_from_sub. rewrite E. simpl. intros x Hx _.
      apply elem_of_app in Hx as [?|?]; apply elem_of_app;
        [by left|right; by right].
    + intros p q. by rewrite Hth.
  - eapply (invariant_table_step sys t oid (mkQueue l u)); try done.
    + by eapply table_effect_txn.
    + rewrite E. apply others_from_refl.
    + intros p q. by rewrite Hth.
Qed.

Lemma UnlockRow_invariant sys t oid rid sys' :
  invariant sys ->
  threads sys !! t = None ->
  settle_bool t (threads sys) (UnlockRow t oid rid (lm sys)) sys' ->
  invariant sys'.
Proof.
  intros Hinv Hth Hs. unfold UnlockRow in Hs.
  destruct (txn_map_ (lm sys) !! t) as [txn|] eqn:Htxn; [|done].
  destruct (GetLRQueuePtr_row_effect rid (lm sys)) as [Hq Heff].
  destruct (GetLRQueuePtr_row rid (lm sys)) as [q s1]. simpl in Hq, Heff.
  subst q.
  pose proof (queue_ok_row sys rid Hinv) as Hok.
  destruct (row_queue (lm sys) rid) as [l u] eqn:E. simpl in Hs.
  destruct (find_granted t l) as [r|] eqn:Hfind; simpl in Hs; subst sys'.
  - destruct (find_granted_Some _ _ _ Hfind) as (l1 & l2 & -> & ->).
    eapply (invariant_row_step sys t rid (mkQueue (l1 ++ l2) u));
      try done.
    + by eapply row_effect_put, row_effect_txn.
    + by eapply queue_ok_drop.
    + apply others_from_sub. rewrite E. simpl. intros x Hx _.
      apply elem_of_app in Hx as [?|?]; apply elem_of_app;
        [by left|right; by right].
    + intros p q. by rewrite Hth.
  - eapply (invariant_row_step sys t rid (mkQueue l u)); try done.
    + by eapply row_effect_txn.
    + rewrite E. apply others_from_refl.
    + intros p q. by rewrite Hth.
Qed.

Lemma invariant_initial : invariant initial.
Proof. by split. Qed.

Lemma step_invariant sys sys' : invariant sys -> step sys sys' -> invariant sys'.
Proof.
  intros Hinv Hstep. destruct Hstep.
  - by eapply LockTable_invariant.
  - by eapply LockRow_invariant.
  - eapply loop_condition_invariant; [done| |done].
    intros q. by apply (inv_threads _ Hinv t (PcAtLoop w)).
  - by eapply loop_wake_invariant.
  - by eapply UnlockTable_invariant.
  - by eapply UnlockRow_invariant.
  - split; simpl; try done.
    + intros oid q. rewrite H. by apply (inv_table _ Hinv).
    + intros rid q. rewrite H0. by apply (inv_row _ Hinv).
    + intros t p q Hp Hq. apply (inv_threads _ Hinv t p q Hp).
      destruct (wait_point_of p); simpl in *; congruence.
Qed.

Lemma reachable_invariant sys : reachable sys -> invariant sys.
Proof.
  induction 1; [apply invariant_initial|by eapply step_invariant].
Qed.

(** From the sorted form of the invariant to pairs of positions. *)
Lemma queue_ok_compatible q : queue_ok q -> granted_compatible q.
Proof.
  intros [Hs _]. unfold granted_compatible.
  assert (forall l, StronglySorted compat (granted_modes l) ->
            forall i j r1 r2, (i < j)%nat ->
              l !! i = Some r1 -> l !! j = Some r2 ->
              granted_ r1 = true -> granted_ r2 = true ->
              compat (lock_mode_ r1) (lock_mode_ r2)) as Hlt.
  { clear. induction l as [|x l IH]; intros Hs i j r1 r2 Hij H1 H2 G1 G2.
    - by rewrite lookup_nil in H1.
    - rewrite granted_modes_cons in Hs. destruct j as [|j]; [lia|].
      simpl in H2. destruct i as [|i]; simpl in H1.
      + injection H1 as ->. rewrite G1 in Hs. simpl in Hs.
        apply StronglySorted_cons in Hs as [Hf _].
        rewrite Forall_forall in Hf. apply Hf.
        unfold granted_modes. apply list_elem_of_fmap. exists r2.
        split; [done|]. apply list_elem_of_lookup_2 in H2.
        clear -H2 G2. induction l as [|y l IH]; simpl.
        * by apply elem_of_nil in H2.
        * apply elem_of_cons in H2 as [<-|H2].
          -- rewrite G2. by left.
          -- destruct (granted_ y); [right|]; by apply IH.
      + apply (IH (StronglySorted_app_1_r _ _ _ Hs) i j); [lia|done..].
  }
  intros i j r1 r2 Hne H1 H2 G1 G2. rewrite <- GrantCompatiable_matrix.
  destruct (decide (i < j)%nat).
  - by apply (Hlt _ Hs i j).
  - apply compat_sym. apply (Hlt _ Hs j i); [lia|done..].
Qed.

(** C8.  In every state that the lock manager reaches under calls of
    [LockTable], [LockRow], [UnlockTable] and [UnlockRow] from any
    number of transactions (blocked calls being resumed in any order),
    no two granted requests of a table queue or of a row queue have
    modes that conflict in the compatibility matrix. *)
Theorem granted_requests_compatible sys :
  reachable sys ->
  (forall oid q, table_lock_map_ (lm sys) !! oid = Some q ->
                 granted_compatible q) /\
  (forall rid q, row_lock_map_ (lm sys) !! rid = Some q ->
                 granted_compatible q).
Proof.
  intros Hr. apply reachable_invariant in Hr. split.
  - intros oid q Hq. apply queue_ok_compatible. by eapply inv_table.
  - intros rid q Hq. apply queue_ok_compatible. by eapply inv_row.
Qed.

Example readers_and_writer_queue :
  table_lock_map_ (lm readers_and_writer) !! 0 =
    Some (mkQueue [mkRequest 1 SHARED 0 None true;
                   mkRequest 2 SHARED 0 None true;
                   mkRequest 3 EXCLUSIVE 0 None false] INVALID_TXN_ID) /\
  threads readers_and_writer !! 3 = Some (PcWaiting (InLockTable EXCLUSIVE 0)).
Proof. split; vm_compute; reflexivity. Qed.

Lemma granted_requests_compatible_witness :
  (forall oid q, table_lock_map_ (lm readers_and_writer) !! oid = Some q ->
                 granted_compatible q) /\
  (forall rid q, row_lock_map_ (lm readers_and_writer) !! rid = Some q ->
                 granted_compatible q).
Proof.
  apply (granted_requests_compatible readers_and_writer).
  unfold readers_and_writer, lock_table_call.
  repeat
    (match goal with
     | |- reachable (next_system ?t (LockTable _ ?m ?oid _) ?sys) =>
         apply (reachable_step sys);
           [|apply (step_lock_table sys t m oid);
             [vm_compute; reflexivity|vm_compute; reflexivity]]
     | |- reachable (next_system ?t (loop_condition ?w _ _) ?sys) =>
         apply (reachable_step sys);
           [|apply (step_condition sys t w);
             [vm_compute; reflexivity|vm_compute; reflexivity]]
     end).
  apply (reachable_step initial); [apply reachable_initial|].
  apply (step_environment initial); [reflexivity|reflexivity|].
  intros t txn Hl. simpl in Hl.
  repeat (apply lookup_insert_Some in Hl as [[<- <-]|[_ Hl]]; [done|]).
  by apply lookup_singleton_Some in Hl as [<- <-].
Defined.

End LockManagerProofs.
(** ** Extendible hash table *)

Module HashTableProofs.
Import HashTable.

(** *** Low-order bits *)

Lemma land_pow2 x n :
  0 <= n -> Z.land x (2 ^ n) = if Z.testbit x n then 2 ^ n else 0.
Proof.
  intros Hn. apply Z.bits_inj'. intros m Hm.
  rewrite Z.land_spec, Z.pow2_bits_eqb by done.
  destruct (Z.testbit x n) eqn:Hb.
  - rewrite Z.pow2_bits_eqb by done.
    destruct (Z.eqb_spec n m) as [->|]; [by rewrite Hb|].
    by rewrite andb_false_r.
  - rewrite Z.bits_0. destruct (Z.eqb_spec n m) as [<-|]; [by rewrite Hb|].
    by rewrite andb_false_r.
Qed.

Lemma land_pow2_zero x n :
  0 <= n -> (Z.land x (2 ^ n) =? 0) = negb (Z.testbit x n).
Proof.
  intros Hn. rewrite land_pow2 by done.
  destruct (Z.testbit x n); simpl; [|done].
  apply Z.eqb_neq. pose proof (Z.pow_pos_nonneg 2 n). lia.
Qed.

Lemma land_mask x n : 0 <= n -> Z.land x (2 ^ n - 1) = x mod 2 ^ n.
Proof.
  intros Hn. rewrite <- Z.land_ones by done.
  by rewrite Z.ones_equiv, <- Z.sub_1_r.
Qed.

Lemma mod_pow2_succ x n :
  0 <= n ->
  x mod 2 ^ (n + 1) = x mod 2 ^ n + (if Z.testbit x n then 2 ^ n else 0).
Proof.
  intros Hn. rewrite Z.pow_add_r, Z.pow_1_r by lia.
  pose proof (Z.pow_pos_nonneg 2 n ltac:(lia) Hn) as Hp.
  rewrite Z.rem_mul_r by lia. f_equal.
  destruct (Z.testbit x n) eqn:Hb.
  - apply Z.testbit_true in Hb; [|done]. rewrite Hb. lia.
  - apply Z.testbit_false in Hb; [|done]. rewrite Hb. lia.
Qed.

Lemma mod_pow2_le x d g :
  0 <= d <= g -> (x mod 2 ^ g) mod 2 ^ d = x mod 2 ^ d.
Proof.
  intros Hd. replace g with (d + (g - d)) by lia.
  rewrite Z.pow_add_r by lia.
  pose proof (Z.pow_pos_nonneg 2 d ltac:(lia)).
  pose proof (Z.pow_pos_nonneg 2 (g - d) ltac:(lia)).
  rewrite Z.rem_mul_r by lia.
  rewrite (Z.mul_comm (2 ^ d)), Z.mod_add by lia.
  apply Z.mod_mod. lia.
Qed.

Lemma testbit_mod_pow2 x d g :
  0 <= d < g -> Z.testbit (x mod 2 ^ g) d = Z.testbit x d.
Proof. intros Hd. apply Z.mod_pow2_bits_low. lia. Qed.

(** Two numbers agree on [d+1] low bits iff they agree on [d] low bits
    and on bit [d]. *)
Lemma mod_pow2_succ_eq x y d :
  0 <= d ->
  x mod 2 ^ (d + 1) = y mod 2 ^ (d + 1) <->
  x mod 2 ^ d = y mod 2 ^ d /\ Z.testbit x d = Z.testbit y d.
Proof.
  intros Hd. rewrite !mod_pow2_succ by done.
  pose proof (Z.pow_pos_nonneg 2 d ltac:(lia) Hd) as Hp.
  pose proof (Z.mod_pos_bound x (2 ^ d) Hp).
  pose proof (Z.mod_pos_bound y (2 ^ d) Hp).
  destruct (Z.testbit x d), (Z.testbit y d); split; intros; try lia;
    try (split; [lia|done]); destruct H1; try done; lia.
Qed.

(** *** Buckets *)

Section Buckets.

Context {K V : Type} `{EqDecision K}.
Implicit Types (l : list (K * V)) (k key : K) (v value : V).

Lemma Bucket_Find_None key l :
  Bucket_Find key l = None <-> key ∉ fst <$> l.
Proof.
  induction l as [|[k v] l IH]; simpl.
  - split; [intros _; apply not_elem_of_nil|done].
  - rewrite not_elem_of_cons. destruct (decide (k = key)) as [->|Hne].
    + split; [done|]. intros [? _]. done.
    + rewrite IH. split; [intros ?; split; [congruence|done]|tauto].
Qed.

Lemma Bucket_Find_Some key v l :
  Bucket_Find key l = Some v -> (key, v) ∈ l.
Proof.
  induction l as [|[k v'] l IH]; simpl; [done|].
  destruct (decide (k = key)) as [->|Hne].
  - intros [= ->]. by left.
  - intros H. right. by apply IH.
Qed.

Lemma Bucket_Find_app key l1 l2 :
  Bucket_Find key (l1 ++ l2) =
    match Bucket_Find key l1 with
    | Some v => Some v
    | None => Bucket_Find key l2
    end.
Proof.
  induction l1 as [|[k v] l1 IH]; simpl; [done|].
  by destruct (decide (k = key)).
Qed.

Lemma overwrite_None key value l :
  overwrite key value l = None <-> key ∉ fst <$> l.
Proof.
  induction l as [|[k v] l IH]; simpl.
  - split; [intros _; apply not_elem_of_nil|done].
  - rewrite not_elem_of_cons. destruct (decide (k = key)) as [->|Hne].
    + split; [done|]. intros [? _]. done.
    + destruct (overwrite key value l); simpl.
      * split; [done|]. intros [_ Hn]. by apply IH in Hn.
      * split; [|done]. intros _. split; [congruence|]. by apply IH.
Qed.

Lemma overwrite_Some key value l l' :
  overwrite key value l = Some l' ->
  fst <$> l' = fst <$> l /\
  Bucket_Find key l' = Some value /\
  (forall k, k <> key -> Bucket_Find k l' = Bucket_Find k l) /\
  length l' = length l.
Proof.
  revert l'. induction l as [|[k v] l IH]; simpl; intros l'; [done|].
  destruct (decide (k = key)) as [->|Hne].
  - intros [= <-]. simpl. rewrite decide_True by done.
    split_and!; try done. intros k Hk.
    destruct (decide (key = k)); [congruence|done].
  - destruct (overwrite key value l) as [l0|]; [|done]. simpl.
    intros [= <-]. destruct (IH l0 eq_refl) as (H1 & H2 & H3 & H4).
    cbn [Bucket_Find length]. rewrite !fmap_cons, H1, H4.
    rewrite decide_False by done. split_and!; [done|done| |done].
    intros k' Hk'. destruct (decide (k = k')); [done|by apply H3].
Qed.

Lemma Bucket_Remove_spec key l :
  NoDup (fst <$> l) ->
  NoDup (fst <$> (Bucket_Remove key l).2) /\
  Bucket_Find key (Bucket_Remove key l).2 = None /\
  (forall k, k <> key ->
             Bucket_Find k (Bucket_Remove key l).2 = Bucket_Find k l) /\
  (forall kv, kv ∈ (Bucket_Remove key l).2 -> kv ∈ l).
Proof.
  induction l as [|[k v] l IH]; simpl; intros Hnd.
  - split_and!; try done.
  - apply NoDup_cons in Hnd as [Hk Hnd].
    destruct (decide (k = key)) as [->|Hne]; simpl.
    + split_and!; [done|by apply Bucket_Find_None| |].
      * intros k Hk'. destruct (decide (key = k)); [congruence|done].
      * intros kv Hkv. by right.
    + destruct (IH Hnd) as (H1 & H2 & H3 & H4).
      destruct (Bucket_Remove key l) as [b l'']. simpl in *.
      rewrite decide_False by done. split_and!; try done.
      * apply NoDup_cons. split; [|done]. intros Hin. apply Hk.
        apply list_elem_of_fmap in Hin as ([k' v'] & -> & Hin).
        apply list_elem_of_fmap. exists (k', v'). split; [done|by apply H4].
      * intros k' Hk'. destruct (decide (k = k')); [done|by apply H3].
      * intros kv Hkv. apply elem_of_cons in Hkv as [->|Hkv];
          [by left|right; by apply H4].
Qed.

(** [Bucket::Insert] of a new key into a bucket with room appends. *)
Lemma Bucket_Insert_new key value (b : @Bucket K V) :
  key ∉ fst <$> list_ b -> IsFull b = false ->
  Bucket_Insert key value b =
    (true, mkBucket (size_ b) (depth_ b) (list_ b ++ [(key, value)])).
Proof.
  intros Hn Hfull. unfold Bucket_Insert.
  apply overwrite_None with (value := value) in Hn. by rewrite Hn, Hfull.
Qed.

(** [Bucket::Insert] into a bucket that has the key or has room. *)
Lemma Bucket_Insert_spec key value (b : @Bucket K V) :
  Bucket_Find key (list_ b) <> None \/ IsFull b = false ->
  NoDup (fst <$> list_ b) ->
  let b' := (Bucket_Insert key value b).2 in
  size_ b' = size_ b /\ depth_ b' = depth_ b /\
  NoDup (fst <$> list_ b') /\
  (forall k, k ∈ fst <$> list_ b' -> k = key \/ k ∈ fst <$> list_ b) /\
  Bucket_Find key (list_ b') = Some value /\
  (forall k, k <> key -> Bucket_Find k (list_ b') = Bucket_Find k (list_ b)).
Proof.
  intros Hroom Hnd. unfold Bucket_Insert.
  destruct (overwrite key value (list_ b)) as [l'|] eqn:Ho.
  - apply overwrite_Some in Ho as (Hk & Hf & Ho & _). cbn.
    rewrite Hk. split_and!; try done. tauto.
  - apply overwrite_None in Ho.
    destruct Hroom as [Hin|Hfull]; [by apply Bucket_Find_None in Ho|].
    rewrite Hfull. cbn. rewrite fmap_app. cbn. split_and!; try done.
    + apply NoDup_app. split_and!; [done| |apply NoDup_singleton].
      intros k Hk Hk'. apply list_elem_of_singleton in Hk'. congruence.
    + intros k Hk. apply elem_of_app in Hk as [?|Hk]; [tauto|].
      apply list_elem_of_singleton in Hk. tauto.
    + rewrite Bucket_Find_app. apply Bucket_Find_None in Ho. rewrite Ho.
      cbn. by rewrite decide_True.
    + intros k Hk. rewrite Bucket_Find_app.
      destruct (Bucket_Find k (list_ b)); [done|]. cbn.
      by rewrite decide_False.
Qed.

Lemma Bucket_Find_key key v l : Bucket_Find key l = Some v -> key ∈ fst <$> l.
Proof.
  intros Hf. destruct (decide (key ∈ fst <$> l)) as [|Hn]; [done|].
  apply Bucket_Find_None in Hn. congruence.
Qed.

Lemma elem_of_keys k l : k ∈ fst <$> l -> exists v : V, (k, v) ∈ l.
Proof.
  intros Hin. apply list_elem_of_fmap in Hin as ([k' v] & -> & Hin). eauto.
Qed.

Lemma Bucket_Find_filter (P : K -> Prop) `{forall k, Decision (P k)} key l :
  Bucket_Find key (filter (fun kv => P kv.1) l) =
    if decide (P key) then Bucket_Find key l else None.
Proof.
  induction l as [|[k v] l IH]; [by destruct (decide (P key))|].
  destruct (decide (P k)) as [Hk|Hk].
  - rewrite filter_cons_True by done. cbn [Bucket_Find].
    destruct (decide (k = key)) as [->|Hne]; [by destruct (decide (P key))|done].
  - rewrite filter_cons_False by done. cbn [Bucket_Find].
    destruct (decide (k = key)) as [->|Hne]; [|done].
    rewrite IH. by destruct (decide (P key)).
Qed.

Lemma NoDup_fst_filter (P : K * V -> Prop) `{forall kv, Decision (P kv)} l :
  NoDup (fst <$> l) -> NoDup (fst <$> filter P l).
Proof.
  induction l as [|kv l IH]; [done|]. rewrite fmap_cons.
  intros Hnd. apply NoDup_cons in Hnd as [Hk Hnd].
  destruct (decide (P kv)).
  - rewrite filter_cons_True, fmap_cons by done.
    apply NoDup_cons. split; [|by apply IH].
    intros Hin. apply Hk. apply list_elem_of_fmap in Hin as (kv' & -> & Hin).
    apply list_elem_of_fmap. exists kv'. split; [done|].
    by apply list_elem_of_filter in Hin as [_ ?].
  - rewrite filter_cons_False by done. by apply IH.
Qed.

Section Distribute.

Variable hash : K -> Z.

Lemma distribute_spec mask items : forall (b0 b1 : @Bucket K V),
  NoDup (fst <$> items) ->
  (forall k, k ∈ fst <$> items ->
             (k ∉ fst <$> list_ b0) /\ (k ∉ fst <$> list_ b1)) ->
  Z.of_nat (length (list_ b0) + length items) <= size_ b0 ->
  Z.of_nat (length (list_ b1) + length items) <= size_ b1 ->
  distribute hash mask items b0 b1 =
    (mkBucket (size_ b0) (depth_ b0)
       (list_ b0 ++ filter (fun kv => Z.land (hash kv.1) mask = 0) items),
     mkBucket (size_ b1) (depth_ b1)
       (list_ b1 ++ filter (fun kv => Z.land (hash kv.1) mask <> 0) items)).
Proof.
  induction items as [|[k v] items IH]; intros b0 b1 Hnd Hfresh H0 H1.
  - cbn [distribute]. rewrite !filter_nil, !app_nil_r. by destruct b0, b1.
  - rewrite fmap_cons in Hnd. apply NoDup_cons in Hnd as [Hk Hnd].
    cbn [distribute]. cbn [length] in H0, H1.
    destruct (Hfresh k) as [Hk0 Hk1]; [rewrite fmap_cons; by left|].
    assert (forall k', k' ∈ fst <$> items -> k' <> k) as Hne
      by (intros k' Hin ->; done).
    destruct (Z.land (hash k) mask =? 0) eqn:Hbit.
    + apply Z.eqb_eq in Hbit.
      rewrite Bucket_Insert_new; [|done|unfold IsFull; lia]. cbn [snd].
      rewrite IH; cbn [size_ depth_ list_]; try done.
      * rewrite filter_cons_True by done.
        rewrite filter_cons_False by (cbn [fst]; lia).
        by rewrite <- app_assoc.
      * intros k' Hin. destruct (Hfresh k') as [? ?];
          [rewrite fmap_cons; by right|]. split; [|done].
        rewrite fmap_app, elem_of_app. cbn.
        rewrite list_elem_of_singleton. intros [?|?]; [done|].
        by apply (Hne k').
      * rewrite length_app. cbn [length]. lia.
      * lia.
    + apply Z.eqb_neq in Hbit.
      rewrite Bucket_Insert_new; [|done|unfold IsFull; lia]. cbn [snd].
      rewrite IH; cbn [size_ depth_ list_]; try done.
      * rewrite filter_cons_False by (cbn [fst]; tauto).
        rewrite filter_cons_True by done.
        by rewrite <- app_assoc.
      * intros k' Hin. destruct (Hfresh k') as [? ?];
          [rewrite fmap_cons; by right|]. split; [done|].
        rewrite fmap_app, elem_of_app. cbn.
        rewrite list_elem_of_singleton. intros [?|?]; [done|].
        by apply (Hne k').
      * lia.
      * rewrite length_app. cbn [length]. lia.
Qed.

End Distribute.

End Buckets.

(** *** The loop over the directory *)

Lemma redirect_length n : forall i mask a0 a1 dir,
  length (redirect n i mask a0 a1 dir) = length dir.
Proof.
  induction n as [|n IH]; intros i mask a0 a1 dir; simpl; [done|].
  destruct (i <? Z.of_nat (length dir)); [|done].
  by rewrite IH, length_insert.
Qed.

Lemma redirect_lookup n : forall i mask a0 a1 dir (j : nat),
  0 < mask -> 0 <= i ->
  Z.of_nat (length dir) - i <= Z.of_nat n ->
  redirect n i mask a0 a1 dir !! j =
    if decide ((j < length dir)%nat /\ i <= Z.of_nat j /\
               (Z.of_nat j - i) mod mask = 0)
    then Some (if Z.land (Z.of_nat j) mask =? 0 then a0 else a1)
    else dir !! j.
Proof.
  induction n as [|n IH]; intros i mask a0 a1 dir j Hmask Hi Hn; simpl.
  - rewrite decide_False; [done|]. lia.
  - destruct (Z.ltb_spec i (Z.of_nat (length dir))) as [Hlt|Hge].
    + rewrite IH by (rewrite ?length_insert; lia).
      rewrite length_insert.
      destruct (decide (j = Z.to_nat i)) as [->|Hne].
      * rewrite Z2Nat.id by done.
        rewrite decide_False.
        2:{ intros (_ & ? & _). lia. }
        rewrite decide_True.
        2:{ split_and!; [lia|lia|]. by rewrite Z.sub_diag. }
        apply list_lookup_insert_eq. lia.
      * rewrite list_lookup_insert_ne by done.
        assert (Z.of_nat j <> i) by lia.
        destruct (decide ((j < length dir)%nat /\ i <= Z.of_nat j /\
                          (Z.of_nat j - i) mod mask = 0))
          as [(H1 & H2 & H3)|Hn'].
        -- rewrite decide_True; [done|]. split_and!; [done| |].
           ++ apply Z.mod_divide in H3; [|lia].
              destruct H3 as [c Hc].
              assert (0 < c) by nia. nia.
           ++ replace (Z.of_nat j - (i + mask))
                with (Z.of_nat j - i + (-1) * mask) by lia.
              by rewrite Z.mod_add by lia.
        -- rewrite decide_False; [done|]. intros (H1 & H2 & H3).
           apply Hn'. split_and!; [done|lia|].
           replace (Z.of_nat j - (i + mask))
             with (Z.of_nat j - i + (-1) * mask) in H3 by lia.
           by rewrite Z.mod_add in H3 by lia.
    + rewrite decide_False; [done|]. lia.
Qed.

(** Started below the stride, the loop visits the slots that agree
    with the start modulo the stride. *)
Lemma redirect_slots i mask a0 a1 dir (j : nat) :
  0 <= i < mask ->
  redirect (length dir) i mask a0 a1 dir !! j =
    if decide ((j < length dir)%nat /\ Z.of_nat j mod mask = i)
    then Some (if Z.land (Z.of_nat j) mask =? 0 then a0 else a1)
    else dir !! j.
Proof.
  intros Hi. rewrite redirect_lookup by lia.
  assert ((i <= Z.of_nat j /\ (Z.of_nat j - i) mod mask = 0) <->
          Z.of_nat j mod mask = i) as Hiff.
  { split.
    - intros [Hle Hm]. apply Z.mod_divide in Hm; [|lia].
      destruct Hm as [c Hc].
      replace (Z.of_nat j) with (i + c * mask) by lia.
      rewrite Z.mod_add by lia. apply Z.mod_small. lia.
    - intros Hm. pose proof (Z.div_mod (Z.of_nat j) mask ltac:(lia)) as Hd.
      assert (0 <= Z.of_nat j / mask) by (apply Z.div_pos; lia).
      split; [nia|].
      replace (Z.of_nat j - i) with (0 + Z.of_nat j / mask * mask) by lia.
      rewrite Z.mod_add by lia. apply Z.mod_0_l. lia. }
  destruct (decide ((j < length dir)%nat /\ Z.of_nat j mod mask = i))
    as [[? ?]|Hn].
  - rewrite decide_True; [done|]. split; [done|]. by apply Hiff.
  - rewrite decide_False; [done|]. intros (? & H2). apply Hn.
    split; [done|]. by apply Hiff.
Qed.


Lemma redirect_slots_Z i mask a0 a1 dir j :
  0 <= i < mask -> 0 <= j < Z.of_nat (length dir) ->
  redirect (length dir) i mask a0 a1 dir !! Z.to_nat j =
    if decide (j mod mask = i)
    then Some (if Z.land j mask =? 0 then a0 else a1)
    else dir !! Z.to_nat j.
Proof.
  intros Hi Hj. rewrite redirect_slots by done.
  rewrite Z2Nat.id by lia.
  destruct (decide (j mod mask = i)) as [Hm|Hm].
  - rewrite decide_True; [done|]. split; [lia|done].
  - rewrite decide_False; [done|]. tauto.
Qed.

Lemma elem_of_redirect n : forall i mask a0 a1 dir a,
  a ∈ redirect n i mask a0 a1 dir -> a = a0 \/ a = a1 \/ a ∈ dir.
Proof.
  induction n as [|n IH]; intros i mask a0 a1 dir a; simpl; [tauto|].
  destruct (i <? Z.of_nat (length dir)); [|tauto].
  intros Hin. apply IH in Hin as [?|[?|Hin]]; [tauto|tauto|].
  apply list_elem_of_lookup in Hin as [j Hj].
  destruct (decide (j = Z.to_nat i)) as [->|Hne].
  - apply list_lookup_insert_Some in Hj as [(_ & <- & _)|[? ?]]; [|done].
    destruct (Z.land i mask =? 0); tauto.
  - rewrite list_lookup_insert_ne in Hj by done.
    right; right. by eapply list_elem_of_lookup_2.
Qed.

(** Copying the directory behind itself: slot [j] of the result is slot
    [j mod 2^g] of the original. *)
Lemma lookup_doubled (dir : list nat) g j :
  0 <= g -> length dir = Z.to_nat (2 ^ g) -> 0 <= j < 2 ^ (g + 1) ->
  (dir ++ dir) !! Z.to_nat j = dir !! Z.to_nat (j mod 2 ^ g).
Proof.
  intros Hg Hlen Hj. rewrite Z.pow_add_r, Z.pow_1_r in Hj by lia.
  assert (0 < 2 ^ g) by (apply Z.pow_pos_nonneg; lia).
  destruct (Z.lt_ge_cases j (2 ^ g)) as [Hlt|Hge].
  - rewrite Z.mod_small by lia. apply lookup_app_l. lia.
  - rewrite lookup_app_r by lia. f_equal.
    replace j with ((j - 2 ^ g) + 1 * 2 ^ g) at 2 by lia.
    rewrite Z.mod_add, Z.mod_small by lia. lia.
Qed.

(** *** The table *)

Section Table.

Context {K V : Type} `{EqDecision K}.
Variable hash : K -> Z.
Implicit Types (t : @ExtendibleHashTable K V) (b : @Bucket K V).

Lemma slot_ok_bucket_at t i a b :
  0 <= i -> slot_ok hash t i a b -> bucket_at i t = Some (a, b).
Proof.
  intros Hi [Hd Hb _ _ _ _ _ _]. unfold bucket_at.
  destruct (Z.ltb_spec i 0); [lia|]. by rewrite Hd, Hb.
Qed.

Lemma slot_ok_unique t i a b a' b' :
  slot_ok hash t i a b -> slot_ok hash t i a' b' -> a = a' /\ b = b'.
Proof.
  intros [Hd Hb _ _ _ _ _ _] [Hd' Hb' _ _ _ _ _ _].
  assert (a = a') as <- by congruence. split; congruence.
Qed.

Lemma IndexOf_wf t key :
  wf hash t ->
  IndexOf hash key t = Some (hash key mod 2 ^ global_depth_ t).
Proof.
  intros Hwf. pose proof (wf_depth _ _ Hwf) as Hd.
  unfold IndexOf, shl1.
  destruct (Z.leb_spec 0 (global_depth_ t)); [|lia].
  destruct (Z.leb_spec (global_depth_ t) 30); [|lia]. simpl.
  by rewrite land_mask by lia.
Qed.

Lemma index_range t key :
  wf hash t ->
  0 <= hash key mod 2 ^ global_depth_ t < 2 ^ global_depth_ t.
Proof.
  intros Hwf. pose proof (wf_depth _ _ Hwf).
  apply Z.mod_pos_bound, Z.pow_pos_nonneg; lia.
Qed.

Lemma wf_slot t key :
  wf hash t ->
  exists a b, slot_ok hash t (hash key mod 2 ^ global_depth_ t) a b.
Proof. intros Hwf. apply (wf_slots _ _ Hwf), index_range, Hwf. Qed.

Lemma lookup_slot t key a b :
  wf hash t ->
  slot_ok hash t (hash key mod 2 ^ global_depth_ t) a b ->
  lookup hash t key = Bucket_Find key (list_ b).
Proof.
  intros Hwf Hs. unfold lookup.
  rewrite (slot_ok_bucket_at _ _ a b); [done| |done].
  apply index_range, Hwf.
Qed.

Lemma Find_lookup t key :
  wf hash t -> Find hash key t = Ok (lookup hash t key) t.
Proof.
  intros Hwf. destruct (wf_slot t key Hwf) as (a & b & Hs).
  unfold Find. rewrite IndexOf_wf by done.
  rewrite (lookup_slot _ _ a b) by done.
  rewrite (slot_ok_bucket_at _ _ a b); [done| |done].
  apply index_range, Hwf.
Qed.

Lemma table_wf_make bucket_size : wf hash (@make K V bucket_size).
Proof.
  split; simpl; [lia|done| |].
  - intros i Hi. assert (i = 0) as -> by lia.
    exists 0%nat, (mkBucket bucket_size 0 []).
    split; simpl; try done.
    + apply NoDup_nil_2.
    + intros k v Hin. by apply elem_of_nil in Hin.
    + intros j Hj _. by assert (j = 0) as -> by lia.
    + intros j Hj _. by assert (j = 0) as -> by lia.
  - intros a Ha. apply list_elem_of_singleton in Ha as ->. lia.
Qed.

(** One round of the loop, computed. *)
Lemma split_eq t key b :
  0 <= depth_ b <= 30 ->
  NoDup (fst <$> list_ b) ->
  Z.of_nat (length (list_ b)) <= bucket_size_ t ->
  let d := depth_ b in
  let dir1 := if d =? global_depth_ t then dir_ t ++ dir_ t else dir_ t in
  split hash key b t =
    Some (mkTable
            (if d =? global_depth_ t then global_depth_ t + 1
             else global_depth_ t)
            (bucket_size_ t) (num_buckets_ t)
            (redirect (length dir1) (hash key mod 2 ^ d) (2 ^ d)
                      (next_bucket t) (S (next_bucket t)) dir1)
            (<[S (next_bucket t) :=
                 mkBucket (bucket_size_ t) (d + 1)
                   (filter (fun kv => Z.land (hash kv.1) (2 ^ d) <> 0)
                           (list_ b))]>
               (<[next_bucket t :=
                    mkBucket (bucket_size_ t) (d + 1)
                      (filter (fun kv => Z.land (hash kv.1) (2 ^ d) = 0)
                              (list_ b))]>
                  (buckets t)))
            (S (S (next_bucket t)))).
Proof.
  intros Hd Hnd Hlen d dir1. unfold split, shl1. fold d.
  destruct (Z.leb_spec 0 d); [|lia].
  destruct (Z.leb_spec d 30); [|lia]. cbn [andb].
  rewrite distribute_spec; cbn [list_ size_ depth_ length app]; try done.
  - rewrite land_mask by lia. subst dir1.
    by destruct (d =? global_depth_ t).
  - intros k _. split; apply not_elem_of_nil.
Qed.

Lemma Bucket_Find_filter_bit d c key (l : list (K * V)) :
  Bucket_Find key (filter (fun kv => Z.testbit (hash kv.1) d = c) l) =
    if decide (Z.testbit (hash key) d = c) then Bucket_Find key l else None.
Proof. exact (Bucket_Find_filter (fun k => Z.testbit (hash k) d = c) key l). Qed.

Lemma land_pow2_testbit x d :
  0 <= d -> (Z.land x (2 ^ d) =? 0) = negb (Z.testbit x d).
Proof. apply land_pow2_zero. Qed.

(** What a round of the loop does to the table: the slots that agree
    with the key on the low [d] bits are divided by bit [d] between two
    new buckets of depth [d + 1], which share the entries of the old
    bucket by the same bit; all other slots are as before. *)
Lemma split_ok t key a b t' g1 dir1 :
  wf hash t ->
  slot_ok hash t (hash key mod 2 ^ global_depth_ t) a b ->
  depth_ b < 30 ->
  g1 = (if depth_ b =? global_depth_ t then global_depth_ t + 1
        else global_depth_ t) ->
  dir1 = (if depth_ b =? global_depth_ t then dir_ t ++ dir_ t
          else dir_ t) ->
  global_depth_ t' = g1 ->
  bucket_size_ t' = bucket_size_ t ->
  dir_ t' = redirect (length dir1) (hash key mod 2 ^ depth_ b)
              (2 ^ depth_ b) (next_bucket t) (S (next_bucket t)) dir1 ->
  buckets t' =
    <[S (next_bucket t) :=
        mkBucket (bucket_size_ t) (depth_ b + 1)
          (filter (fun kv => Z.land (hash kv.1) (2 ^ depth_ b) <> 0)
                  (list_ b))]>
      (<[next_bucket t :=
           mkBucket (bucket_size_ t) (depth_ b + 1)
             (filter (fun kv => Z.land (hash kv.1) (2 ^ depth_ b) = 0)
                     (list_ b))]>
         (buckets t)) ->
  next_bucket t' = S (S (next_bucket t)) ->
  wf hash t' /\
  (forall k, lookup hash t' k = lookup hash t k) /\
  exists a' b', slot_ok hash t' (hash key mod 2 ^ g1) a' b' /\
                depth_ b' = depth_ b + 1.
Proof.
  intros Hwf Hs Hd30 Eg1 Edir1 Hgd Hbs Hdir Hbk Hnx.
  pose proof (wf_depth _ _ Hwf) as Hg.
  pose proof (wf_length _ _ Hwf) as Hlen.
  pose proof (slot_depth _ _ _ _ _ Hs) as Hd.
  set (d := depth_ b) in *. set (g := global_depth_ t) in *.
  set (i0 := hash key mod 2 ^ d) in *.
  assert (0 < 2 ^ d) as Hpd by (apply Z.pow_pos_nonneg; lia).
  assert (0 < 2 ^ g) as Hpg by (apply Z.pow_pos_nonneg; lia).
  assert (0 <= i0 < 2 ^ d) as Hi0 by (apply Z.mod_pos_bound; lia).
  assert (g <= g1 <= 30 /\ d + 1 <= g1) as Hg1.
  { subst g1. destruct (Z.eqb_spec d g); lia. }
  assert (length dir1 = Z.to_nat (2 ^ g1)) as Hlen1.
  { subst g1 dir1. destruct (Z.eqb_spec d g); [|done].
    rewrite length_app, Hlen, Z.pow_add_r, Z.pow_1_r by lia. lia. }
  assert (forall j, 0 <= j < 2 ^ g1 ->
            dir1 !! Z.to_nat j = dir_ t !! Z.to_nat (j mod 2 ^ g)) as Hdir1.
  { intros j Hj. subst g1 dir1. destruct (Z.eqb_spec d g).
    - by apply lookup_doubled; [lia| |].
    - by rewrite Z.mod_small. }
  assert (forall x, x ∈ dir1 -> x ∈ dir_ t) as Hin1.
  { intros x. subst dir1. destruct (d =? g); [|done].
    rewrite elem_of_app. tauto. }
  clear Eg1 Edir1.
  assert (forall j, 0 <= j < 2 ^ g1 -> 0 <= j mod 2 ^ g < 2 ^ g) as Hmod
    by (intros; apply Z.mod_pos_bound; lia).
  assert (forall j aj,
            0 <= j < 2 ^ g1 ->
            dir_ t !! Z.to_nat (j mod 2 ^ g) = Some aj ->
            dir_ t' !! Z.to_nat j =
              Some (if decide (j mod 2 ^ d = i0)
                    then (if Z.testbit j d then S (next_bucket t)
                          else next_bucket t)
                    else aj)) as Hdir2.
  { intros j aj Hj Haj. rewrite Hdir, redirect_slots_Z by lia.
    destruct (decide (j mod 2 ^ d = i0)).
    - rewrite land_pow2_testbit by lia. by destruct (Z.testbit j d).
    - by rewrite Hdir1. }
  assert (forall j, 0 <= j < 2 ^ g1 -> j mod 2 ^ d = i0 ->
            dir_ t !! Z.to_nat (j mod 2 ^ g) = Some a) as Hshared.
  { intros j Hj Hm. apply (slot_shared _ _ _ _ _ Hs); [by apply Hmod|].
    fold d g. rewrite !mod_pow2_le by lia. done. }
  assert (forall j aj bj,
    0 <= j < 2 ^ g1 -> slot_ok hash t (j mod 2 ^ g) aj bj ->
    if decide (j mod 2 ^ d = i0)
    then bj = b /\
         slot_ok hash t' j
           (if Z.testbit j d then S (next_bucket t) else next_bucket t)
           (mkBucket (bucket_size_ t) (d + 1)
              (filter (fun kv => Z.testbit (hash kv.1) d = Z.testbit j d)
                      (list_ b)))
    else slot_ok hash t' j aj bj) as Hslots.
  { intros j aj bj Hj Hsj.
    pose proof (Hdir2 j aj Hj (slot_dir _ _ _ _ _ Hsj)) as Hdj.
    destruct (decide (j mod 2 ^ d = i0)) as [Hm|Hm].
    - pose proof (Hshared j Hj Hm) as Ha.
      assert (aj = a) as -> by (pose proof (slot_dir _ _ _ _ _ Hsj); congruence).
      assert (bj = b) as ->.
      { pose proof (slot_bucket _ _ _ _ _ Hsj).
        pose proof (slot_bucket _ _ _ _ _ Hs). congruence. }
      split; [done|]. split; cbn [depth_ size_ list_].
      + done.
      + rewrite Hbk. destruct (Z.testbit j d) eqn:Hbit.
        * rewrite lookup_insert_eq. do 2 f_equal.
          apply list_filter_iff. intros [k v]. cbn [fst].
          rewrite land_pow2 by lia. destruct (Z.testbit (hash k) d); [|done].
          split; [done|lia].
        * rewrite lookup_insert_ne by lia. rewrite lookup_insert_eq.
          do 2 f_equal.
          apply list_filter_iff. intros [k v]. cbn [fst].
          rewrite land_pow2 by lia. destruct (Z.testbit (hash k) d); [|done].
          split; [lia|done].
      + rewrite Hgd. lia.
      + by rewrite Hbs.
      + apply NoDup_fst_filter, Hs.
      + intros k v Hin. apply list_elem_of_filter in Hin as [Hbit Hin].
        cbn [fst] in Hbit. apply mod_pow2_succ_eq; [lia|]. split; [|done].
        pose proof (slot_keys _ _ _ _ _ Hs k v Hin) as Hk. fold d g in Hk.
        rewrite Hk, mod_pow2_le by lia. by rewrite Hm.
      + intros j' Hj' Hm'. rewrite Hgd in Hj'.
        apply mod_pow2_succ_eq in Hm' as [Hm' Hbit']; [|lia].
        rewrite (Hdir2 j' a Hj'); [|apply Hshared; [done|congruence]].
        rewrite decide_True by congruence. by rewrite Hbit'.
      + intros j' Hj' Hdj'. rewrite Hgd in Hj'.
        destruct (wf_slots _ _ Hwf (j' mod 2 ^ g)) as (a' & b' & Hs');
          [by apply Hmod|].
        pose proof (slot_dir _ _ _ _ _ Hs') as Ha'.
        assert (a' < next_bucket t)%nat
          by (eapply (wf_fresh _ _ Hwf), list_elem_of_lookup_2, Ha').
        rewrite (Hdir2 j' a' Hj' Ha') in Hdj'.
        destruct (decide (j' mod 2 ^ d = i0)) as [Hm'|Hm'].
        * apply mod_pow2_succ_eq; [lia|]. split; [congruence|].
          destruct (Z.testbit j' d), (Z.testbit j d); try done;
            injection Hdj'; lia.
        * destruct (Z.testbit j d); injection Hdj'; lia.
    - assert (aj < next_bucket t)%nat as Hfresh.
      { apply (wf_fresh _ _ Hwf).
        eapply list_elem_of_lookup_2, (slot_dir _ _ _ _ _ Hsj). }
      split.
      + done.
      + rewrite Hbk. rewrite !lookup_insert_ne by lia. apply Hsj.
      + pose proof (slot_depth _ _ _ _ _ Hsj) as Hdj'. fold g in Hdj'.
        rewrite Hgd. lia.
      + rewrite Hbs. apply Hsj.
      + apply Hsj.
      + intros k v Hin. rewrite (slot_keys _ _ _ _ _ Hsj k v Hin).
        pose proof (slot_depth _ _ _ _ _ Hsj) as Hdj'. fold g in Hdj'.
        by rewrite mod_pow2_le by lia.
      + intros j' Hj' Hm'. rewrite Hgd in Hj'.
        pose proof (slot_depth _ _ _ _ _ Hsj) as Hdj'. fold g in Hdj'.
        assert (dir_ t !! Z.to_nat (j' mod 2 ^ g) = Some aj) as Haj'.
        { apply (slot_shared _ _ _ _ _ Hsj); [by apply Hmod|]. fold g.
          rewrite !mod_pow2_le by lia. done. }
        rewrite (Hdir2 j' aj Hj' Haj').
        destruct (decide (j' mod 2 ^ d = i0)) as [Hm2|Hm2]; [|done].
        exfalso. apply Hm.
        pose proof (Hshared j' Hj' Hm2) as Ha.
        assert (aj = a) as -> by congruence.
        assert (bj = b) as ->.
        { pose proof (slot_bucket _ _ _ _ _ Hsj).
          pose proof (slot_bucket _ _ _ _ _ Hs). congruence. }
        fold d in Hm'. congruence.
      + intros j' Hj' Hdj'. rewrite Hgd in Hj'.
        pose proof (slot_depth _ _ _ _ _ Hsj) as Hdep. fold g in Hdep.
        destruct (wf_slots _ _ Hwf (j' mod 2 ^ g)) as (a' & b' & Hs');
          [by apply Hmod|].
        pose proof (slot_dir _ _ _ _ _ Hs') as Ha'.
        rewrite (Hdir2 j' a' Hj' Ha') in Hdj'.
        destruct (decide (j' mod 2 ^ d = i0)) as [Hm'|Hm'].
        * destruct (Z.testbit j' d); injection Hdj'; lia.
        * assert (a' = aj) as -> by congruence.
          pose proof (slot_only _ _ _ _ _ Hsj (j' mod 2 ^ g)
                        ltac:(by apply Hmod) Ha') as Ho.
          fold g in Ho. by rewrite !mod_pow2_le in Ho by lia. }
  split; [|split].
  - split.
    + rewrite Hgd. lia.
    + by rewrite Hdir, redirect_length, Hlen1, Hgd.
    + intros i Hi. rewrite Hgd in Hi.
      destruct (wf_slots _ _ Hwf (i mod 2 ^ g)) as (aj & bj & Hsj);
        [by apply Hmod|].
      specialize (Hslots i aj bj Hi Hsj).
      destruct (decide (i mod 2 ^ d = i0)); [|by eauto].
      destruct Hslots as [_ Hslots]. eauto.
    + intros x Hx. rewrite Hdir in Hx. rewrite Hnx.
      apply elem_of_redirect in Hx as [->|[->|Hx]]; [lia|lia|].
      apply Hin1, (wf_fresh _ _ Hwf) in Hx. lia.
  - intros k. destruct (wf_slot t k Hwf) as (aj & bj & Hsj). fold g in Hsj.
    rewrite (lookup_slot t k aj bj) by done.
    unfold lookup. rewrite Hgd.
    assert (0 <= hash k mod 2 ^ g1 < 2 ^ g1) as Hj
      by (apply Z.mod_pos_bound, Z.pow_pos_nonneg; lia).
    specialize (Hslots (hash k mod 2 ^ g1) aj bj Hj).
    rewrite mod_pow2_le in Hslots by lia. specialize (Hslots Hsj).
    destruct (decide ((hash k mod 2 ^ g1) mod 2 ^ d = i0)).
    + destruct Hslots as [-> Hslots].
      rewrite (slot_ok_bucket_at _ _ _ _ (proj1 Hj) Hslots).
      cbn [list_].
      rewrite Bucket_Find_filter_bit.
      rewrite decide_True; [done|].
      by rewrite testbit_mod_pow2 by lia.
    + by rewrite (slot_ok_bucket_at _ _ _ _ (proj1 Hj) Hslots).
  - assert (0 <= hash key mod 2 ^ g1 < 2 ^ g1) as Hj
      by (apply Z.mod_pos_bound, Z.pow_pos_nonneg; lia).
    specialize (Hslots (hash key mod 2 ^ g1) a b Hj).
    rewrite mod_pow2_le in Hslots by lia. specialize (Hslots Hs).
    rewrite decide_True in Hslots by (by rewrite mod_pow2_le by lia).
    destruct Hslots as [_ Hslots]. eauto.
Qed.

(** Replacing the bucket behind a slot by one of the same depth whose
    keys belong there. *)
Lemma store_bucket t i0 a b b' :
  wf hash t -> 0 <= i0 < 2 ^ global_depth_ t -> slot_ok hash t i0 a b ->
  size_ b' = size_ b -> depth_ b' = depth_ b -> NoDup (fst <$> list_ b') ->
  (forall k v, (k, v) ∈ list_ b' ->
               hash k mod 2 ^ depth_ b = i0 mod 2 ^ depth_ b) ->
  wf hash (with_buckets (<[a := b']> (buckets t)) t) /\
  forall k,
    lookup hash (with_buckets (<[a := b']> (buckets t)) t) k =
      if decide (hash k mod 2 ^ depth_ b = i0 mod 2 ^ depth_ b)
      then Bucket_Find k (list_ b') else lookup hash t k.
Proof.
  intros Hwf Hi0 Hs Hsz Hdp Hnd Hkeys.
  pose proof (wf_depth _ _ Hwf) as Hg.
  pose proof (slot_depth _ _ _ _ _ Hs) as Hd.
  split.
  - split; cbn; try apply Hwf.
    intros i Hi. destruct (wf_slots _ _ Hwf i Hi) as (ai & bi & Hsi).
    destruct (decide (ai = a)) as [->|Hne].
    + assert (bi = b) as ->.
      { pose proof (slot_bucket _ _ _ _ _ Hsi).
        pose proof (slot_bucket _ _ _ _ _ Hs). congruence. }
      exists a, b'. split; cbn; rewrite ?Hdp, ?Hsz; try apply Hsi.
      * by rewrite lookup_insert_eq.
      * done.
      * intros k v Hin. rewrite (Hkeys k v Hin). symmetry.
        apply (slot_only _ _ _ _ _ Hs); [done|apply Hsi].
    + exists ai, bi. split; cbn; try apply Hsi.
      rewrite lookup_insert_ne by done. apply Hsi.
  - intros k. destruct (wf_slot t k Hwf) as (aj & bj & Hsj).
    pose proof (index_range t k Hwf) as Hj.
    rewrite (lookup_slot t k aj bj) by done.
    unfold lookup, bucket_at. cbn.
    destruct (Z.ltb_spec (hash k mod 2 ^ global_depth_ t) 0); [lia|].
    rewrite (slot_dir _ _ _ _ _ Hsj).
    destruct (decide (hash k mod 2 ^ depth_ b = i0 mod 2 ^ depth_ b))
      as [Hm|Hm].
    + assert (aj = a) as ->.
      { pose proof (slot_dir _ _ _ _ _ Hsj) as Hdj.
        rewrite (slot_shared _ _ _ _ _ Hs _ Hj) in Hdj; [congruence|].
        by rewrite mod_pow2_le by lia. }
      by rewrite lookup_insert_eq.
    + assert (aj <> a) as Hne.
      { intros ->. apply Hm.
        rewrite <- (slot_only _ _ _ _ _ Hs _ Hj (slot_dir _ _ _ _ _ Hsj)).
        by rewrite mod_pow2_le by lia. }
      rewrite lookup_insert_ne by done.
      by rewrite (slot_bucket _ _ _ _ _ Hsj).
Qed.

(** The last step of [Insert]: the bucket behind the slot of the key
    has the key or has room. *)
Lemma insert_at_spec t key value a b :
  wf hash t ->
  slot_ok hash t (hash key mod 2 ^ global_depth_ t) a b ->
  Bucket_Find key (list_ b) <> None \/ IsFull b = false ->
  exists t', insert_at (hash key mod 2 ^ global_depth_ t) key value t
             = Ok tt t' /\
    wf hash t' /\ bucket_size_ t' = bucket_size_ t /\
    lookup hash t' key = Some value /\
    forall k, k <> key -> lookup hash t' k = lookup hash t k.
Proof.
  intros Hwf Hs Hroom.
  pose proof (index_range t key Hwf) as Hi.
  pose proof (wf_depth _ _ Hwf) as Hg.
  pose proof (slot_depth _ _ _ _ _ Hs) as Hd.
  destruct (Bucket_Insert_spec key value b Hroom (slot_nodup _ _ _ _ _ Hs))
    as (Hsz & Hdp & Hnd & Hkeys & Hfind & Hother).
  unfold insert_at. rewrite (slot_ok_bucket_at _ _ a b) by (done || lia).
  eexists. split; [done|].
  destruct (store_bucket t _ a b (Bucket_Insert key value b).2 Hwf Hi Hs
              Hsz Hdp Hnd) as [Hwf' Hlook].
  { intros k v Hin.
    destruct (Hkeys k) as [->|Hk].
    - apply list_elem_of_fmap. by exists (k, v).
    - by rewrite mod_pow2_le by lia.
    - apply elem_of_keys in Hk as [v' Hk].
      apply (slot_keys _ _ _ _ _ Hs k v' Hk). }
  split_and!; [done|done| |].
  - rewrite Hlook, decide_True; [done|]. by rewrite mod_pow2_le by lia.
  - intros k Hk. rewrite Hlook.
    destruct (decide (hash k mod 2 ^ depth_ b =
                      (hash key mod 2 ^ global_depth_ t) mod 2 ^ depth_ b))
      as [Hm|Hm]; [|done].
    rewrite Hother by done. symmetry. apply (lookup_slot t k a b Hwf).
    assert (slot_ok hash t (hash k mod 2 ^ global_depth_ t) a b) as Hsk; [|done].
    destruct (wf_slot t k Hwf) as (ak & bk & Hsk).
    pose proof (slot_dir _ _ _ _ _ Hsk) as Hdk.
    rewrite (slot_shared _ _ _ _ _ Hs _ (index_range t k Hwf)) in Hdk
      by (by rewrite mod_pow2_le by lia).
    assert (ak = a) as -> by congruence.
    assert (bk = b) as ->; [|done].
    pose proof (slot_bucket _ _ _ _ _ Hsk).
    pose proof (slot_bucket _ _ _ _ _ Hs). congruence.
Qed.

(** The loop of [Insert]: when it ends, the table reads as before and
    the bucket behind the slot of the key has room. *)
Lemma split_loop_spec fuel : forall t key,
  wf hash t ->
  match split_loop hash fuel key (hash key mod 2 ^ global_depth_ t) t with
  | Ok index t' =>
      wf hash t' /\ bucket_size_ t' = bucket_size_ t /\
      (forall k, lookup hash t' k = lookup hash t k) /\
      index = hash key mod 2 ^ global_depth_ t' /\
      exists a b, slot_ok hash t' index a b /\ IsFull b = false
  | Throw e _ => False
  | _ => True
  end.
Proof.
  induction fuel as [|fuel IH]; intros t key Hwf;
    destruct (wf_slot t key Hwf) as (a & b & Hs);
    pose proof (index_range t key Hwf) as Hi;
    cbn [split_loop]; rewrite (slot_ok_bucket_at _ _ a b) by (done || lia);
    destruct (IsFull b) eqn:Hfull; try done;
    try (split_and!; try done; by exists a, b).
  pose proof (wf_depth _ _ Hwf) as Hg.
  pose proof (slot_depth _ _ _ _ _ Hs) as Hd.
  pose proof (slot_size _ _ _ _ _ Hs) as Hsz.
  assert (Z.of_nat (length (list_ b)) <= bucket_size_ t) as Hlen
    by (unfold IsFull in Hfull; lia).
  pose proof (split_eq t key b ltac:(lia) (slot_nodup _ _ _ _ _ Hs) Hlen)
    as Hsp. cbv zeta in Hsp. rewrite Hsp. clear Hsp.
  destruct (decide (depth_ b < 30)) as [Hlt|Hge].
  - match goal with |- context [IndexOf hash key ?t1] =>
      destruct (split_ok t key a b t1 _ _ Hwf Hs Hlt eq_refl eq_refl
                  eq_refl eq_refl eq_refl eq_refl eq_refl)
        as (Hwf' & Hlook & _);
      rewrite (IndexOf_wf t1 key Hwf'); specialize (IH t1 key Hwf');
      destruct (split_loop hash fuel key _ t1) as [index t2| | |]; try done
    end.
    destruct IH as (Hwf2 & Hbs & Hlook2 & Hidx & Hroom).
    split_and!; try done.
    intros k. by rewrite Hlook2, Hlook.
  - assert (depth_ b = 30 /\ global_depth_ t = 30) as [Hd30 Hg30] by lia.
    unfold IndexOf, shl1. cbn [global_depth_].
    rewrite Hd30, Hg30. done.
Qed.

(** A full bucket behind the slot of a new key has depth below 30 when
    30 bits of the hash tell the keys apart. *)
Lemma full_depth t key a b ks :
  wf hash t ->
  slot_ok hash t (hash key mod 2 ^ global_depth_ t) a b ->
  IsFull b = true ->
  1 <= bucket_size_ t ->
  lookup hash t key = None ->
  (forall k, lookup hash t k <> None -> k ∈ ks) ->
  separated hash 30 (key :: ks) ->
  depth_ b < 30.
Proof.
  intros Hwf Hs Hfull Hbs Hnew Hks Hsep.
  pose proof (wf_depth _ _ Hwf) as Hg.
  pose proof (slot_depth _ _ _ _ _ Hs) as Hd.
  pose proof (slot_size _ _ _ _ _ Hs) as Hsz.
  unfold IsFull in Hfull. apply Z.eqb_eq in Hfull.
  destruct (list_ b) as [|[k v] l] eqn:Hl; [cbn in Hfull; lia|].
  destruct (Z.lt_ge_cases (depth_ b) 30) as [|Hge]; [done|exfalso].
  assert (depth_ b = 30 /\ global_depth_ t = 30) as [Hd30 Hg30] by lia.
  pose proof (slot_keys _ _ _ _ _ Hs k v) as Hk.
  rewrite Hl in Hk. specialize (Hk ltac:(by left)).
  rewrite Hd30, Hg30 in Hk. rewrite Zmod_mod in Hk.
  assert (slot_ok hash t (hash k mod 2 ^ global_depth_ t) a b) as Hsk.
  { by rewrite Hg30, Hk, <- Hg30. }
  pose proof (lookup_slot t k a b Hwf Hsk) as Hlk.
  rewrite Hl in Hlk. cbn in Hlk. rewrite decide_True in Hlk by done.
  assert (k = key) as ->.
  { apply Hsep; [right; apply Hks; congruence|by left|done]. }
  congruence.
Qed.

Lemma split_loop_terminates fuel : forall t key a b ks,
  wf hash t ->
  slot_ok hash t (hash key mod 2 ^ global_depth_ t) a b ->
  1 <= bucket_size_ t ->
  lookup hash t key = None ->
  (forall k, lookup hash t k <> None -> k ∈ ks) ->
  separated hash 30 (key :: ks) ->
  30 - depth_ b < Z.of_nat fuel ->
  exists index t',
    split_loop hash fuel key (hash key mod 2 ^ global_depth_ t) t
    = Ok index t'.
Proof.
  induction fuel as [|fuel IH]; intros t key a b ks Hwf Hs Hbs Hnew Hks
    Hsep Hfuel;
    pose proof (index_range t key Hwf) as Hi;
    pose proof (slot_depth _ _ _ _ _ Hs) as Hd;
    pose proof (wf_depth _ _ Hwf) as Hg;
    cbn [split_loop]; rewrite (slot_ok_bucket_at _ _ a b) by (done || lia);
    destruct (IsFull b) eqn:Hfull; try by eauto.
  - pose proof (full_depth t key a b ks Hwf Hs Hfull Hbs Hnew Hks Hsep). lia.
  - pose proof (full_depth t key a b ks Hwf Hs Hfull Hbs Hnew Hks Hsep) as Hlt.
    pose proof (slot_size _ _ _ _ _ Hs) as Hsz.
    assert (Z.of_nat (length (list_ b)) <= bucket_size_ t) as Hlen
      by (unfold IsFull in Hfull; lia).
    pose proof (split_eq t key b ltac:(lia) (slot_nodup _ _ _ _ _ Hs) Hlen)
      as Hsp. cbv zeta in Hsp. rewrite Hsp. clear Hsp.
    match goal with |- context [IndexOf hash key ?t1] =>
      destruct (split_ok t key a b t1 _ _ Hwf Hs Hlt eq_refl eq_refl
                  eq_refl eq_refl eq_refl eq_refl eq_refl)
        as (Hwf' & Hlook & a' & b' & Hs' & Hd');
      rewrite (IndexOf_wf t1 key Hwf');
      apply (IH t1 key a' b' ks Hwf' Hs')
    end.
    + done.
    + by rewrite Hlook.
    + intros k. rewrite Hlook. apply Hks.
    + done.
    + lia.
Qed.

Lemma Insert_spec fuel t key value :
  wf hash t ->
  match Insert hash fuel key value t with
  | Ok _ t' =>
      wf hash t' /\ bucket_size_ t' = bucket_size_ t /\
      lookup hash t' key = Some value /\
      forall k, k <> key -> lookup hash t' k = lookup hash t k
  | Throw e _ => False
  | _ => True
  end.
Proof.
  intros Hwf. destruct (wf_slot t key Hwf) as (a & b & Hs).
  pose proof (index_range t key Hwf) as Hi.
  unfold Insert. rewrite IndexOf_wf by done.
  rewrite (slot_ok_bucket_at _ _ a b) by (done || lia).
  destruct (Bucket_Find key (list_ b)) as [v|] eqn:Hfind.
  - destruct (insert_at_spec t key value a b Hwf Hs) as (t' & -> & H');
      [left; congruence|done].
  - pose proof (split_loop_spec fuel t key Hwf) as Hloop.
    destruct (split_loop hash fuel key _ t) as [index t1| | |]; try done.
    destruct Hloop as (Hwf1 & Hbs1 & Hlook1 & -> & a1 & b1 & Hs1 & Hroom).
    cbn [bind].
    destruct (insert_at_spec t1 key value a1 b1 Hwf1 Hs1)
      as (t' & -> & Hwf' & Hbs' & Hkey & Hother); [by right|].
    split_and!; [done|congruence|done|].
    intros k Hk. by rewrite Hother, Hlook1.
Qed.

Lemma Insert_terminates fuel t key value ks :
  wf hash t ->
  1 <= bucket_size_ t ->
  (forall k, lookup hash t k <> None -> k ∈ ks) ->
  separated hash 30 (key :: ks) ->
  (31 <= fuel)%nat ->
  exists t', Insert hash fuel key value t = Ok tt t'.
Proof.
  intros Hwf Hbs Hks Hsep Hfuel.
  destruct (wf_slot t key Hwf) as (a & b & Hs).
  pose proof (index_range t key Hwf) as Hi.
  pose proof (slot_depth _ _ _ _ _ Hs) as Hd.
  unfold Insert. rewrite IndexOf_wf by done.
  rewrite (slot_ok_bucket_at _ _ a b) by (done || lia).
  destruct (Bucket_Find key (list_ b)) as [v|] eqn:Hfind.
  - destruct (insert_at_spec t key value a b Hwf Hs) as (t' & -> & H');
      [left; congruence|by eauto].
  - assert (lookup hash t key = None) as Hnew
      by (by rewrite (lookup_slot t key a b)).
    destruct (split_loop_terminates fuel t key a b ks Hwf Hs Hbs Hnew Hks
                Hsep ltac:(lia)) as (index & t1 & Hloop).
    pose proof (split_loop_spec fuel t key Hwf) as Hspec.
    rewrite Hloop in Hspec. rewrite Hloop. cbn [bind].
    destruct Hspec as (Hwf1 & Hbs1 & Hlook1 & -> & a1 & b1 & Hs1 & Hroom).
    destruct (insert_at_spec t1 key value a1 b1 Hwf1 Hs1)
      as (t' & -> & _); [by right|by eauto].
Qed.

(** A sequence of insertions. *)
Lemma insert_all_spec fuel kvs : forall t,
  wf hash t ->
  match insert_all hash fuel kvs t with
  | Ok _ t' =>
      wf hash t' /\ bucket_size_ t' = bucket_size_ t /\
      forall k, lookup hash t' k =
                match last_inserted k kvs with
                | Some v => Some v
                | None => lookup hash t k
                end
  | Throw e _ => False
  | _ => True
  end.
Proof.
  induction kvs as [|[key value] kvs IH]; intros t Hwf; cbn [insert_all].
  - done.
  - pose proof (Insert_spec fuel t key value Hwf) as Hins.
    destruct (Insert hash fuel key value t) as [[] t1| | |]; try done.
    destruct Hins as (Hwf1 & Hbs1 & Hkey & Hother). cbn [bind].
    specialize (IH t1 Hwf1).
    destruct (insert_all hash fuel kvs t1) as [[] t2| | |]; try done.
    destruct IH as (Hwf2 & Hbs2 & Hlook). split_and!; [done|congruence|].
    intros k. rewrite Hlook. cbn [last_inserted].
    destruct (last_inserted k kvs); [done|].
    destruct (decide (key = k)) as [->|Hne]; [done|].
    apply Hother. congruence.
Qed.

Lemma lookup_make bucket_size k :
  lookup hash (@make K V bucket_size) k = None.
Proof.
  unfold lookup, make, bucket_at. cbn [global_depth_ dir_ buckets].
  rewrite Z.pow_0_r, Z.mod_1_r. done.
Qed.

Lemma insert_all_terminates fuel kvs : forall t ks,
  wf hash t ->
  1 <= bucket_size_ t ->
  (forall k, lookup hash t k <> None -> k ∈ ks) ->
  separated hash 30 (ks ++ (fst <$> kvs)) ->
  (31 <= fuel)%nat ->
  exists t', insert_all hash fuel kvs t = Ok tt t'.
Proof.
  induction kvs as [|[key value] kvs IH]; intros t ks Hwf Hbs Hks Hsep Hfuel;
    cbn [insert_all]; [by eauto|].
  destruct (Insert_terminates fuel t key value ks Hwf Hbs Hks) as (t1 & Hins);
    [|done|].
  { intros k1 k2 Hk1 Hk2. apply Hsep.
    - apply elem_of_cons in Hk1 as [->|?]; apply elem_of_app;
        [right; by left|by left].
    - apply elem_of_cons in Hk2 as [->|?]; apply elem_of_app;
        [right; by left|by left]. }
  pose proof (Insert_spec fuel t key value Hwf) as Hspec.
  rewrite Hins in Hspec. rewrite Hins. cbn [bind].
  destruct Hspec as (Hwf1 & Hbs1 & Hkey & Hother).
  apply (IH t1 (ks ++ [key])); try done.
  - congruence.
  - intros k Hk. destruct (decide (k = key)) as [->|Hne].
    + apply elem_of_app. right. by left.
    + apply elem_of_app. left. apply Hks. by rewrite <- Hother.
  - by rewrite <- app_assoc.
Qed.

(** C4 (extendible hash table, [Insert] then [Find]).  After any
    sequence of [Insert] calls on a new table, [Find] of a key returns
    the value of the most recent insertion of this key, and finds
    nothing for a key that was not inserted: an insertion of a present
    key overwrites its value, and the splits of a full bucket, with or
    without the doubling of the directory, lose no entry.  The calls
    return when a bucket holds at least one entry and the 30 low bits of
    the hashes tell the keys apart, so that no bucket is asked for a
    depth beyond what [1 << depth] can express in an [int]. *)
Theorem insert_then_find bucket_size fuel (kvs : list (K * V)) :
  (forall t,
     insert_all hash fuel kvs (make bucket_size) = Ok tt t ->
     forall k, Find hash k t = Ok (last_inserted k kvs) t) /\
  (1 <= bucket_size -> separated hash 30 (fst <$> kvs) ->
   (31 <= fuel)%nat ->
   exists t, insert_all hash fuel kvs (make bucket_size) = Ok tt t).
Proof.
  split.
  - intros t Hrun k.
    pose proof (insert_all_spec fuel kvs _ (table_wf_make bucket_size))
      as Hspec.
    rewrite Hrun in Hspec. destruct Hspec as (Hwf & _ & Hlook).
    rewrite Find_lookup by done. rewrite Hlook, lookup_make.
    by destruct (last_inserted k kvs).
  - intros Hbs Hsep Hfuel.
    apply (insert_all_terminates fuel kvs _ []); try done.
    + apply table_wf_make.
    + intros k. by rewrite lookup_make.
Qed.

(** [Remove] takes the key out and leaves the other keys alone. *)
Lemma Remove_spec t key :
  wf hash t ->
  exists found t', Remove hash key t = Ok found t' /\
    wf hash t' /\ bucket_size_ t' = bucket_size_ t /\
    lookup hash t' key = None /\
    forall k, k <> key -> lookup hash t' k = lookup hash t k.
Proof.
  intros Hwf. destruct (wf_slot t key Hwf) as (a & b & Hs).
  pose proof (index_range t key Hwf) as Hi.
  pose proof (wf_depth _ _ Hwf) as Hg.
  pose proof (slot_depth _ _ _ _ _ Hs) as Hd.
  unfold Remove. rewrite IndexOf_wf by done.
  rewrite (slot_ok_bucket_at _ _ a b) by (done || lia).
  destruct (Bucket_Remove_spec key (list_ b) (slot_nodup _ _ _ _ _ Hs))
    as (Hnd & Hgone & Hother & Hsub).
  destruct (Bucket_Remove key (list_ b)) as [found l'] eqn:Hrm.
  cbn [snd] in *. exists found. eexists. split; [done|].
  destruct (store_bucket t _ a b (mkBucket (size_ b) (depth_ b) l') Hwf Hi Hs
              eq_refl eq_refl Hnd) as [Hwf' Hlook].
  { intros k v Hin. apply (slot_keys _ _ _ _ _ Hs k v). by apply Hsub. }
  split_and!; [done|done| |].
  - rewrite Hlook, decide_True; [done|]. by rewrite mod_pow2_le by lia.
  - intros k Hk. rewrite Hlook. cbn [list_].
    destruct (decide (hash k mod 2 ^ depth_ b =
                      (hash key mod 2 ^ global_depth_ t) mod 2 ^ depth_ b))
      as [Hm|Hm]; [|done].
    rewrite Hother by done. symmetry. apply (lookup_slot t k a b Hwf).
    destruct (wf_slot t k Hwf) as (ak & bk & Hsk).
    pose proof (slot_dir _ _ _ _ _ Hsk) as Hdk.
    rewrite (slot_shared _ _ _ _ _ Hs _ (index_range t k Hwf)) in Hdk
      by (by rewrite mod_pow2_le by lia).
    assert (ak = a) as -> by congruence.
    assert (bk = b) as ->; [|done].
    pose proof (slot_bucket _ _ _ _ _ Hsk).
    pose proof (slot_bucket _ _ _ _ _ Hs). congruence.
Qed.

End Table.

(** The scenario of the table with buckets of two entries and the
    identity as hash: the third insertion finds the only bucket full and
    doubles the directory once. *)
Example insert_three_doubles_once :
  match insert_all id 31 [(1, 10); (2, 20); (3, 30)] (make 2) with
  | Ok _ t =>
      global_depth_ t = 1 /\ length (dir_ t) = 2%nat /\
      Find id 1 t = Ok (Some 10) t /\ Find id 2 t = Ok (Some 20) t /\
      Find id 3 t = Ok (Some 30) t /\ Find id 4 t = Ok None t
  | _ => False
  end.
Proof. vm_compute. by split_and!. Qed.

(** An insertion of a present key replaces the value where it stands. *)
Example insert_present_overwrites :
  Bucket_Insert 1 11 (mkBucket 2 0 [(1, 10); (2, 20)])
  = (true, mkBucket 2 0 [(1, 11); (2, 20)]).
Proof. reflexivity. Qed.

Lemma insert_then_find_witness :
  exists t,
    insert_all id 31 [(1, 10); (2, 20); (1, 11); (3, 30)] (make 2) = Ok tt t /\
    Find id 1 t = Ok (Some 11) t /\ Find id 2 t = Ok (Some 20) t /\
    Find id 3 t = Ok (Some 30) t /\ Find id 7 t = Ok None t.
Proof.
  destruct (insert_then_find (K := Z) (V := Z) id 2 31
              [(1, 10); (2, 20); (1, 11); (3, 30)]) as [Hfind Hrun].
  destruct Hrun as [t Ht].
  - lia.
  - intros k1 k2 H1 H2 Heq.
    repeat (apply elem_of_cons in H1 as [->|H1]);
      try (by apply elem_of_nil in H1);
      repeat (apply elem_of_cons in H2 as [->|H2]);
      try (by apply elem_of_nil in H2);
      try reflexivity; vm_compute in Heq; discriminate Heq.
  - lia.
  - exists t. split; [exact Ht|]. split_and!; apply (Hfind t Ht).
Defined.


End HashTableProofs.

(** * Buffer pool manager: proofs *)

Module BufferPoolProofs.
Import Replacer BufferPool.

(** ** The replacer, as the pool uses it *)

Lemma RecordAccess_entries d f r r' :
  RecordAccess d f r = Ok tt r' ->
  (exists e', entries_ r' !! f = Some e' /\
              evictable_ e' = match entries_ r !! f with
                              | Some e => evictable_ e
                              | None => d
                              end) /\
  forall f', f' <> f -> entries_ r' !! f' = entries_ r !! f'.
Proof.
  unfold RecordAccess, entry_at.
  destruct (invalid_frame r f); [done|].
  destruct (entries_ r !! f) as [e|] eqn:He; cbn -[to_size_t];
    repeat match goal with
    | |- context [if ?c then _ else _] => destruct c
    | |- context [match pos_ ?e with _ => _ end] =>
        destruct (pos_ e) as [[]|]
    end; try done; intros [= <-]; cbn;
    (split; [rewrite lookup_insert_eq; by eexists|]);
    intros f' Hf'; rewrite !lookup_insert_ne by done; done.
Qed.

Lemma SetEvictable_entries f b r r' :
  SetEvictable f b r = Ok tt r' ->
  (forall f', f' <> f -> entries_ r' !! f' = entries_ r !! f') /\
  match entries_ r !! f with
  | Some e => exists e', entries_ r' !! f = Some e' /\ evictable_ e' = b
  | None => entries_ r' !! f = None
  end.
Proof.
  unfold SetEvictable. destruct (invalid_frame r f); [done|].
  destruct (entries_ r !! f) as [e|] eqn:He.
  - intros [= <-]. cbn. split.
    + intros f' Hf'. by rewrite lookup_insert_ne.
    + rewrite lookup_insert_eq. by eexists.
  - intros [= <-]. by rewrite He.
Qed.

Lemma Remove_entries f r r' :
  Remove f r = Ok tt r' ->
  forall f', entries_ r' !! f' =
             if decide (f' = f) then None else entries_ r !! f'.
Proof.
  unfold Remove. destruct (invalid_frame r f); [done|].
  destruct (entries_ r !! f) as [e|] eqn:He.
  - destruct (negb (evictable_ e)); [done|].
    destruct (hit_count_ e <? k_ r), (pos_ e) as [[]|]; try done;
      intros [= <-] f'; cbn;
      (destruct (decide (f' = f)) as [->|];
       [by rewrite lookup_delete_eq|by rewrite lookup_delete_ne]).
  - intros [= <-] f'. by destruct (decide (f' = f)) as [->|].
Qed.

Lemma Remove_throws f r e r' :
  Remove f r = Throw e r' ->
  invalid_frame r f = true \/
  exists en, entries_ r !! f = Some en /\ evictable_ en = false.
Proof.
  unfold Remove. destruct (invalid_frame r f); [by left|].
  destruct (entries_ r !! f) as [en|] eqn:He; [|done].
  destruct (evictable_ en) eqn:Hev; cbn.
  - by destruct (hit_count_ en <? k_ r), (pos_ en) as [[]|].
  - intros _. right. by exists en.
Qed.

Lemma Evict_entries d r g v r' :
  wf r g -> Evict d r = Ok v r' ->
  match v with
  | Some f => forall f', entries_ r' !! f' =
                         if decide (f' = f) then None else entries_ r !! f'
  | None => r' = r
  end.
Proof.
  intros Hwf. unfold Evict.
  destruct (ReplacerProofs.scan_spec d (rev (hist_list_ r)) (entries_ r))
    as (v1 & h1 & Hs1 & Hv1).
  { intros x Hx. apply (wf_listed _ _ Hwf), elem_of_app. left.
    by rewrite ReplacerProofs.elem_of_rev in Hx. }
  rewrite Hs1.
  assert (forall f m f', delete f m !! f' =
            if decide (f' = f) then None else (m : gmap Z FrameEntry) !! f')
    as Hdel.
  { intros f m f'. destruct (decide (f' = f)) as [->|];
      [by rewrite lookup_delete_eq|by rewrite lookup_delete_ne]. }
  destruct v1 as [f|].
  - intros [= <- <-]. apply Hdel.
  - destruct (ReplacerProofs.scan_spec d (rev (cache_list_ r)) (entries_ r))
      as (v2 & c2 & Hs2 & Hv2).
    { intros x Hx. apply (wf_listed _ _ Hwf), elem_of_app. right.
      by rewrite ReplacerProofs.elem_of_rev in Hx. }
    rewrite Hs2. destruct v2 as [f|].
    + intros [= <- <-]. apply Hdel.
    + intros [= <- <-]. destruct Hv1 as [-> _], Hv2 as [-> _].
      rewrite !rev_involutive. by destruct r.
Qed.

(** ** The pool *)

Section Pool.

Context {Data : Type}.
Variable zero_data : Data.
Variable d : bool.
Variable hash : Z -> Z.
Variable bucket_size : Z.
Variable fuel : nat.

Implicit Types (s : @BufferPoolManagerInstance Data) (p : @Page Data).

Local Arguments RecordAccess : simpl never.
Local Arguments SetEvictable : simpl never.
Local Arguments Remove : simpl never.
Local Arguments Evict : simpl never.
Local Arguments HashTable.Insert : simpl never.
Local Arguments HashTable.Remove : simpl never.
Local Arguments HashTable.Find : simpl never.
Local Arguments HashTable.lookup : simpl never.
Local Arguments frame : simpl never.

Lemma frame_resident sk n s f :
  invariant_but hash sk n s -> resident s f -> exists p, frame f s = Some p.
Proof.
  intros Hinv [Hf _]. unfold frame.
  destruct (Z.ltb_spec f 0); [lia|].
  apply lookup_lt_is_Some. rewrite (inv_pages _ _ _ _ Hinv). lia.
Qed.

Lemma frame_set_frame_eq s f p p0 :
  frame f s = Some p0 -> frame f (set_frame f p s) = Some p.
Proof.
  unfold frame, set_frame. cbn. destruct (f <? 0); [done|].
  intros Hp. apply list_lookup_insert_eq. by eapply lookup_lt_Some.
Qed.

Lemma frame_set_frame_ne s f f' p :
  0 <= f -> f <> f' -> frame f' (set_frame f p s) = frame f' s.
Proof.
  intros Hf Hne. unfold frame, set_frame. cbn.
  destruct (Z.ltb_spec f' 0); [done|].
  apply list_lookup_insert_ne. lia.
Qed.

Lemma frame_nonneg s f p : frame f s = Some p -> 0 <= f.
Proof. unfold frame. destruct (Z.ltb_spec f 0); [done|lia]. Qed.

Lemma invariant_but_mono sk n m s :
  invariant_but hash sk n s -> n <= m -> invariant_but hash sk m s.
Proof.
  intros [] Hle. split; try done.
  destruct inv_replacer0 as (g & Hwf & Hc). exists g. split; [done|lia].
Qed.

(** [GetAvailableFrame] hands out a frame that belongs to no page. *)
Lemma GetAvailableFrame_spec n s :
  invariant hash n s ->
  match GetAvailableFrame d hash s with
  | Ok (Some f) s' => invariant_but hash (Some f) n s'
  | Ok None s' => invariant hash n s'
  | _ => False
  end.
Proof.
  intros Hinv. unfold GetAvailableFrame.
  destruct (free_list_ s) as [|f rest] eqn:Hfree.
  - (* a victim is asked from the replacer *)
    destruct (inv_replacer _ _ _ _ Hinv) as (g & Hwf & Hclk).
    destruct (ReplacerProofs.Evict_wf d _ g Hwf)
      as (v & r' & Hev & Hwf' & Hk & Hsz & Hv).
    pose proof (Evict_entries d _ g v r' Hwf Hev) as Hent.
    rewrite Hev. cbn [on_replacer bind].
    destruct v as [f|].
    + destruct Hv as ((e & He & Hevict) & _).
      destruct (inv_entry _ _ _ _ Hinv f e He) as [Hres _].
      destruct (frame_resident _ _ _ _ Hinv Hres) as [p Hp].
      assert (frame f (with_replacer r' s) = Some p) as -> by done.
      destruct (HashTableProofs.Remove_spec hash (page_table_ s) (page_id_ p)
                  (inv_table _ _ _ _ Hinv))
        as (found & t' & Hrm & Hwft & _ & Hgone & Hother).
      assert (forall s2,
                page_table_ s2 = page_table_ s ->
                pool_size_ s2 = pool_size_ s -> pages_ s2 = pages_ s ->
                replacer_ s2 = r' -> free_list_ s2 = [] ->
                match bind (on_page_table
                              (HashTable.Remove hash (page_id_ p)
                                                (page_table_ s2)) s2)
                           (fun _ s3 => Ok (Some f) s3) with
                | Ok (Some f) s' => invariant_but hash (Some f) n s'
                | Ok None s' => invariant hash n s'
                | _ => False
                end) as Hgen.
      { intros s2 E1 E2 E3 E4 E5. rewrite E1, Hrm. cbn [on_page_table bind].
        destruct Hinv. split; cbn; rewrite ?E2, ?E3, ?E4, ?E5.
        - done.
        - done.
        - done.
        - by exists g.
        - congruence.
        - apply NoDup_nil_2.
        - intros f' Hf'. by apply elem_of_nil in Hf'.
        - intros f' e'. rewrite Hent.
          destruct (decide (f' = f)) as [->|Hne]; [done|]. intros He'.
          destruct (inv_entry0 f' e' He') as [[Hr1 Hr2] _].
          split; [|congruence]. split; [by cbn; rewrite E2|]. cbn.
          rewrite E5. apply not_elem_of_nil.
        - intros f' [Hf1 Hf2] Hne. cbn in Hf1. rewrite E2 in Hf1.
          assert (f' <> f) as Hne' by congruence.
          destruct (inv_resident0 f') as (p' & e' & Hp' & He' & Hiff);
            [split; [done|rewrite Hfree; apply not_elem_of_nil]|done|].
          exists p', e'. split_and!; try tauto.
          + unfold frame. cbn. by rewrite E3.
          + rewrite Hent. by rewrite decide_False.
        - intros pid f' Hm. unfold mapped in Hm. cbn in Hm.
          assert (pid <> page_id_ p) as Hpid by (intros ->; congruence).
          rewrite Hother in Hm by done.
          destruct (inv_mapped0 pid f' Hm) as ([Hr1 Hr2] & _ & p' & Hp' & Hid).
          split_and!.
          + split; [by cbn; rewrite E2|]. cbn. rewrite E5.
            apply not_elem_of_nil.
          + intros [= ->]. congruence.
          + exists p'. split; [|done]. unfold frame. cbn. by rewrite E3.
        - intros f' [= <-]. destruct Hres. split; [by cbn; rewrite E2|].
          cbn. rewrite E5. apply not_elem_of_nil. }
      destruct (is_dirty_ p); apply Hgen; cbn; congruence.
    + destruct Hv as [-> _].
      replace (with_replacer (replacer_ s) s) with s by (by destruct s).
      done.
  - (* the free list has a frame *)
    destruct Hinv. rewrite Hfree in *.
    apply NoDup_cons in inv_free0 as [Hnf Hnd].
    split; cbn.
    + done.
    + done.
    + done.
    + done.
    + done.
    + done.
    + intros f' Hf'. apply inv_free_range0. by right.
    + intros f' e' He'. destruct (inv_entry0 f' e' He') as [[Hr1 Hr2] _].
      rewrite Hfree in Hr2. apply not_elem_of_cons in Hr2 as [? ?].
      split; [by split|congruence].
    + intros f' [Hf1 Hf2] Hne. cbn in Hf1, Hf2.
      apply inv_resident0; [|done]. split; [done|]. rewrite Hfree.
      apply not_elem_of_cons. split; [congruence|done].
    + intros pid f' Hm.
      destruct (inv_mapped0 pid f' Hm) as ([Hr1 Hr2] & _ & Hp').
      rewrite Hfree in Hr2. apply not_elem_of_cons in Hr2 as [? ?].
      split_and!; [by split|congruence|done].
    + intros f' [= <-]. split; [|done]. apply inv_free_range0. by left.
Qed.

Lemma valid_frame sk n s f :
  invariant_but hash sk n s -> resident s f ->
  invalid_frame (replacer_ s) f = false.
Proof.
  intros Hinv [Hf _]. unfold invalid_frame.
  pose proof (inv_pool _ _ _ _ Hinv).
  rewrite (inv_size _ _ _ _ Hinv), to_int32_small by (unfold INT32_MAX in *; lia).
  lia.
Qed.

Lemma SetEvictable_ok f b r :
  invalid_frame r f = false -> exists r', SetEvictable f b r = Ok tt r'.
Proof.
  intros Hv. unfold SetEvictable. rewrite Hv.
  destruct (entries_ r !! f); by eexists.
Qed.

(** A resident frame gets a page and an entry of the replacer that
    agree on pins and evictability; the other frames are left alone. *)
Lemma update_frame sk n n' s s' f p' :
  invariant_but hash sk n s ->
  resident s f ->
  (forall x, sk = Some x -> x = f) ->
  pool_size_ s' = pool_size_ s ->
  pages_ s' = <[Z.to_nat f := p']> (pages_ s) ->
  free_list_ s' = free_list_ s ->
  HashTable.wf hash (page_table_ s') ->
  (exists g, wf (replacer_ s') g /\ clock g <= n') ->
  replacer_size_ (replacer_ s') = pool_size_ s ->
  (forall f', f' <> f ->
     entries_ (replacer_ s') !! f' = entries_ (replacer_ s) !! f') ->
  (exists e', entries_ (replacer_ s') !! f = Some e' /\
              (evictable_ e' = true <-> pin_count_ p' = 0)) ->
  0 <= pin_count_ p' ->
  (forall pid f', mapped hash s' pid f' ->
     (f' = f /\ page_id_ p' = pid) \/ (f' <> f /\ mapped hash s pid f')) ->
  invariant hash n' s'.
Proof.
  intros Hinv Hres Hsk Epool Epages Efree Hwft Hrep Hsize Hother Hentry Hpin
    Hmapped.
  destruct (frame_resident _ _ _ _ Hinv Hres) as [p0 Hp0].
  pose proof (frame_nonneg _ _ _ Hp0) as Hf0.
  assert (forall x, resident s' x <-> resident s x) as Hresident.
  { intros x. unfold resident. by rewrite Epool, Efree. }
  assert (frame f s' = Some p') as Hnew.
  { revert Hp0. unfold frame. rewrite Epages.
    destruct (f <? 0); [done|]. intros Hp0.
    apply list_lookup_insert_eq. by eapply lookup_lt_Some. }
  assert (forall x, x <> f -> frame x s' = frame x s) as Hold.
  { intros x Hx. unfold frame. rewrite Epages.
    destruct (Z.ltb_spec x 0); [done|].
    apply list_lookup_insert_ne. lia. }
  destruct Hinv. split.
  - by rewrite Epool.
  - by rewrite Epages, length_insert, Epool.
  - done.
  - done.
  - by rewrite Epool.
  - by rewrite Efree.
  - intros x. rewrite Efree, Epool. apply inv_free_range0.
  - intros x e Hx. split; [|done]. apply Hresident.
    destruct (decide (x = f)) as [->|Hne]; [done|].
    rewrite Hother in Hx by done. by apply (inv_entry0 x e).
  - intros x Hx _. apply Hresident in Hx.
    destruct (decide (x = f)) as [->|Hne].
    + destruct Hentry as (e' & He' & Hiff). by exists p', e'.
    + rewrite Hold, Hother by done. apply inv_resident0; [done|].
      intros ->. by apply Hne, Hsk.
  - intros pid x Hm. destruct (Hmapped pid x Hm) as [[-> Hid]|[Hne Hm']].
    + split_and!; [by apply Hresident|done|by exists p'].
    + destruct (inv_mapped0 pid x Hm') as (? & _ & ?).
      rewrite Hold by done. split_and!; [by apply Hresident|done|done].
  - done.
Qed.

Lemma with_page_table_id s : with_page_table (page_table_ s) s = s.
Proof. by destruct s. Qed.

(** The new page is entered, its access recorded and the frame made
    non-evictable. *)
Lemma install_spec n s f pid dat :
  invariant_but hash (Some f) n s -> n < SIZE_MAX ->
  match install d hash fuel f pid dat s with
  | Ok _ s' => invariant hash (n + 1) s'
  | Throw _ _ => False
  | _ => True
  end.
Proof.
  intros Hinv Hn.
  pose proof (inv_skip _ _ _ _ Hinv f eq_refl) as Hres.
  destruct (frame_resident _ _ _ _ Hinv Hres) as [p0 Hp0].
  unfold install. rewrite Hp0. cbn.
  pose proof (HashTableProofs.Insert_spec hash fuel (page_table_ s) pid f
                (inv_table _ _ _ _ Hinv)) as Hins.
  destruct (HashTable.Insert hash fuel pid f (page_table_ s))
    as [[] t'|[]| |]; try done.
  destruct Hins as (Hwft & _ & Hkey & Hother).
  cbn.
  destruct (inv_replacer _ _ _ _ Hinv) as (g & Hwf & Hclk).
  destruct (ReplacerProofs.RecordAccess_wf d f _ g Hwf ltac:(lia)
              (valid_frame _ _ _ _ Hinv Hres))
    as (r1 & Hra & Hwf1 & Hk1 & Hsz1).
  rewrite Hra. cbn.
  destruct (SetEvictable_ok f false r1) as [r2 Hse].
  { unfold invalid_frame. rewrite Hsz1.
    apply (valid_frame _ _ _ _ Hinv Hres). }
  rewrite Hse. cbn.
  pose proof (ReplacerProofs.SetEvictable_wf f false r1 _ Hwf1) as Hwf2.
  rewrite Hse in Hwf2. destruct Hwf2 as (Hwf2 & Hk2 & Hsz2).
  destruct (RecordAccess_entries _ _ _ _ Hra) as ((e1 & He1 & _) & Hoth1).
  destruct (SetEvictable_entries _ _ _ _ Hse) as (Hoth2 & Hent2).
  rewrite He1 in Hent2. destruct Hent2 as (e2 & He2 & Hev2).
  apply (update_frame (Some f) n (n + 1) s _ f (mkPage pid 1 false dat)
           Hinv Hres); cbn.
  - by intros x [= <-].
  - done.
  - done.
  - done.
  - done.
  - eexists. split; [exact Hwf2|].
    pose proof (ReplacerProofs.clock_tick (ORecordAccess f) (replacer_ s) g).
    lia.
  - rewrite Hsz2, Hsz1. apply (inv_size _ _ _ _ Hinv).
  - intros f' Hf'. by rewrite Hoth2, Hoth1.
  - exists e2. split; [done|]. rewrite Hev2. split; [done|lia].
  - lia.
  - intros pid' f' Hm. unfold mapped in *. cbn in Hm.
    destruct (decide (pid' = pid)) as [->|Hne].
    + left. rewrite Hkey in Hm. by injection Hm as <-.
    + rewrite Hother in Hm by done. right. split; [|done]. intros ->.
      by destruct (inv_mapped _ _ _ _ Hinv pid' f Hm) as (_ & Hsk & _).
Qed.

Lemma invariant_next_page_id sk n s x :
  invariant_but hash sk n s ->
  invariant_but hash sk n (with_next_page_id x s).
Proof. intros []. by split. Qed.

Lemma NewPgImp_spec n s :
  invariant hash n s -> n < SIZE_MAX ->
  match NewPgImp zero_data d hash fuel s with
  | Ok _ s' => invariant hash (n + 1) s'
  | Throw _ _ => False
  | _ => True
  end.
Proof.
  intros Hinv Hn. unfold NewPgImp.
  pose proof (GetAvailableFrame_spec n s Hinv) as Hg.
  destruct (GetAvailableFrame d hash s) as [[f|] s1| | |]; try done;
    cbn [bind].
  - unfold AllocatePage.
    pose proof (install_spec n _ f (next_page_id_ s1) zero_data
                  (invariant_next_page_id _ _ _
                     (to_int32 (next_page_id_ s1 + 1)) Hg) Hn) as Hi.
    by destruct (install _ _ _ _ _ _ _) as [[] s2| | |].
  - apply (invariant_but_mono _ n); [done|lia].
Qed.

(** The path of [FetchPgImp] and [UnpinPgImp] for a page that the page
    table finds: the frame is resident and holds the page. *)
Lemma mapped_frame n s pid f :
  invariant hash n s -> mapped hash s pid f ->
  resident s f /\
  exists p e, frame f s = Some p /\ page_id_ p = pid /\
              entries_ (replacer_ s) !! f = Some e /\
              (evictable_ e = true <-> pin_count_ p = 0) /\
              0 <= pin_count_ p.
Proof.
  intros Hinv Hm.
  destruct (inv_mapped _ _ _ _ Hinv pid f Hm) as (Hres & _ & p & Hp & Hid).
  split; [done|].
  destruct (inv_resident _ _ _ _ Hinv f Hres) as (p' & e & Hp' & He & Hiff);
    [done|].
  assert (p' = p) as -> by congruence. by exists p, e.
Qed.

Lemma FetchPgImp_spec n s pid :
  invariant hash n s -> n < SIZE_MAX ->
  match FetchPgImp zero_data d hash fuel pid s with
  | Ok _ s' => invariant hash (n + 1) s'
  | Throw _ _ => False
  | _ => True
  end.
Proof.
  intros Hinv Hn. unfold FetchPgImp.
  rewrite (HashTableProofs.Find_lookup hash _ pid (inv_table _ _ _ _ Hinv)).
  cbn [on_page_table bind]. rewrite with_page_table_id.
  destruct (HashTable.lookup hash (page_table_ s) pid) as [f|] eqn:Hl.
  - destruct (mapped_frame n s pid f Hinv Hl)
      as (Hres & p & e & Hp & Hid & He & Hiff & Hpin).
    rewrite Hp. destruct (pin_count_ p =? INT32_MAX); [done|].
    cbn.
    destruct (inv_replacer _ _ _ _ Hinv) as (g & Hwf & Hclk).
    destruct (ReplacerProofs.RecordAccess_wf d f _ g Hwf ltac:(lia)
                (valid_frame _ _ _ _ Hinv Hres))
      as (r1 & Hra & Hwf1 & Hk1 & Hsz1).
    rewrite Hra. cbn.
    destruct (SetEvictable_ok f false r1) as [r2 Hse].
    { unfold invalid_frame. rewrite Hsz1.
      apply (valid_frame _ _ _ _ Hinv Hres). }
    rewrite Hse. cbn.
    pose proof (ReplacerProofs.SetEvictable_wf f false r1 _ Hwf1) as Hwf2.
    rewrite Hse in Hwf2. destruct Hwf2 as (Hwf2 & Hk2 & Hsz2).
    destruct (RecordAccess_entries _ _ _ _ Hra) as ((e1 & He1 & _) & Hoth1).
    destruct (SetEvictable_entries _ _ _ _ Hse) as (Hoth2 & Hent2).
    rewrite He1 in Hent2. destruct Hent2 as (e2 & He2 & Hev2).
    apply (update_frame None n (n + 1) s _ f
             (set_pin_count (pin_count_ p + 1) p) Hinv Hres); cbn.
    + done.
    + done.
    + done.
    + done.
    + apply (inv_table _ _ _ _ Hinv).
    + eexists. split; [exact Hwf2|].
      pose proof (ReplacerProofs.clock_tick (ORecordAccess f) (replacer_ s) g).
      lia.
    + rewrite Hsz2, Hsz1. apply (inv_size _ _ _ _ Hinv).
    + intros f' Hf'. by rewrite Hoth2, Hoth1.
    + exists e2. split; [done|]. rewrite Hev2. split; [done|lia].
    + lia.
    + intros pid' f' Hm. change (mapped hash s pid' f') in Hm.
      destruct (decide (f' = f)) as [->|Hne]; [left|by right].
      split; [done|].
      destruct (mapped_frame n s pid' f Hinv Hm) as (_ & p' & _ & Hp' & ? & _).
      congruence.
  - pose proof (GetAvailableFrame_spec n s Hinv) as Hg.
    destruct (GetAvailableFrame d hash s) as [[f|] s1| | |]; try done;
      cbn [bind].
    + pose proof (install_spec n s1 f pid (ReadPage zero_data pid s1) Hg Hn)
        as Hi.
      by destruct (install _ _ _ _ _ _ _) as [[] s2| | |].
    + apply (invariant_but_mono _ n); [done|lia].
Qed.

Lemma set_frame_same s f p : frame f s = Some p -> set_frame f p s = s.
Proof.
  unfold frame, set_frame, with_pages. destruct (f <? 0); [done|].
  intros Hp. rewrite list_insert_id by done. by destruct s.
Qed.

Lemma set_frame_twice s f p p' :
  set_frame f p' (set_frame f p s) = set_frame f p' s.
Proof. unfold set_frame, with_pages. cbn. by rewrite list_insert_insert_eq. Qed.

(** What [UnpinPgImp] returns and leaves behind. *)
Lemma UnpinPgImp_outcome n s pid dirty :
  invariant hash n s ->
  match HashTable.lookup hash (page_table_ s) pid with
  | None => UnpinPgImp hash pid dirty s = Ok false s
  | Some f =>
      exists p, frame f s = Some p /\ 0 <= pin_count_ p /\
        if pin_count_ p =? 0 then
          UnpinPgImp hash pid dirty s =
            Ok false (set_frame f (set_dirty (is_dirty_ p || dirty) p) s)
        else
          exists r',
            UnpinPgImp hash pid dirty s =
              Ok true
                 (with_replacer r'
                    (set_frame f
                       (mkPage (page_id_ p) (pin_count_ p - 1)
                               (is_dirty_ p || dirty) (data_ p)) s)) /\
            if pin_count_ p =? 1
            then SetEvictable f true (replacer_ s) = Ok tt r'
            else r' = replacer_ s
  end.
Proof.
  intros Hinv. unfold UnpinPgImp.
  rewrite (HashTableProofs.Find_lookup hash _ pid (inv_table _ _ _ _ Hinv)).
  cbn [on_page_table bind]. rewrite with_page_table_id.
  destruct (HashTable.lookup hash (page_table_ s) pid) as [f|] eqn:Hl; [|done].
  destruct (mapped_frame n s pid f Hinv Hl)
    as (Hres & p & e & Hp & Hid & He & Hiff & Hpin).
  exists p. split; [done|]. split; [done|]. rewrite Hp.
  assert ((if dirty then set_dirty true p else p)
          = set_dirty (is_dirty_ p || dirty) p) as ->.
  { destruct p as [a b c dd], dirty; cbn; by rewrite ?orb_true_r, ?orb_false_r. }
  cbn [pin_count_ set_dirty].
  destruct (Z.eqb_spec (pin_count_ p) 0) as [H0|H0]; [done|]. cbn [negb].
  destruct (Z.eqb_spec (pin_count_ p) INT32_MIN) as [Hm|_];
    [unfold INT32_MIN in Hm; lia|].
  rewrite set_frame_twice. cbn [set_pin_count pin_count_ page_id_ is_dirty_ data_].
  destruct (Z.eqb_spec (pin_count_ p - 1) 0) as [H1|H1].
  - destruct (SetEvictable_ok f true (replacer_ s)
                (valid_frame _ _ _ _ Hinv Hres)) as [r' Hse].
    exists r'. cbn. rewrite Hse. cbn.
    destruct (Z.eqb_spec (pin_count_ p) 1); [done|lia].
  - exists (replacer_ s). split; [done|].
    destruct (Z.eqb_spec (pin_count_ p) 1); [lia|done].
Qed.

Lemma UnpinPgImp_spec n s pid dirty :
  invariant hash n s ->
  exists b s', UnpinPgImp hash pid dirty s = Ok b s' /\ invariant hash n s'.
Proof.
  intros Hinv. pose proof (UnpinPgImp_outcome n s pid dirty Hinv) as Hout.
  destruct (HashTable.lookup hash (page_table_ s) pid) as [f|] eqn:Hl;
    [|by eauto].
  destruct (mapped_frame n s pid f Hinv Hl)
    as (Hres & p & e & Hp & Hid & He & Hiff & Hpin).
  destruct Hout as (p' & Hp' & _ & Hout).
  assert (p' = p) as -> by congruence.
  assert (forall pg : @Page Data, page_id_ pg = page_id_ p ->
            forall s', page_table_ s' = page_table_ s ->
            forall pid' f', mapped hash s' pid' f' ->
              (f' = f /\ page_id_ pg = pid') \/
              (f' <> f /\ mapped hash s pid' f')) as Hmapped.
  { intros pg Hpg s' Et pid' f' Hm. unfold mapped in *. rewrite Et in Hm.
    destruct (decide (f' = f)) as [->|Hne]; [left|by right].
    split; [done|].
    destruct (mapped_frame n s pid' f Hinv Hm) as (_ & p' & _ & Hp'' & ? & _).
    congruence. }
  destruct (Z.eqb_spec (pin_count_ p) 0) as [H0|H0].
  - eexists _, _. split; [exact Hout|].
    eapply (update_frame None n n s _ f (set_dirty (is_dirty_ p || dirty) p) Hinv Hres); cbn; try done.
    + apply Hinv.
    + apply Hinv.
    + apply Hinv.
    + by exists e.
    + by apply Hmapped.
  - destruct Hout as (r' & Hout & Hr').
    eexists _, _. split; [exact Hout|].
    destruct (inv_replacer _ _ _ _ Hinv) as (g & Hwf & Hclk).
    destruct (Z.eqb_spec (pin_count_ p) 1) as [H1|H1].
    + pose proof (ReplacerProofs.SetEvictable_wf f true _ _ Hwf) as Hwf2.
      rewrite Hr' in Hwf2. destruct Hwf2 as (Hwf2 & Hk2 & Hsz2).
      destruct (SetEvictable_entries _ _ _ _ Hr') as (Hoth2 & Hent2).
      rewrite He in Hent2. destruct Hent2 as (e2 & He2 & Hev2).
      eapply (update_frame None n n s _ f (mkPage (page_id_ p) (pin_count_ p - 1) (is_dirty_ p || dirty) (data_ p)) Hinv Hres); cbn; try done.
      * apply Hinv.
      * by exists g.
      * rewrite Hsz2. apply Hinv.
      * exists e2. split; [done|]. rewrite Hev2. split; [lia|done].
      * lia.
      * by apply Hmapped.
    + subst r'.
      eapply (update_frame None n n s _ f (mkPage (page_id_ p) (pin_count_ p - 1) (is_dirty_ p || dirty) (data_ p)) Hinv Hres); cbn; try done.
      * apply Hinv.
      * by exists g.
      * apply Hinv.
      * exists e. split; [done|]. split; [|lia]. intros Hev.
        apply Hiff in Hev. lia.
      * lia.
      * by apply Hmapped.
Qed.

Lemma flush_spec n s pid :
  invariant hash n s ->
  exists b s', flush hash pid s = Ok b s' /\ invariant hash n s' /\
               pool_size_ s' = pool_size_ s.
Proof.
  intros Hinv. unfold flush.
  rewrite (HashTableProofs.Find_lookup hash _ pid (inv_table _ _ _ _ Hinv)).
  cbn [on_page_table bind]. rewrite with_page_table_id.
  destruct (HashTable.lookup hash (page_table_ s) pid) as [f|] eqn:Hl;
    [|by eauto].
  destruct (mapped_frame n s pid f Hinv Hl)
    as (Hres & p & e & Hp & Hid & He & Hiff & Hpin).
  rewrite Hp. eexists _, _. split; [done|]. split; [|done].
  eapply (update_frame None n n s _ f (set_dirty false p) Hinv Hres);
    cbn; try done.
  - apply Hinv.
  - apply Hinv.
  - apply Hinv.
  - by exists e.
  - intros pid' f' Hm. change (mapped hash s pid' f') in Hm.
    destruct (decide (f' = f)) as [->|Hne]; [left|by right].
    split; [done|].
    destruct (mapped_frame n s pid' f Hinv Hm) as (_ & p' & _ & Hp' & ? & _).
    congruence.
Qed.

Lemma flush_from_spec n frames : forall s,
  invariant hash n s ->
  (forall i, i ∈ frames -> (i < Z.to_nat (pool_size_ s))%nat) ->
  exists s', flush_from hash frames s = Ok tt s' /\ invariant hash n s'.
Proof.
  induction frames as [|i frames IH]; intros s Hinv Hlt; cbn [flush_from].
  - by eauto.
  - destruct (lookup_lt_is_Some_2 (pages_ s) i) as [p Hp].
    { rewrite (inv_pages _ _ _ _ Hinv). apply Hlt. by left. }
    rewrite Hp.
    destruct (flush_spec n s (page_id_ p) Hinv) as (b & s1 & -> & Hinv1 & Hps).
    cbn [bind]. apply IH; [done|].
    intros j Hj. rewrite Hps. apply Hlt. by right.
Qed.

(** [DeletePgImp] of a page without pins returns its frame to the free
    list; the replacer accepts the removal because the frame is
    evictable. *)
Lemma DeletePgImp_spec n s pid :
  invariant hash n s ->
  exists b s', DeletePgImp zero_data hash pid s = Ok b s' /\
               invariant hash n s'.
Proof.
  intros Hinv. unfold DeletePgImp.
  rewrite (HashTableProofs.Find_lookup hash _ pid (inv_table _ _ _ _ Hinv)).
  cbn [on_page_table bind]. rewrite with_page_table_id.
  destruct (HashTable.lookup hash (page_table_ s) pid) as [f|] eqn:Hl;
    [|by eauto].
  destruct (mapped_frame n s pid f Hinv Hl)
    as (Hres & p & e & Hp & Hid & He & Hiff & Hpin).
  rewrite Hp. destruct (Z.ltb_spec 0 (pin_count_ p)) as [|Hle]; [by eauto|].
  assert (pin_count_ p = 0) as H0 by lia. apply Hiff in H0.
  destruct (HashTableProofs.Remove_spec hash (page_table_ s) pid
              (inv_table _ _ _ _ Hinv))
    as (found & t' & Hrm & Hwft & _ & Hgone & Hother).
  rewrite Hrm. cbn.
  destruct (inv_replacer _ _ _ _ Hinv) as (g & Hwf & Hclk).
  pose proof (ReplacerProofs.Remove_wf f _ g Hwf) as Hwf'.
  destruct (Remove f (replacer_ s)) as [[] r'|ex r'| |] eqn:Hrem; try done.
  2:{ apply Remove_throws in Hrem as [Hbad|(en & Hen & Hev)].
      - by rewrite (valid_frame _ _ _ _ Hinv Hres) in Hbad.
      - congruence. }
  destruct Hwf' as (Hwf' & _ & Hsz).
  pose proof (Remove_entries _ _ _ Hrem) as Hent.
  cbn. eexists _, _. split; [done|].
  pose proof (frame_nonneg _ _ _ Hp) as Hf0.
  assert (forall x, x <> f ->
            frame x (set_frame f (empty_page zero_data)
                       (with_free_list (free_list_ s ++ [f])
                          (with_replacer r' (with_page_table t' s))))
            = frame x s) as Hold.
  { intros x Hx. by rewrite frame_set_frame_ne. }
  destruct Hres as [Hr1 Hr2].
  destruct Hinv. split; cbn.
  - done.
  - by rewrite length_insert.
  - done.
  - by exists g.
  - congruence.
  - apply NoDup_app. split_and!; [done| |apply NoDup_singleton].
    intros x Hx Hx'. apply list_elem_of_singleton in Hx'. congruence.
  - intros x Hx. apply elem_of_app in Hx as [Hx|Hx]; [by apply inv_free_range0|].
    apply list_elem_of_singleton in Hx. by subst.
  - intros x ex. rewrite Hent. destruct (decide (x = f)) as [->|Hne]; [done|].
    intros Hx. destruct (inv_entry0 x ex Hx) as [[Hx1 Hx2] _].
    split; [|done]. split; [done|]. cbn. rewrite elem_of_app.
    rewrite list_elem_of_singleton. tauto.
  - intros x [Hx1 Hx2] _. cbn in Hx1, Hx2.
    rewrite elem_of_app, list_elem_of_singleton in Hx2.
    assert (x <> f) as Hne by tauto.
    rewrite Hold by done. rewrite Hent, decide_False by done.
    apply inv_resident0; [|done]. split; [done|tauto].
  - intros pid' x Hm. unfold mapped in Hm. cbn in Hm.
    assert (pid' <> pid) as Hpid by (intros ->; congruence).
    rewrite Hother in Hm by done.
    destruct (inv_mapped0 pid' x Hm) as ([Hx1 Hx2] & _ & p' & Hp' & Hid').
    assert (x <> f) as Hne by (intros ->; congruence).
    rewrite Hold by done. split_and!; [|done|by exists p'].
    split; [done|]. cbn. rewrite elem_of_app, list_elem_of_singleton. tauto.
  - done.
Qed.

Lemma step_spec n s o :
  invariant hash n s -> n < SIZE_MAX ->
  match step zero_data d hash fuel o s with
  | Ok _ s' => invariant hash (n + 1) s'
  | Throw _ _ => False
  | _ => True
  end.
Proof.
  intros Hinv Hn. destruct o as [|pid|pid dirty|pid| |pid]; cbn [step].
  - pose proof (NewPgImp_spec n s Hinv Hn) as H.
    by destruct (NewPgImp _ _ _ _ s).
  - pose proof (FetchPgImp_spec n s pid Hinv Hn) as H.
    by destruct (FetchPgImp _ _ _ _ _ s).
  - destruct (UnpinPgImp_spec n s pid dirty Hinv) as (b & s' & -> & H).
    cbn. apply (invariant_but_mono _ n); [done|lia].
  - unfold FlushPgImp.
    destruct (flush_spec n s pid Hinv) as (b & s' & -> & H & _).
    cbn. apply (invariant_but_mono _ n); [done|lia].
  - unfold FlushAllPgsImp.
    destruct (flush_from_spec n (seq 0 (Z.to_nat (pool_size_ s))) s Hinv)
      as (s' & -> & H).
    { intros i Hi. apply elem_of_seq in Hi. lia. }
    apply (invariant_but_mono _ n); [done|lia].
  - destruct (DeletePgImp_spec n s pid Hinv) as (b & s' & -> & H).
    cbn. apply (invariant_but_mono _ n); [done|lia].
Qed.

Lemma run_spec ops : forall n s,
  invariant hash n s -> n + Z.of_nat (length ops) <= SIZE_MAX ->
  match run zero_data d hash fuel ops s with
  | Ok _ s' => invariant hash (n + Z.of_nat (length ops)) s'
  | Throw _ _ => False
  | _ => True
  end.
Proof.
  induction ops as [|o ops IH]; intros n s Hinv Hlen; cbn [run].
  - cbn. by rewrite Z.add_0_r.
  - rewrite length_cons, Nat2Z.inj_succ in Hlen |- *.
    pose proof (step_spec n s o Hinv ltac:(lia)) as Hstep.
    destruct (step zero_data d hash fuel o s) as [[] s1| | |]; try done.
    cbn [bind]. specialize (IH (n + 1) s1 Hstep ltac:(lia)).
    replace (n + Z.succ (Z.of_nat (length ops)))
      with (n + 1 + Z.of_nat (length ops)) by lia.
    done.
Qed.

Lemma make_invariant pool_size k :
  0 <= pool_size <= INT32_MAX -> 2 <= k ->
  invariant hash 0 (make zero_data bucket_size pool_size k).
Proof.
  intros Hp Hk.
  assert (forall f,
            f ∈ ((fun i => to_int32 (Z.of_nat i)) <$> seq 0 (Z.to_nat pool_size))
            <-> 0 <= f < pool_size) as Hfree.
  { intros f. rewrite list_elem_of_fmap. split.
    - intros (i & -> & Hi). apply elem_of_seq in Hi.
      rewrite to_int32_small by (unfold INT32_MAX in *; lia). lia.
    - intros Hf. exists (Z.to_nat f). split.
      + rewrite to_int32_small by (unfold INT32_MAX in *; lia). lia.
      + apply elem_of_seq. lia. }
  split; cbn.
  - done.
  - by rewrite length_replicate.
  - apply HashTableProofs.table_wf_make.
  - exists ghost0. split; [by apply ReplacerProofs.wf_make|done].
  - done.
  - assert ((fun i => to_int32 (Z.of_nat i)) <$> seq 0 (Z.to_nat pool_size)
            = Z.of_nat <$> seq 0 (Z.to_nat pool_size)) as ->.
    { apply list_fmap_ext. intros i x Hx. apply lookup_seq in Hx as [-> ?].
      apply to_int32_small. unfold INT32_MAX in *. lia. }
    apply NoDup_fmap; [apply _|apply NoDup_seq].
  - intros f. apply Hfree.
  - intros f e. by rewrite lookup_empty.
  - intros f [Hf Hn] _. cbn in Hf, Hn. by apply Hfree in Hf.
  - intros pid f Hm. unfold mapped in Hm. cbn in Hm.
    by rewrite HashTableProofs.lookup_make in Hm.
  - done.
Qed.

Lemma run_invariant pool_size k ops s :
  0 <= pool_size <= INT32_MAX -> 2 <= k ->
  Z.of_nat (length ops) <= SIZE_MAX ->
  run zero_data d hash fuel ops (make zero_data bucket_size pool_size k)
  = Ok tt s ->
  invariant hash (Z.of_nat (length ops)) s.
Proof.
  intros Hp Hk Hlen Hrun.
  pose proof (run_spec ops 0 _ (make_invariant pool_size k Hp Hk)
                ltac:(lia)) as Hspec.
  by rewrite Hrun in Hspec.
Qed.

(** No call of a history throws: the frames handed to the replacer are
    within its bound and [DeletePgImp] removes evictable frames only. *)
Lemma run_never_throws pool_size k ops e s :
  0 <= pool_size <= INT32_MAX -> 2 <= k ->
  Z.of_nat (length ops) <= SIZE_MAX ->
  run zero_data d hash fuel ops (make zero_data bucket_size pool_size k)
  <> Throw e s.
Proof.
  intros Hp Hk Hlen Hrun.
  pose proof (run_spec ops 0 _ (make_invariant pool_size k Hp Hk)
                ltac:(lia)) as Hspec.
  by rewrite Hrun in Hspec.
Qed.

(** C1 (buffer pool, pinned pages are not evicted).  In every state
    reached from a new pool by calls of [NewPgImp], [FetchPgImp],
    [UnpinPgImp], [FlushPgImp], [FlushAllPgsImp] and [DeletePgImp], a
    resident frame (one that is not on the free list) is evictable in
    the replacer if and only if the pin count of its page is zero; and
    a frame that [Evict] of the replacer selects in such a state is a
    resident frame whose page has pin count zero.  The pool has at most
    [INT32_MAX] frames (frame ids are [int]s), the replacer is built
    with [k >= 2], and the history is no longer than the access counter
    of the replacer can count. *)
Theorem pinned_page_never_evicted pool_size k ops s :
  0 <= pool_size <= INT32_MAX -> 2 <= k ->
  Z.of_nat (length ops) <= SIZE_MAX ->
  run zero_data d hash fuel ops (make zero_data bucket_size pool_size k)
  = Ok tt s ->
  (forall f, resident s f ->
     exists p, frame f s = Some p /\
               (is_evictable (replacer_ s) f <-> pin_count_ p = 0)) /\
  (forall f r', Evict d (replacer_ s) = Ok (Some f) r' ->
     resident s f /\ exists p, frame f s = Some p /\ pin_count_ p = 0).
Proof.
  intros Hp Hk Hlen Hrun.
  pose proof (run_invariant pool_size k ops s Hp Hk Hlen Hrun) as Hinv.
  assert (forall f, resident s f ->
            exists p, frame f s = Some p /\
              (is_evictable (replacer_ s) f <-> pin_count_ p = 0)) as Hres.
  { intros f Hf.
    destruct (inv_resident _ _ _ _ Hinv f Hf) as (p & e & Hfp & He & Hiff & _);
      [done|].
    exists p. split; [done|]. unfold is_evictable. split.
    - intros (e' & He' & Hev). apply Hiff. congruence.
    - intros H0. exists e. split; [done|]. by apply Hiff. }
  split; [done|]. intros f r' Hev.
  destruct (inv_replacer _ _ _ _ Hinv) as (g & Hwf & _).
  destruct (ReplacerProofs.Evict_wf d _ g Hwf) as (v & r1 & Hev1 & _ & _ & _ & Hv).
  rewrite Hev in Hev1. injection Hev1 as <- <-.
  destruct Hv as (Hevict & _).
  pose proof Hevict as (e & He & _).
  destruct (inv_entry _ _ _ _ Hinv f e He) as [Hf _].
  split; [done|]. destruct (Hres f Hf) as (p & Hfp & Hiff).
  exists p. split; [done|]. by apply Hiff.
Qed.

(** C2 (buffer pool, [UnpinPgImp]), as the code has it.  In a state
    reached by a history of calls: when the page table does not find
    the page, the call returns [false] and the pool is unchanged; when
    the page is found with pin count zero, the call returns [false] and
    the pool is unchanged but for the dirty flag of the page, into which
    [is_dirty] has been or-ed; when the page is found with a positive
    pin count, the call returns [true], [is_dirty] is or-ed into the
    dirty flag, the pin count is decremented, the entries of the other
    frames in the replacer are untouched and the frame is evictable
    afterwards exactly when the count has reached zero. *)
Theorem unpin_outcome pool_size k ops s page_id is_dirty :
  0 <= pool_size <= INT32_MAX -> 2 <= k ->
  Z.of_nat (length ops) <= SIZE_MAX ->
  run zero_data d hash fuel ops (make zero_data bucket_size pool_size k)
  = Ok tt s ->
  match HashTable.lookup hash (page_table_ s) page_id with
  | None => UnpinPgImp hash page_id is_dirty s = Ok false s
  | Some f =>
      exists p, frame f s = Some p /\ page_id_ p = page_id /\
        0 <= pin_count_ p /\
        (pin_count_ p = 0 ->
         UnpinPgImp hash page_id is_dirty s =
           Ok false (set_frame f (set_dirty (is_dirty_ p || is_dirty) p) s)) /\
        (0 < pin_count_ p ->
         exists r',
           UnpinPgImp hash page_id is_dirty s =
             Ok true
                (with_replacer r'
                   (set_frame f
                      (mkPage page_id (pin_count_ p - 1)
                              (is_dirty_ p || is_dirty) (data_ p)) s)) /\
           (forall f', f' <> f ->
              entries_ r' !! f' = entries_ (replacer_ s) !! f') /\
           (is_evictable r' f <-> pin_count_ p - 1 = 0))
  end.
Proof.
  intros Hp Hk Hlen Hrun.
  pose proof (run_invariant pool_size k ops s Hp Hk Hlen Hrun) as Hinv.
  pose proof (UnpinPgImp_outcome _ s page_id is_dirty Hinv) as Hout.
  destruct (HashTable.lookup hash (page_table_ s) page_id) as [f|] eqn:Hl;
    [|done].
  destruct (mapped_frame _ s page_id f Hinv Hl)
    as (Hres & p & e & Hfp & Hid & He & Hiff & Hpin).
  destruct Hout as (p' & Hfp' & _ & Hout).
  assert (p' = p) as -> by congruence.
  exists p. split_and!; try done.
  - intros H0. by rewrite H0 in Hout.
  - intros Hpos.
    destruct (Z.eqb_spec (pin_count_ p) 0) as [|_]; [lia|].
    destruct Hout as (r' & Hout & Hr'). exists r'.
    rewrite Hid in Hout. split; [done|].
    destruct (Z.eqb_spec (pin_count_ p) 1) as [H1|H1].
    + destruct (SetEvictable_entries _ _ _ _ Hr') as (Hoth & Hent).
      rewrite He in Hent. destruct Hent as (e' & He' & Hev').
      split; [done|]. split; [lia|]. intros _. by exists e'.
    + subst r'. split; [done|]. split; [|lia].
      intros (e' & He' & Hev'). assert (e' = e) as -> by congruence.
      apply Hiff in Hev'. lia.
Qed.

End Pool.

(** A pool of two frames, with the hash of [int] keys that the standard
    library uses. *)
Example pool_history :
  match run tt true to_size_t 64
            [new_page; new_page; unpin 0 true; new_page; unpin 1 false;
             fetch_page 0]
            (make tt 4 2 2) with
  | Ok _ s =>
      (page_id_ <$> pages_ s) = [2; 0] /\
      (pin_count_ <$> pages_ s) = [1; 1] /\
      free_list_ s = [] /\ disk_ s = {[0 := tt]}
  | _ => False
  end.
Proof. vm_compute. by split_and!. Qed.

Lemma pinned_page_never_evicted_witness :
  exists s,
    run tt true to_size_t 64
        [new_page; new_page; unpin 0 true; new_page; unpin 1 false;
             fetch_page 0]
        (make tt 4 2 2) = Ok tt s /\
    (forall f, resident s f ->
       exists p, frame f s = Some p /\
                 (is_evictable (replacer_ s) f <-> pin_count_ p = 0)) /\
    (forall f r', Evict true (replacer_ s) = Ok (Some f) r' ->
       resident s f /\ exists p, frame f s = Some p /\ pin_count_ p = 0).
Proof.
  eexists. split; [vm_compute; reflexivity|].
  apply (pinned_page_never_evicted tt true to_size_t 4 64 2 2
           [new_page; new_page; unpin 0 true; new_page; unpin 1 false;
             fetch_page 0]).
  - unfold INT32_MAX. lia.
  - lia.
  - cbn. unfold SIZE_MAX. lia.
  - vm_compute. reflexivity.
Defined.

(** C2, as the specification states it, fails for a page that is in the
    pool without pins: [UnpinPgImp] with [is_dirty] set returns [false]
    but has set the dirty flag of the page. *)
Lemma unpin_of_unpinned_page_sets_dirty :
  exists s,
    run tt true to_size_t 64 [new_page; unpin 0 false] (make tt 4 2 2)
    = Ok tt s /\
    ~ unpin_refusal_keeps_state to_size_t s.
Proof.
  eexists. split; [vm_compute; reflexivity|].
  intros Hclaim. specialize (Hclaim 0 true).
  match type of Hclaim with
  | ?P -> _ => assert P as Hpre
  end.
  { right. exists 0, (mkPage 0 0 false tt). by vm_compute. }
  specialize (Hclaim Hpre). vm_compute in Hclaim. congruence.
Qed.

Lemma unpin_outcome_witness :
  exists s,
    run tt true to_size_t 64 [new_page; unpin 0 false] (make tt 4 2 2)
    = Ok tt s /\
    UnpinPgImp to_size_t 0 true s
    = Ok false (set_frame 0 (mkPage 0 0 true tt) s).
Proof.
  eexists. split; [vm_compute; reflexivity|].
  pose proof (unpin_outcome tt true to_size_t 4 64 2 2
                [new_page; unpin 0 false] _ 0 true
                ltac:(unfold INT32_MAX; lia) ltac:(lia)
                ltac:(cbn; unfold SIZE_MAX; lia)
                ltac:(vm_compute; reflexivity)) as H.
  vm_compute in H. destruct H as (p & Hp & _ & _ & H0 & _).
  injection Hp as <-. vm_compute. apply (H0 eq_refl).
Defined.

End BufferPoolProofs.

(** * B+ tree index: proofs *)

Module BPlusTreeProofs.
Import BPlusTree.

Section Tree.

Context {K V : Type}.
Variable comparator : K -> K -> Z.
Variable zero_key : K.
Variable zero_value : V.

Implicit Types (t : @BPlusTree K V) (nd : @Node K V) (h : BPlusTreePage).

Lemma same_tree_refl t : same_tree t t.
Proof. by split. Qed.

Lemma same_tree_trans t1 t2 t3 :
  same_tree t1 t2 -> same_tree t2 t3 -> same_tree t1 t3.
Proof. intros [] []. split; congruence. Qed.

Lemma contents_lookup t p :
  contents t !! p = data_ <$> frames t !! p.
Proof. unfold contents. by rewrite lookup_fmap. Qed.

(** ** The pool keeps the tree *)

Lemma contents_insert_same t p f f' :
  frames t !! p = Some f -> data_ f' = data_ f ->
  contents (with_frames (<[p := f']> (frames t)) t) = contents t.
Proof.
  intros Hf Hd. unfold contents. cbn. rewrite fmap_insert, Hd.
  apply insert_id. by rewrite lookup_fmap, Hf.
Qed.

Lemma contents_pinned p t : contents (pinned p t) = contents t.
Proof.
  unfold contents, pinned. cbn. apply map_eq. intros q.
  rewrite !lookup_fmap. destruct (decide (q = p)) as [->|Hq].
  - rewrite lookup_alter_eq. by destruct (frames t !! p).
  - by rewrite lookup_alter_ne.
Qed.

(** *** Pins and frames *)

Lemma elem_of_pinned_pages t p : p ∈ pinned_pages t <-> 0 < pin_of t p.
Proof.
  unfold pinned_pages, pin_of. rewrite elem_of_dom. split.
  - intros [f Hf]. apply map_lookup_filter_Some in Hf as [Hf Hp].
    by rewrite Hf.
  - destruct (frames t !! p) as [f|] eqn:Hf; cbn; [|lia].
    intros Hp. exists f. by apply map_lookup_filter_Some.
Qed.

Lemma size_list_to_set_le (l : list Z) :
  (size (list_to_set (C := gset Z) l) <= length l)%nat.
Proof.
  induction l as [|x l IH]; cbn; [by rewrite size_empty|].
  rewrite size_union_alt, size_singleton.
  assert (list_to_set l ∖ {[x]} ⊆ (list_to_set l : gset Z)) as Hsub
    by (apply subseteq_difference_l; done).
  apply subseteq_size in Hsub. lia.
Qed.

Lemma occurrences_nonneg pages q : 0 <= occurrences pages q.
Proof. unfold occurrences. lia. Qed.

Lemma occurrences_cons x pages q :
  occurrences (x :: pages) q
  = (if decide (q = x) then 1 else 0) + occurrences pages q.
Proof.
  unfold occurrences. rewrite filter_cons.
  destruct (decide (q = x)); cbn [length]; lia.
Qed.

Lemma occurrences_app pages1 pages2 q :
  occurrences (pages1 ++ pages2) q
  = occurrences pages1 q + occurrences pages2 q.
Proof. unfold occurrences. rewrite filter_app, length_app. lia. Qed.

Lemma occurrences_pos pages q : 0 < occurrences pages q -> q ∈ pages.
Proof.
  induction pages as [|x pages IH]; [unfold occurrences; cbn; lia|].
  rewrite occurrences_cons. destruct (decide (q = x)) as [->|Hq].
  - intros _. by left.
  - intros Hpos. right. apply IH. lia.
Qed.

(** A state that holds the tree occupies at most one frame more for
    each page of the list. *)
Lemma holds_frames pages t cur :
  holds pages t cur ->
  pinned_frames cur <= pinned_frames t + Z.of_nat (length pages).
Proof.
  intros (_ & _ & _ & _ & _ & _ & _ & Hpins). unfold pinned_frames.
  assert (pinned_pages cur ⊆ pinned_pages t ∪ list_to_set pages) as Hsub.
  { intros q. rewrite elem_of_union, !elem_of_pinned_pages,
      elem_of_list_to_set.
    intros Hq. specialize (Hpins q).
    destruct (decide (0 < pin_of t q)) as [|Hn]; [by left|]. right.
    apply occurrences_pos. lia. }
  apply subseteq_size in Hsub. rewrite size_union_alt in Hsub.
  assert (list_to_set pages ∖ pinned_pages t ⊆ (list_to_set pages : gset Z))
    as Hsub' by (apply subseteq_difference_l; done).
  apply subseteq_size in Hsub'.
  pose proof (size_list_to_set_le pages). lia.
Qed.

Lemma holds_refl t : holds [] t t.
Proof.
  split_and!; try done. intros q. unfold occurrences. cbn. lia.
Qed.

Lemma holds_same_tree pages t cur : holds pages t cur -> same_tree t cur.
Proof. intros (? & ? & ? & ? & ? & ? & ? & ?). by split. Qed.

(** A step that keeps the tree and the pool. *)
Lemma holds_step pages pages' t cur t' :
  holds pages t cur -> same_tree cur t' -> pool_size_ t' = pool_size_ cur ->
  (forall q, pin_of t' q <= Z.max 0 (pin_of t q) + occurrences pages' q) ->
  holds pages' t t'.
Proof.
  intros (? & ? & ? & ? & ? & ? & ? & ?) [] ? ?.
  split_and!; try congruence; done.
Qed.

Lemma holds_with_txn pages t cur x :
  holds pages t cur ->
  deleted_page_set_ x = deleted_page_set_ (txn cur) ->
  holds pages t (with_txn x cur).
Proof.
  intros (? & ? & ? & ? & ? & ? & ? & ?) ?.
  split_and!; try done. cbn. congruence.
Qed.

Lemma pin_of_pinned p t q :
  is_Some (contents t !! p) ->
  pin_of (pinned p t) q = pin_of t q + (if decide (q = p) then 1 else 0).
Proof.
  rewrite contents_lookup. unfold pin_of, pinned. cbn.
  destruct (decide (q = p)) as [->|Hq].
  - rewrite lookup_alter_eq. destruct (frames t !! p); [done|].
    by intros [? ?].
  - intros _. rewrite lookup_alter_ne by done. lia.
Qed.

Lemma holds_pinned pages t cur p :
  holds pages t cur -> is_Some (contents t !! p) ->
  holds (p :: pages) t (pinned p cur).
Proof.
  intros Hh Hp.
  assert (is_Some (contents cur !! p)) as Hp'
    by (destruct Hh as (-> & _); done).
  apply (holds_step pages _ t cur); [done| |done|].
  - split; try done. apply contents_pinned.
  - intros q. rewrite (pin_of_pinned p cur q Hp'), occurrences_cons.
    destruct Hh as (_ & _ & _ & _ & _ & _ & _ & Hpins).
    specialize (Hpins q). lia.
Qed.

(** [FetchPage] of a page that exists gets its frame when the page is
    pinned or one frame does not hold a pinned page, and returns
    [nullptr] otherwise. *)
Lemma FetchPage_room p t :
  is_Some (contents t !! p) ->
  0 < pin_of t p \/ pinned_frames t < pool_size_ t ->
  FetchPage p t = Ok (Some p) (pinned p t).
Proof.
  rewrite contents_lookup. unfold FetchPage, pinned, pin_of, frame_available.
  destruct (frames t !! p) as [f|] eqn:Hf; [|by intros [? ?]].
  cbn. intros _ Hroom.
  assert ((0 <? pin_count_ f) || (pinned_frames t <? pool_size_ t) = true)
    as ->.
  { apply orb_true_iff. destruct Hroom; [left|right]; by apply Z.ltb_lt. }
  do 2 f_equal. apply map_eq. intros q.
  destruct (decide (q = p)) as [->|Hq].
  - by rewrite lookup_insert_eq, lookup_alter_eq, Hf.
  - by rewrite lookup_insert_ne, lookup_alter_ne.
Qed.

Lemma FetchPage_full p t :
  pin_of t p <= 0 -> pool_size_ t <= pinned_frames t ->
  FetchPage p t = Ok None t.
Proof.
  unfold FetchPage, pin_of, frame_available.
  destruct (frames t !! p) as [f|]; [|done]. cbn. intros Hp Hfull.
  destruct (Z.ltb_spec 0 (pin_count_ f)); [lia|].
  by destruct (Z.ltb_spec (pinned_frames t) (pool_size_ t)); [lia|].
Qed.

Lemma FetchPage_cases p t :
  (is_Some (contents t !! p) /\ FetchPage p t = Ok (Some p) (pinned p t)) \/
  FetchPage p t = Ok None t.
Proof.
  destruct (contents t !! p) as [nd|] eqn:Hc.
  - destruct (decide (0 < pin_of t p \/ pinned_frames t < pool_size_ t))
      as [Hroom|Hfull].
    + left. split; [done|]. apply FetchPage_room; [by rewrite Hc|done].
    + right. apply FetchPage_full; lia.
  - right. revert Hc. rewrite contents_lookup. unfold FetchPage.
    by destruct (frames t !! p).
Qed.

Lemma holds_fetch pages t cur p :
  holds pages t cur -> is_Some (contents t !! p) ->
  pinned_frames t + Z.of_nat (length pages) < pool_size_ t ->
  FetchPage p cur = Ok (Some p) (pinned p cur).
Proof.
  intros Hh Hp Hroom. pose proof (holds_frames _ _ _ Hh) as Hfr.
  destruct Hh as (Hc & _ & _ & _ & _ & _ & Hps & _).
  apply FetchPage_room; [by rewrite Hc|]. right. lia.
Qed.

(** [UnpinPage] keeps the tree and takes one pin off the page, if it
    has one. *)
Lemma UnpinPage_pins p d t :
  exists b t',
    UnpinPage p d t = Ok b t' /\ same_tree t t' /\
    pool_size_ t' = pool_size_ t /\ txn t' = txn t /\
    forall q, pin_of t' q
              = if decide (q = p)
                then (if pin_of t p =? 0 then 0 else pin_of t p - 1)
                else pin_of t q.
Proof.
  unfold UnpinPage, pin_of. destruct (frames t !! p) as [f|] eqn:Hf.
  - cbn [from_option].
    destruct (pin_count_ f =? 0) eqn:Hz; eexists _, _; (split; [done|]);
      (split; [split; try done; by apply (contents_insert_same t p f)|]);
      (split; [done|]); (split; [done|]); intros q; cbn;
      (destruct (decide (q = p)) as [->|Hq];
         [rewrite lookup_insert_eq; cbn; by apply Z.eqb_eq in Hz || done
         |by rewrite lookup_insert_ne]).
  - eexists _, _. split; [done|]. split; [apply same_tree_refl|].
    split; [done|]. split; [done|]. intros q.
    destruct (decide (q = p)) as [->|]; [by rewrite Hf|done].
Qed.

Lemma UnpinPage_spec p d t :
  exists b t', UnpinPage p d t = Ok b t' /\ same_tree t t'.
Proof.
  destruct (UnpinPage_pins p d t) as (b & t' & Hu & H' & _). eauto.
Qed.

(** Unpinning a page of the list takes it off the list. *)
Lemma holds_unpin pages1 p pages2 t cur d :
  holds (pages1 ++ p :: pages2) t cur ->
  exists b t',
    UnpinPage p d cur = Ok b t' /\ holds (pages1 ++ pages2) t t' /\
    txn t' = txn cur.
Proof.
  intros Hh. destruct (UnpinPage_pins p d cur) as (b & t' & Hu & H' & Hps & Htx & Hq).
  exists b, t'. split; [done|]. split; [|done].
  apply (holds_step (pages1 ++ p :: pages2) _ t cur); [done..|].
  intros q. rewrite Hq.
  destruct Hh as (_ & _ & _ & _ & _ & _ & _ & Hpins).
  specialize (Hpins q). revert Hpins.
  rewrite !occurrences_app, occurrences_cons.
  pose proof (occurrences_nonneg pages1 q).
  pose proof (occurrences_nonneg pages2 q).
  destruct (decide (q = p)) as [->|]; [|lia].
  destruct (Z.eqb_spec (pin_of cur p) 0); lia.
Qed.

(** Unpinning any page leaves the list as it is. *)
Lemma holds_unpin_other pages p t cur d :
  holds pages t cur ->
  exists b t',
    UnpinPage p d cur = Ok b t' /\ holds pages t t' /\ txn t' = txn cur.
Proof.
  intros Hh. destruct (UnpinPage_pins p d cur) as (b & t' & Hu & H' & Hps & Htx & Hq).
  exists b, t'. split; [done|]. split; [|done].
  apply (holds_step pages _ t cur); [done..|].
  intros q. rewrite Hq.
  destruct Hh as (_ & _ & _ & _ & _ & _ & _ & Hpins).
  specialize (Hpins q). pose proof (occurrences_nonneg pages q).
  destruct (decide (q = p)) as [->|]; [|lia].
  destruct (Z.eqb_spec (pin_of cur p) 0); lia.
Qed.

Lemma AddIntoPageSet_spec page t :
  exists t', AddIntoPageSet true page t = Ok tt t' /\ same_tree t t'.
Proof. eexists. split; [done|]. by split. Qed.

Lemma AddIntoPageSet_holds pages t cur page :
  holds pages t cur ->
  exists t',
    AddIntoPageSet true page cur = Ok tt t' /\ holds pages t t' /\
    page_set_ (txn t') = page_set_ (txn cur) ++ [page].
Proof.
  intros Hh. eexists. split; [done|]. split; [|done].
  by apply holds_with_txn.
Qed.

(** The release of the page set keeps the tree and the list, and
    empties the page set. *)
Lemma release_holds n d t : forall pages cur,
  holds pages t cur ->
  exists t',
    release n d cur = Ok tt t' /\ holds pages t t' /\
    (n = length (page_set_ (txn cur)) -> page_set_ (txn t') = []).
Proof.
  induction n as [|n IH]; intros pages cur Hh; cbn [release].
  - exists cur. split; [done|]. split; [done|].
    by destruct (page_set_ (txn cur)).
  - unfold bindM at 1. cbn [gets bind].
    destruct (page_set_ (txn cur)) as [|page rest] eqn:Hps.
    + exists cur. by split_and!.
    + unfold bindM at 1. cbn [modify bind]. unfold bindM at 1.
      set (t1 := with_txn _ cur).
      assert (holds pages t t1) as H1 by (by apply holds_with_txn).
      assert (page_set_ (txn t1) = rest) as Hps1 by done.
      destruct page as [page_id|].
      * unfold bindM at 1.
        destruct (holds_unpin_other pages page_id t t1 d H1)
          as (b & t2 & -> & H2 & Htx).
        cbn [bind ret]. destruct (IH pages t2 H2) as (t3 & -> & H3 & He).
        exists t3. split; [done|]. split; [done|].
        intros [= Hn]. apply He. by rewrite Htx, Hps1.
      * cbn [ret bind]. destruct (IH pages t1 H1) as (t3 & -> & H3 & He).
        exists t3. split; [done|]. split; [done|].
        intros [= Hn]. apply He. by rewrite Hps1.
Qed.

(** The release of a page set with the page [p] in it takes the pin
    of [p] back. *)
Lemma release_holds_last n d t p : forall cur,
  holds [p] t cur -> Some p ∈ page_set_ (txn cur) ->
  n = length (page_set_ (txn cur)) ->
  exists t',
    release n d cur = Ok tt t' /\ holds [] t t' /\ page_set_ (txn t') = [].
Proof.
  induction n as [|n IH]; intros cur Hh Hin Hn; cbn [release].
  - destruct (page_set_ (txn cur)); [by apply elem_of_nil in Hin|done].
  - unfold bindM at 1. cbn [gets bind].
    destruct (page_set_ (txn cur)) as [|page rest] eqn:Hps;
      [by apply elem_of_nil in Hin|].
    unfold bindM at 1. cbn [modify bind]. unfold bindM at 1.
    set (t1 := with_txn _ cur).
    assert (holds [p] t t1) as H1 by (by apply holds_with_txn).
    assert (page_set_ (txn t1) = rest) as Hps1 by done.
    injection Hn as Hn.
    destruct page as [page_id|].
    + unfold bindM at 1. destruct (decide (page_id = p)) as [->|Hne].
      * destruct (holds_unpin [] p [] t t1 d H1) as (b & t2 & -> & H2 & Htx).
        cbn [bind ret app] in *.
        destruct (release_holds n d t [] t2 H2) as (t3 & -> & H3 & He).
        exists t3. split; [done|]. split; [done|].
        apply He. by rewrite Htx, Hps1.
      * destruct (holds_unpin_other [p] page_id t t1 d H1)
          as (b & t2 & -> & H2 & Htx).
        cbn [bind ret]. apply IH; [done| |by rewrite Htx, Hps1].
        rewrite Htx, Hps1. apply elem_of_cons in Hin as [[=]|]; done.
    + cbn [ret bind]. apply IH; [done| |by rewrite Hps1].
      rewrite Hps1. by apply elem_of_cons in Hin as [?|?].
Qed.

Lemma release_spec n d t :
  exists t', release n d t = Ok tt t' /\ same_tree t t'.
Proof.
  destruct (release_holds n d t [] t (holds_refl t)) as (t' & Hr & Hh & _).
  exists t'. split; [done|]. by eapply holds_same_tree.
Qed.

Lemma release_empties n d t t' :
  n = length (page_set_ (txn t)) ->
  release n d t = Ok tt t' -> page_set_ (txn t') = [].
Proof.
  intros Hn Hr.
  destruct (release_holds n d t [] t (holds_refl t)) as (t'' & Hr' & _ & He).
  rewrite Hr in Hr'. injection Hr' as <-. by apply He.
Qed.

Lemma ReleaseWLatches_holds pages t cur d :
  holds pages t cur ->
  exists t',
    ReleaseWLatches true d cur = Ok tt t' /\ holds pages t t' /\
    page_set_ (txn t') = [].
Proof.
  intros Hh. unfold ReleaseWLatches, bindM. cbn [gets bind].
  destruct (release_holds (length (page_set_ (txn cur))) d t pages cur Hh)
    as (t' & Hr & H' & He).
  exists t'. split_and!; [done|done|by apply He].
Qed.

Lemma ReleaseWLatches_spec tr d t :
  exists t', ReleaseWLatches tr d t = Ok tt t' /\ same_tree t t'.
Proof.
  unfold ReleaseWLatches. destruct tr.
  - unfold bindM. cbn [gets bind]. apply release_spec.
  - exists t. split; [done|]. apply same_tree_refl.
Qed.

(** ** Reading a page *)

Lemma node_spec p t :
  node p t = match contents t !! p with
             | Some nd => Ok nd t
             | None => Undefined
             end.
Proof.
  rewrite contents_lookup. unfold node. by destruct (frames t !! p).
Qed.

Lemma fields_spec p t :
  fields p t = match contents t !! p with
               | Some nd => match page_fields nd with
                            | Some h => Ok h t
                            | None => Undefined
                            end
               | None => Undefined
               end.
Proof.
  unfold fields, bindM. rewrite node_spec.
  destruct (contents t !! p) as [nd|]; [|done]. cbn.
  by destruct (page_fields nd).
Qed.

Lemma IsLeafPage_spec p t :
  IsLeafPage p t = match contents t !! p with
                   | Some nd => match page_fields nd with
                                | Some h => Ok (is_leaf nd) t
                                | None => Undefined
                                end
                   | None => Undefined
                   end.
Proof.
  unfold IsLeafPage, bindM. rewrite node_spec.
  destruct (contents t !! p) as [nd|]; [|done]. cbn.
  by destruct (page_fields nd).
Qed.

Lemma GetSize_spec p t :
  GetSize p t = match contents t !! p with
                | Some nd => match page_fields nd with
                             | Some h => Ok (size_ h) t
                             | None => Undefined
                             end
                | None => Undefined
                end.
Proof.
  unfold GetSize, bindM. rewrite fields_spec.
  destruct (contents t !! p) as [nd|]; [|done].
  by destruct (page_fields nd).
Qed.

Lemma GetMaxSize_spec p t :
  GetMaxSize p t = match contents t !! p with
                   | Some nd => match page_fields nd with
                                | Some h => Ok (max_size_ h) t
                                | None => Undefined
                                end
                   | None => Undefined
                   end.
Proof.
  unfold GetMaxSize, bindM. rewrite fields_spec.
  destruct (contents t !! p) as [nd|]; [|done].
  by destruct (page_fields nd).
Qed.


(** [IsPageSafe] for an insertion reads the page and leaves the state
    alone. *)
Lemma IsPageSafe_insert p t nd h :
  contents t !! p = Some nd -> page_fields nd = Some h ->
  IsPageSafe p INSERT t =
    Ok (if is_leaf nd then size_ h <? max_size_ h - 1
        else size_ h <? max_size_ h) t.
Proof.
  intros Hc Hh. unfold IsPageSafe, bindM.
  rewrite IsLeafPage_spec, Hc, Hh. cbn.
  rewrite GetSize_spec, Hc, Hh. cbn.
  rewrite GetMaxSize_spec, Hc, Hh. cbn.
  by destruct (is_leaf nd).
Qed.

Lemma find_child_spec p key t h a :
  contents t !! p = Some (InternalPage h a) ->
  find_child comparator zero_key p key t =
    if size_ h - 1 <? 0 then Undefined
    else Ok (child_loop comparator zero_key (Z.to_nat (size_ h - 1)) a key 1
                        (slot (zero_entry zero_key) a (size_ h - 1)).2) t.
Proof.
  intros Hc. unfold find_child, bindM.
  rewrite GetSize_spec, Hc. cbn.
  unfold ValueAt, internal_item, bindM.
  destruct (size_ h - 1 <? 0); [done|].
  unfold internal_array, bindM. rewrite node_spec, Hc. cbn.
  by rewrite node_spec, Hc.
Qed.

(** ** The descent to the leaf *)

Lemma bindM_run {A B} (m : M A) (f : A -> M B) t :
  bindM m f t = bind (m t) f.
Proof. reflexivity. Qed.

(** Runs the calls at the head of a computation. *)
Ltac run :=
  repeat first
    [ progress rewrite !bindM_run
    | progress cbn [negb andb ret bind gets modify] ].

Local Arguments FetchPage : simpl never.
Local Arguments UnpinPage : simpl never.
Local Arguments IsLeafPage : simpl never.
Local Arguments IsPageSafe : simpl never.
Local Arguments find_child : simpl never.
Local Arguments ReleaseWLatches : simpl never.
Local Arguments AddIntoPageSet : simpl never.
Local Arguments GetSize : simpl never.
Local Arguments GetPageId : simpl never.
Local Arguments LookUp : simpl never.
Local Arguments Leaf_Insert : simpl never.

(** [IsPageSafe] reads the page and leaves the state alone. *)
Lemma IsPageSafe_reads p op t nd h :
  contents t !! p = Some nd -> page_fields nd = Some h ->
  exists b, IsPageSafe p op t = Ok b t.
Proof.
  intros Hc Hh. destruct op.
  - by eexists.
  - rewrite (IsPageSafe_insert p t nd h Hc Hh). by eexists.
  - unfold IsPageSafe, IsRootPage. run.
    rewrite fields_spec, Hc, Hh. run.
    destruct (parent_page_id_ h =? INVALID_PAGE_ID); run.
    + rewrite IsLeafPage_spec, Hc, Hh. run.
      rewrite GetSize_spec, Hc, Hh. run.
      destruct (is_leaf nd); by eexists.
    + rewrite GetSize_spec, Hc, Hh. run.
      unfold GetMinSize. run. rewrite node_spec, Hc. run.
      rewrite Hh. by eexists.
Qed.

Lemma find_leaf_is_leaf fuel key : forall c p leaf,
  find_leaf comparator zero_key fuel c key p = Some leaf ->
  exists h next a, c !! leaf = Some (@LeafPage K V h next a).
Proof.
  induction fuel as [|fuel IH]; intros c p leaf; [done|]. cbn [find_leaf].
  destruct (c !! p) as [[h next a|h a| |]|] eqn:Hc; try done.
  - intros [= <-]. eauto.
  - destruct (size_ h - 1 <? 0); [done|]. apply IH.
Qed.

(** The descent visits at least one page, and two when it does not
    start at the leaf. *)
Lemma depth_pos fuel key : forall (c : gmap Z (@Node K V)) p leaf,
  find_leaf comparator zero_key fuel c key p = Some leaf ->
  (1 <= depth comparator zero_key fuel c key p)%nat.
Proof.
  induction fuel as [|fuel IH]; intros c p leaf; [done|].
  cbn [find_leaf depth].
  destruct (c !! p) as [[h next a|h a| |]|] eqn:Hc; try done.
  destruct (size_ h - 1 <? 0); [done|]. lia.
Qed.

Lemma depth_internal fuel key (c : gmap Z (@Node K V)) p leaf :
  find_leaf comparator zero_key fuel c key p = Some leaf -> p <> leaf ->
  (2 <= depth comparator zero_key fuel c key p)%nat.
Proof.
  destruct fuel as [|fuel]; [done|]. cbn [find_leaf depth].
  destruct (c !! p) as [[h next a|h a| |]|] eqn:Hc; try done.
  - by intros [= <-].
  - destruct (size_ h - 1 <? 0); [done|]. intros Hfind _.
    apply depth_pos in Hfind. lia.
Qed.

(** The release of the parent page in the first pass. *)
Lemma unpin_previous (pre : option Z) t :
  exists t',
    (match pre with
     | Some pre0 => bindM (UnpinPage pre0 false) (fun _ => ret tt)
     | None => ret tt
     end) t = Ok tt t' /\ same_tree t t'.
Proof.
  destruct pre as [pre0|].
  - destruct (UnpinPage_spec pre0 false t) as (b & t' & Hu & H').
    exists t'. rewrite bindM_run, Hu. by split.
  - exists t. split; [done|]. apply same_tree_refl.
Qed.

(** The same, for a state that holds the tree with a pin on the page
    reached and one on its parent. *)
Lemma unpin_previous_holds (pre : option Z) p t cur :
  holds (p :: option_list pre) t cur ->
  exists t',
    (match pre with
     | Some pre0 => bindM (UnpinPage pre0 false) (fun _ => ret tt)
     | None => ret tt
     end) cur = Ok tt t' /\ holds [p] t t' /\ txn t' = txn cur.
Proof.
  destruct pre as [pre0|]; cbn [option_list option_rect].
  - intros Hh.
    destruct (holds_unpin [p] pre0 [] t cur false Hh) as (b & t' & Hu & H' & Htx).
    exists t'. rewrite bindM_run, Hu. by split.
  - intros Hh. by exists cur.
Qed.

(** A search that returns has followed [find_leaf]. *)
Lemma descend_search fuel key : forall t p pre r t',
  descend comparator zero_key fuel key false SEARCH true p pre t = Ok r t' ->
  exists leaf,
    r = Found leaf /\
    find_leaf comparator zero_key fuel (contents t) key p = Some leaf /\
    same_tree t t'.
Proof.
  induction fuel as [|fuel IH]; intros t p pre r t'; [done|].
  cbn [descend find_leaf]. unfold bindM at 1.
  destruct (FetchPage_cases p t) as [[[nd Hc] ->]| ->]; [|done].
  cbn [bind]. rewrite Hc.
  assert (same_tree t (pinned p t)) as H1
    by (split; try done; apply contents_pinned).
  set (t1 := pinned p t) in *.
  assert (contents t1 !! p = Some nd) as Hc1
    by (by rewrite (same_contents _ _ H1)).
  unfold bindM at 1. rewrite IsLeafPage_spec, Hc1.
  destruct (page_fields nd) as [h|] eqn:Hh; [|done]. cbn [bind].
  destruct (unpin_previous pre t1) as (t2 & Hpre & H2).
  assert (contents t2 !! p = Some nd) as Hc2
    by (by rewrite (same_contents _ _ H2)).
  pose proof (same_tree_trans _ _ _ H1 H2) as H12.
  assert (bool_decide (SEARCH = SEARCH) = true) as -> by done.
  rewrite andb_false_r. rewrite !bindM_run. cbn [ret bind]. rewrite Hpre.
  cbn [bind].
  destruct nd as [h0 next a|h0 a| |]; try done; cbn in Hh;
    injection Hh as ->; cbn [is_leaf].
  - (* a leaf *)
    rewrite !bindM_run. cbn.
    intros [= <- <-]. exists p. by split_and!.
  - (* an internal page *)
    rewrite bindM_run.
    rewrite (find_child_spec p key t2 h a Hc2).
    destruct (size_ h - 1 <? 0); [done|]. cbn [bind].
    intros Hd. destruct (IH _ _ _ _ _ Hd) as (leaf & -> & Hfind & H3).
    exists leaf. split_and!; [done| |by eapply same_tree_trans].
    by rewrite <- (same_contents _ _ H12).
Qed.

(** The first pass of an update follows [find_leaf] with at most two
    pages pinned at a time.  It ends at the leaf, which it keeps
    pinned, or asks for the second pass with no pin left. *)
Lemma descend_update_first fuel key op t : forall cur p pre leaf,
  op <> SEARCH ->
  find_leaf comparator zero_key fuel (contents t) key p = Some leaf ->
  holds (option_list pre) t cur ->
  pinned_frames t + Z.of_nat (length (option_list pre)) < pool_size_ t ->
  (p <> leaf -> pinned_frames t + 2 <= pool_size_ t) ->
  exists r t',
    descend comparator zero_key fuel key true op true p pre cur = Ok r t' /\
    ((r = Found leaf /\ holds [leaf] t t') \/ (r = Restart /\ holds [] t t')).
Proof.
  induction fuel as [|fuel IH]; intros cur p pre leaf Hop; [done|].
  intros Hfind Hh Hroom Hroom2.
  pose proof (find_leaf_is_leaf _ _ _ _ _ Hfind) as (hl & nextl & al & Hleaf).
  revert Hfind. cbn [descend find_leaf]. rewrite bindM_run.
  destruct (contents t !! p) as [nd|] eqn:Hc; [|done].
  rewrite (holds_fetch _ t cur p Hh); [|by rewrite Hc|done]. cbn [bind].
  assert (holds (p :: option_list pre) t (pinned p cur)) as H1
    by (apply holds_pinned; [done|by rewrite Hc]).
  set (t1 := pinned p cur) in *.
  assert (contents t1 !! p = Some nd) as Hc1
    by (destruct H1 as (-> & _); done).
  rewrite bindM_run, IsLeafPage_spec, Hc1.
  assert (bool_decide (op = SEARCH) = false) as ->
    by (by apply bool_decide_eq_false_2).
  destruct nd as [h next a|h a| |]; try done; cbn [page_fields bind is_leaf
    andb negb].
  - (* a leaf *)
    intros [= <-].
    destruct (AddIntoPageSet_holds _ t t1 (Some p) H1) as (t2 & Hadd & H2 & Hps2).
    destruct (unpin_previous_holds pre p t t2 H2) as (t3 & Hpre & H3 & Htx3).
    assert (contents t3 !! p = Some (LeafPage h next a)) as Hc3
      by (destruct H3 as (-> & _); done).
    rewrite !bindM_run, Hadd. cbn [bind]. rewrite Hpre. cbn [bind].
    destruct (IsPageSafe_reads p op t3 _ h Hc3 eq_refl) as [safe Hsafe].
    rewrite bindM_run, Hsafe. cbn [bind]. destruct safe.
    + eexists _, _. split; [done|]. by left.
    + unfold ReleaseWLatches. rewrite !bindM_run. cbn [gets bind].
      destruct (release_holds_last (length (page_set_ (txn t3))) false t p t3)
        as (t4 & Hrel & H4 & _); [done| |done|].
      { rewrite Htx3, Hps2. apply elem_of_app. right. by left. }
      rewrite Hrel. cbn [bind ret].
      eexists _, _. split; [done|]. by right.
  - (* an internal page *)
    intros Hfind.
    assert (p <> leaf) as Hne by (intros ->; congruence).
    specialize (Hroom2 Hne).
    destruct (unpin_previous_holds pre p t t1 H1) as (t2 & Hpre & H2 & Htx2).
    assert (contents t2 !! p = Some (InternalPage h a)) as Hc2
      by (destruct H2 as (-> & _); done).
    rewrite !bindM_run. cbn [ret bind]. rewrite Hpre. cbn [bind].
    rewrite bindM_run, (find_child_spec p key t2 h a Hc2).
    destruct (size_ h - 1 <? 0); [done|]. cbn [bind].
    apply (IH t2 _ (Some p) leaf Hop Hfind); cbn [option_list option_rect length];
      [done|lia|done].
Qed.

(** The second pass of an update follows [find_leaf] to the leaf and
    keeps at most the pages of the way pinned. *)
Lemma descend_update_second fuel key op t : forall pages cur p pre leaf,
  op <> SEARCH ->
  find_leaf comparator zero_key fuel (contents t) key p = Some leaf ->
  holds pages t cur ->
  pinned_frames t + Z.of_nat (length pages)
  + Z.of_nat (depth comparator zero_key fuel (contents t) key p)
  <= pool_size_ t ->
  exists pages' t',
    descend comparator zero_key fuel key true op false p pre cur
    = Ok (Found leaf) t' /\
    holds pages' t t'.
Proof.
  induction fuel as [|fuel IH]; intros pages cur p pre leaf Hop; [done|].
  intros Hfind Hh Hroom.
  pose proof (depth_pos _ _ _ _ _ Hfind) as Hpos.
  assert (pinned_frames t + Z.of_nat (length pages) < pool_size_ t) as Hlt
    by lia.
  revert Hfind Hroom. cbn [descend find_leaf depth]. rewrite bindM_run.
  destruct (contents t !! p) as [nd|] eqn:Hc; [|done].
  intros Hfind Hroom.
  rewrite (holds_fetch _ t cur p Hh); [|by rewrite Hc|done].
  cbn [bind].
  assert (holds (p :: pages) t (pinned p cur)) as H1
    by (apply holds_pinned; [done|by rewrite Hc]).
  set (t1 := pinned p cur) in *.
  assert (contents t1 !! p = Some nd) as Hc1
    by (destruct H1 as (-> & _); done).
  rewrite bindM_run, IsLeafPage_spec, Hc1.
  assert (bool_decide (op = SEARCH) = false) as ->
    by (by apply bool_decide_eq_false_2).
  assert (forall h, page_fields nd = Some h ->
    exists t2,
      bindM (ret tt) (fun _ =>
        bindM (IsPageSafe p op) (fun safe : bool =>
          bindM (if safe then ReleaseWLatches true false else ret tt)
                (fun _ => AddIntoPageSet true (Some p)))) t1 = Ok tt t2 /\
      holds (p :: pages) t t2) as Hstep.
  { intros h Hh'. rewrite !bindM_run. cbn [ret bind].
    destruct (IsPageSafe_reads p op t1 nd h Hc1 Hh') as [safe Hsafe].
    rewrite bindM_run, Hsafe. cbn [bind]. rewrite bindM_run.
    assert (exists t2,
              (if safe then ReleaseWLatches true false else ret tt) t1
              = Ok tt t2 /\ holds (p :: pages) t t2) as (t2 & -> & H2).
    { destruct safe; [|by exists t1].
      destruct (ReleaseWLatches_holds _ t t1 false H1) as (t2 & ? & ? & _).
      by exists t2. }
    cbn [bind].
    destruct (AddIntoPageSet_holds _ t t2 (Some p) H2) as (t3 & -> & H3 & _).
    by exists t3. }
  destruct nd as [h next a|h a| |]; try done; cbn [page_fields bind is_leaf].
  - (* a leaf *)
    injection Hfind as <-. destruct (Hstep h eq_refl) as (t2 & Hs & H2).
    rewrite bindM_run, Hs. cbn [bind ret]. by eexists _, _.
  - (* an internal page *)
    destruct (Hstep h eq_refl) as (t2 & Hs & H2).
    rewrite bindM_run, Hs. cbn [bind].
    assert (contents t2 !! p = Some (InternalPage h a)) as Hc2
      by (destruct H2 as (-> & _); done).
    rewrite bindM_run, (find_child_spec p key t2 h a Hc2).
    destruct (size_ h - 1 <? 0); [done|]. cbn [bind].
    apply (IH (p :: pages) t2 _ (Some p) leaf Hop Hfind H2).
    cbn [length]. lia.
Qed.

(** [GetLeafPage] for an update returns the leaf that [find_leaf]
    designates, after one pass or two, when the pool has a frame for
    every page of the way. *)
Lemma GetLeafPage_update fuel key op t leaf :
  op <> SEARCH ->
  find_leaf comparator zero_key fuel (contents t) key (root_page_id_ t)
  = Some leaf ->
  pinned_frames t
  + Z.of_nat (depth comparator zero_key fuel (contents t) key
                    (root_page_id_ t))
  <= pool_size_ t ->
  exists pages t',
    GetLeafPage comparator zero_key fuel key true op true t = Ok leaf t' /\
    holds pages t t'.
Proof.
  intros Hop Hfind Hroom. unfold GetLeafPage, GetLeafPage_pass. run.
  pose proof (depth_pos _ _ _ _ _ Hfind) as Hpos.
  destruct (descend_update_first fuel key op t t _ None leaf Hop Hfind
              (holds_refl t))
    as (r & t2 & -> & [[-> H2]|[-> H2]]); cbn [option_list option_rect length bind ret].
  - lia.
  - intros Hne. pose proof (depth_internal _ _ _ _ _ Hfind Hne). lia.
  - by exists [leaf], t2.
  - run. destruct (AddIntoPageSet_holds _ t t2 None H2) as (t3 & -> & H3 & _).
    run.
    assert (root_page_id_ t3 = root_page_id_ t) as ->
      by (by destruct H3 as (_ & -> & _)).
    destruct (descend_update_second fuel key op t [] t3 _ None leaf Hop Hfind
                H3)
      as (pages & t4 & -> & H4); [cbn [length]; lia|]. cbn [bind ret].
    by exists pages, t4.
Qed.

(** ** A key that is in its leaf *)

Lemma leaf_array_spec p t :
  leaf_array p t = match contents t !! p with
                   | Some (LeafPage _ _ a) => Ok a t
                   | _ => Undefined
                   end.
Proof.
  unfold leaf_array. rewrite bindM_run, node_spec.
  destruct (contents t !! p) as [[]|]; done.
Qed.

Lemma Leaf_KeyIndex_spec p key t :
  Leaf_KeyIndex comparator zero_key zero_value p key t =
    match contents t !! p with
    | Some (LeafPage h _ a) =>
        Ok (lower_bound comparator (Z.to_nat (size_ h))
                        (zero_item zero_key zero_value) a key 0 (size_ h)) t
    | _ => Undefined
    end.
Proof.
  unfold Leaf_KeyIndex. rewrite bindM_run, leaf_array_spec.
  destruct (contents t !! p) as [[h next a|h a| |]|] eqn:Hc; try done.
  cbn [bind]. rewrite bindM_run, GetSize_spec, Hc. done.
Qed.

Lemma leaf_item_spec p i t h next a :
  contents t !! p = Some (LeafPage h next a) ->
  leaf_item zero_key zero_value p i t =
    if i <? 0 then Undefined
    else Ok (slot (zero_item zero_key zero_value) a i) t.
Proof.
  intros Hc. unfold leaf_item. destruct (i <? 0); [done|].
  by rewrite bindM_run, leaf_array_spec, Hc.
Qed.

(** [LookUp] finds what [leaf_find] reads off the page. *)
Lemma LookUp_spec p key t v t' :
  LookUp comparator zero_key zero_value p key t = Ok (Some v) t' ->
  t' = t /\
  exists nd, contents t !! p = Some nd /\
             leaf_find comparator zero_key zero_value nd key = Some v.
Proof.
  unfold LookUp. rewrite bindM_run, Leaf_KeyIndex_spec.
  destruct (contents t !! p) as [[h next a|h a| |]|] eqn:Hc; try done.
  cbn [bind]. rewrite bindM_run, GetSize_spec, Hc. cbn [page_fields bind].
  set (key_it := lower_bound _ _ _ _ _ _ _).
  destruct (key_it =? size_ h) eqn:Hend; [done|].
  rewrite bindM_run, (leaf_item_spec p key_it t h next a Hc).
  destruct (key_it <? 0) eqn:Hneg; [done|]. cbn [bind].
  destruct (comparator (slot _ a key_it).1 key =? 0) eqn:Hcmp; [|done].
  cbn. intros [= <- <-]. split; [done|].
  eexists. split; [done|]. cbn. fold key_it. by rewrite Hend, Hneg, Hcmp.
Qed.

(** [Insert] of a key that [LookUp] finds returns the size of the page
    and changes nothing. *)
Lemma Leaf_Insert_present p key value t nd v :
  contents t !! p = Some nd ->
  leaf_find comparator zero_key zero_value nd key = Some v ->
  exists size,
    GetSize p t = Ok size t /\
    Leaf_Insert comparator zero_key zero_value p key value t = Ok size t.
Proof.
  intros Hc Hfind. destruct nd as [h next a|h a| |]; try done.
  cbn in Hfind. exists (size_ h).
  rewrite GetSize_spec, Hc. split; [done|].
  unfold Leaf_Insert. rewrite bindM_run, Leaf_KeyIndex_spec, Hc. cbn [bind].
  rewrite bindM_run, GetSize_spec, Hc. cbn [page_fields bind].
  set (key_it := lower_bound _ _ _ _ _ _ _) in *.
  destruct (key_it =? size_ h) eqn:Hend; [done|].
  destruct (key_it <? 0) eqn:Hneg; [done|]. cbn [orb] in Hfind.
  destruct (comparator (slot _ a key_it).1 key =? 0) eqn:Hcmp; [|done].
  rewrite !bindM_run, (leaf_item_spec p key_it t h next a Hc), Hneg.
  cbn [bind ret]. rewrite Hcmp. cbn [negb bind].
  by rewrite GetSize_spec, Hc.
Qed.

Local Arguments descend : simpl never.
Local Arguments Leaf_KeyIndex : simpl never.

(** A key that [GetValue] finds is in the leaf that the descent from
    the root reaches. *)
Lemma GetValue_found fuel key t v t1 :
  GetValue comparator zero_key zero_value fuel key t = Ok (Some v) t1 ->
  (root_page_id_ t =? INVALID_PAGE_ID) = false /\
  exists leaf nd,
    find_leaf comparator zero_key fuel (contents t) key (root_page_id_ t)
    = Some leaf /\
    contents t !! leaf = Some nd /\
    leaf_find comparator zero_key zero_value nd key = Some v.
Proof.
  unfold GetValue. rewrite bindM_run. cbn [IsEmpty gets bind].
  destruct (root_page_id_ t =? INVALID_PAGE_ID); [done|].
  unfold GetLeafPage, GetLeafPage_pass.
  assert (bool_decide (SEARCH = SEARCH) = true) as -> by done. run.
  destruct (descend comparator zero_key fuel key false SEARCH true
                    (root_page_id_ t) None t) as [r t2| | |] eqn:Hd;
    try done.
  destruct (descend_search _ _ _ _ _ _ _ Hd) as (leaf & -> & Hfind & H2).
  cbn [bind ret]. rewrite bindM_run.
  destruct (LookUp comparator zero_key zero_value leaf key t2)
    as [found t3| | |] eqn:Hl; try done.
  cbn [bind]. rewrite bindM_run.
  destruct (GetPageId leaf t3) as [id t4| | |]; try done.
  cbn [bind]. rewrite bindM_run.
  destruct (UnpinPage id false t4) as [b t5| | |]; try done.
  cbn [bind ret]. intros [= -> <-]. split; [done|].
  apply LookUp_spec in Hl as (-> & nd & Hc & Hv).
  exists leaf, nd. split_and!; [done| |done].
  by rewrite <- (same_contents _ _ H2).
Qed.

(** C6 (B+ tree, insertion of a present key).  When [GetValue] finds
    the key in the tree, [Insert] of this key, called with a
    transaction in a pool that has a frame without a pinned page for
    every page on the way from the root to the leaf, returns [false]
    and leaves the tree as it was: the data of every page (keys,
    values, sizes, links), the root page id and the set of pages are the
    same.  The pages that the call pinned and recorded in the page set
    of the transaction are released again. *)
Theorem insert_present_key fuel key value v t t1 :
  GetValue comparator zero_key zero_value fuel key t = Ok (Some v) t1 ->
  pinned_frames t
  + Z.of_nat (depth comparator zero_key fuel (contents t) key
                    (root_page_id_ t))
  <= pool_size_ t ->
  exists t',
    Insert comparator zero_key zero_value fuel key value true t
    = Ok false t' /\
    same_tree t t' /\ page_set_ (txn t') = [].
Proof.
  intros Hget Hroom.
  destruct (GetValue_found _ _ _ _ _ Hget)
    as (Hroot & leaf & nd & Hfind & Hc & Hv).
  unfold Insert. rewrite bindM_run. cbn [IsEmpty gets bind]. rewrite Hroot.
  unfold InsertIntoLeaf. rewrite bindM_run.
  destruct (GetLeafPage_update fuel key INSERT t leaf)
    as (pages & t2 & -> & H2); [done..|].
  cbn [bind].
  assert (contents t2 !! leaf = Some nd) as Hc2
    by (destruct H2 as (-> & _); done).
  destruct (Leaf_Insert_present leaf key value t2 nd v Hc2 Hv)
    as (size & Hsize & Hins).
  rewrite bindM_run, Hsize. cbn [bind]. rewrite bindM_run, Hins. cbn [bind].
  rewrite Z.eqb_refl. rewrite bindM_run.
  destruct (ReleaseWLatches_holds pages t t2 false H2) as (t3 & Hrel & H3 & He).
  rewrite Hrel. cbn [bind ret].
  exists t3. split; [done|]. split; [by eapply holds_same_tree|done].
Qed.

(** ** The pages that a call writes *)

Lemma touches_ret {A} ps (a : A) : touches ps (@ret K V A a).
Proof. by intros t a' t' [= _ <-]. Qed.

Lemma touches_bind {A B} ps (m : @M K V A) (f : A -> @M K V B) :
  touches ps m -> (forall a, touches ps (f a)) -> touches ps (bindM m f).
Proof.
  intros Hm Hf t b t'. rewrite bindM_run.
  destruct (m t) as [a t1| | |] eqn:H1; try done. cbn [bind].
  intros H2 q Hq. rewrite (Hf a _ _ _ H2 q Hq). by apply (Hm _ _ _ H1).
Qed.

Lemma touches_undefined {A} ps : touches ps (@undefined K V A).
Proof. by intros t a t'. Qed.

Lemma touches_if {A} ps (b : bool) (m1 m2 : @M K V A) :
  touches ps m1 -> touches ps m2 -> touches ps (if b then m1 else m2).
Proof. by destruct b. Qed.

Lemma touches_node ps p : touches ps (@node K V p).
Proof.
  intros t a t'. unfold node. destruct (frames t !! p); [|done].
  by intros [= _ <-].
Qed.

Lemma touches_set_node ps p nd : p ∈ ps -> touches ps (@set_node K V p nd).
Proof.
  intros Hp t a t'. unfold set_node. destruct (frames t !! p); [|done].
  intros [= _ <-] q Hq. cbn. apply lookup_insert_ne. by intros ->.
Qed.

Lemma touches_distance ps a b : touches ps (@distance K V a b).
Proof.
  unfold distance. apply touches_if; [apply touches_undefined|apply touches_ret].
Qed.

Create HintDb touches.
Local Hint Resolve touches_ret touches_undefined touches_node
  touches_set_node touches_distance : touches.

(** Goes through the calls of a definition. *)
Ltac touches :=
  repeat first
    [ apply touches_bind; [|intros ?]
    | apply touches_if
    | match goal with
      | |- touches _ (match ?x with _ => _ end) => destruct x
      end
    | solve [eauto with touches] ].

Lemma touches_fields ps p : touches ps (@fields K V p).
Proof. unfold fields. touches. Qed.

Lemma touches_set_fields ps p h : p ∈ ps -> touches ps (@set_fields K V p h).
Proof. intros Hp. unfold set_fields. touches. Qed.

Local Hint Resolve touches_fields touches_set_fields : touches.

Lemma touches_GetSize ps p : touches ps (@GetSize K V p).
Proof. unfold GetSize. touches. Qed.

Lemma touches_IsLeafPage ps p : touches ps (@IsLeafPage K V p).
Proof. unfold IsLeafPage. touches. Qed.

Lemma touches_IncreaseSize ps p n :
  p ∈ ps -> touches ps (@IncreaseSize K V p n).
Proof. intros Hp. unfold IncreaseSize. touches. Qed.

Lemma touches_leaf_item ps p i :
  touches ps (leaf_item zero_key zero_value p i).
Proof. unfold leaf_item, leaf_array. touches. Qed.

Lemma touches_set_leaf_item ps p i x :
  p ∈ ps -> touches ps (set_leaf_item zero_key zero_value p i x).
Proof. intros Hp. unfold set_leaf_item. touches. Qed.

Lemma touches_internal_item ps p i :
  touches ps (@internal_item K V zero_key p i).
Proof. unfold internal_item, internal_array. touches. Qed.

Lemma touches_set_internal_item ps p i x :
  p ∈ ps -> touches ps (@set_internal_item K V zero_key p i x).
Proof. intros Hp. unfold set_internal_item. touches. Qed.

Local Hint Resolve touches_GetSize touches_IsLeafPage touches_IncreaseSize
  touches_leaf_item touches_set_leaf_item touches_internal_item
  touches_set_internal_item : touches.

Lemma touches_leaf_copy ps n : forall src from dst to,
  dst ∈ ps -> touches ps (leaf_copy zero_key zero_value n src from dst to).
Proof.
  induction n as [|n IH]; intros src from dst to Hd; cbn [leaf_copy];
    touches.
Qed.

Lemma touches_leaf_copy_backward ps n : forall p last d_last,
  p ∈ ps ->
  touches ps (leaf_copy_backward zero_key zero_value n p last d_last).
Proof.
  induction n as [|n IH]; intros p last d_last Hp;
    cbn [leaf_copy_backward]; touches.
Qed.

Local Hint Resolve touches_leaf_copy touches_leaf_copy_backward : touches.

Lemma touches_Leaf_MoveFirstToEnd ps this sibling :
  this ∈ ps -> sibling ∈ ps ->
  touches ps (Leaf_MoveFirstToEnd zero_key zero_value this sibling).
Proof.
  intros H1 H2. unfold Leaf_MoveFirstToEnd, Leaf_CopyLastFrom. touches.
Qed.

Lemma touches_Leaf_MoveLastToFront ps this sibling :
  this ∈ ps -> sibling ∈ ps ->
  touches ps (Leaf_MoveLastToFront zero_key zero_value this sibling).
Proof.
  intros H1 H2. unfold Leaf_MoveLastToFront, Leaf_CopyFirstFrom. touches.
Qed.

Lemma touches_SetKeyAt ps p i k :
  p ∈ ps -> touches ps (@SetKeyAt K V zero_key p i k).
Proof. intros Hp. unfold SetKeyAt. touches. Qed.

Lemma touches_Leaf_KeyAt ps p i :
  touches ps (Leaf_KeyAt zero_key zero_value p i).
Proof. unfold Leaf_KeyAt. touches. Qed.

(** For a leaf page, [Redistribute] writes the page and its parent,
    whatever the sibling is. *)
Lemma Redistribute_leaf_touches sibling node_page parent index t t' :
  IsLeafPage node_page t = Ok true t ->
  Redistribute zero_key zero_value sibling node_page parent index t
  = Ok tt t' ->
  forall q, q <> node_page -> q <> parent ->
            frames t' !! q = frames t !! q.
Proof.
  intros Hleaf. unfold Redistribute. rewrite bindM_run, Hleaf. cbn [bind].
  intros Hr q Hq1 Hq2.
  assert (touches [node_page; parent]
            (if index =? 0
             then bindM (Leaf_MoveFirstToEnd zero_key zero_value node_page
                                             node_page)
                    (fun _ => bindM (Leaf_KeyAt zero_key zero_value
                                                node_page 0)
                       (fun k => SetKeyAt zero_key parent 1 k))
             else bindM (Leaf_MoveLastToFront zero_key zero_value node_page
                                              node_page)
                    (fun _ => bindM (Leaf_KeyAt zero_key zero_value
                                                node_page 0)
                       (fun k => SetKeyAt zero_key parent index k))))
    as Ht.
  { assert (node_page ∈ [node_page; parent]) by (by left).
    assert (parent ∈ [node_page; parent]) by (right; by left).
    apply touches_if.
    - apply touches_bind; [by apply touches_Leaf_MoveFirstToEnd|intros ?].
      apply touches_bind; [apply touches_Leaf_KeyAt|intros ?].
      by apply touches_SetKeyAt.
    - apply touches_bind; [by apply touches_Leaf_MoveLastToFront|intros ?].
      apply touches_bind; [apply touches_Leaf_KeyAt|intros ?].
      by apply touches_SetKeyAt. }
  apply (Ht _ _ _ Hr). intros Hin.
  apply elem_of_cons in Hin as [?|Hin]; [done|].
  by apply list_elem_of_singleton in Hin.
Qed.

End Tree.

Lemma insert_present_key_witness :
  exists t,
    five_keys = Ok tt t /\
    exists t',
      Insert compare_int 0 0 8 2 99 true t = Ok false t' /\
      same_tree t t' /\ page_set_ (txn t') = [].
Proof.
  eexists. split; [vm_compute; reflexivity|].
  eapply (insert_present_key compare_int 0 0 8 2 99 20).
  - vm_compute. reflexivity.
  - vm_compute. discriminate.
Defined.

(** The tree of [five_keys] holds the key 2 in leaf 1.  Called without
    a transaction, as the default argument of [Insert] has it, the call
    throws [std::logic_error]; called with a transaction in the pool of
    [crowded], whose four frames all hold pinned pages, it throws
    OUT_OF_MEMORY, since the root page gets no frame.  Neither call
    returns [false]. *)
Lemma insert_present_key_throws :
  match five_keys with
  | Ok _ t =>
      (leaf_entries <$> contents t !! 1) = Some [(1, 10); (2, 20)] /\
      Insert compare_int 0 0 8 2 99 false t = Throw logic_error t
  | _ => False
  end /\
  match crowded with
  | Ok _ t =>
      (leaf_entries <$> contents t !! 1) = Some [(1, 10); (2, 20)] /\
      pool_size_ t = 4 /\ pinned_frames t = 4 /\
      pin_of t (root_page_id_ t) = 0 /\
      Insert compare_int 0 0 8 2 99 true t = Throw OUT_OF_MEMORY t
  | _ => False
  end.
Proof. vm_compute. split_and!; reflexivity. Qed.

(** After [Remove] of the key 1 from [five_keys] the key 2 is still in
    leaf 1, but the separator of the root sends the descent for it to
    leaf 2: [GetValue] does not find the key, and [Insert] adds it a
    second time, to leaf 2, which it splits. *)
Example insert_after_redistribute :
  match five_keys with
  | Ok _ t =>
      match Remove compare_int 0 0 8 1 true t with
      | Ok _ t' =>
          (leaf_entries <$> contents t' !! 1) = Some [(2, 20)] /\
          (exists t1, GetValue compare_int 0 0 8 2 t' = Ok None t1) /\
          exists t'',
            Insert compare_int 0 0 8 2 99 true t' = Ok true t'' /\
            (leaf_entries <$> contents t'' !! 1) = Some [(2, 20)] /\
            (leaf_entries <$> contents t'' !! 2) = Some [(2, 99); (3, 30)]
      | _ => False
      end
  | _ => False
  end.
Proof.
  vm_compute. split_and!; [reflexivity|eexists; reflexivity|].
  eexists. split_and!; reflexivity.
Qed.

(** C5 (B+ tree, redistribution after a removal).  In the tree
    [five_keys], [Remove] of key 1 leaves leaf 1 with one entry, below
    the minimum of two, next to its right sibling, leaf 2, with three:
    together they reach the maximum of four and [Redistribute] is
    called.  No pair moves: leaf 2 is unchanged and leaf 1 keeps its
    single entry.  The separator of the root is set to the key 2 of
    leaf 1, and [GetValue] no longer finds the key 2, which was not
    removed.  The branch of [Redistribute] for leaf pages takes both
    pages from [node]; the branch for internal pages uses
    [sibling_node]. *)
Theorem redistribute_leaf_moves_nothing :
  match five_keys with
  | Ok _ t =>
      match Remove compare_int 0 0 8 1 true t with
      | Ok _ t' =>
          (leaf_entries <$> contents t !! 1) = Some [(1, 10); (2, 20)] /\
          (leaf_entries <$> contents t !! 2)
            = Some [(3, 30); (4, 40); (5, 50)] /\
          (internal_entries <$> contents t !! 3) = Some [(0, 1); (3, 2)] /\
          (leaf_entries <$> contents t' !! 1) = Some [(2, 20)] /\
          contents t' !! 2 = contents t !! 2 /\
          (internal_entries <$> contents t' !! 3) = Some [(0, 1); (2, 2)] /\
          (exists t1, GetValue compare_int 0 0 8 2 t = Ok (Some 20) t1) /\
          (exists t1, GetValue compare_int 0 0 8 2 t' = Ok None t1)
      | _ => False
      end
  | _ => False
  end.
Proof.
  vm_compute. split_and!; try reflexivity; eexists; reflexivity.
Qed.

End BPlusTreeProofs.
(** * LRU-K replacer: further properties *)

Module ReplacerFacts.

Import Replacer ReplacerProofs ReplacerCount.

(** X1.  After any history of calls on a fresh replacer with k >= 2 no
    call has run into undefined behaviour (every [erase] went to the
    list that holds the node), and the two lists partition the tracked
    frames: the lists share no frame and repeat none, the frames with an
    entry are the frames on the lists, the history list holds those with
    fewer than k recorded accesses and the cache list those with at
    least k. *)
Theorem lists_partition_tracked_frames d n k ops :
  2 <= k -> Z.of_nat (length ops) <= SIZE_MAX ->
  exists r g, run d ops (make n k) ghost0 = Some (r, g) /\
    NoDup (hist_list_ r ++ cache_list_ r) /\
    (forall f, is_Some (entries_ r !! f) <->
               f ∈ hist_list_ r ++ cache_list_ r) /\
    (forall f, f ∈ hist_list_ r <-> history_class r f) /\
    (forall f, f ∈ cache_list_ r <-> cache_class r f).
Proof.
  intros Hk Hlen.
  destruct (run_wf d ops (make n k) ghost0 (wf_make n k Hk))
    as (r & g & Hrun & Hwf & _); [simpl; lia|].
  exists r, g. split_and!; [done|apply Hwf| | |].
  - intros f. split; [|apply Hwf].
    intros [e He].
    destruct (wf_entry _ _ Hwf f e He) as [_ [(?&?&?)|(?&?&?)]];
      apply elem_of_app; [by left|by right].
  - intros f. by eapply hist_iff_class.
  - intros f. by eapply cache_iff_class.
Qed.

Lemma lists_partition_tracked_frames_witness :
  exists r g, run true three_frames (make 7 2) ghost0 = Some (r, g) /\
    NoDup (hist_list_ r ++ cache_list_ r) /\
    (forall f, is_Some (entries_ r !! f) <->
               f ∈ hist_list_ r ++ cache_list_ r) /\
    (forall f, f ∈ hist_list_ r <-> history_class r f) /\
    (forall f, f ∈ cache_list_ r <-> cache_class r f).
Proof.
  apply (lists_partition_tracked_frames true 7 2 three_frames);
    [lia|vm_compute; discriminate].
Defined.


(** ** The shape of the state after a call *)

Lemma RecordAccess_shape d f r g r' :
  wf r g -> clock g < SIZE_MAX ->
  RecordAccess d f r = Ok tt r' ->
  match entries_ r !! f with
  | None =>
      curr_size_ r' = to_size_t (curr_size_ r + 1) /\
      entries_ r' = <[f := mkEntry 1 d (Some InHist)]> (entries_ r) /\
      hist_list_ r' = f :: hist_list_ r /\
      cache_list_ r' = cache_list_ r
  | Some e =>
      curr_size_ r' = curr_size_ r /\
      exists e', entries_ r' = <[f := e']> (entries_ r) /\
                 evictable_ e' = evictable_ e /\
                 hit_count_ e' = hit_count_ e + 1
  end.
Proof.
  intros Hwf Hclk. unfold RecordAccess.
  destruct (invalid_frame r f); [done|].
  unfold entry_at. destruct (entries_ r !! f) as [e0|] eqn:He.
  - destruct (wf_entry _ _ Hwf f e0 He) as [Hh _].
    rewrite to_size_t_small by lia.
    assert ((hit_count_ e0 + 1 =? 1) = false) as -> by lia.
    intros H.
    repeat case_match; simplify_eq; simpl; (split; [done|]);
      eexists; (split; [reflexivity|done]).
  - simpl. intros H. simplify_eq. simpl.
    split_and!; try done. by rewrite insert_insert_eq.
Qed.

Lemma SetEvictable_shape f b r r' :
  SetEvictable f b r = Ok tt r' ->
  match entries_ r !! f with
  | None => r' = r
  | Some e =>
      entries_ r' = <[f := set_evictable b e]> (entries_ r) /\
      hist_list_ r' = hist_list_ r /\ cache_list_ r' = cache_list_ r /\
      curr_size_ r' =
        if negb (evictable_ e) && b then to_size_t (curr_size_ r + 1)
        else if evictable_ e && negb b then to_size_t (curr_size_ r - 1)
        else curr_size_ r
  end.
Proof.
  unfold SetEvictable. destruct (invalid_frame r f); [done|].
  destruct (entries_ r !! f) as [e|]; intros H; by simplify_eq.
Qed.

Lemma erase_other f (l : list Z) : f ∉ l -> erase f l = l.
Proof. apply erase_not_elem. Qed.

Lemma Remove_shape f r g r' :
  wf r g ->
  Remove f r = Ok tt r' ->
  match entries_ r !! f with
  | None => r' = r
  | Some e =>
      evictable_ e = true /\
      r' = with_lists r (to_size_t (curr_size_ r - 1))
             (erase f (hist_list_ r)) (erase f (cache_list_ r))
             (delete f (entries_ r))
  end.
Proof.
  intros Hwf. unfold Remove. destruct (invalid_frame r f); [done|].
  destruct (entries_ r !! f) as [e|] eqn:He; [|intros H; by simplify_eq].
  pose proof (wf_nodup _ _ Hwf) as Hnd.
  apply NoDup_app in Hnd as (_ & Hdis & _).
  destruct (wf_entry _ _ Hwf f e He) as [_ [(Hlt&Hp&Hin)|(Hge&Hp&Hin)]].
  - destruct (evictable_ e); [|done]. simpl.
    assert ((hit_count_ e <? k_ r) = true) as -> by lia. rewrite Hp.
    intros H. simplify_eq. split; [done|].
    rewrite (erase_other f (cache_list_ r)); [done|]. by apply Hdis.
  - destruct (evictable_ e); [|done]. simpl.
    assert ((hit_count_ e <? k_ r) = false) as -> by lia. rewrite Hp.
    intros H. simplify_eq. split; [done|].
    rewrite (erase_other f (hist_list_ r)); [done|].
    intros Hh. by apply (Hdis f Hh).
Qed.

Lemma Evict_shape d r g f r' :
  wf r g ->
  Evict d r = Ok (Some f) r' ->
  (exists e, entries_ r !! f = Some e /\ evictable_ e = true) /\
  r' = with_lists r (to_size_t (curr_size_ r - 1))
         (erase f (hist_list_ r)) (erase f (cache_list_ r))
         (delete f (entries_ r)).
Proof.
  intros Hwf. unfold Evict.
  pose proof (wf_nodup _ _ Hwf) as Hnd.
  apply NoDup_app in Hnd as (Hnh & Hdis & Hnc).
  destruct (scan_oldest d (first_access g) (hist_list_ r) (entries_ r))
    as (v1 & h1 & Hs1 & Hv1); [done|apply Hwf| |].
  { intros x Hx. apply (wf_listed _ _ Hwf). apply elem_of_app; by left. }
  rewrite Hs1. destruct v1 as [f1|].
  - destruct Hv1 as (Hin & -> & He & _).
    intros H. simplify_eq. split; [done|].
    rewrite (erase_other f (cache_list_ r)); [done|]. by apply Hdis.
  - destruct Hv1 as [-> _].
    destruct (scan_oldest d (last_access g) (cache_list_ r) (entries_ r))
      as (v2 & c2 & Hs2 & Hv2); [done|apply Hwf| |].
    { intros x Hx. apply (wf_listed _ _ Hwf). apply elem_of_app; by right. }
    rewrite Hs2. destruct v2 as [f2|]; [|done].
    destruct Hv2 as (Hin & -> & He & _).
    intros H. simplify_eq. split; [done|].
    rewrite (erase_other f (hist_list_ r)); [done|].
    intros Hh. by apply (Hdis f Hh).
Qed.

(** ** Counting *)

Lemma count_insert_new (m : gmap Z FrameEntry) f e :
  m !! f = None -> evictable_ e = true ->
  size (filter evictable_entry (<[f := e]> m))
  = S (size (filter evictable_entry m)).
Proof.
  intros Hn He. rewrite map_filter_insert_True by done.
  rewrite map_size_insert_None; [done|].
  apply map_lookup_filter_None. by left.
Qed.

Lemma count_insert_same (m : gmap Z FrameEntry) f e e' :
  m !! f = Some e -> evictable_ e' = evictable_ e ->
  size (filter evictable_entry (<[f := e']> m))
  = size (filter evictable_entry m).
Proof.
  intros Hm He. destruct (evictable_ e) eqn:Hev.
  - rewrite map_filter_insert_True by done.
    rewrite map_size_insert_Some; [done|].
    exists e. by apply map_lookup_filter_Some.
  - rewrite map_filter_insert_False
      by (unfold evictable_entry; simpl; congruence).
    rewrite map_filter_delete. rewrite delete_id; [done|].
    apply map_lookup_filter_None. right. intros x Hx.
    unfold evictable_entry. simpl. congruence.
Qed.

Lemma count_delete (m : gmap Z FrameEntry) f e :
  m !! f = Some e -> evictable_ e = true ->
  size (filter evictable_entry m)
  = S (size (filter evictable_entry (delete f m))).
Proof.
  intros Hm He. rewrite map_filter_delete.
  rewrite map_size_delete_Some; [|exists e; by apply map_lookup_filter_Some].
  assert (size (filter evictable_entry m) <> 0%nat); [|lia].
  intros H0. apply map_size_empty_inv in H0.
  assert (filter evictable_entry m !! f = Some e) as Hf
    by (by apply map_lookup_filter_Some).
  rewrite H0 in Hf. by rewrite lookup_empty in Hf.
Qed.

Lemma count_le_size (m : gmap Z FrameEntry) :
  (size (filter evictable_entry m) <= size m)%nat.
Proof. apply map_subseteq_size, map_filter_subseteq. Qed.


Lemma count_flip_on (m : gmap Z FrameEntry) f e e' :
  m !! f = Some e -> evictable_ e = false -> evictable_ e' = true ->
  size (filter evictable_entry (<[f := e']> m))
  = S (size (filter evictable_entry m)).
Proof.
  intros Hm He He'. rewrite map_filter_insert_True by done.
  rewrite map_size_insert_None; [done|].
  apply map_lookup_filter_None. right. intros x Hx.
  unfold evictable_entry. simpl. congruence.
Qed.

Lemma count_flip_off (m : gmap Z FrameEntry) f e e' :
  m !! f = Some e -> evictable_ e = true -> evictable_ e' = false ->
  size (filter evictable_entry m)
  = S (size (filter evictable_entry (<[f := e']> m))).
Proof.
  intros Hm He He'.
  rewrite map_filter_insert_False
    by (unfold evictable_entry; simpl; congruence).
  by apply (count_delete m f e).
Qed.

Lemma step_counted o r g r' :
  wf r g -> clock g < SIZE_MAX ->
  curr_size_ r = evictable_count r ->
  Z.of_nat (size (entries_ r)) <= clock g ->
  step true o r = Ok tt r' ->
  curr_size_ r' = evictable_count r' /\
  Z.of_nat (size (entries_ r')) <= clock (tick o r g).
Proof.
  intros Hwf Hclk Hsz Hbound. unfold evictable_count in *.
  pose proof (count_le_size (entries_ r)) as Hle.
  destruct o as [f|f b|f|]; simpl.
  - intros H. apply (RecordAccess_shape _ _ _ g) in H; [|done..].
    destruct (entries_ r !! f) as [e|] eqn:He.
    + destruct H as (-> & e' & -> & Hev & _).
      rewrite (count_insert_same _ _ e) by done.
      rewrite map_size_insert_Some by done. split; [done|lia].
    + destruct H as (-> & -> & _).
      rewrite count_insert_new by done.
      rewrite map_size_insert_None by done.
      rewrite to_size_t_small by lia. split; lia.
  - intros H. apply SetEvictable_shape in H.
    destruct (entries_ r !! f) as [e|] eqn:He; [|by subst].
    destruct H as (-> & _ & _ & ->).
    rewrite map_size_insert_Some by done. split; [|done].
    destruct (evictable_ e) eqn:Hev, b; simpl.
    + by rewrite (count_insert_same _ _ e).
    + pose proof (count_flip_off (entries_ r) f e (set_evictable false e)
                                 He Hev eq_refl) as Hc.
      rewrite to_size_t_small by lia. lia.
    + rewrite (count_flip_on _ _ e) by done.
      rewrite to_size_t_small by lia. lia.
    + by rewrite (count_insert_same _ _ e).
  - intros H. apply (Remove_shape _ _ g) in H; [|done].
    destruct (entries_ r !! f) as [e|] eqn:He; [|by subst].
    destruct H as (Hev & ->). simpl.
    pose proof (count_delete (entries_ r) f e He Hev) as Hc.
    rewrite map_size_delete_Some by done.
    rewrite to_size_t_small by lia. split; lia.
  - destruct (Evict true r) as [[f|] r1| | |] eqn:Hev; simpl; try done.
    + intros H. simplify_eq.
      apply (Evict_shape _ _ g) in Hev as ((e & He & Hevt) & ->); [|done].
      simpl.
      pose proof (count_delete (entries_ r) f e He Hevt) as Hc.
      rewrite map_size_delete_Some by done.
      rewrite to_size_t_small by lia. split; lia.
    + intros H. simplify_eq.
      destruct (Evict_wf true r g Hwf) as (v & r2 & Hev2 & _ & _ & _ & Hv).
      rewrite Hev in Hev2. simplify_eq. by destruct Hv as [-> _].
Qed.

Lemma run_counted ops : forall r g r' g',
  wf r g -> clock g + Z.of_nat (length ops) <= SIZE_MAX ->
  curr_size_ r = evictable_count r ->
  Z.of_nat (size (entries_ r)) <= clock g ->
  run true ops r g = Some (r', g') ->
  curr_size_ r' = evictable_count r'.
Proof.
  induction ops as [|o ops IH]; intros r g r' g' Hwf Hlen Hsz Hb; simpl.
  - intros H. by simplify_eq.
  - rewrite length_cons, Nat2Z.inj_succ in Hlen.
    assert (clock g < SIZE_MAX) as Hclk by lia.
    pose proof (step_wf true o r g Hwf Hclk) as Hstep.
    destruct (step true o r) as [[] r1|e r1| |] eqn:Hs; [| |done|done].
    + destruct Hstep as [Hwf1 _].
      destruct (step_counted o r g r1 Hwf Hclk Hsz Hb Hs) as [Hsz1 Hb1].
      pose proof (clock_tick o r g).
      apply IH; [done|lia|done|done].
    + subst r1. apply IH; [done|lia|done|done].
Qed.

(** X2.  [Size] is the number of evictable frames.  The declaration of
    [FrameEntry] is not part of the sources; the count is right when a
    default-constructed entry is evictable, which makes the
    [curr_size_++] of a first [RecordAccess] count a frame that is
    evictable.  (With a default of [false] a first access already makes
    [Size] exceed the number of evictable frames, see
    [size_with_pinned_default].) *)
Theorem size_counts_evictable_frames n k ops r g :
  2 <= k -> Z.of_nat (length ops) <= SIZE_MAX ->
  run true ops (make n k) ghost0 = Some (r, g) ->
  Size r = evictable_count r.
Proof.
  intros Hk Hlen Hrun. unfold Size.
  apply (run_counted ops (make n k) ghost0 r g);
    [by apply wf_make|simpl; lia|reflexivity|reflexivity|done].
Qed.

Lemma size_counts_evictable_frames_witness :
  exists r g, run true three_frames (make 7 2) ghost0 = Some (r, g) /\
              Size r = evictable_count r /\ Size r = 2.
Proof.
  eexists _, _. split; [vm_compute; reflexivity|].
  split; [|vm_compute; reflexivity].
  eapply (size_counts_evictable_frames 7 2 three_frames);
    [lia|vm_compute; discriminate|vm_compute; reflexivity].
Defined.

Example size_with_pinned_default :
  exists r g, run false [ORecordAccess 1] (make 7 2) ghost0 = Some (r, g) /\
              Size r = 1 /\ evictable_count r = 0.
Proof. eexists _, _. split; [vm_compute; reflexivity|]. by vm_compute. Qed.

(** ** Eviction and removal *)

Lemma step_replacer_size d o r a r' :
  step d o r = Ok a r' -> replacer_size_ r' = replacer_size_ r.
Proof.
  destruct o as [f|f b|f|]; simpl.
  - unfold RecordAccess, entry_at.
    intros Hs; repeat case_match; simplify_eq; done.
  - unfold SetEvictable.
    intros Hs; repeat case_match; simplify_eq; done.
  - unfold Remove.
    intros Hs; repeat case_match; simplify_eq; done.
  - unfold Evict.
    destruct (scan d (rev (hist_list_ r)) (entries_ r)) as [[v1 h1] m1].
    destruct v1; simpl; [intros Hs; by simplify_eq|].
    destruct (scan d (rev (cache_list_ r)) m1) as [[v2 c2] m2].
    destruct v2; simpl; intros Hs; by simplify_eq.
Qed.

Lemma step_throw_same d o r g e r' :
  wf r g -> clock g < SIZE_MAX -> step d o r = Throw e r' -> r' = r.
Proof.
  intros Hwf Hclk Hs. pose proof (step_wf d o r g Hwf Hclk) as H.
  by rewrite Hs in H.
Qed.

Lemma step_valid d o r g r' :
  wf r g -> clock g < SIZE_MAX ->
  (forall f e, entries_ r !! f = Some e -> invalid_frame r f = false) ->
  step d o r = Ok tt r' ->
  forall f e, entries_ r' !! f = Some e -> invalid_frame r' f = false.
Proof.
  intros Hwf Hclk Hval Hs f0 e0.
  pose proof (step_replacer_size _ _ _ _ _ Hs) as Hsize.
  unfold invalid_frame in *. rewrite Hsize.
  destruct o as [f|f b|f|]; simpl in Hs.
  - assert ((to_int32 (replacer_size_ r) <? f) = false) as Hf.
    { unfold RecordAccess, invalid_frame in Hs.
      by destruct (to_int32 (replacer_size_ r) <? f). }
    apply (RecordAccess_shape _ _ _ g) in Hs; [|done..].
    destruct (entries_ r !! f) as [e|] eqn:He.
    + destruct Hs as (_ & e' & -> & _).
      destruct (decide (f0 = f)) as [->|Hne]; [done|].
      rewrite lookup_insert_ne by done. apply Hval.
    + destruct Hs as (_ & -> & _).
      destruct (decide (f0 = f)) as [->|Hne]; [done|].
      rewrite lookup_insert_ne by done. apply Hval.
  - apply SetEvictable_shape in Hs.
    destruct (entries_ r !! f) as [e|] eqn:He; [|subst; apply Hval].
    destruct Hs as (-> & _).
    destruct (decide (f0 = f)) as [->|Hne]; [intros _; by eapply Hval|].
    rewrite lookup_insert_ne by done. apply Hval.
  - apply (Remove_shape _ _ g) in Hs; [|done].
    destruct (entries_ r !! f) as [e|] eqn:He; [|subst; apply Hval].
    destruct Hs as (_ & ->). simpl.
    destruct (decide (f0 = f)) as [->|Hne]; [by rewrite lookup_delete_eq|].
    rewrite lookup_delete_ne by done. apply Hval.
  - destruct (Evict d r) as [[f|] r1| | |] eqn:Hev; simpl in Hs; try done.
    + simplify_eq.
      apply (Evict_shape _ _ g) in Hev as (_ & ->); [|done]. simpl.
      destruct (decide (f0 = f)) as [->|Hne]; [by rewrite lookup_delete_eq|].
      rewrite lookup_delete_ne by done. apply Hval.
    + simplify_eq.
      destruct (Evict_wf d r g Hwf) as (v & r2 & Hev2 & _ & _ & _ & Hv).
      rewrite Hev in Hev2. simplify_eq. destruct Hv as [-> _]. apply Hval.
Qed.

Lemma run_valid d ops : forall r g r' g',
  wf r g -> clock g + Z.of_nat (length ops) <= SIZE_MAX ->
  (forall f e, entries_ r !! f = Some e -> invalid_frame r f = false) ->
  run d ops r g = Some (r', g') ->
  forall f e, entries_ r' !! f = Some e -> invalid_frame r' f = false.
Proof.
  induction ops as [|o ops IH]; intros r g r' g' Hwf Hlen Hval; simpl.
  - intros H. by simplify_eq.
  - rewrite length_cons, Nat2Z.inj_succ in Hlen.
    assert (clock g < SIZE_MAX) as Hclk by lia.
    pose proof (step_wf d o r g Hwf Hclk) as Hstep.
    destruct (step d o r) as [[] r1|e r1| |] eqn:Hs; [| |done|done].
    + destruct Hstep as [Hwf1 _]. pose proof (clock_tick o r g).
      apply IH; [done|lia|].
      apply (step_valid d o r g r1 Hwf Hclk Hval Hs).
    + subst r1. apply IH; [done|lia|done].
Qed.

Lemma run_clock d ops : forall r g r' g',
  run d ops r g = Some (r', g') ->
  clock g' <= clock g + Z.of_nat (length ops).
Proof.
  induction ops as [|o ops IH]; intros r g r' g'; simpl.
  - intros H. simplify_eq. lia.
  - rewrite Nat2Z.inj_succ.
    destruct (step d o r) as [[] r1|e r1| |]; [| |done|done]; intros H;
      apply IH in H; pose proof (clock_tick o r g); lia.
Qed.

Lemma run_replacer_size d ops : forall r g r' g',
  run d ops r g = Some (r', g') -> replacer_size_ r' = replacer_size_ r.
Proof.
  induction ops as [|o ops IH]; intros r g r' g'; simpl.
  - intros H. by simplify_eq.
  - destruct (step d o r) as [[] r1|e r1| |] eqn:Hs; [| |done|done];
      intros H; apply IH in H; rewrite H; clear H IH.
    + by eapply step_replacer_size.
    + destruct o as [f|f b|f|]; simpl in Hs.
      * unfold RecordAccess in Hs. repeat case_match; try by simplify_eq.
      * unfold SetEvictable in Hs. repeat case_match; try by simplify_eq.
      * unfold Remove in Hs. repeat case_match; try by simplify_eq.
      * unfold Evict in Hs.
        destruct (scan d (rev (hist_list_ r)) (entries_ r)) as [[v1 h1] m1].
        destruct v1; simpl in Hs; [done|].
        destruct (scan d (rev (cache_list_ r)) m1) as [[v2 c2] m2].
        by destruct v2.
Qed.

(** X3.  [Evict] forgets its victim.  In a state reached by any
    history of calls (k >= 2), a successful [Evict] erases the victim
    from the list it was on and deletes its entry, hence its access
    count; every other frame keeps its entry and its place; [curr_size_]
    drops by one.  A later [RecordAccess] of the victim starts it again
    at the head of the history list with one recorded access. *)
Theorem evict_forgets_victim d n k ops r g f r' :
  2 <= k -> Z.of_nat (length ops) < SIZE_MAX ->
  run d ops (make n k) ghost0 = Some (r, g) ->
  Evict d r = Ok (Some f) r' ->
  entries_ r' = delete f (entries_ r) /\
  hist_list_ r' = erase f (hist_list_ r) /\
  cache_list_ r' = erase f (cache_list_ r) /\
  (f ∉ hist_list_ r' ++ cache_list_ r') /\
  Size r' = to_size_t (Size r - 1) /\
  exists r'', RecordAccess d f r' = Ok tt r'' /\
              hist_list_ r'' = f :: hist_list_ r' /\
              cache_list_ r'' = cache_list_ r' /\
              entries_ r'' !! f = Some (mkEntry 1 d (Some InHist)).
Proof.
  intros Hk Hlen Hrun Hev.
  destruct (run_wf d ops (make n k) ghost0 (wf_make n k Hk))
    as (r0 & g0 & Hrun0 & Hwf & _); [simpl; lia|].
  rewrite Hrun in Hrun0. simplify_eq.
  pose proof (run_clock _ _ _ _ _ _ Hrun) as Hclock. simpl in Hclock.
  assert (forall f e, entries_ r0 !! f = Some e -> invalid_frame r0 f = false)
    as Hval.
  { eapply (run_valid d ops (make n k) ghost0); [by apply wf_make| |done|done].
    simpl. lia. }
  destruct (Evict_wf d r0 g0 Hwf) as (v & r2 & Hev2 & Hwf' & _ & Hsize & _).
  rewrite Hev in Hev2. injection Hev2 as Hv Hr. subst v r2.
  apply (Evict_shape _ _ g0) in Hev as ((e & He & Hevt) & Hr'); [|done].
  assert (entries_ r' !! f = None) as Hnone
    by (rewrite Hr'; apply lookup_delete_eq).
  split_and!; try (by rewrite Hr').
  - destruct (wf_absent _ _ _ Hwf' Hnone) as [Hh Hc].
    intros Hin. apply elem_of_app in Hin as [?|?]; tauto.
  - assert (invalid_frame r' f = false) as Hinv.
    { unfold invalid_frame. rewrite Hsize. by eapply Hval. }
    destruct (RecordAccess_wf d f r' g0 Hwf') as (r'' & Hra & _);
      [lia|done|].
    exists r''. split; [done|].
    apply (RecordAccess_shape _ _ _ g0) in Hra; [|done|lia].
    rewrite Hnone in Hra. destruct Hra as (_ & -> & -> & ->).
    split_and!; try done. apply lookup_insert_eq.
Qed.

Lemma evict_forgets_victim_witness :
  exists r g r',
    run true three_frames (make 7 2) ghost0 = Some (r, g) /\
    Evict true r = Ok (Some 3) r' /\
    entries_ r' = delete 3 (entries_ r) /\
    hist_list_ r' = erase 3 (hist_list_ r) /\
    cache_list_ r' = erase 3 (cache_list_ r) /\
    (3 ∉ hist_list_ r' ++ cache_list_ r') /\
    Size r' = to_size_t (Size r - 1) /\
    exists r'', RecordAccess true 3 r' = Ok tt r'' /\
                hist_list_ r'' = 3 :: hist_list_ r' /\
                cache_list_ r'' = cache_list_ r' /\
                entries_ r'' !! 3 = Some (mkEntry 1 true (Some InHist)).
Proof.
  eexists _, _, _. split; [vm_compute; reflexivity|].
  split; [vm_compute; reflexivity|].
  eapply (evict_forgets_victim true 7 2 three_frames);
    [lia|vm_compute; reflexivity|vm_compute; reflexivity
    |vm_compute; reflexivity].
Defined.

(** X4.  [Remove] in a state reached by any history of calls (k >= 2),
    for a frame id that passes the guard: a frame without an entry is
    left alone and nothing changes; a frame whose entry is not evictable
    makes the call throw [std::logic_error], and nothing changes; an
    evictable frame is erased from its list and loses its entry, whatever
    its class, and [curr_size_] drops by one. *)
Theorem remove_outcome d n k ops r g f :
  2 <= k -> Z.of_nat (length ops) <= SIZE_MAX ->
  run d ops (make n k) ghost0 = Some (r, g) ->
  invalid_frame r f = false ->
  match entries_ r !! f with
  | None => Remove f r = Ok tt r
  | Some e =>
      if evictable_ e
      then Remove f r =
             Ok tt (with_lists r (to_size_t (curr_size_ r - 1))
                      (erase f (hist_list_ r)) (erase f (cache_list_ r))
                      (delete f (entries_ r)))
      else Remove f r = Throw LogicError r
  end.
Proof.
  intros Hk Hlen Hrun Hinv.
  destruct (run_wf d ops (make n k) ghost0 (wf_make n k Hk))
    as (r0 & g0 & Hrun0 & Hwf & _); [simpl; lia|].
  rewrite Hrun in Hrun0. simplify_eq.
  pose proof (Remove_wf f r0 g0 Hwf) as Hrem.
  destruct (entries_ r0 !! f) as [e|] eqn:He.
  - destruct (evictable_ e) eqn:Hevt.
    + destruct (Remove f r0) as [[] r1|x r1| |] eqn:Hr; try done.
      * apply (Remove_shape _ _ g0) in Hr; [|done]. rewrite He in Hr.
        by destruct Hr as (_ & ->).
      * exfalso. unfold Remove in Hr. rewrite Hinv, He, Hevt in Hr.
        simpl in Hr. repeat case_match; simplify_eq.
    + unfold Remove. by rewrite Hinv, He, Hevt.
  - unfold Remove. by rewrite Hinv, He.
Qed.

Lemma remove_outcome_witness :
  exists r g,
    run true three_frames (make 7 2) ghost0 = Some (r, g) /\
    match entries_ r !! 2 with
    | None => Remove 2 r = Ok tt r
    | Some e =>
        if evictable_ e
        then Remove 2 r =
               Ok tt (with_lists r (to_size_t (curr_size_ r - 1))
                        (erase 2 (hist_list_ r)) (erase 2 (cache_list_ r))
                        (delete 2 (entries_ r)))
        else Remove 2 r = Throw LogicError r
    end.
Proof.
  eexists _, _. split; [vm_compute; reflexivity|].
  eapply (remove_outcome true 7 2 three_frames _ _ 2);
    [lia|vm_compute; discriminate|vm_compute; reflexivity
    |vm_compute; reflexivity].
Defined.

End ReplacerFacts.
(** * Lock manager: further properties *)

Module LockManagerFacts.

Import LockManager LockManagerProofs LockManagerExamples.

(** ** The waits-for graph *)

Lemma has_edge_table_edges_from first rest s t1 t2 :
  has_edge s t1 t2 -> has_edge (table_edges_from first rest s) t1 t2.
Proof.
  revert s. induction rest as [|second rest IH]; intros s Hs; simpl; [done|].
  apply IH. repeat case_match; try done; apply has_edge_AddEdge; by right.
Qed.

Lemma has_edge_table_edges l s t1 t2 :
  has_edge s t1 t2 -> has_edge (table_edges l s) t1 t2.
Proof.
  revert s. induction l as [|first rest IH]; intros s Hs; simpl; [done|].
  by apply IH, has_edge_table_edges_from.
Qed.

Lemma has_edge_row_edges_from first rest s t1 t2 :
  has_edge s t1 t2 -> has_edge (row_edges_from first rest s) t1 t2.
Proof.
  revert s. induction rest as [|second rest IH]; intros s Hs; simpl; [done|].
  apply IH. repeat case_match; try done; apply has_edge_AddEdge; by right.
Qed.

Lemma has_edge_row_edges l s t1 t2 :
  has_edge s t1 t2 -> has_edge (row_edges l s) t1 t2.
Proof.
  revert s. induction l as [|first rest IH]; intros s Hs; simpl; [done|].
  by apply IH, has_edge_row_edges_from.
Qed.

(** A waiting and a granted request with conflicting modes, one of them
    [first], the other further down the queue. *)
Lemma table_edges_from_complete first rest s r :
  r ∈ rest ->
  GrantCompatiable (lock_mode_ first) (lock_mode_ r) = false ->
  (granted_ first = false -> granted_ r = true ->
   has_edge (table_edges_from first rest s) (req_txn_id_ first)
            (req_txn_id_ r)) /\
  (granted_ first = true -> granted_ r = false ->
   has_edge (table_edges_from first rest s) (req_txn_id_ r)
            (req_txn_id_ first)).
Proof.
  revert s. induction rest as [|second rest IH]; intros s Hin Hm;
    [by apply elem_of_nil in Hin|].
  apply elem_of_cons in Hin as [->|Hin]; [|by apply IH].
  simpl. unfold conflicting. rewrite Hm. simpl.
  split; intros Hf Hr; rewrite Hf, Hr; simpl;
    apply has_edge_table_edges_from, has_edge_AddEdge; by left.
Qed.

Lemma row_edges_from_complete first rest s r :
  r ∈ rest ->
  GrantCompatiable (lock_mode_ first) (lock_mode_ r) = false ->
  (granted_ first = false -> granted_ r = true ->
   has_edge (row_edges_from first rest s) (req_txn_id_ r)
            (req_txn_id_ first)) /\
  (granted_ first = true -> granted_ r = false ->
   has_edge (row_edges_from first rest s) (req_txn_id_ first)
            (req_txn_id_ r)).
Proof.
  revert s. induction rest as [|second rest IH]; intros s Hin Hm;
    [by apply elem_of_nil in Hin|].
  apply elem_of_cons in Hin as [->|Hin]; [|by apply IH].
  simpl. unfold conflicting. rewrite Hm. simpl.
  split; intros Hf Hr; rewrite Hf, Hr; simpl;
    apply has_edge_row_edges_from, has_edge_AddEdge; by left.
Qed.

Lemma table_edges_complete l s t1 t2 :
  waits_behind l t1 t2 -> has_edge (table_edges l s) t1 t2.
Proof.
  revert s. induction l as [|first rest IH]; intros s.
  - intros (r1 & r2 & H1 & _). by apply elem_of_nil in H1.
  - intros (r1 & r2 & H1 & H2 & Hg1 & Hg2 & Hm & <- & <-). simpl.
    apply elem_of_cons in H1 as [->|H1]; apply elem_of_cons in H2 as [->|H2].
    + congruence.
    + apply has_edge_table_edges.
      by apply (table_edges_from_complete first rest s r2).
    + apply has_edge_table_edges.
      apply (table_edges_from_complete first rest s r1); try done.
      by rewrite GrantCompatiable_sym.
    + apply IH. exists r1, r2. by split_and!.
Qed.

Lemma row_edges_complete l s t1 t2 :
  waits_behind l t2 t1 -> has_edge (row_edges l s) t1 t2.
Proof.
  revert s. induction l as [|first rest IH]; intros s.
  - intros (r1 & r2 & H1 & _). by apply elem_of_nil in H1.
  - intros (r1 & r2 & H1 & H2 & Hg1 & Hg2 & Hm & <- & <-). simpl.
    apply elem_of_cons in H1 as [->|H1]; apply elem_of_cons in H2 as [->|H2].
    + congruence.
    + apply has_edge_row_edges.
      by apply (row_edges_from_complete first rest s r2).
    + apply has_edge_row_edges.
      apply (row_edges_from_complete first rest s r1); try done.
      by rewrite GrantCompatiable_sym.
    + apply IH. exists r1, r2. by split_and!.
Qed.

Lemma table_phase_edges {A} (l : list (A * LockRequestQueue)) s t1 t2 :
  has_edge (foldr (fun '(_, q) acc => table_edges (request_queue_ q) acc) s l)
           t1 t2 <->
  has_edge s t1 t2 \/
  exists k q, (k, q) ∈ l /\ waits_behind (request_queue_ q) t1 t2.
Proof.
  induction l as [|[k q] l IH]; simpl.
  - split; [by left|]. intros [?|(k & q & Hin & _)]; [done|].
    by apply elem_of_nil in Hin.
  - split.
    + intros Hx. apply table_edges_sound in Hx as [Hx|Hx].
      * apply IH in Hx as [?|(k' & q' & Hin & ?)]; [by left|right].
        exists k', q'. split; [by right|done].
      * right. exists k, q. split; [by left|done].
    + intros [Hx|(k' & q' & Hin & Hx)].
      * apply has_edge_table_edges, IH. by left.
      * apply elem_of_cons in Hin as [[= -> ->]|Hin].
        -- by apply table_edges_complete.
        -- apply has_edge_table_edges, IH. right. by exists k', q'.
Qed.

Lemma row_phase_edges {A} (l : list (A * LockRequestQueue)) s t1 t2 :
  has_edge (foldr (fun '(_, q) acc => row_edges (request_queue_ q) acc) s l)
           t1 t2 <->
  has_edge s t1 t2 \/
  exists k q, (k, q) ∈ l /\ waits_behind (request_queue_ q) t2 t1.
Proof.
  induction l as [|[k q] l IH]; simpl.
  - split; [by left|]. intros [?|(k & q & Hin & _)]; [done|].
    by apply elem_of_nil in Hin.
  - split.
    + intros Hx. apply row_edges_reversed in Hx as [Hx|Hx].
      * apply IH in Hx as [?|(k' & q' & Hin & ?)]; [by left|right].
        exists k', q'. split; [by right|done].
      * right. exists k, q. split; [by left|done].
    + intros [Hx|(k' & q' & Hin & Hx)].
      * apply has_edge_row_edges, IH. by left.
      * apply elem_of_cons in Hin as [[= -> ->]|Hin].
        -- by apply row_edges_complete.
        -- apply has_edge_row_edges, IH. right. by exists k', q'.
Qed.

(** X5.  The edges of the waits-for graph after step 2 of
    [RunCycleDetection], for any lock manager state.  Besides the edges
    the graph had before, there is an edge t1 -> t2 exactly when, in
    some table queue, t1 has a waiting request and t2 a granted one of
    a conflicting mode, or when, in some row queue, it is t2 that waits
    and t1 that holds: table queues give waiting -> holder, row queues
    give holder -> waiting. *)
Theorem waits_for_graph_edges s t1 t2 :
  has_edge (build_waits_for s) t1 t2 <->
  has_edge s t1 t2 \/
  (exists oid q, table_lock_map_ s !! oid = Some q /\
                 waits_behind (request_queue_ q) t1 t2) \/
  (exists rid q, row_lock_map_ s !! rid = Some q /\
                 waits_behind (request_queue_ q) t2 t1).
Proof.
  unfold build_waits_for. rewrite row_phase_edges, table_phase_edges.
  split.
  - intros [[?|(k & q & Hin & ?)]|(k & q & Hin & ?)].
    + by left.
    + right; left. exists k, q. by rewrite <- elem_of_map_to_list.
    + right; right. exists k, q. by rewrite <- elem_of_map_to_list.
  - intros [?|[(k & q & Hin & ?)|(k & q & Hin & ?)]].
    + left; by left.
    + left; right. exists k, q. by rewrite elem_of_map_to_list.
    + right. exists k, q. by rewrite elem_of_map_to_list.
Qed.

(** ** Queues *)

(** X6.  One request per transaction.  In every state that the lock
    manager reaches under calls of [LockTable], [LockRow], [UnlockTable]
    and [UnlockRow] from any number of transactions (blocked calls being
    resumed in any order), no table queue and no row queue holds two
    requests of the same transaction: an upgrade replaces the request of
    the transaction, and an aborted waiter takes its request out. *)
Theorem one_request_per_transaction sys :
  reachable sys ->
  (forall oid q, table_lock_map_ (lm sys) !! oid = Some q ->
                 NoDup (req_txn_id_ <$> request_queue_ q)) /\
  (forall rid q, row_lock_map_ (lm sys) !! rid = Some q ->
                 NoDup (req_txn_id_ <$> request_queue_ q)).
Proof.
  intros Hr. apply reachable_invariant in Hr. split.
  - intros oid q Hq. by destruct (inv_table _ Hr oid q Hq).
  - intros rid q Hq. by destruct (inv_row _ Hr rid q Hq).
Qed.


Ltac reach_readers_and_writer :=
  unfold readers_and_writer, lock_table_call;
  repeat
    (match goal with
     | |- reachable (next_system ?t (LockTable _ ?m ?oid _) ?sys) =>
         apply (reachable_step sys);
           [|apply (step_lock_table sys t m oid);
             [vm_compute; reflexivity|vm_compute; reflexivity]]
     | |- reachable (next_system ?t (loop_condition ?w _ _) ?sys) =>
         apply (reachable_step sys);
           [|apply (step_condition sys t w);
             [vm_compute; reflexivity|vm_compute; reflexivity]]
     end);
  apply (reachable_step initial); [apply reachable_initial|];
  apply (step_environment initial); [reflexivity|reflexivity|];
  let t := fresh "t" in let txn := fresh "txn" in let Hl := fresh "Hl" in
  intros t txn Hl; simpl in Hl;
  repeat (apply lookup_insert_Some in Hl as [[<- <-]|[_ Hl]]; [done|]);
  by apply lookup_singleton_Some in Hl as [<- <-].

Lemma one_request_per_transaction_witness :
  (forall oid q, table_lock_map_ (lm readers_and_writer) !! oid = Some q ->
                 NoDup (req_txn_id_ <$> request_queue_ q)) /\
  (forall rid q, row_lock_map_ (lm readers_and_writer) !! rid = Some q ->
                 NoDup (req_txn_id_ <$> request_queue_ q)).
Proof.
  apply (one_request_per_transaction readers_and_writer).
  reach_readers_and_writer.
Defined.

(** ** Granting *)

Lemma grant_scan_keys t : forall l hg,
  request_key <$> (grant_scan t hg l).2 = request_key <$> l.
Proof.
  induction l as [|r l IH]; intros hg; simpl; [done|].
  destruct (granted_ r).
  - specialize (IH hg). destruct (grant_scan t hg l) as [flag l'].
    simpl in IH. cbn [snd]. rewrite !fmap_cons, ?request_key_grant.
    by f_equal.
  - destruct (compatible_with_all hg (lock_mode_ r)).
    + specialize (IH (hg ++ [grant r])).
      destruct (grant_scan t (hg ++ [grant r]) l) as [flag l'].
      simpl in IH. cbn [snd]. rewrite !fmap_cons, ?request_key_grant.
    by f_equal.
    + specialize (IH hg). destruct (grant_scan t hg l) as [flag l'].
      simpl in IH. cbn [snd]. rewrite !fmap_cons, ?request_key_grant.
    by f_equal.
Qed.

Lemma grant_scan_flag t : forall l hg,
  (grant_scan t hg l).1 = true <->
  exists r, r ∈ (grant_scan t hg l).2 /\ req_txn_id_ r = t /\
            granted_ r = true.
Proof.
  induction l as [|r l IH]; intros hg; simpl.
  - split; [done|]. intros (r & Hr & _). by apply elem_of_nil in Hr.
  - destruct (granted_ r) eqn:Hg.
    + specialize (IH hg). destruct (grant_scan t hg l) as [flag l'].
      simpl in *. rewrite orb_true_iff, IH. split.
      * intros [Hid|(r' & Hin & ? & ?)].
        -- exists r. split_and!; [by left|lia|done].
        -- exists r'. split_and!; [by right|done|done].
      * intros (r' & Hin & Hid & Hgr).
        apply elem_of_cons in Hin as [->|Hin]; [left; lia|right].
        by exists r'.
    + destruct (compatible_with_all hg (lock_mode_ r)).
      * specialize (IH (hg ++ [grant r])).
        destruct (grant_scan t (hg ++ [grant r]) l) as [flag l'].
        simpl in *. rewrite orb_true_iff, IH. split.
        -- intros [Hid|(r' & Hin & ? & ?)].
           ++ exists (grant r). split_and!; [by left|simpl; lia|done].
           ++ exists r'. split_and!; [by right|done|done].
        -- intros (r' & Hin & Hid & Hgr).
           apply elem_of_cons in Hin as [->|Hin]; [left; simpl in Hid; lia|].
           right. by exists r'.
      * specialize (IH hg). destruct (grant_scan t hg l) as [flag l'].
        simpl in *. rewrite IH. split.
        -- intros (r' & Hin & ? & ?). exists r'.
           split_and!; [by right|done|done].
        -- intros (r' & Hin & Hid & Hgr).
           apply elem_of_cons in Hin as [->|Hin]; [congruence|].
           by exists r'.
Qed.

(** X7.  What [GrantLock] returns and does to the queue, for any queue.
    It returns [true] exactly when the requested mode is compatible
    with every request that was granted before the call and the
    caller's request is marked granted in the queue afterwards: the
    loop [while (!GrantLock(...))] of a lock call is left only with the
    caller's request granted.  The call never removes, adds or reorders
    requests and never changes the mode of one. *)
Theorem grant_lock_result txn_id m q :
  ((GrantLock txn_id m q).1 = true <->
   compatible_with_all (granted_requests (request_queue_ q)) m = true /\
   exists r, r ∈ request_queue_ (GrantLock txn_id m q).2 /\
             req_txn_id_ r = txn_id /\ granted_ r = true) /\
  request_key <$> request_queue_ (GrantLock txn_id m q).2
  = request_key <$> request_queue_ q.
Proof.
  unfold GrantLock.
  destruct (compatible_with_all (granted_requests (request_queue_ q)) m)
    eqn:Hc; simpl; [|split; [split; [done|by intros [? _]]|done]].
  destruct (if upgrading_ q =? txn_id
            then grant_first txn_id (request_queue_ q) else None)
    as [l'|] eqn:Hup.
  - destruct (upgrading_ q =? txn_id); [|done].
    apply grant_first_Some in Hup as (l1 & r & l2 & Hl & -> & Hid).
    simpl. split.
    + split; [|done]. intros _. split; [done|]. exists (grant r).
      split_and!; [|done|done]. apply elem_of_app. right. by left.
    + rewrite Hl, !fmap_app. simpl. by rewrite request_key_grant.
  - pose proof (grant_scan_flag txn_id (request_queue_ q)
                  (granted_requests (request_queue_ q))) as Hflag.
    pose proof (grant_scan_keys txn_id (request_queue_ q)
                  (granted_requests (request_queue_ q))) as Hkeys.
    destruct (grant_scan txn_id (granted_requests (request_queue_ q))
                (request_queue_ q)) as [flag l'].
    simpl in *. split; [|done]. rewrite Hflag. tauto.
Qed.

(** ** Asking again for a lock that is held *)

Lemma granted_requests_elem r l :
  r ∈ l -> granted_ r = true -> r ∈ granted_requests l.
Proof.
  induction l as [|x l IH]; intros Hin Hg; [by apply elem_of_nil in Hin|].
  simpl. apply elem_of_cons in Hin as [->|Hin].
  - rewrite Hg. by left.
  - destruct (granted_ x); [right|]; by apply IH.
Qed.

Lemma put_table_queue_same oid q s :
  table_lock_map_ s !! oid = Some q -> put_table_queue oid q s = s.
Proof.
  intros Hq. unfold put_table_queue, with_table_map.
  rewrite insert_id by done. by destruct s.
Qed.

(** X8.  A transaction that asks again for a table lock it holds in
    mode X or SIX blocks on itself.  [UpdateLock] finds the request with
    the same mode and returns [true]; [GrantLock] then tests the
    requested mode against every granted request, the caller's own
    included, and X and SIX are not compatible with themselves: the call
    changes nothing and waits, and each time it is woken without having
    been aborted it waits again. *)
Theorem relock_exclusive_blocks s txn m oid q r :
  txn_map_ s !! txn_id_ txn = Some txn ->
  state_ txn = GROWING ->
  (m = EXCLUSIVE \/
   (m = SHARED_INTENTION_EXCLUSIVE /\
    isolation_level_ txn <> READ_UNCOMMITTED)) ->
  table_lock_map_ s !! oid = Some q ->
  find_request (txn_id_ txn) (request_queue_ q) = Some r ->
  lock_mode_ r = m -> granted_ r = true ->
  LockTable (txn_id_ txn) m oid s = Ok (AtLoop (InLockTable m oid)) s /\
  loop_condition (InLockTable m oid) (txn_id_ txn) s
  = Ok (Waiting (InLockTable m oid)) s /\
  loop_wake (InLockTable m oid) (txn_id_ txn) s
  = Ok (Waiting (InLockTable m oid)) s.
Proof.
  intros Htxn Hst Hm Hq Hfind Hmode Hgr.
  assert (loop_condition (InLockTable m oid) (txn_id_ txn) s
          = Ok (Waiting (InLockTable m oid)) s) as Hcond.
  { unfold loop_condition. rewrite Htxn.
    unfold GrantLock_table, GetLRQueuePtr_table. rewrite Hq.
    unfold GrantLock.
    assert (compatible_with_all (granted_requests (request_queue_ q)) m
            = false) as ->.
    { apply not_true_is_false. intros Hall.
      unfold compatible_with_all in Hall. rewrite forallb_forall in Hall.
      apply find_request_Some in Hfind as [Hin _].
      specialize (Hall r). rewrite Hmode in Hall.
      assert (GrantCompatiable m m = true) as Hself.
      { apply Hall. apply list_elem_of_In. by apply granted_requests_elem. }
      destruct Hm as [->|[-> _]]; discriminate Hself. }
    simpl. by rewrite put_table_queue_same. }
  split_and!; [|done|].
  - unfold LockTable. rewrite Htxn, Hst.
    assert (bool_decide (isolation_level_ txn = READ_UNCOMMITTED)
            && (bool_decide (m = SHARED) || bool_decide (m = INTENTION_SHARED)
                || bool_decide (m = SHARED_INTENTION_EXCLUSIVE)) = false)
      as ->.
    { destruct Hm as [->|[-> Hiso]]; [by rewrite andb_false_r|].
      by rewrite bool_decide_eq_false_2. }
    unfold UpdateLock_table, GetLRQueuePtr_table. rewrite Hq.
    unfold UpdateLock. rewrite Hfind.
    by rewrite bool_decide_eq_true_2.
  - unfold loop_wake. rewrite Htxn.
    rewrite bool_decide_eq_false_2 by (rewrite Hst; discriminate). done.
Qed.

Lemma relock_exclusive_blocks_witness :
  LockTable 1 EXCLUSIVE 0 holding_x
  = Ok (AtLoop (InLockTable EXCLUSIVE 0)) holding_x /\
  loop_condition (InLockTable EXCLUSIVE 0) 1 holding_x
  = Ok (Waiting (InLockTable EXCLUSIVE 0)) holding_x /\
  loop_wake (InLockTable EXCLUSIVE 0) 1 holding_x
  = Ok (Waiting (InLockTable EXCLUSIVE 0)) holding_x.
Proof.
  apply (relock_exclusive_blocks holding_x
           (mkTxn 1 GROWING REPEATABLE_READ ∅ {[0]} ∅ ∅ ∅ ∅ ∅)
           EXCLUSIVE 0
           (mkQueue [mkRequest 1 EXCLUSIVE 0 None true] INVALID_TXN_ID)
           (mkRequest 1 EXCLUSIVE 0 None true));
    first [reflexivity | by left | vm_compute; reflexivity].
Defined.

(** ** Upgrading a row lock *)

Lemma grant_first_last t l n :
  Forall (fun r => req_txn_id_ r <> t) l -> req_txn_id_ n = t ->
  grant_first t (l ++ [n]) = Some (l ++ [grant n]).
Proof.
  induction 1 as [|x l Hx _ IH]; intros Hn; simpl.
  - by rewrite (proj2 (Z.eqb_eq _ _) Hn).
  - by rewrite (proj2 (Z.eqb_neq _ _) Hx), IH.
Qed.

Lemma find_granted_last t l n :
  Forall (fun r => req_txn_id_ r <> t) l -> req_txn_id_ n = t ->
  granted_ n = true -> find_granted t (l ++ [n]) = Some n.
Proof.
  induction 1 as [|x l Hx _ IH]; intros Hn Hg; simpl.
  - by rewrite (proj2 (Z.eqb_eq _ _) Hn), Hg.
  - by rewrite (proj2 (Z.eqb_neq _ _) Hx), IH.
Qed.

Lemma erase_granted_last t l n :
  Forall (fun r => req_txn_id_ r <> t) l -> req_txn_id_ n = t ->
  granted_ n = true -> erase_granted t (l ++ [n]) = l.
Proof.
  induction 1 as [|x l Hx _ IH]; intros Hn Hg; simpl.
  - by rewrite (proj2 (Z.eqb_eq _ _) Hn), Hg.
  - by rewrite (proj2 (Z.eqb_neq _ _) Hx), IH.
Qed.

Lemma find_request_absent t l :
  Forall (fun r => req_txn_id_ r <> t) l -> find_request t l = None.
Proof.
  induction 1 as [|x l Hx _ IH]; simpl; [done|].
  by rewrite (proj2 (Z.eqb_neq _ _) Hx).
Qed.

Lemma granted_requests_none l :
  Forall (fun r => granted_ r = false) l -> granted_requests l = [].
Proof. induction 1 as [|x l Hx _ IH]; simpl; [done|]. by rewrite Hx. Qed.

Lemma UnLockChangeState_sets m t :
  txn_id_ (UnLockChangeState m t) = txn_id_ t /\
  s_row_lock_set_ (UnLockChangeState m t) = s_row_lock_set_ t /\
  x_row_lock_set_ (UnLockChangeState m t) = x_row_lock_set_ t.
Proof. unfold UnLockChangeState. by repeat case_match. Qed.

(** X9.  Upgrading a row lock from S to X leaves the row in the
    transaction's shared row lock set.  [UpdateLock(txn, lock_mode, oid,
    rid)] calls [BookKeepingRemove] with the new mode, so it is the
    exclusive set the row is taken out of.  For a transaction that
    holds the only granted lock of a row, in mode S: [LockRow] in mode X
    is granted at the first evaluation of the loop condition, the row
    is then in both row lock sets, [UnlockRow] returns [true] and
    takes the row out of the exclusive set only, and [UnlockTable] of
    the table then aborts the transaction with
    TABLE_UNLOCKED_BEFORE_UNLOCKING_ROWS although it holds no row lock
    any more. *)
Theorem row_upgrade_keeps_shared_entry s txn oid rid q r :
  txn_map_ s !! txn_id_ txn = Some txn ->
  state_ txn = GROWING ->
  IsTableFit txn EXCLUSIVE oid = None ->
  row_lock_map_ s !! rid = Some q ->
  NoDup (req_txn_id_ <$> request_queue_ q) ->
  upgrading_ q = INVALID_TXN_ID ->
  find_request (txn_id_ txn) (request_queue_ q) = Some r ->
  lock_mode_ r = SHARED ->
  (forall r', r' ∈ request_queue_ q -> granted_ r' = true ->
              req_txn_id_ r' = txn_id_ txn) ->
  rid ∈ row_set_at oid (s_row_lock_set_ txn) ->
  exists s1 s2 s3 s4 txn2 q3,
    LockRow (txn_id_ txn) EXCLUSIVE oid rid s
    = Ok (AtLoop (InLockRow EXCLUSIVE oid rid)) s1 /\
    loop_condition (InLockRow EXCLUSIVE oid rid) (txn_id_ txn) s1
    = Ok (Returned true) s2 /\
    txn_map_ s2 !! txn_id_ txn = Some txn2 /\
    rid ∈ row_set_at oid (s_row_lock_set_ txn2) /\
    rid ∈ row_set_at oid (x_row_lock_set_ txn2) /\
    UnlockRow (txn_id_ txn) oid rid s2 = Ok true s3 /\
    row_lock_map_ s3 !! rid = Some q3 /\
    find_request (txn_id_ txn) (request_queue_ q3) = None /\
    UnlockTable (txn_id_ txn) oid s3
    = Throw (TransactionAbortException (txn_id_ txn)
               TABLE_UNLOCKED_BEFORE_UNLOCKING_ROWS) s4.
Proof.
  intros Htxn Hst Hfit Hq Hnd Hup Hfind Hmode Hothers Hrid.
  destruct (erase_request_split _ _ _ Hfind) as (l1 & l2 & Hl & Herase).
  destruct (find_request_Some _ _ _ Hfind) as [Hin Hid].
  assert (Forall (fun r' => req_txn_id_ r' <> txn_id_ txn) (l1 ++ l2))
    as Hrest.
  { rewrite Hl, fmap_app, fmap_cons in Hnd.
    apply NoDup_app in Hnd as (Hn1 & Hn12 & Hn2).
    apply NoDup_cons in Hn2 as [Hn2 _].
    apply Forall_app; split; apply Forall_forall; intros x Hx Heq.
    - apply (Hn12 (req_txn_id_ x)); [apply list_elem_of_fmap; eauto|].
      rewrite Heq, <- Hid. by left.
    - apply Hn2. rewrite Hid, <- Heq. apply list_elem_of_fmap; eauto. }
  assert (Forall (fun r' => granted_ r' = false) (l1 ++ l2)) as Hng.
  { apply Forall_forall. intros x Hx.
    destruct (granted_ x) eqn:Hg; [|done]. exfalso.
    rewrite Forall_forall in Hrest. apply (Hrest x Hx).
    apply Hothers; [|done]. rewrite Hl.
    apply elem_of_app in Hx as [?|?]; apply elem_of_app;
      [left|right; right]; done. }
  set (id := txn_id_ txn) in *.
  set (n := new_request id EXCLUSIVE oid (Some rid)).
  set (txn1 := BookKeepingRemove_row EXCLUSIVE oid rid txn).
  set (s1 := put_row_queue rid (mkQueue ((l1 ++ l2) ++ [n]) id)
               (with_txn txn1 s)).
  set (txn2 := BookKeeping_row EXCLUSIVE oid rid txn1).
  set (s2 := with_txn txn2
               (put_row_queue rid
                  (mkQueue ((l1 ++ l2) ++ [grant n]) INVALID_TXN_ID) s1)).
  set (txn3 := BookKeepingRemove_row EXCLUSIVE oid rid
                 (UnLockChangeState EXCLUSIVE txn2)).
  set (q3 := mkQueue (erase_granted id ((l1 ++ l2) ++ [grant n]))
               INVALID_TXN_ID).
  set (s3 := put_row_queue rid q3 (with_txn txn3 s2)).
  assert (row_set_at oid (s_row_lock_set_ txn3)
          = row_set_at oid (s_row_lock_set_ txn)) as Hs3.
  { unfold txn3. simpl.
    by rewrite (proj1 (proj2 (UnLockChangeState_sets EXCLUSIVE txn2))). }
  assert (txn_id_ txn3 = id) as Hid3.
  { unfold txn3. simpl.
    by rewrite (proj1 (UnLockChangeState_sets EXCLUSIVE txn2)). }
  assert (exists s4, UnlockTable id oid s3
          = Throw (TransactionAbortException id
                     TABLE_UNLOCKED_BEFORE_UNLOCKING_ROWS) s4) as [s4 H4].
  { unfold UnlockTable.
    assert (txn_map_ s3 !! id = Some txn3) as ->.
    { change (txn_map_ s3) with (<[txn_id_ txn3 := txn3]> (txn_map_ s2)).
      rewrite Hid3. apply lookup_insert_eq. }
    destruct (bool_decide (row_set_at oid (x_row_lock_set_ txn3) = ∅));
      cbn [negb]; [|by eexists].
    rewrite bool_decide_eq_false_2; [by eexists|].
    rewrite Hs3. intros Hem. rewrite Hem in Hrid.
    by apply not_elem_of_empty in Hrid. }
  exists s1, s2, s3, s4, txn2, q3. split_and!.
  - unfold LockRow. fold id. rewrite Htxn, Hfit. simpl. rewrite Hst.
    rewrite andb_false_r.
    unfold enter_loop, UpdateLock_row, GetLRQueuePtr_row. rewrite Hq.
    unfold UpdateLock. fold id. rewrite Hfind, Hmode. simpl.
    rewrite Hup. simpl. by rewrite Herase.
  - unfold loop_condition.
    assert (txn_map_ s1 !! id = Some txn1) as ->.
    { unfold s1. simpl. apply lookup_insert_eq. }
    unfold GrantLock_row, GetLRQueuePtr_row.
    assert (row_lock_map_ s1 !! rid
            = Some (mkQueue ((l1 ++ l2) ++ [n]) id)) as ->.
    { unfold s1. simpl. apply lookup_insert_eq. }
    change (txn_id_ txn1) with id.
    unfold GrantLock. cbn [request_queue_ upgrading_].
    rewrite granted_requests_app, (granted_requests_none _ Hng).
    change (compatible_with_all ([] ++ granted_requests [n]) EXCLUSIVE)
      with true.
    cbn [negb].
    by rewrite Z.eqb_refl,
      (grant_first_last id (l1 ++ l2) n Hrest eq_refl).
  - unfold s2. simpl. apply lookup_insert_eq.
  - unfold txn2, txn1. simpl. done.
  - unfold txn2, txn1, row_set_at. simpl. rewrite lookup_insert_eq. simpl.
    apply elem_of_union. left. by apply elem_of_singleton.
  - unfold UnlockRow.
    assert (txn_map_ s2 !! id = Some txn2) as ->.
    { unfold s2. simpl. apply lookup_insert_eq. }
    unfold GetLRQueuePtr_row.
    assert (row_lock_map_ s2 !! rid
            = Some (mkQueue ((l1 ++ l2) ++ [grant n]) INVALID_TXN_ID)) as ->.
    { unfold s2. simpl. apply lookup_insert_eq. }
    simpl.
    by rewrite (find_granted_last id (l1 ++ l2) (grant n) Hrest eq_refl
                  eq_refl).
  - unfold s3. simpl. apply lookup_insert_eq.
  - unfold q3. simpl.
    rewrite (erase_granted_last id (l1 ++ l2) (grant n) Hrest eq_refl
               eq_refl).
    by apply find_request_absent.
  - exact H4.
Qed.

Lemma row_upgrade_keeps_shared_entry_witness :
  exists s1 s2 s3 s4 txn2 q3,
    LockRow 1 EXCLUSIVE 0 (0, 0) holding_row_s
    = Ok (AtLoop (InLockRow EXCLUSIVE 0 (0, 0))) s1 /\
    loop_condition (InLockRow EXCLUSIVE 0 (0, 0)) 1 s1
    = Ok (Returned true) s2 /\
    txn_map_ s2 !! 1 = Some txn2 /\
    (0, 0) ∈ row_set_at 0 (s_row_lock_set_ txn2) /\
    (0, 0) ∈ row_set_at 0 (x_row_lock_set_ txn2) /\
    UnlockRow 1 0 (0, 0) s2 = Ok true s3 /\
    row_lock_map_ s3 !! (0, 0) = Some q3 /\
    find_request 1 (request_queue_ q3) = None /\
    UnlockTable 1 0 s3
    = Throw (TransactionAbortException 1
               TABLE_UNLOCKED_BEFORE_UNLOCKING_ROWS) s4.
Proof.
  apply (row_upgrade_keeps_shared_entry holding_row_s
           (mkTxn 1 GROWING REPEATABLE_READ ∅ ∅ ∅ {[0]} ∅
                  {[0 := {[(0, 0)]}]} ∅)
           0 (0, 0)
           (mkQueue [mkRequest 1 SHARED 0 (Some (0, 0)) true] INVALID_TXN_ID)
           (mkRequest 1 SHARED 0 (Some (0, 0)) true)).
  - reflexivity.
  - reflexivity.
  - vm_compute. reflexivity.
  - reflexivity.
  - simpl. apply NoDup_singleton.
  - reflexivity.
  - reflexivity.
  - reflexivity.
  - intros r' Hr' _. simpl in Hr'. apply list_elem_of_singleton in Hr'.
    by subst r'.
  - unfold row_set_at. simpl. rewrite lookup_singleton_eq. simpl.
    by apply elem_of_singleton.
Defined.

End LockManagerFacts.
(** * Extendible hash table: further properties *)

Module HashTableFacts.

Import HashTable HashTableProofs HashTableOps.

Section Facts.

Context {K V : Type} `{EqDecision K}.
Variable hash : K -> Z.
Implicit Types (t : @ExtendibleHashTable K V) (b : @Bucket K V).
Implicit Types (l : list (K * V)) (m : K -> option V).

Lemma Bucket_Remove_found key l :
  (Bucket_Remove key l).1 = present (Bucket_Find key l).
Proof.
  induction l as [|[k v] l IH]; simpl; [done|].
  destruct (decide (k = key)); [done|].
  destruct (Bucket_Remove key l) as [b l']. by simpl in *.
Qed.

Lemma Remove_found t key found t' :
  wf hash t -> Remove hash key t = Ok found t' ->
  found = present (lookup hash t key).
Proof.
  intros Hwf. destruct (wf_slot hash t key Hwf) as (a & b & Hs).
  pose proof (index_range hash t key Hwf) as Hi.
  rewrite (lookup_slot hash t key a b Hwf Hs).
  unfold Remove. rewrite IndexOf_wf by done.
  rewrite (slot_ok_bucket_at hash _ _ a b) by (done || lia).
  pose proof (Bucket_Remove_found key (list_ b)) as Hf.
  destruct (Bucket_Remove key (list_ b)) as [fd l'].
  intros H. by simplify_eq.
Qed.

Lemma model_ext ops : forall m m',
  (forall k, m k = m' k) -> forall k, model ops m k = model ops m' k.
Proof.
  induction ops as [|o ops IH]; intros m m' Hm k; simpl; [done|].
  apply IH. intros k'. unfold update. destruct o; by rewrite Hm.
Qed.

Lemma run_model fuel ops : forall t t',
  wf hash t -> run hash fuel ops t = Ok tt t' ->
  wf hash t' /\ bucket_size_ t' = bucket_size_ t /\
  forall k, lookup hash t' k = model ops (lookup hash t) k.
Proof.
  induction ops as [|o ops IH]; intros t t' Hwf; simpl.
  - intros H. by simplify_eq.
  - destruct o as [key value|key]; simpl.
    + pose proof (Insert_spec hash fuel t key value Hwf) as Hins.
      destruct (Insert hash fuel key value t) as [[] t1|e t1| |];
        simpl; try done.
      destruct Hins as (Hwf1 & Hbs & Hk & Hother).
      intros Hrun. destruct (IH _ _ Hwf1 Hrun) as (Hwf' & Hbs' & Hl).
      split_and!; [done|congruence|].
      intros k. rewrite Hl. apply model_ext. intros k'. unfold update.
      destruct (decide (k' = key)) as [->|Hne]; [done|by apply Hother].
    + destruct (Remove_spec hash t key Hwf)
        as (found & t1 & -> & Hwf1 & Hbs & Hk & Hother). simpl.
      intros Hrun. destruct (IH _ _ Hwf1 Hrun) as (Hwf' & Hbs' & Hl).
      split_and!; [done|congruence|].
      intros k. rewrite Hl. apply model_ext. intros k'. unfold update.
      destruct (decide (k' = key)) as [->|Hne]; [done|by apply Hother].
Qed.

(** X10.  The table is a finite map.  After any history of [Insert] and
    [Remove] calls that returns, [Find] gives for every key what the
    history says: the value of the last insertion of the key if no
    removal followed it, nothing otherwise.  [Remove] returns [true]
    exactly when the key was there; it takes this key out and leaves
    every other key alone. *)
Theorem table_is_a_finite_map bucket_size fuel ops t :
  run hash fuel ops (make bucket_size) = Ok tt t ->
  (forall k, Find hash k t = Ok (model ops nothing k) t) /\
  forall key, exists t',
    Remove hash key t = Ok (present (model ops nothing key)) t' /\
    forall k, Find hash k t' =
              Ok (model (ops ++ [remove key]) nothing k) t'.
Proof.
  intros Hrun.
  destruct (run_model fuel ops _ _ (table_wf_make hash bucket_size) Hrun)
    as (Hwf & _ & Hl).
  assert (forall k, lookup hash t k = model ops nothing k) as Hl'.
  { intros k. rewrite Hl. apply model_ext. intros k'.
    apply lookup_make. }
  split.
  - intros k. rewrite Find_lookup by done. by rewrite Hl'.
  - intros key.
    destruct (Remove_spec hash t key Hwf)
      as (found & t' & Hrm & Hwf' & _ & Hk & Hother).
    exists t'. rewrite <- Hl'.
    rewrite <- (Remove_found t key found t' Hwf Hrm). split; [done|].
    intros k. rewrite Find_lookup by done. f_equal.
    assert (run hash fuel (ops ++ [remove key]) (make bucket_size) = Ok tt t')
      as Hrun'.
    { clear -Hrun Hrm. revert Hrun. generalize (@make K V bucket_size).
      induction ops as [|o ops IH]; intros t0; simpl.
      - intros H. simplify_eq. by rewrite Hrm.
      - destruct (step hash fuel o t0) as [[] t1|e t1| |]; simpl; try done.
        apply IH. }
    destruct (run_model fuel _ _ _ (table_wf_make hash bucket_size) Hrun')
      as (_ & _ & Hl2).
    rewrite Hl2. apply model_ext. intros k'. apply lookup_make.
Qed.


(** ** [num_buckets_] *)

Lemma split_num_buckets key b t t' :
  split hash key b t = Some t' -> num_buckets_ t' = num_buckets_ t.
Proof.
  unfold split. repeat case_match; intros Hx; by simplify_eq.
Qed.

Lemma split_loop_num_buckets fuel : forall key index t index' t',
  split_loop hash fuel key index t = Ok index' t' ->
  num_buckets_ t' = num_buckets_ t.
Proof.
  induction fuel as [|fuel IH]; intros key index t index' t'; simpl.
  - repeat case_match; intros Hx; by simplify_eq.
  - destruct (bucket_at index t) as [[a b]|]; [|done].
    destruct (IsFull b); [|intros Hx; by simplify_eq].
    destruct (split hash key b t) as [t1|] eqn:Hs; [|done].
    destruct (IndexOf hash key t1) as [i1|]; [|done].
    intros Hx. apply IH in Hx. rewrite Hx. by eapply split_num_buckets.
Qed.

Lemma insert_at_num_buckets index key value t t' :
  insert_at index key value t = Ok tt t' -> num_buckets_ t' = num_buckets_ t.
Proof.
  unfold insert_at. repeat case_match; intros Hx; by simplify_eq.
Qed.

Lemma step_num_buckets fuel o t t' :
  step hash fuel o t = Ok tt t' -> num_buckets_ t' = num_buckets_ t.
Proof.
  destruct o as [key value|key]; simpl.
  - unfold Insert.
    destruct (IndexOf hash key t) as [index|]; [|done].
    destruct (bucket_at index t) as [[a b]|]; [|done].
    destruct (Bucket_Find key (list_ b)).
    + apply insert_at_num_buckets.
    + destruct (split_loop hash fuel key index t) as [i1 t1|e t1| |] eqn:Hl;
        simpl; try done.
      intros Hx. apply insert_at_num_buckets in Hx. rewrite Hx.
      by eapply split_loop_num_buckets.
  - unfold Remove. repeat case_match; simpl; intros Hx; by simplify_eq.
Qed.

(** X11.  [GetNumBuckets] does not count the buckets.  The constructor
    sets [num_buckets_] to 1 and no call changes it: after any history
    of [Insert] and [Remove] calls [GetNumBuckets] returns 1, however
    many buckets the splits have made (see [two_buckets_counted_as_one]
    for a table whose directory designates two). *)
Theorem num_buckets_stays_one bucket_size fuel ops t :
  run hash fuel ops (make bucket_size) = Ok tt t ->
  GetNumBuckets t = 1.
Proof.
  unfold GetNumBuckets.
  change 1 with (num_buckets_ (@make K V bucket_size)).
  generalize (@make K V bucket_size). revert t.
  induction ops as [|o ops IH]; intros t t0; simpl.
  - intros Hx. by simplify_eq.
  - destruct (step hash fuel o t0) as [[] t1|e t1| |] eqn:Hs; simpl; try done.
    intros Hx. apply IH in Hx. rewrite Hx. by eapply step_num_buckets.
Qed.

(** ** Capacity *)

Lemma overwrite_length key value l l' :
  overwrite key value l = Some l' -> length l' = length l.
Proof.
  revert l'. induction l as [|[k v] l IH]; intros l'; simpl; [done|].
  destruct (decide (k = key)); [intros Hx; by simplify_eq|].
  destruct (overwrite key value l) as [l1|]; simpl; [|done].
  intros Hx. simplify_eq. simpl. by rewrite (IH l1).
Qed.

Lemma Bucket_Insert_capacity key value b :
  Z.of_nat (length (list_ b)) <= size_ b ->
  size_ (Bucket_Insert key value b).2 = size_ b /\
  Z.of_nat (length (list_ (Bucket_Insert key value b).2)) <= size_ b.
Proof.
  intros Hb. unfold Bucket_Insert.
  destruct (overwrite key value (list_ b)) as [l'|] eqn:Ho; simpl.
  - by rewrite (overwrite_length _ _ _ _ Ho).
  - unfold IsFull.
    destruct (Z.of_nat (length (list_ b)) =? size_ b) eqn:Hf; simpl; [done|].
    rewrite length_app. simpl. split; [done|lia].
Qed.

Lemma distribute_capacity mask items : forall b0 b1,
  Z.of_nat (length (list_ b0)) <= size_ b0 ->
  Z.of_nat (length (list_ b1)) <= size_ b1 ->
  let r := distribute hash mask items b0 b1 in
  (size_ r.1 = size_ b0 /\ Z.of_nat (length (list_ r.1)) <= size_ b0) /\
  (size_ r.2 = size_ b1 /\ Z.of_nat (length (list_ r.2)) <= size_ b1).
Proof.
  induction items as [|[k v] items IH]; intros b0 b1 H0 H1; simpl; [done|].
  destruct (Z.land (hash k) mask =? 0).
  - destruct (Bucket_Insert_capacity k v b0 H0) as [Hs Hl].
    destruct (IH (Bucket_Insert k v b0).2 b1) as [[? ?] ?]; [lia|done|].
    split; [split; [congruence|lia]|done].
  - destruct (Bucket_Insert_capacity k v b1 H1) as [Hs Hl].
    destruct (IH b0 (Bucket_Insert k v b1).2) as [? [? ?]]; [done|lia|].
    split; [done|split; [congruence|lia]].
Qed.

Lemma Bucket_Remove_length key l :
  (length (Bucket_Remove key l).2 <= length l)%nat.
Proof.
  induction l as [|[k v] l IH]; simpl; [done|].
  destruct (decide (k = key)); simpl; [lia|].
  destruct (Bucket_Remove key l) as [b l']. simpl in *. lia.
Qed.

Lemma split_capacity key b t t' :
  within_capacity t -> split hash key b t = Some t' -> within_capacity t'.
Proof.
  intros [Hbs Hcap]. unfold split.
  destruct (depth_ b =? global_depth_ t);
    (destruct (shl1 (depth_ b)) as [local_mask|]; [|done]);
    pose proof (distribute_capacity local_mask (list_ b)
                  (mkBucket (bucket_size_ t) (depth_ b + 1) [])
                  (mkBucket (bucket_size_ t) (depth_ b + 1) [])) as Hd;
    destruct (distribute hash local_mask (list_ b)
                (mkBucket (bucket_size_ t) (depth_ b + 1) [])
                (mkBucket (bucket_size_ t) (depth_ b + 1) [])) as [b0 b1];
    simpl in Hd; destruct Hd as [[Hs0 Hl0] [Hs1 Hl1]]; try lia;
    intros Hx; simplify_eq; (split; [done|]); simpl; intros a' b' Hab;
    (destruct (decide (a' = S (next_bucket t))) as [->|Hne1];
     [rewrite lookup_insert_eq in Hab; simplify_eq; lia|]);
    rewrite lookup_insert_ne in Hab by done;
    (destruct (decide (a' = next_bucket t)) as [->|Hne0];
     [rewrite lookup_insert_eq in Hab; simplify_eq; lia|]);
    rewrite lookup_insert_ne in Hab by done; by apply (Hcap a').
Qed.

Lemma split_loop_capacity fuel : forall key index t index' t',
  within_capacity t ->
  split_loop hash fuel key index t = Ok index' t' -> within_capacity t'.
Proof.
  induction fuel as [|fuel IH]; intros key index t index' t' Hcap; simpl.
  - repeat case_match; intros Hx; by simplify_eq.
  - destruct (bucket_at index t) as [[a b]|]; [|done].
    destruct (IsFull b); [|intros Hx; by simplify_eq].
    destruct (split hash key b t) as [t1|] eqn:Hs; [|done].
    destruct (IndexOf hash key t1) as [i1|]; [|done].
    apply IH. by eapply split_capacity.
Qed.

Lemma bucket_at_store index t a b :
  bucket_at index t = Some (a, b) -> buckets t !! a = Some b.
Proof.
  unfold bucket_at. repeat case_match; intros Hx; by simplify_eq.
Qed.

Lemma insert_at_capacity index key value t t' :
  within_capacity t ->
  insert_at index key value t = Ok tt t' -> within_capacity t'.
Proof.
  intros [Hbs Hcap]. unfold insert_at.
  destruct (bucket_at index t) as [[a b]|] eqn:Hb; [|done].
  apply bucket_at_store in Hb.
  intros Hx. simplify_eq. split; [done|]. simpl. intros a' b' Hab.
  destruct (decide (a' = a)) as [->|Hne].
  - rewrite lookup_insert_eq in Hab. simplify_eq.
    destruct (Bucket_Insert_capacity key value b (Hcap _ _ Hb)). lia.
  - rewrite lookup_insert_ne in Hab by done. by apply (Hcap a').
Qed.

Lemma step_capacity fuel o t t' :
  within_capacity t -> step hash fuel o t = Ok tt t' -> within_capacity t'.
Proof.
  intros Hcap. destruct o as [key value|key]; simpl.
  - unfold Insert.
    destruct (IndexOf hash key t) as [index|]; [|done].
    destruct (bucket_at index t) as [[a b]|]; [|done].
    destruct (Bucket_Find key (list_ b)).
    + by apply insert_at_capacity.
    + destruct (split_loop hash fuel key index t) as [i1 t1|e t1| |] eqn:Hl;
        simpl; try done.
      apply insert_at_capacity. by eapply split_loop_capacity.
  - unfold Remove.
    destruct (IndexOf hash key t) as [index|]; [|done].
    destruct (bucket_at index t) as [[a b]|] eqn:Hb; [|done].
    apply bucket_at_store in Hb.
    pose proof (Bucket_Remove_length key (list_ b)) as Hlen.
    destruct (Bucket_Remove key (list_ b)) as [found l']. simpl in *.
    intros Hx. simplify_eq. destruct Hcap as [Hbs Hcap].
    split; [done|]. simpl. intros a' b' Hab.
    destruct (decide (a' = a)) as [->|Hne].
    + rewrite lookup_insert_eq in Hab. simplify_eq. simpl.
      specialize (Hcap _ _ Hb). lia.
    + rewrite lookup_insert_ne in Hab by done. by apply (Hcap a').
Qed.

Lemma run_capacity fuel ops : forall t t',
  within_capacity t -> run hash fuel ops t = Ok tt t' -> within_capacity t'.
Proof.
  induction ops as [|o ops IH]; intros t t' Hcap; simpl.
  - intros Hx. by simplify_eq.
  - destruct (step hash fuel o t) as [[] t1|e t1| |] eqn:Hs; simpl; try done.
    apply IH. by eapply step_capacity.
Qed.

(** X12.  The shape of the directory.  After any history of [Insert]
    and [Remove] calls that returns, the global depth is at most 30 and
    the directory has 2^global_depth slots.  Every slot designates a
    bucket whose local depth is at most the global depth, that holds no
    key twice and no more than [bucket_size] entries, and whose keys
    agree with the slot on the low local-depth bits of their hash; the
    slots that designate the same bucket are exactly those that agree on
    these bits. *)
Theorem directory_shape bucket_size fuel ops t :
  0 <= bucket_size ->
  run hash fuel ops (make bucket_size) = Ok tt t ->
  0 <= GetGlobalDepth t <= 30 /\
  length (dir_ t) = Z.to_nat (2 ^ GetGlobalDepth t) /\
  forall i, 0 <= i < 2 ^ GetGlobalDepth t ->
    exists a b,
      bucket_at i t = Some (a, b) /\
      GetLocalDepth i t = Some (depth_ b) /\
      0 <= depth_ b <= GetGlobalDepth t /\
      Z.of_nat (length (list_ b)) <= bucket_size /\
      NoDup (fst <$> list_ b) /\
      (forall k v, (k, v) ∈ list_ b ->
                   hash k mod 2 ^ depth_ b = i mod 2 ^ depth_ b) /\
      forall j, 0 <= j < 2 ^ GetGlobalDepth t ->
                (dir_ t !! Z.to_nat j = Some a <->
                 j mod 2 ^ depth_ b = i mod 2 ^ depth_ b).
Proof.
  intros Hbs Hrun. unfold GetGlobalDepth, GetLocalDepth.
  destruct (run_model fuel ops _ _ (table_wf_make hash bucket_size) Hrun)
    as (Hwf & Hsize & _).
  assert (within_capacity t) as [_ Hcap].
  { apply (run_capacity fuel ops (make bucket_size)); [|done].
    split; [done|]. intros a b Hab. simpl in Hab.
    apply lookup_singleton_Some in Hab as [_ <-]. simpl. lia. }
  split_and!; [apply Hwf..|].
  intros i Hi. destruct (wf_slots _ _ Hwf i Hi) as (a & b & Hs).
  exists a, b.
  rewrite (slot_ok_bucket_at hash t i a b) by (done || lia).
  split_and!; try done; try apply Hs.
  - pose proof (Hcap a b (slot_bucket _ _ _ _ _ Hs)).
    pose proof (slot_size _ _ _ _ _ Hs). simpl in Hsize. lia.
  - intros j Hj. split.
    + by apply (slot_only _ _ _ _ _ Hs).
    + by apply (slot_shared _ _ _ _ _ Hs).
Qed.

End Facts.

Lemma table_is_a_finite_map_witness :
  exists t,
    run id 31 small_history (make 2) = Ok tt t /\
    Find id 1 t = Ok (Some 11) t /\ Find id 2 t = Ok None t /\
    Find id 3 t = Ok (Some 30) t /\
    exists t', Remove id 3 t = Ok true t' /\ Find id 3 t' = Ok None t'.
Proof.
  assert (exists t, run id 31 small_history (make 2) = Ok tt t) as [t Ht].
  { eexists. vm_compute. reflexivity. }
  destruct (table_is_a_finite_map (K := Z) (V := Z) id 2 31 small_history t Ht)
    as [Hfind Hrem].
  exists t. split; [exact Ht|]. split_and!; try apply Hfind.
  destruct (Hrem 3) as (t' & Hr & Hf). exists t'. split; [exact Hr|apply Hf].
Defined.

Lemma num_buckets_stays_one_witness :
  exists t,
    run id 31 small_history (make 2) = Ok tt t /\ GetNumBuckets t = 1.
Proof.
  assert (exists t, run id 31 small_history (make 2) = Ok tt t) as [t Ht].
  { eexists. vm_compute. reflexivity. }
  exists t. split; [exact Ht|].
  exact (num_buckets_stays_one (K := Z) (V := Z) id 2 31 small_history t Ht).
Defined.

Example two_buckets_counted_as_one :
  exists t,
    run id 31 small_history (make 2) = Ok tt t /\
    GetNumBuckets t = 1 /\ length (designated t) = 2%nat.
Proof. eexists. split; [vm_compute; reflexivity|]. by vm_compute. Qed.

Lemma directory_shape_witness :
  exists t,
    run id 31 small_history (make 2) = Ok tt t /\
    GetGlobalDepth t = 1 /\
    GetLocalDepth 0 t = Some 1 /\ GetLocalDepth 1 t = Some 1 /\
    length (dir_ t) = Z.to_nat (2 ^ GetGlobalDepth t).
Proof.
  assert (exists t, run id 31 small_history (make 2) = Ok tt t) as [t Ht].
  { eexists. vm_compute. reflexivity. }
  pose proof (directory_shape (K := Z) (V := Z) id 2 31 small_history t
                ltac:(lia) Ht) as (_ & Hlen & _).
  exists t. split; [exact Ht|].
  vm_compute in Ht. injection Ht as <-.
  split_and!; [reflexivity..|exact Hlen].
Defined.

End HashTableFacts.
(** * Buffer pool manager: further properties *)

Module BufferPoolFacts.

Import Replacer BufferPool BufferPoolProofs BufferPoolExamples.

Section Pool.

Context {Data : Type}.
Variable zero_data : Data.
Variable d : bool.
Variable hash : Z -> Z.
Variable bucket_size : Z.
Variable fuel : nat.

Implicit Types (s : @BufferPoolManagerInstance Data) (p : @Page Data).

Local Arguments RecordAccess : simpl never.
Local Arguments SetEvictable : simpl never.
Local Arguments Remove : simpl never.
Local Arguments Evict : simpl never.
Local Arguments HashTable.Insert : simpl never.
Local Arguments HashTable.Remove : simpl never.
Local Arguments HashTable.Find : simpl never.
Local Arguments HashTable.lookup : simpl never.
Local Arguments frame : simpl never.

(** X13.  No exception leaves the pool.  In a history of calls from a
    new pool the replacer is only handed frame ids below its capacity
    and is only asked to remove frames that are evictable, so neither
    [std::invalid_argument] nor [std::logic_error] of the replacer is
    ever thrown through [NewPgImp], [FetchPgImp], [UnpinPgImp],
    [FlushPgImp], [FlushAllPgsImp] or [DeletePgImp]. *)
Theorem pool_calls_never_throw pool_size k ops :
  0 <= pool_size <= INT32_MAX -> 2 <= k ->
  Z.of_nat (length ops) <= SIZE_MAX ->
  match run zero_data d hash fuel ops
            (make zero_data bucket_size pool_size k) with
  | Throw _ _ => False
  | _ => True
  end.
Proof.
  intros Hp Hk Hlen.
  pose proof (run_spec zero_data d hash fuel ops 0 _
                (make_invariant zero_data hash bucket_size pool_size k Hp Hk)
                ltac:(lia)) as Hspec.
  by destruct (run _ _ _ _ _ _).
Qed.

(** ** What the calls leave alone *)

Lemma GetAvailableFrame_pool_size s v s' :
  GetAvailableFrame d hash s = Ok v s' -> pool_size_ s' = pool_size_ s.
Proof.
  unfold GetAvailableFrame, on_replacer, on_page_table, bind, WritePage.
  intros Hx. repeat case_match; simplify_eq; done.
Qed.

Lemma install_pool_size f pid dat s s' :
  install d hash fuel f pid dat s = Ok tt s' -> pool_size_ s' = pool_size_ s.
Proof.
  unfold install, on_replacer, on_page_table, bind.
  intros Hx. repeat case_match; simplify_eq; done.
Qed.

Lemma flush_pool_size pid s b s' :
  flush hash pid s = Ok b s' -> pool_size_ s' = pool_size_ s.
Proof.
  unfold flush, on_replacer, on_page_table, bind, WritePage.
  intros Hx. repeat case_match; simplify_eq; done.
Qed.

Lemma flush_from_pool_size frames : forall s s',
  flush_from hash frames s = Ok tt s' -> pool_size_ s' = pool_size_ s.
Proof.
  induction frames as [|i frames IH]; intros s s'; simpl.
  - intros Hx. by simplify_eq.
  - destruct (pages_ s !! i) as [p|]; [|done].
    destruct (flush hash (page_id_ p) s) as [b s1| | |] eqn:Hf; simpl; try done.
    intros Hx. apply IH in Hx. rewrite Hx. by eapply flush_pool_size.
Qed.

Lemma step_pool_size o s s' :
  step zero_data d hash fuel o s = Ok tt s' -> pool_size_ s' = pool_size_ s.
Proof.
  destruct o as [|pid|pid dirty|pid| |pid]; cbn [step].
  - unfold NewPgImp, AllocatePage.
    destruct (GetAvailableFrame d hash s) as [[f|] s1| | |] eqn:Hg; simpl; try done.
    + destruct (install _ _ _ _ _ _ _) as [[] s2| | |] eqn:Hi; simpl; try done.
      intros Hx. simplify_eq. apply install_pool_size in Hi. rewrite Hi. simpl.
      by eapply GetAvailableFrame_pool_size.
    + intros Hx. simplify_eq. by eapply GetAvailableFrame_pool_size.
  - unfold FetchPgImp.
    destruct (HashTable.Find hash pid (page_table_ s)) as [[f|] t| | |]; simpl; try done.
    + unfold on_replacer, bind. intros Hx. repeat case_match; simplify_eq; done.
    + destruct (GetAvailableFrame d hash _) as [[f|] s1| | |] eqn:Hg; simpl; try done.
      * destruct (install _ _ _ _ _ _ _) as [[] s2| | |] eqn:Hi; simpl; try done.
        intros Hx. simplify_eq. apply install_pool_size in Hi. rewrite Hi.
        by apply GetAvailableFrame_pool_size in Hg.
      * intros Hx. simplify_eq. by apply GetAvailableFrame_pool_size in Hg.
  - unfold UnpinPgImp, on_replacer, on_page_table, bind.
    intros Hx. repeat case_match; simplify_eq; done.
  - unfold FlushPgImp. destruct (flush hash pid s) as [b s1| | |] eqn:Hf; simpl; try done.
    intros Hx. simplify_eq. by eapply flush_pool_size.
  - apply flush_from_pool_size.
  - unfold DeletePgImp, on_replacer, on_page_table, bind.
    intros Hx. repeat case_match; simplify_eq; done.
Qed.

Lemma run_pool_size ops : forall s s',
  run zero_data d hash fuel ops s = Ok tt s' -> pool_size_ s' = pool_size_ s.
Proof.
  induction ops as [|o ops IH]; intros s s'; simpl.
  - intros Hx. by simplify_eq.
  - destruct (step zero_data d hash fuel o s) as [[] s1| | |] eqn:Hs;
      simpl; try done.
    intros Hx. apply IH in Hx. rewrite Hx. by eapply step_pool_size.
Qed.

(** X14.  Page table, frames, free list and replacer agree.  In every
    state reached by a history of calls: the pool keeps its [pool_size]
    frames; the free list repeats no frame and holds frame ids of the
    pool; the replacer has an entry exactly for the frames that are not
    on the free list; every entry of the page table leads to such a
    frame, and that frame holds the page the entry is for; no pin count
    is negative. *)
Theorem pool_structures_agree pool_size k ops s :
  0 <= pool_size <= INT32_MAX -> 2 <= k ->
  Z.of_nat (length ops) <= SIZE_MAX ->
  run zero_data d hash fuel ops (make zero_data bucket_size pool_size k)
  = Ok tt s ->
  pool_size_ s = pool_size /\
  length (pages_ s) = Z.to_nat pool_size /\
  NoDup (free_list_ s) /\
  (forall f, f ∈ free_list_ s -> 0 <= f < pool_size) /\
  (forall f, 0 <= f < pool_size ->
     (is_Some (entries_ (replacer_ s) !! f) <-> f ∉ free_list_ s)) /\
  (forall page_id f,
     HashTable.lookup hash (page_table_ s) page_id = Some f ->
     0 <= f < pool_size /\ (f ∉ free_list_ s) /\
     exists p, frame f s = Some p /\ page_id_ p = page_id) /\
  (forall f p, frame f s = Some p -> f ∉ free_list_ s -> 0 <= pin_count_ p).
Proof.
  intros Hp Hk Hlen Hrun.
  pose proof (run_invariant zero_data d hash bucket_size fuel pool_size k ops s
                Hp Hk Hlen Hrun) as Hinv.
  pose proof (run_pool_size _ _ _ Hrun) as Hsize. cbn in Hsize.
  rewrite <- Hsize. split_and!.
  - done.
  - apply Hinv.
  - apply Hinv.
  - apply Hinv.
  - intros f Hf. split.
    + intros [e He]. by destruct (inv_entry _ _ _ _ Hinv f e He) as [[_ ?] _].
    + intros Hnf.
      destruct (inv_resident _ _ _ _ Hinv f) as (p & e & _ & He & _);
        [by split|done|]. by exists e.
  - intros pid f Hm.
    destruct (inv_mapped _ _ _ _ Hinv pid f Hm) as ([Hr1 Hr2] & _ & Hpg).
    done.
  - intros f p Hfp Hnf.
    assert (resident s f) as Hres.
    { split; [|done]. pose proof (frame_nonneg _ _ _ Hfp) as Hf0.
      unfold frame in Hfp. destruct (f <? 0); [done|].
      apply lookup_lt_Some in Hfp.
      rewrite (inv_pages _ _ _ _ Hinv) in Hfp. lia. }
    destruct (inv_resident _ _ _ _ Hinv f Hres) as (p' & e & Hp' & _ & _ & ?);
      [done|]. congruence.
Qed.

(** ** Getting a frame *)

Lemma with_replacer_id s : with_replacer (replacer_ s) s = s.
Proof. by destruct s. Qed.

Lemma GetAvailableFrame_outcome n s v s' :
  invariant hash n s ->
  GetAvailableFrame d hash s = Ok v s' ->
  match free_list_ s with
  | f :: rest => v = Some f /\ s' = with_free_list rest s
  | [] =>
      match v with
      | None =>
          s' = s /\
          forall f, resident s f ->
                    exists p, frame f s = Some p /\ 0 < pin_count_ p
      | Some f =>
          exists p,
            resident s f /\ frame f s = Some p /\ pin_count_ p = 0 /\
            pool_size_ s' = pool_size_ s /\ pages_ s' = pages_ s /\
            free_list_ s' = [] /\ next_page_id_ s' = next_page_id_ s /\
            disk_ s' = (if is_dirty_ p
                        then <[page_id_ p := data_ p]> (disk_ s)
                        else disk_ s) /\
            Evict d (replacer_ s) = Ok (Some f) (replacer_ s') /\
            HashTable.lookup hash (page_table_ s') (page_id_ p) = None /\
            forall k, k <> page_id_ p ->
                      HashTable.lookup hash (page_table_ s') k
                      = HashTable.lookup hash (page_table_ s) k
      end
  end.
Proof.
  intros Hinv. unfold GetAvailableFrame.
  destruct (free_list_ s) as [|f rest] eqn:Hfree;
    [|intros Hx; by simplify_eq].
  destruct (inv_replacer _ _ _ _ Hinv) as (g & Hwf & Hclk).
  destruct (ReplacerProofs.Evict_wf d _ g Hwf)
    as (v1 & r' & Hev & Hwf' & Hk & Hsz & Hv).
  rewrite Hev. cbn [on_replacer bind].
  destruct v1 as [f|].
  - destruct Hv as ((e & He & Hevict) & _).
    destruct (inv_entry _ _ _ _ Hinv f e He) as [Hres _].
    destruct (inv_resident _ _ _ _ Hinv f Hres)
      as (p & e' & Hp & He' & Hiff & Hpin); [done|].
    assert (e' = e) as -> by congruence.
    assert (frame f (with_replacer r' s) = Some p) as -> by done.
    destruct (HashTableProofs.Remove_spec hash (page_table_ s) (page_id_ p)
                (inv_table _ _ _ _ Hinv))
      as (found & t' & Hrm & Hwft & _ & Hgone & Hother).
    destruct (is_dirty_ p) eqn:Hdirty; cbn; rewrite Hrm; cbn;
      intros Hx; simplify_eq; exists p; cbn; rewrite ?Hdirty;
      split_and!; try done; by apply Hiff.
  - destruct Hv as [-> Hnone]. rewrite with_replacer_id.
    intros Hx. simplify_eq. split; [done|].
    intros f Hres.
    destruct (inv_resident _ _ _ _ Hinv f Hres)
      as (p & e & Hp & He & Hiff & Hpin); [done|].
    exists p. split; [done|].
    destruct (decide (pin_count_ p = 0)) as [H0|H0]; [|lia].
    apply Hiff in H0. exfalso. apply (Hnone f). by exists e.
Qed.

Lemma install_outcome n s f pid dat s' :
  invariant_but hash (Some f) n s -> n < SIZE_MAX ->
  install d hash fuel f pid dat s = Ok tt s' ->
  pool_size_ s' = pool_size_ s /\
  pages_ s' = <[Z.to_nat f := mkPage pid 1 false dat]> (pages_ s) /\
  free_list_ s' = free_list_ s /\
  next_page_id_ s' = next_page_id_ s /\
  disk_ s' = disk_ s /\
  HashTable.lookup hash (page_table_ s') pid = Some f /\
  (forall k, k <> pid ->
     HashTable.lookup hash (page_table_ s') k
     = HashTable.lookup hash (page_table_ s) k) /\
  (exists e, entries_ (replacer_ s') !! f = Some e /\ evictable_ e = false) /\
  forall f', f' <> f ->
    entries_ (replacer_ s') !! f' = entries_ (replacer_ s) !! f'.
Proof.
  intros Hinv Hn.
  pose proof (inv_skip _ _ _ _ Hinv f eq_refl) as Hres.
  destruct (frame_resident _ _ _ _ _ Hinv Hres) as [p0 Hp0].
  unfold install. rewrite Hp0. cbn.
  pose proof (HashTableProofs.Insert_spec hash fuel (page_table_ s) pid f
                (inv_table _ _ _ _ Hinv)) as Hins.
  destruct (HashTable.Insert hash fuel pid f (page_table_ s))
    as [[] t'|[]| |]; try done.
  destruct Hins as (Hwft & _ & Hkey & Hother).
  cbn.
  destruct (inv_replacer _ _ _ _ Hinv) as (g & Hwf & Hclk).
  destruct (ReplacerProofs.RecordAccess_wf d f _ g Hwf ltac:(lia)
              (valid_frame _ _ _ _ _ Hinv Hres))
    as (r1 & Hra & Hwf1 & Hk1 & Hsz1).
  rewrite Hra. cbn.
  destruct (SetEvictable_ok f false r1) as [r2 Hse].
  { unfold invalid_frame. rewrite Hsz1.
    apply (valid_frame _ _ _ _ _ Hinv Hres). }
  rewrite Hse. cbn.
  destruct (RecordAccess_entries _ _ _ _ Hra) as ((e1 & He1 & _) & Hoth1).
  destruct (SetEvictable_entries _ _ _ _ Hse) as (Hoth2 & Hent2).
  rewrite He1 in Hent2. destruct Hent2 as (e2 & He2 & Hev2).
  intros Hx. simplify_eq. cbn. split_and!; try done.
  - by exists e2.
  - intros f' Hf'. by rewrite Hoth2, Hoth1.
Qed.

Lemma frame_pages s s' f : pages_ s' = pages_ s -> frame f s' = frame f s.
Proof. unfold frame. by intros ->. Qed.

Lemma frame_pages_insert_eq s s' f p p0 :
  pages_ s' = <[Z.to_nat f := p]> (pages_ s) -> frame f s = Some p0 ->
  frame f s' = Some p.
Proof.
  unfold frame. intros ->. destruct (f <? 0); [done|].
  intros Hp0. apply list_lookup_insert_eq. by eapply lookup_lt_Some.
Qed.

Lemma frame_pages_insert_ne s s' f f' p :
  pages_ s' = <[Z.to_nat f := p]> (pages_ s) -> 0 <= f -> f' <> f ->
  frame f' s' = frame f' s.
Proof.
  unfold frame. intros -> Hf Hne. destruct (Z.ltb_spec f' 0); [done|].
  apply list_lookup_insert_ne. lia.
Qed.

(** X15.  [NewPgImp].  In a state reached by a history of calls, a call
    that returns gives [nullptr] exactly when the free list is empty and
    every frame is pinned, and then the pool, the next page id included,
    is as before.  Otherwise the page id is the next one of the counter,
    the frame holds the page zeroed, clean and with one pin, and is not
    evictable; no other frame is touched.  The frame is the head of the
    free list if there is one; else it is a frame whose page had no pin,
    and that page was written to disk if and only if it was dirty. *)
Theorem new_page_outcome pool_size k ops s v s' :
  0 <= pool_size <= INT32_MAX -> 2 <= k ->
  Z.of_nat (length ops) < SIZE_MAX ->
  run zero_data d hash fuel ops (make zero_data bucket_size pool_size k)
  = Ok tt s ->
  NewPgImp zero_data d hash fuel s = Ok v s' ->
  match v with
  | None =>
      s' = s /\ free_list_ s = [] /\
      forall f, 0 <= f < pool_size ->
                exists p, frame f s = Some p /\ 0 < pin_count_ p
  | Some (page_id, f) =>
      page_id = next_page_id_ s /\
      next_page_id_ s' = to_int32 (next_page_id_ s + 1) /\
      frame f s' = Some (mkPage page_id 1 false zero_data) /\
      HashTable.lookup hash (page_table_ s') page_id = Some f /\
      (exists e, entries_ (replacer_ s') !! f = Some e /\
                 evictable_ e = false) /\
      (forall f', f' <> f -> frame f' s' = frame f' s) /\
      match free_list_ s with
      | f0 :: rest => f = f0 /\ free_list_ s' = rest /\ disk_ s' = disk_ s
      | [] =>
          free_list_ s' = [] /\
          exists p, frame f s = Some p /\ pin_count_ p = 0 /\
                    disk_ s' = if is_dirty_ p
                               then <[page_id_ p := data_ p]> (disk_ s)
                               else disk_ s
      end
  end.
Proof.
  intros Hp Hk Hlen Hrun.
  pose proof (run_invariant zero_data d hash bucket_size fuel pool_size k ops s
                Hp Hk ltac:(lia) Hrun) as Hinv.
  pose proof (run_pool_size _ _ _ Hrun) as Hsize. cbn in Hsize.
  unfold NewPgImp.
  pose proof (GetAvailableFrame_spec d hash _ s Hinv) as Hg.
  destruct (GetAvailableFrame d hash s) as [[f|] s1| | |] eqn:Hget;
    try done; cbn [bind].
  - unfold AllocatePage.
    destruct (install d hash fuel f (next_page_id_ s1) zero_data
                (with_next_page_id (to_int32 (next_page_id_ s1 + 1)) s1))
      as [[] s2| | |] eqn:Hi; cbn; try done.
    intros Hx. simplify_eq.
    apply (install_outcome (Z.of_nat (length ops))) in Hi
      as (Hps & Hpages & Hfree & Hnext & Hdisk & Hmap & _ & Hent & _);
      [|by apply invariant_next_page_id|lia].
    cbn in *.
    pose proof (inv_skip _ _ _ _ Hg f eq_refl) as Hres.
    destruct (frame_resident _ _ _ _ _ Hg Hres) as [p1 Hp1].
    pose proof (frame_nonneg _ _ _ Hp1) as Hf0.
    pose proof (GetAvailableFrame_outcome _ _ _ _ Hinv Hget) as Hout.
    assert (frame f s' = Some (mkPage (next_page_id_ s1) 1 false zero_data))
      as Hnew by (by apply (frame_pages_insert_eq _ _ _ _ p1 Hpages)).
    assert (forall f', f' <> f -> frame f' s' = frame f' s1) as Hold
      by (intros f' Hne; by eapply frame_pages_insert_ne).
    destruct (free_list_ s) as [|f0 rest] eqn:Hfl.
    + destruct Hout as (p & Hresf & Hfp & Hpin & _ & Hpg & Hfl' & Hnx & Hdk & _).
      rewrite Hnx in *.
      split; [done|]. split; [done|]. split; [done|]. split; [done|].
      split; [done|]. split.
      { intros f' Hne. rewrite Hold by done. by apply frame_pages. }
      split; [congruence|]. exists p. split_and!; [done|done|congruence].
    + destruct Hout as [Hv ->]. simplify_eq. cbn in *.
      split; [done|]. split; [done|]. split; [done|]. split; [done|].
      split; [done|]. split; [|done].
      intros f' Hne. by rewrite Hold.
  - intros Hx. simplify_eq.
    pose proof (GetAvailableFrame_outcome _ _ _ _ Hinv Hget) as Hout.
    destruct (free_list_ s) as [|f0 rest] eqn:Hfl; [|by destruct Hout].
    destruct Hout as [-> Hall]. split_and!; try done.
    intros f Hf. apply Hall. split; [lia|]. rewrite Hfl.
    apply not_elem_of_nil.
Qed.

(** X16.  [DeletePgImp].  In a state reached by a history of calls: a
    page that is not in the page table makes the call return [true] with
    nothing changed; a page with a pin makes it return [false] with
    nothing changed; a page without pins is dropped: its frame is reset
    and appended to the free list, the page leaves the page table and
    the frame leaves the replacer, and nothing is written to disk, not
    even when the page was dirty. *)
Theorem delete_page_outcome pool_size k ops s page_id :
  0 <= pool_size <= INT32_MAX -> 2 <= k ->
  Z.of_nat (length ops) <= SIZE_MAX ->
  run zero_data d hash fuel ops (make zero_data bucket_size pool_size k)
  = Ok tt s ->
  match HashTable.lookup hash (page_table_ s) page_id with
  | None => DeletePgImp zero_data hash page_id s = Ok true s
  | Some f =>
      exists p, frame f s = Some p /\ page_id_ p = page_id /\
        if 0 <? pin_count_ p
        then DeletePgImp zero_data hash page_id s = Ok false s
        else
          exists s',
            DeletePgImp zero_data hash page_id s = Ok true s' /\
            frame f s' = Some (empty_page zero_data) /\
            (forall f', f' <> f -> frame f' s' = frame f' s) /\
            free_list_ s' = free_list_ s ++ [f] /\
            HashTable.lookup hash (page_table_ s') page_id = None /\
            (forall k, k <> page_id ->
               HashTable.lookup hash (page_table_ s') k
               = HashTable.lookup hash (page_table_ s) k) /\
            entries_ (replacer_ s') !! f = None /\
            disk_ s' = disk_ s /\ next_page_id_ s' = next_page_id_ s
  end.
Proof.
  intros Hp Hk Hlen Hrun.
  pose proof (run_invariant zero_data d hash bucket_size fuel pool_size k ops s
                Hp Hk Hlen Hrun) as Hinv.
  unfold DeletePgImp.
  rewrite (HashTableProofs.Find_lookup hash _ page_id
             (inv_table _ _ _ _ Hinv)).
  cbn [on_page_table bind]. rewrite with_page_table_id.
  destruct (HashTable.lookup hash (page_table_ s) page_id) as [f|] eqn:Hl;
    [|done].
  destruct (mapped_frame _ _ s page_id f Hinv Hl)
    as (Hres & p & e & Hfp & Hid & He & Hiff & Hpin).
  exists p. split; [done|]. split; [done|]. rewrite Hfp.
  destruct (Z.ltb_spec 0 (pin_count_ p)) as [|Hle]; [done|].
  assert (pin_count_ p = 0) as H0 by lia. apply Hiff in H0.
  destruct (HashTableProofs.Remove_spec hash (page_table_ s) page_id
              (inv_table _ _ _ _ Hinv))
    as (found & t' & Hrm & Hwft & _ & Hgone & Hother).
  rewrite Hrm. cbn.
  destruct (inv_replacer _ _ _ _ Hinv) as (g & Hwf & Hclk).
  pose proof (ReplacerProofs.Remove_wf f _ g Hwf) as Hwf'.
  destruct (Remove f (replacer_ s)) as [[] r'|ex r'| |] eqn:Hrem; try done.
  2:{ apply Remove_throws in Hrem as [Hbad|(en & Hen & Hev)].
      - by rewrite (valid_frame _ _ _ _ _ Hinv Hres) in Hbad.
      - congruence. }
  pose proof (Remove_entries _ _ _ Hrem) as Hent.
  cbn. eexists. split; [done|].
  pose proof (frame_nonneg _ _ _ Hfp) as Hf0.
  split_and!; cbn; try done.
  - by apply (frame_set_frame_eq _ _ _ p).
  - intros f' Hne. by rewrite frame_set_frame_ne.
  - rewrite Hent. by rewrite decide_True.
Qed.

(** ** Flushing *)

Lemma flush_outcome n s pid :
  invariant hash n s ->
  match HashTable.lookup hash (page_table_ s) pid with
  | None => flush hash pid s = Ok false s
  | Some f =>
      exists p, frame f s = Some p /\ page_id_ p = pid /\
        flush hash pid s =
          Ok true (set_frame f (set_dirty false p)
                     (WritePage pid (data_ p) s))
  end.
Proof.
  intros Hinv. unfold flush.
  rewrite (HashTableProofs.Find_lookup hash _ pid (inv_table _ _ _ _ Hinv)).
  cbn [on_page_table bind]. rewrite with_page_table_id.
  destruct (HashTable.lookup hash (page_table_ s) pid) as [f|] eqn:Hl;
    [|done].
  destruct (mapped_frame _ _ s pid f Hinv Hl)
    as (Hres & p & e & Hfp & Hid & He & Hiff & Hpin).
  exists p. by rewrite Hfp.
Qed.

(** X17.  [FlushPgImp].  In a state reached by a history of calls: for
    a page that is not in the page table the call returns [false] and
    changes nothing; for a page that is there it writes the data of the
    page to disk and clears the dirty flag, whether the page was dirty
    or not and whether it is pinned or not; pin counts, page table, free
    list and replacer are as before. *)
Theorem flush_page_outcome pool_size k ops s page_id :
  0 <= pool_size <= INT32_MAX -> 2 <= k ->
  Z.of_nat (length ops) <= SIZE_MAX ->
  run zero_data d hash fuel ops (make zero_data bucket_size pool_size k)
  = Ok tt s ->
  match HashTable.lookup hash (page_table_ s) page_id with
  | None => FlushPgImp hash page_id s = Ok false s
  | Some f =>
      exists p s',
        frame f s = Some p /\
        FlushPgImp hash page_id s = Ok true s' /\
        frame f s' = Some (mkPage page_id (pin_count_ p) false (data_ p)) /\
        (forall f', f' <> f -> frame f' s' = frame f' s) /\
        disk_ s' = <[page_id := data_ p]> (disk_ s) /\
        page_table_ s' = page_table_ s /\ replacer_ s' = replacer_ s /\
        free_list_ s' = free_list_ s /\ next_page_id_ s' = next_page_id_ s
  end.
Proof.
  intros Hp Hk Hlen Hrun.
  pose proof (run_invariant zero_data d hash bucket_size fuel pool_size k ops s
                Hp Hk Hlen Hrun) as Hinv.
  pose proof (flush_outcome _ s page_id Hinv) as Hout. unfold FlushPgImp.
  destruct (HashTable.lookup hash (page_table_ s) page_id) as [f|]; [|done].
  destruct Hout as (p & Hfp & Hid & Hout).
  exists p. eexists. split; [done|]. split; [exact Hout|].
  pose proof (frame_nonneg _ _ _ Hfp) as Hf0.
  split_and!; cbn; try done.
  - rewrite <- Hid. by apply (frame_set_frame_eq _ _ _ p).
  - intros f' Hne. by rewrite frame_set_frame_ne.
Qed.

Lemma flush_from_outcome n frames : forall s,
  invariant hash n s ->
  (forall i, i ∈ frames -> (i < Z.to_nat (pool_size_ s))%nat) ->
  exists s',
    flush_from hash frames s = Ok tt s' /\ invariant hash n s' /\
    page_table_ s' = page_table_ s /\ replacer_ s' = replacer_ s /\
    free_list_ s' = free_list_ s /\ next_page_id_ s' = next_page_id_ s /\
    pool_size_ s' = pool_size_ s /\
    (forall f p, frame f s = Some p ->
       exists p', frame f s' = Some p' /\ page_id_ p' = page_id_ p /\
                  pin_count_ p' = pin_count_ p /\ data_ p' = data_ p /\
                  (is_dirty_ p = false -> is_dirty_ p' = false)) /\
    (forall i p, i ∈ frames -> pages_ s !! i = Some p ->
       forall f pf,
         HashTable.lookup hash (page_table_ s) (page_id_ p) = Some f ->
         frame f s = Some pf ->
         (exists p', frame f s' = Some p' /\ is_dirty_ p' = false) /\
         disk_ s' !! page_id_ p = Some (data_ pf)) /\
    (forall pid,
       disk_ s' !! pid = disk_ s !! pid \/
       exists f pf, HashTable.lookup hash (page_table_ s) pid = Some f /\
                    frame f s = Some pf /\
                    disk_ s' !! pid = Some (data_ pf)).
Proof.
  induction frames as [|i frames IH]; intros s Hinv Hlt; cbn [flush_from].
  - exists s. split_and!; try done.
    + intros f p Hfp. by exists p.
    + intros i p Hi. by apply elem_of_nil in Hi.
    + intros pid. by left.
  - destruct (lookup_lt_is_Some_2 (pages_ s) i) as [p Hp].
    { rewrite (inv_pages _ _ _ _ Hinv). apply Hlt. by left. }
    rewrite Hp.
    destruct (flush_spec _ _ s (page_id_ p) Hinv)
      as (b & s1 & Hfl & Hinv1 & Hps).
    pose proof (flush_outcome _ s (page_id_ p) Hinv) as Hout.
    rewrite Hfl. cbn [bind].
    (* what the flush of this round did *)
    assert (page_table_ s1 = page_table_ s /\ replacer_ s1 = replacer_ s /\
            free_list_ s1 = free_list_ s /\
            next_page_id_ s1 = next_page_id_ s /\
            (forall f pf, frame f s = Some pf ->
               exists p', frame f s1 = Some p' /\
                          page_id_ p' = page_id_ pf /\
                          pin_count_ p' = pin_count_ pf /\
                          data_ p' = data_ pf /\
                          (is_dirty_ pf = false -> is_dirty_ p' = false)) /\
            (forall f pf,
               HashTable.lookup hash (page_table_ s) (page_id_ p) = Some f ->
               frame f s = Some pf ->
               (exists p', frame f s1 = Some p' /\ is_dirty_ p' = false) /\
               disk_ s1 !! page_id_ p = Some (data_ pf)) /\
            (forall pid,
               disk_ s1 !! pid = disk_ s !! pid \/
               exists f pf,
                 HashTable.lookup hash (page_table_ s) pid = Some f /\
                 frame f s = Some pf /\
                 disk_ s1 !! pid = Some (data_ pf)))
      as (Et & Er & Ef & En & Hframes & Hdone & Hdisk).
    { destruct (HashTable.lookup hash (page_table_ s) (page_id_ p))
        as [f0|] eqn:Hl.
      - destruct Hout as (p0 & Hfp0 & Hid0 & Hout).
        rewrite Hfl in Hout. injection Hout as -> ->.
        pose proof (frame_nonneg _ _ _ Hfp0) as Hf0.
        split_and!; cbn; try done.
        + intros f pf Hfpf. destruct (decide (f = f0)) as [->|Hne].
          * assert (pf = p0) as -> by congruence.
            exists (set_dirty false p0).
            split; [by apply (frame_set_frame_eq _ _ _ p0)|done].
          * exists pf. split; [|done]. by rewrite frame_set_frame_ne.
        + intros f pf [= <-] Hfpf. assert (pf = p0) as -> by congruence.
          split.
          * exists (set_dirty false p0).
            split; [by apply (frame_set_frame_eq _ _ _ p0)|done].
          * apply lookup_insert_eq.
        + intros pid. destruct (decide (pid = page_id_ p)) as [->|Hne].
          * right. exists f0, p0. split_and!; [done|done|].
            apply lookup_insert_eq.
          * left. by rewrite lookup_insert_ne.
      - rewrite Hfl in Hout. injection Hout as -> ->.
        split_and!; try done.
        + intros f pf Hfpf. by exists pf.
        + intros pid. by left. }
    destruct (IH s1 Hinv1) as (s' & Hrun & Hinv' & Et' & Er' & Ef' & En' & Eps'
                               & Hframes' & Hdone' & Hdisk').
    { intros j Hj. rewrite Hps. apply Hlt. by right. }
    exists s'. split; [done|]. split; [done|].
    split; [congruence|]. split; [congruence|]. split; [congruence|].
    split; [congruence|]. split; [congruence|]. split_and!.
    + intros f pf Hfpf.
      destruct (Hframes f pf Hfpf) as (p1 & Hfp1 & E1 & E2 & E3 & E4).
      destruct (Hframes' f p1 Hfp1) as (p2 & Hfp2 & F1 & F2 & F3 & F4).
      exists p2. split_and!; try congruence. intros Hc. auto.
    + intros j pj Hj Hpj f pf Hlf Hfpf.
      destruct (Hframes f pf Hfpf) as (p1 & Hfp1 & E1 & E2 & E3 & E4).
      apply elem_of_cons in Hj as [->|Hj].
      * assert (pj = p) as -> by congruence.
        destruct (Hdone f pf Hlf Hfpf) as [(p1' & Hfp1' & Hc1) Hd1].
        assert (p1' = p1) as -> by congruence.
        destruct (Hframes' f p1 Hfp1) as (p2 & Hfp2 & F1 & F2 & F3 & F4).
        split; [exists p2; split; [done|auto]|].
        destruct (Hdisk' (page_id_ p)) as [Hsame|(f2 & pf2 & Hl2 & Hf2 & Hd2)].
        -- congruence.
        -- rewrite Et in Hl2. assert (f2 = f) as -> by congruence.
           assert (pf2 = p1) as -> by congruence. congruence.
      * (* a later round *)
        assert (exists pj1, pages_ s1 !! j = Some pj1 /\
                            page_id_ pj1 = page_id_ pj) as (pj1 & Hpj1 & Eid).
        { assert (frame (Z.of_nat j) s = Some pj) as Hfj.
          { unfold frame. destruct (Z.ltb_spec (Z.of_nat j) 0); [lia|].
            by rewrite Nat2Z.id. }
          destruct (Hframes _ _ Hfj) as (pj1 & Hfj1 & E & _).
          exists pj1. split; [|done]. unfold frame in Hfj1.
          destruct (Z.ltb_spec (Z.of_nat j) 0); [lia|].
          by rewrite Nat2Z.id in Hfj1. }
        destruct (Hdone' j pj1 Hj Hpj1 f p1) as [Hc Hd];
          [rewrite Et, Eid; done|done|].
        split; [done|]. rewrite <- Eid. congruence.
    + intros pid.
      destruct (Hdisk' pid) as [Hsame|(f2 & pf2 & Hl2 & Hf2 & Hd2)].
      * destruct (Hdisk pid) as [Hs0|Hw]; [left; congruence|right].
        destruct Hw as (f0 & pf0 & ? & ? & ?). exists f0, pf0.
        split_and!; [done|done|congruence].
      * right. rewrite Et in Hl2.
        destruct (mapped_frame _ _ s pid f2 Hinv Hl2)
          as (_ & pf & _ & Hfpf & _).
        destruct (Hframes f2 pf Hfpf) as (p1 & Hfp1 & _ & _ & E3 & _).
        assert (p1 = pf2) as -> by congruence.
        exists f2, pf. split_and!; [done|done|congruence].
Qed.

(** X18.  [FlushAllPgsImp].  In a state reached by a history of calls
    the call returns, and afterwards every page of the page table is
    clean and the disk holds its data; page ids, pin counts and data of
    the frames, the page table, the free list and the replacer are as
    before. *)
Theorem flush_all_cleans_every_page pool_size k ops s :
  0 <= pool_size <= INT32_MAX -> 2 <= k ->
  Z.of_nat (length ops) <= SIZE_MAX ->
  run zero_data d hash fuel ops (make zero_data bucket_size pool_size k)
  = Ok tt s ->
  exists s',
    FlushAllPgsImp hash s = Ok tt s' /\
    page_table_ s' = page_table_ s /\ replacer_ s' = replacer_ s /\
    free_list_ s' = free_list_ s /\ next_page_id_ s' = next_page_id_ s /\
    (forall f p, frame f s = Some p ->
       exists p', frame f s' = Some p' /\ page_id_ p' = page_id_ p /\
                  pin_count_ p' = pin_count_ p /\ data_ p' = data_ p) /\
    forall page_id f,
      HashTable.lookup hash (page_table_ s) page_id = Some f ->
      exists p, frame f s = Some p /\
                frame f s' = Some (set_dirty false p) /\
                disk_ s' !! page_id = Some (data_ p).
Proof.
  intros Hp Hk Hlen Hrun.
  pose proof (run_invariant zero_data d hash bucket_size fuel pool_size k ops s
                Hp Hk Hlen Hrun) as Hinv.
  unfold FlushAllPgsImp.
  destruct (flush_from_outcome _ (seq 0 (Z.to_nat (pool_size_ s))) s Hinv)
    as (s' & Hfl & _ & Et & Er & Ef & En & _ & Hframes & Hdone & _).
  { intros i Hi. apply elem_of_seq in Hi. lia. }
  exists s'. split; [done|]. split; [done|]. split; [done|].
  split; [done|]. split; [done|]. split.
  - intros f p Hfp. destruct (Hframes f p Hfp) as (p' & ? & ? & ? & ? & _).
    by exists p'.
  - intros pid f Hl.
    destruct (mapped_frame _ _ s pid f Hinv Hl)
      as ([Hf1 _] & p & _ & Hfp & Hid & _).
    exists p. split; [done|].
    assert (pages_ s !! Z.to_nat f = Some p) as Hpg.
    { unfold frame in Hfp. by destruct (Z.ltb_spec f 0); [lia|]. }
    destruct (Hdone (Z.to_nat f) p) with (f := f) (pf := p)
      as [(p' & Hfp' & Hclean) Hdisk]; [|done|by rewrite Hid|done|].
    { apply elem_of_seq. lia. }
    destruct (Hframes f p Hfp) as (p'' & Hfp'' & E1 & E2 & E3 & _).
    assert (p'' = p') as -> by congruence.
    split; [|by rewrite <- Hid].
    rewrite Hfp'. f_equal. destruct p', p. cbn in *. by subst.
Qed.

(** X19.  [FetchPgImp].  In a state reached by a history of calls, for
    a call that returns: a page that is in the page table is returned in
    its frame with one more pin and is not evictable afterwards; nothing
    is read from or written to disk, and no other frame changes.  A page
    that is not in the page table is read from disk into a frame that
    [GetAvailableFrame] hands out, clean and with one pin; when no frame
    is available the call returns [nullptr] and changes nothing. *)
Theorem fetch_page_outcome pool_size k ops s page_id v s' :
  0 <= pool_size <= INT32_MAX -> 2 <= k ->
  Z.of_nat (length ops) < SIZE_MAX ->
  run zero_data d hash fuel ops (make zero_data bucket_size pool_size k)
  = Ok tt s ->
  FetchPgImp zero_data d hash fuel page_id s = Ok v s' ->
  match HashTable.lookup hash (page_table_ s) page_id with
  | Some f =>
      exists p,
        v = Some f /\ frame f s = Some p /\
        frame f s' = Some (set_pin_count (pin_count_ p + 1) p) /\
        (forall f', f' <> f -> frame f' s' = frame f' s) /\
        (exists e, entries_ (replacer_ s') !! f = Some e /\
                   evictable_ e = false) /\
        disk_ s' = disk_ s /\ page_table_ s' = page_table_ s /\
        free_list_ s' = free_list_ s /\ next_page_id_ s' = next_page_id_ s
  | None =>
      match v with
      | None =>
          s' = s /\ free_list_ s = [] /\
          forall f, 0 <= f < pool_size ->
                    exists p, frame f s = Some p /\ 0 < pin_count_ p
      | Some f =>
          frame f s' = Some (mkPage page_id 1 false
                               (ReadPage zero_data page_id s')) /\
          HashTable.lookup hash (page_table_ s') page_id = Some f /\
          (exists e, entries_ (replacer_ s') !! f = Some e /\
                     evictable_ e = false) /\
          (forall f', f' <> f -> frame f' s' = frame f' s) /\
          next_page_id_ s' = next_page_id_ s /\
          match free_list_ s with
          | f0 :: rest => f = f0 /\ free_list_ s' = rest /\ disk_ s' = disk_ s
          | [] =>
              free_list_ s' = [] /\
              exists p, frame f s = Some p /\ pin_count_ p = 0 /\
                        disk_ s' = if is_dirty_ p
                                   then <[page_id_ p := data_ p]> (disk_ s)
                                   else disk_ s
          end
      end
  end.
Proof.
  intros Hp Hk Hlen Hrun.
  pose proof (run_invariant zero_data d hash bucket_size fuel pool_size k ops s
                Hp Hk ltac:(lia) Hrun) as Hinv.
  pose proof (run_pool_size _ _ _ Hrun) as Hsize. cbn in Hsize.
  unfold FetchPgImp.
  rewrite (HashTableProofs.Find_lookup hash _ page_id
             (inv_table _ _ _ _ Hinv)).
  cbn [on_page_table bind]. rewrite with_page_table_id.
  destruct (HashTable.lookup hash (page_table_ s) page_id) as [f|] eqn:Hl.
  - destruct (mapped_frame _ _ s page_id f Hinv Hl)
      as (Hres & p & e & Hfp & Hid & He & Hiff & Hpin).
    rewrite Hfp. destruct (pin_count_ p =? INT32_MAX); [done|].
    cbn.
    destruct (inv_replacer _ _ _ _ Hinv) as (g & Hwf & Hclk).
    destruct (ReplacerProofs.RecordAccess_wf d f _ g Hwf ltac:(lia)
                (valid_frame _ _ _ _ _ Hinv Hres))
      as (r1 & Hra & Hwf1 & Hk1 & Hsz1).
    rewrite Hra. cbn.
    destruct (SetEvictable_ok f false r1) as [r2 Hse].
    { unfold invalid_frame. rewrite Hsz1.
      apply (valid_frame _ _ _ _ _ Hinv Hres). }
    rewrite Hse. cbn.
    destruct (RecordAccess_entries _ _ _ _ Hra) as ((e1 & He1 & _) & Hoth1).
    destruct (SetEvictable_entries _ _ _ _ Hse) as (Hoth2 & Hent2).
    rewrite He1 in Hent2. destruct Hent2 as (e2 & He2 & Hev2).
    intros Hx. simplify_eq. exists p.
    pose proof (frame_nonneg _ _ _ Hfp) as Hf0.
    split_and!; cbn; try done.
    + by apply (frame_pages_insert_eq s _ f _ p).
    + intros f' Hne. eapply (frame_pages_insert_ne s); [|done|done].
      reflexivity.
    + by exists e2.
  - pose proof (GetAvailableFrame_spec d hash _ s Hinv) as Hg.
    destruct (GetAvailableFrame d hash s) as [[f|] s1| | |] eqn:Hget;
      try done; cbn [bind].
    + destruct (install d hash fuel f page_id (ReadPage zero_data page_id s1)
                  s1) as [[] s2| | |] eqn:Hi; cbn; try done.
      intros Hx. simplify_eq.
      apply (install_outcome (Z.of_nat (length ops))) in Hi
        as (Hps & Hpages & Hfree & Hnext & Hdisk & Hmap & _ & Hent & _);
        [|done|lia].
      pose proof (inv_skip _ _ _ _ Hg f eq_refl) as Hres.
      destruct (frame_resident _ _ _ _ _ Hg Hres) as [p1 Hp1].
      pose proof (frame_nonneg _ _ _ Hp1) as Hf0.
      pose proof (GetAvailableFrame_outcome _ _ _ _ Hinv Hget) as Hout.
      assert (frame f s' = Some (mkPage page_id 1 false
                                   (ReadPage zero_data page_id s')))
        as Hnew.
      { unfold ReadPage. rewrite Hdisk.
        by apply (frame_pages_insert_eq _ _ _ _ p1 Hpages). }
      assert (forall f', f' <> f -> frame f' s' = frame f' s1) as Hold
        by (intros f' Hne; by eapply frame_pages_insert_ne).
      destruct (free_list_ s) as [|f0 rest] eqn:Hfl.
      * destruct Hout
          as (p & Hresf & Hfp & Hpin & _ & Hpg & Hfl' & Hnx & Hdk & _).
        split; [done|]. split; [done|]. split; [done|]. split.
        { intros f' Hne. rewrite Hold by done. by apply frame_pages. }
        split; [congruence|]. split; [congruence|].
        exists p. split_and!; [done|done|congruence].
      * destruct Hout as [Hv ->]. simplify_eq. cbn in *.
        split; [done|]. split; [done|]. split; [done|]. split.
        { intros f' Hne. by rewrite Hold. }
        done.
    + intros Hx. simplify_eq.
      pose proof (GetAvailableFrame_outcome _ _ _ _ Hinv Hget) as Hout.
      destruct (free_list_ s) as [|f0 rest] eqn:Hfl; [|by destruct Hout].
      destruct Hout as [-> Hall]. split_and!; try done.
      intros f Hf. apply Hall. split; [lia|]. rewrite Hfl.
      apply not_elem_of_nil.
Qed.

End Pool.

Ltac pool_bounds :=
  first [ unfold INT32_MAX; lia | cbn; unfold SIZE_MAX; lia
        | vm_compute; reflexivity ].

Lemma pool_calls_never_throw_witness :
  match run tt true to_size_t 64 busy_history (make tt 4 2 2) with
  | Throw _ _ => False
  | _ => True
  end.
Proof.
  apply (pool_calls_never_throw tt true to_size_t 4 64 2 2 busy_history);
    pool_bounds.
Defined.

Lemma pool_structures_agree_witness :
  exists s,
    run tt true to_size_t 64 busy_history (make tt 4 2 2) = Ok tt s /\
    pool_size_ s = 2 /\
    length (pages_ s) = Z.to_nat 2 /\
    NoDup (free_list_ s) /\
    (forall f, f ∈ free_list_ s -> 0 <= f < 2) /\
    (forall f, 0 <= f < 2 ->
       (is_Some (entries_ (replacer_ s) !! f) <-> f ∉ free_list_ s)) /\
    (forall page_id f,
       HashTable.lookup to_size_t (page_table_ s) page_id = Some f ->
       0 <= f < 2 /\ (f ∉ free_list_ s) /\
       exists p, frame f s = Some p /\ page_id_ p = page_id) /\
    (forall f p, frame f s = Some p -> f ∉ free_list_ s -> 0 <= pin_count_ p).
Proof.
  eexists. split; [vm_compute; reflexivity|].
  apply (pool_structures_agree tt true to_size_t 4 64 2 2 busy_history);
    pool_bounds.
Defined.

Lemma new_page_outcome_witness :
  exists s,
    run tt true to_size_t 64 pinned_history (make tt 4 2 2) = Ok tt s /\
    NewPgImp tt true to_size_t 64 s = Ok None s /\
    free_list_ s = [] /\
    forall f, 0 <= f < 2 -> exists p, frame f s = Some p /\ 0 < pin_count_ p.
Proof.
  eexists. split; [vm_compute; reflexivity|].
  split; [vm_compute; reflexivity|].
  eapply proj2.
  eapply (new_page_outcome tt true to_size_t 4 64 2 2 pinned_history _ None);
    pool_bounds.
Defined.

Lemma delete_page_outcome_witness :
  exists s,
    run tt true to_size_t 64 dirty_history (make tt 4 2 2) = Ok tt s /\
    match HashTable.lookup to_size_t (page_table_ s) 0 with
    | None => DeletePgImp tt to_size_t 0 s = Ok true s
    | Some f =>
        exists p, frame f s = Some p /\ page_id_ p = 0 /\
          if 0 <? pin_count_ p
          then DeletePgImp tt to_size_t 0 s = Ok false s
          else
            exists s',
              DeletePgImp tt to_size_t 0 s = Ok true s' /\
              frame f s' = Some (empty_page tt) /\
              (forall f', f' <> f -> frame f' s' = frame f' s) /\
              free_list_ s' = free_list_ s ++ [f] /\
              HashTable.lookup to_size_t (page_table_ s') 0 = None /\
              (forall k, k <> 0 ->
                 HashTable.lookup to_size_t (page_table_ s') k
                 = HashTable.lookup to_size_t (page_table_ s) k) /\
              entries_ (replacer_ s') !! f = None /\
              disk_ s' = disk_ s /\ next_page_id_ s' = next_page_id_ s
    end.
Proof.
  eexists. split; [vm_compute; reflexivity|].
  apply (delete_page_outcome tt true to_size_t 4 64 2 2 dirty_history);
    pool_bounds.
Defined.

(** The dirty page 0 of [dirty_history] is deleted without a write. *)
Example delete_discards_dirty_page :
  exists s s',
    run tt true to_size_t 64 dirty_history (make tt 4 2 2) = Ok tt s /\
    (is_dirty_ <$> pages_ s) = [true; false] /\
    DeletePgImp tt to_size_t 0 s = Ok true s' /\
    disk_ s' = ∅ /\ free_list_ s' = [1; 0].
Proof.
  eexists _, _. split; [vm_compute; reflexivity|].
  split; [vm_compute; reflexivity|].
  split; [vm_compute; reflexivity|]. by vm_compute.
Qed.

Lemma flush_page_outcome_witness :
  exists s,
    run tt true to_size_t 64 dirty_history (make tt 4 2 2) = Ok tt s /\
    match HashTable.lookup to_size_t (page_table_ s) 0 with
    | None => FlushPgImp to_size_t 0 s = Ok false s
    | Some f =>
        exists p s',
          frame f s = Some p /\
          FlushPgImp to_size_t 0 s = Ok true s' /\
          frame f s' = Some (mkPage 0 (pin_count_ p) false (data_ p)) /\
          (forall f', f' <> f -> frame f' s' = frame f' s) /\
          disk_ s' = <[0 := data_ p]> (disk_ s) /\
          page_table_ s' = page_table_ s /\ replacer_ s' = replacer_ s /\
          free_list_ s' = free_list_ s /\ next_page_id_ s' = next_page_id_ s
    end.
Proof.
  eexists. split; [vm_compute; reflexivity|].
  apply (flush_page_outcome tt true to_size_t 4 64 2 2 dirty_history);
    pool_bounds.
Defined.

Lemma flush_all_cleans_every_page_witness :
  exists s s',
    run tt true to_size_t 64 busy_history (make tt 4 2 2) = Ok tt s /\
    FlushAllPgsImp to_size_t s = Ok tt s' /\
    page_table_ s' = page_table_ s /\ replacer_ s' = replacer_ s /\
    free_list_ s' = free_list_ s /\ next_page_id_ s' = next_page_id_ s /\
    (forall f p, frame f s = Some p ->
       exists p', frame f s' = Some p' /\ page_id_ p' = page_id_ p /\
                  pin_count_ p' = pin_count_ p /\ data_ p' = data_ p) /\
    forall page_id f,
      HashTable.lookup to_size_t (page_table_ s) page_id = Some f ->
      exists p, frame f s = Some p /\
                frame f s' = Some (set_dirty false p) /\
                disk_ s' !! page_id = Some (data_ p).
Proof.
  eexists. 
  destruct (flush_all_cleans_every_page tt true to_size_t 4 64 2 2
              busy_history _ ltac:(pool_bounds) ltac:(pool_bounds)
              ltac:(pool_bounds) ltac:(vm_compute; reflexivity))
    as (s' & Hs').
  exists s'. split; [vm_compute; reflexivity|exact Hs'].
Defined.

Lemma fetch_page_outcome_witness :
  exists s s',
    run tt true to_size_t 64 busy_history (make tt 4 2 2) = Ok tt s /\
    FetchPgImp tt true to_size_t 64 2 s = Ok (Some 0) s' /\
    exists p,
      frame 0 s = Some p /\
      frame 0 s' = Some (set_pin_count (pin_count_ p + 1) p) /\
      disk_ s' = disk_ s.
Proof.
  eexists _, _. split; [vm_compute; reflexivity|].
  split; [vm_compute; reflexivity|].
  pose proof (fetch_page_outcome tt true to_size_t 4 64 2 2 busy_history
                _ 2 _ _ ltac:(pool_bounds) ltac:(pool_bounds)
                ltac:(pool_bounds) ltac:(vm_compute; reflexivity)
                ltac:(vm_compute; reflexivity)) as Hout.
  destruct Hout as (p & _ & Hfp & Hfp' & _ & _ & Hdisk & _).
  exists p. split_and!; [exact Hfp|exact Hfp'|exact Hdisk].
Defined.

End BufferPoolFacts.
(** * B+ tree: facts about leaf pages *)

Module BPlusTreeFacts.

Import BPlusTree BPlusTreeProofs BPlusTreeLeaf.

(** ** Arrays of slots *)

Lemma slot_lookup {A} (zero : A) l i :
  slot zero l i = default zero (l !! Z.to_nat i).
Proof. unfold slot. apply nth_lookup. Qed.

Lemma slot_put {A} (zero : A) i x l j :
  0 <= i -> 0 <= j ->
  slot zero (put zero i x l) j = if j =? i then x else slot zero l j.
Proof.
  intros Hi Hj. rewrite !slot_lookup. unfold put.
  destruct (Nat.ltb_spec (Z.to_nat i) (length l)) as [Hlt|Hge].
  - destruct (Z.eqb_spec j i) as [->|Hne].
    + by rewrite list_lookup_insert_eq.
    + rewrite list_lookup_insert_ne; [done|lia].
  - destruct (Z.eqb_spec j i) as [->|Hne].
    + rewrite lookup_app_r by lia.
      rewrite lookup_app_r by (rewrite length_replicate; lia).
      rewrite length_replicate.
      by replace (Z.to_nat i - length l - (Z.to_nat i - length l))%nat
        with 0%nat by lia.
    + destruct (decide (Z.to_nat j < length l)%nat) as [Hin|Hout].
      * by rewrite lookup_app_l.
      * rewrite lookup_app_r by lia.
        rewrite (lookup_ge_None_2 l) by lia. simpl.
        destruct (decide (Z.to_nat j < Z.to_nat i)%nat) as [Hlt|Hgt].
        -- rewrite lookup_app_l by (rewrite length_replicate; lia).
           by rewrite lookup_replicate_2 by lia.
        -- rewrite lookup_ge_None_2; [done|].
           rewrite length_app, length_replicate. simpl. lia.
Qed.

Lemma length_put {A} (zero : A) i x l :
  0 <= i ->
  length (put zero i x l) = Nat.max (length l) (S (Z.to_nat i)).
Proof.
  intros Hi. unfold put.
  destruct (Nat.ltb_spec (Z.to_nat i) (length l)) as [Hlt|Hge].
  - rewrite length_insert. lia.
  - rewrite !length_app, length_replicate. simpl. lia.
Qed.

Lemma slot_take {A} (zero : A) n l j :
  0 <= j < Z.of_nat n -> slot zero (take n l) j = slot zero l j.
Proof.
  intros Hj. rewrite !slot_lookup. by rewrite lookup_take_lt by lia.
Qed.

Lemma slot_drop {A} (zero : A) n l j :
  0 <= j -> slot zero (drop n l) j = slot zero l (Z.of_nat n + j).
Proof.
  intros Hj. rewrite !slot_lookup, lookup_drop.
  by replace (Z.to_nat (Z.of_nat n + j)) with (n + Z.to_nat j)%nat by lia.
Qed.

Lemma slot_app_l {A} (zero : A) l1 l2 j :
  0 <= j < Z.of_nat (length l1) -> slot zero (l1 ++ l2) j = slot zero l1 j.
Proof.
  intros Hj. rewrite !slot_lookup. by rewrite lookup_app_l by lia.
Qed.

Lemma slot_app_r {A} (zero : A) l1 l2 j :
  Z.of_nat (length l1) <= j ->
  slot zero (l1 ++ l2) j = slot zero l2 (j - Z.of_nat (length l1)).
Proof.
  intros Hj. rewrite !slot_lookup. rewrite lookup_app_r by lia.
  by replace (Z.to_nat (j - Z.of_nat (length l1)))
    with (Z.to_nat j - length l1)%nat by lia.
Qed.

Lemma slot_cons {A} (zero : A) x l j :
  0 < j -> slot zero (x :: l) j = slot zero l (j - 1).
Proof.
  intros Hj. unfold slot.
  by replace (Z.to_nat j) with (S (Z.to_nat (j - 1))) by lia.
Qed.

Lemma list_eq_slots {A} (zero : A) l1 l2 :
  length l1 = length l2 ->
  (forall j, 0 <= j < Z.of_nat (length l1) ->
             slot zero l1 j = slot zero l2 j) ->
  l1 = l2.
Proof.
  intros Hlen Hslot. apply (nth_ext _ _ zero zero); [done|].
  intros n Hn. specialize (Hslot (Z.of_nat n)). unfold slot in Hslot.
  rewrite Nat2Z.id in Hslot. apply Hslot. lia.
Qed.

(** The entries in use after a pair went into slot [i]. *)
Lemma entries_inserted {A} (zero : A) a a' size i x :
  (i <= size)%nat -> (size <= length a)%nat -> (size < length a')%nat ->
  (forall j, 0 <= j <= Z.of_nat size ->
     slot zero a' j
     = if j <? Z.of_nat i then slot zero a j
       else if j =? Z.of_nat i then x else slot zero a (j - 1)) ->
  take (S size) a' = take i (take size a) ++ x :: drop i (take size a).
Proof.
  intros Hi Hsize Hlen Hslot. apply (list_eq_slots zero).
  { rewrite length_app, length_cons, !length_take, length_drop, length_take.
    lia. }
  intros j Hj. rewrite length_take in Hj.
  rewrite slot_take by lia. rewrite Hslot by lia.
  destruct (Z.ltb_spec j (Z.of_nat i)) as [Hlt|Hge].
  - rewrite slot_app_l by (rewrite !length_take; lia).
    by rewrite !slot_take by lia.
  - rewrite slot_app_r by (rewrite !length_take; lia).
    rewrite !length_take.
    replace (i `min` (size `min` length a))%nat with i by lia.
    destruct (Z.eqb_spec j (Z.of_nat i)) as [->|Hne].
    + by rewrite Z.sub_diag.
    + rewrite slot_cons by lia. rewrite slot_drop by lia.
      rewrite slot_take by lia. f_equal. lia.
Qed.

(** The entries in use after the pair of slot [i] went away. *)
Lemma entries_removed {A} (zero : A) a a' size i :
  (i < size)%nat -> (size <= length a)%nat -> (size - 1 <= length a')%nat ->
  (forall j, 0 <= j < Z.of_nat size - 1 ->
     slot zero a' j
     = if j <? Z.of_nat i then slot zero a j else slot zero a (j + 1)) ->
  take (size - 1) a' = take i (take size a) ++ drop (S i) (take size a).
Proof.
  intros Hi Hsize Hlen Hslot. apply (list_eq_slots zero).
  { rewrite length_app, !length_take, length_drop, length_take. lia. }
  intros j Hj. rewrite length_take in Hj.
  rewrite slot_take by lia. rewrite Hslot by lia.
  destruct (Z.ltb_spec j (Z.of_nat i)) as [Hlt|Hge].
  - rewrite slot_app_l by (rewrite !length_take; lia).
    by rewrite !slot_take by lia.
  - rewrite slot_app_r by (rewrite !length_take; lia).
    rewrite !length_take.
    replace (i `min` (size `min` length a))%nat with i by lia.
    rewrite slot_drop by lia. rewrite slot_take by lia. f_equal. lia.
Qed.

(** ** The binary search *)

Section Search.

Context {K A : Type}.
Variable comparator : K -> K -> Z.
Variable zero : K * A.

Lemma lower_bound_spec a key : forall fuel first len,
  0 <= len <= Z.of_nat fuel ->
  (forall i j, first <= i -> i <= j -> j < first + len ->
     comparator (slot zero a j).1 key < 0 ->
     comparator (slot zero a i).1 key < 0) ->
  first <= lower_bound comparator fuel zero a key first len <= first + len /\
  (forall i, first <= i < lower_bound comparator fuel zero a key first len ->
     comparator (slot zero a i).1 key < 0) /\
  (forall i, lower_bound comparator fuel zero a key first len <= i
             < first + len ->
     ~ comparator (slot zero a i).1 key < 0).
Proof.
  induction fuel as [|fuel IH]; intros first len Hlen Hpart.
  { simpl. split; [lia|]. split; intros; lia. }
  simpl. destruct (Z.ltb_spec 0 len) as [Hpos|Hzero];
    [|split; [lia|]; split; intros; lia].
  rewrite Z.shiftr_div_pow2 by lia. change (2 ^ 1) with 2.
  assert (0 <= len / 2 < len) as Hhalf.
  { split; [apply Z.div_pos; lia|apply Z.div_lt; lia]. }
  set (half := len / 2) in *.
  destruct (Z.ltb_spec (comparator (slot zero a (first + half)).1 key) 0)
    as [Hless|Hnot].
  - destruct (IH (first + half + 1) (len - half - 1)) as (Hr & Hlo & Hhi).
    + lia.
    + intros i j Hi Hij Hj. apply Hpart; lia.
    + split; [lia|]. split.
      * intros i Hi.
        destruct (Z.le_gt_cases i (first + half)) as [Hle|Hgt].
        -- apply (Hpart i (first + half)); [lia..|done].
        -- apply Hlo. lia.
      * intros i Hi. apply Hhi. lia.
  - destruct (IH first half) as (Hr & Hlo & Hhi).
    + lia.
    + intros i j Hi Hij Hj. apply Hpart; lia.
    + split; [lia|]. split.
      * done.
      * intros i Hi Hc.
        destruct (Z.lt_ge_cases i (first + half)) as [Hlt|Hge].
        -- apply (Hhi i); [lia|done].
        -- assert (comparator (slot zero a (first + half)).1 key < 0);
             [|lia].
           apply (Hpart (first + half) i); [lia..|done].
Qed.

(** The search in entries that are split at [i] stops at [i]. *)
Lemma lower_bound_split_at a key size i :
  0 <= size <= Z.of_nat (length a) ->
  (i <= Z.to_nat size)%nat ->
  Forall (fun x => comparator x.1 key < 0) (take i (take (Z.to_nat size) a)) ->
  Forall (fun x => 0 <= comparator x.1 key)
         (drop i (take (Z.to_nat size) a)) ->
  lower_bound comparator (Z.to_nat size) zero a key 0 size = Z.of_nat i.
Proof.
  intros Hsize Hi Hlow Hhigh.
  assert (forall j, 0 <= j < Z.of_nat i ->
                    comparator (slot zero a j).1 key < 0) as Hlow'.
  { intros j Hj. rewrite Forall_lookup in Hlow.
    destruct (lookup_lt_is_Some_2 a (Z.to_nat j)) as [x Hx]; [lia|].
    rewrite slot_lookup, Hx. simpl.
    apply (Hlow (Z.to_nat j)).
    rewrite lookup_take_lt by lia. by rewrite lookup_take_lt by lia. }
  assert (forall j, Z.of_nat i <= j < size ->
                    0 <= comparator (slot zero a j).1 key) as Hhigh'.
  { intros j Hj. rewrite Forall_lookup in Hhigh.
    destruct (lookup_lt_is_Some_2 a (Z.to_nat j)) as [x Hx]; [lia|].
    rewrite slot_lookup, Hx. simpl.
    apply (Hhigh (Z.to_nat j - i)%nat).
    rewrite lookup_drop, lookup_take_lt by lia.
    by replace (i + (Z.to_nat j - i))%nat with (Z.to_nat j) by lia. }
  destruct (lower_bound_spec a key (Z.to_nat size) 0 size)
    as (Hr & Hlo & Hhi).
  - lia.
  - intros j1 j2 H1 H12 H2 Hc.
    destruct (Z.lt_ge_cases j1 (Z.of_nat i)) as [Hlt|Hge];
      [by apply Hlow'; lia|].
    assert (0 <= comparator (slot zero a j2).1 key) by (apply Hhigh'; lia).
    lia.
  - set (r := lower_bound _ _ _ _ _ _ _) in *.
    destruct (Z.lt_trichotomy r (Z.of_nat i)) as [Hlt|[Heq|Hgt]]; [|done|].
    + exfalso. apply (Hhi r); [lia|]. apply Hlow'. lia.
    + exfalso.
      assert (comparator (slot zero a (Z.of_nat i)).1 key < 0)
        by (apply Hlo; lia).
      assert (0 <= comparator (slot zero a (Z.of_nat i)).1 key)
        by (apply Hhigh'; lia).
      lia.
Qed.

End Search.

(** Runs the calls at the head of a computation. *)
Ltac steps :=
  repeat first
    [ progress rewrite !bindM_run
    | progress cbn [negb andb ret bind gets modify] ].

(** ** Writing a page *)

Section Leaf.

Context {K V : Type}.
Variable comparator : K -> K -> Z.
Variable zero_key : K.
Variable zero_value : V.

Implicit Types (t : @BPlusTree K V) (nd : @Node K V) (h : BPlusTreePage).

Lemma set_data_lookup p nd t nd0 :
  contents t !! p = Some nd0 -> contents (set_data p nd t) !! p = Some nd.
Proof.
  rewrite !contents_lookup. unfold set_data. cbn.
  rewrite lookup_alter_eq. by destruct (frames t !! p).
Qed.

Lemma set_data_other p nd t q :
  q <> p -> frames (set_data p nd t) !! q = frames t !! q.
Proof. intros Hq. unfold set_data. cbn. by rewrite lookup_alter_ne. Qed.

Lemma set_data_set_data p nd1 nd2 t :
  set_data p nd2 (set_data p nd1 t) = set_data p nd2 t.
Proof.
  unfold set_data, with_frames. cbn. f_equal.
  rewrite alter_alter_eq. by apply alter_ext.
Qed.

Lemma set_data_same p nd t :
  contents t !! p = Some nd -> set_data p nd t = t.
Proof.
  rewrite contents_lookup. intros Hc. unfold set_data, with_frames.
  destruct t as [r l i ps fr n x]. cbn in *. f_equal.
  apply map_eq. intros q. destruct (decide (q = p)) as [->|Hq].
  - rewrite lookup_alter_eq. destruct (fr !! p) as [[pin dirty nd']|]; [|done].
    cbn in *. by simplify_eq.
  - by rewrite lookup_alter_ne.
Qed.

Lemma set_node_spec p nd t nd0 :
  contents t !! p = Some nd0 -> set_node p nd t = Ok tt (set_data p nd t).
Proof.
  rewrite contents_lookup. intros Hc. unfold set_node, set_data.
  destruct (frames t !! p) as [f|] eqn:Hf; [|done].
  do 2 f_equal. apply map_eq. intros q.
  destruct (decide (q = p)) as [->|Hq].
  - by rewrite lookup_insert_eq, lookup_alter_eq, Hf.
  - by rewrite lookup_insert_ne, lookup_alter_ne.
Qed.

Lemma set_leaf_item_spec p i x t h next a :
  contents t !! p = Some (LeafPage h next a) -> 0 <= i ->
  set_leaf_item zero_key zero_value p i x t
  = Ok tt (set_data p (LeafPage h next (put (zero_item zero_key zero_value) i x a)) t).
Proof.
  intros Hc Hi. unfold set_leaf_item.
  destruct (Z.ltb_spec i 0); [lia|].
  rewrite bindM_run, node_spec, Hc. cbn [bind].
  by apply (set_node_spec p _ t (LeafPage h next a)).
Qed.

Lemma IncreaseSize_leaf p k t h next a :
  contents t !! p = Some (LeafPage h next a) ->
  IncreaseSize p k t
  = Ok tt (set_data p
             (LeafPage (mkPage (size_ h + k) (max_size_ h)
                               (parent_page_id_ h) (page_id_ h)) next a) t).
Proof.
  intros Hc. unfold IncreaseSize.
  rewrite bindM_run, fields_spec, Hc. cbn [page_fields bind].
  unfold set_fields. rewrite bindM_run, node_spec, Hc. cbn [bind].
  by apply (set_node_spec p _ t (LeafPage h next a)).
Qed.

(** [std::move_backward] by one slot inside a page. *)
Lemma leaf_copy_backward_shift p h next : forall n t a last,
  contents t !! p = Some (LeafPage h next a) ->
  Z.of_nat n <= last ->
  exists a',
    leaf_copy_backward zero_key zero_value n p last (last + 1) t
    = Ok tt (set_data p (LeafPage h next a') t) /\
    (length a <= length a')%nat /\
    (n <> 0%nat -> last < Z.of_nat (length a')) /\
    forall j, 0 <= j ->
      slot (zero_item zero_key zero_value) a' j
      = if (last - Z.of_nat n <? j) && (j <=? last) then slot (zero_item zero_key zero_value) a (j - 1)
        else slot (zero_item zero_key zero_value) a j.
Proof.
  induction n as [|n IH]; intros t a last Hc Hn.
  - exists a. simpl. rewrite (set_data_same p _ t Hc).
    split_and!; [done|done|done|].
    intros j Hj.
    change (Z.of_nat 0) with 0.
    destruct (Z.ltb_spec (last - 0) j), (Z.leb_spec j last);
      simpl; try done. lia.
  - cbn [leaf_copy_backward].
    rewrite bindM_run, (leaf_item_spec zero_key zero_value p _ t h next a Hc).
    destruct (Z.ltb_spec (last - 1) 0); [lia|]. cbn [bind].
    rewrite bindM_run.
    replace (last + 1 - 1) with last by lia.
    rewrite (set_leaf_item_spec p last _ t h next a Hc) by lia.
    cbn [bind].
    set (a1 := put (zero_item zero_key zero_value) last (slot (zero_item zero_key zero_value) a (last - 1)) a).
    destruct (IH (set_data p (LeafPage h next a1) t) a1 (last - 1))
      as (a' & Hrun & Hlen & _ & Hslot).
    + by apply (set_data_lookup p _ t (LeafPage h next a)).
    + lia.
    + replace (last - 1 + 1) with last in Hrun by lia.
      exists a'. rewrite Hrun, set_data_set_data.
      assert (length a1 = Nat.max (length a) (S (Z.to_nat last))) as Hl1
        by (apply length_put; lia).
      split_and!; [done|lia|lia|].
      intros j Hj. rewrite (Hslot j Hj).
      destruct (Z.ltb_spec (last - 1 - Z.of_nat n) j),
               (Z.leb_spec j (last - 1)),
               (Z.ltb_spec (last - Z.of_nat (S n)) j),
               (Z.leb_spec j last); simpl; try lia;
        unfold a1; rewrite slot_put by lia;
        repeat match goal with
               | |- context [Z.eqb ?x ?y] => destruct (Z.eqb_spec x y)
               end; try done; try lia; subst; f_equal; lia.
Qed.

(** [std::move] by one slot towards the front inside a page. *)
Lemma leaf_copy_shift p h next : forall n t a from,
  contents t !! p = Some (LeafPage h next a) ->
  1 <= from ->
  exists a',
    leaf_copy zero_key zero_value n p from p (from - 1) t
    = Ok tt (set_data p (LeafPage h next a') t) /\
    (length a <= length a')%nat /\
    forall j, 0 <= j ->
      slot (zero_item zero_key zero_value) a' j
      = if (from - 1 <=? j) && (j <? from - 1 + Z.of_nat n)
        then slot (zero_item zero_key zero_value) a (j + 1)
        else slot (zero_item zero_key zero_value) a j.
Proof.
  induction n as [|n IH]; intros t a from Hc Hfrom.
  - exists a. simpl. rewrite (set_data_same p _ t Hc).
    split_and!; [done|done|].
    intros j Hj.
    change (Z.of_nat 0) with 0.
    destruct (Z.leb_spec (from - 1) j), (Z.ltb_spec j (from - 1 + 0));
      simpl; try done. lia.
  - cbn [leaf_copy].
    rewrite bindM_run, (leaf_item_spec zero_key zero_value p _ t h next a Hc).
    destruct (Z.ltb_spec from 0); [lia|]. cbn [bind].
    rewrite bindM_run.
    rewrite (set_leaf_item_spec p (from - 1) _ t h next a Hc) by lia.
    cbn [bind].
    set (a1 := put (zero_item zero_key zero_value) (from - 1) (slot (zero_item zero_key zero_value) a from) a).
    destruct (IH (set_data p (LeafPage h next a1) t) a1 (from + 1))
      as (a' & Hrun & Hlen & Hslot).
    + by apply (set_data_lookup p _ t (LeafPage h next a)).
    + lia.
    + replace (from + 1 - 1) with (from - 1 + 1) in Hrun by lia.
      exists a'. rewrite Hrun, set_data_set_data.
      assert (length a1 = Nat.max (length a) (S (Z.to_nat (from - 1))))
        as Hl1 by (apply length_put; lia).
      split_and!; [done|lia|].
      intros j Hj. rewrite (Hslot j Hj).
      replace (from + 1 - 1) with from by lia.
      destruct (Z.leb_spec from j),
               (Z.ltb_spec j (from + Z.of_nat n)),
               (Z.leb_spec (from - 1) j),
               (Z.ltb_spec j (from - 1 + Z.of_nat (S n))); simpl; try lia;
        unfold a1; rewrite slot_put by lia;
        repeat match goal with
               | |- context [Z.eqb ?x ?y] => destruct (Z.eqb_spec x y)
               end; try done; try lia; subst; f_equal; lia.
Qed.

(** ** Looking up, inserting and removing in a leaf page *)

Lemma LookUp_split_at p key t h next a i :
  contents t !! p = Some (LeafPage h next a) ->
  slots_written (LeafPage h next a) ->
  split_at comparator key i (leaf_entries (LeafPage h next a)) ->
  Leaf_KeyIndex comparator zero_key zero_value p key t
  = Ok (Z.of_nat i) t /\
  LookUp comparator zero_key zero_value p key t
  = Ok (found_at comparator key i (leaf_entries (LeafPage h next a))) t.
Proof.
  intros Hc Hw (Hi & Hlow & Hhigh). cbn in Hw, Hi, Hlow, Hhigh.
  rewrite length_take in Hi.
  assert (Leaf_KeyIndex comparator zero_key zero_value p key t
          = Ok (Z.of_nat i) t) as Hki.
  { rewrite Leaf_KeyIndex_spec, Hc. f_equal.
    apply lower_bound_split_at; [done|lia|done|done]. }
  split; [done|]. unfold LookUp.
  rewrite bindM_run, Hki. cbn [bind].
  rewrite bindM_run, GetSize_spec, Hc. cbn [page_fields bind].
  unfold found_at. cbn [leaf_entries].
  destruct (Z.eqb_spec (Z.of_nat i) (size_ h)) as [Heq|Hne].
  - rewrite lookup_ge_None_2; [done|rewrite length_take; lia].
  - rewrite bindM_run,
      (leaf_item_spec zero_key zero_value p _ t h next a Hc).
    destruct (Z.ltb_spec (Z.of_nat i) 0); [lia|]. cbn [bind].
    rewrite lookup_take_lt by lia. rewrite slot_lookup, Nat2Z.id.
    destruct (lookup_lt_is_Some_2 a i) as [x Hx]; [lia|]. rewrite Hx. simpl.
    by destruct (comparator x.1 key =? 0).
Qed.

(** X20.  [KeyIndex] and [LookUp] on a leaf page whose entries are
    split by the key at position [i] (what the order of the keys
    gives): [KeyIndex] returns [i], and [LookUp] returns the value of
    entry [i] when its key compares equal to the key, and finds nothing
    otherwise, in particular when [i] is the size of the page.  The
    page is not changed. *)
Theorem leaf_lookup_outcome p key t nd i :
  contents t !! p = Some nd ->
  slots_written nd ->
  split_at comparator key i (leaf_entries nd) ->
  Leaf_KeyIndex comparator zero_key zero_value p key t
  = Ok (Z.of_nat i) t /\
  LookUp comparator zero_key zero_value p key t
  = Ok (found_at comparator key i (leaf_entries nd)) t.
Proof.
  intros Hc Hw Hs. destruct nd as [h next a|h a| |]; try done.
  by apply LookUp_split_at.
Qed.

(** X21.  [Insert] into a leaf page whose entries are split by the key
    at position [i].  When entry [i] has the key, the page is left as
    it is (the value is not replaced) and its size is returned.
    Otherwise the pair becomes entry [i], the entries from [i] on move
    up by one, the size grows by one and is returned, no other page
    changes, and [LookUp] then finds the value under the key, provided
    the key compares equal to itself. *)
Theorem leaf_insert_outcome p key value t nd i :
  contents t !! p = Some nd ->
  slots_written nd ->
  split_at comparator key i (leaf_entries nd) ->
  match found_at comparator key i (leaf_entries nd) with
  | Some _ =>
      Leaf_Insert comparator zero_key zero_value p key value t
      = Ok (Z.of_nat (length (leaf_entries nd))) t
  | None =>
      exists t' nd',
        Leaf_Insert comparator zero_key zero_value p key value t
        = Ok (Z.of_nat (length (leaf_entries nd)) + 1) t' /\
        contents t' !! p = Some nd' /\
        slots_written nd' /\
        leaf_entries nd'
        = take i (leaf_entries nd) ++ (key, value) :: drop i (leaf_entries nd)
        /\
        (forall q, q <> p -> frames t' !! q = frames t !! q) /\
        (comparator key key = 0 ->
         LookUp comparator zero_key zero_value p key t' = Ok (Some value) t')
  end.
Proof.
  intros Hc Hw Hs. destruct nd as [h next a|h a| |]; try done.
  destruct (LookUp_split_at p key t h next a i Hc Hw Hs) as [Hki _].
  destruct Hs as (Hi & Hlow & Hhigh). cbn in Hw, Hi, Hlow, Hhigh.
  rewrite length_take in Hi. cbn [leaf_entries]. rewrite length_take.
  replace (Z.of_nat (Z.to_nat (size_ h) `min` length a)) with (size_ h)
    by lia.
  unfold Leaf_Insert. rewrite bindM_run, Hki. cbn [bind].
  rewrite bindM_run, GetSize_spec, Hc. cbn [page_fields bind].
  unfold found_at.
  destruct (Z.eqb_spec (Z.of_nat i) (size_ h)) as [Heq|Hne].
  - (* the key goes behind the last entry *)
    rewrite lookup_ge_None_2 by (rewrite length_take; lia).
    steps.
    rewrite (set_leaf_item_spec p _ _ t h next a Hc) by lia. steps.
    set (a2 := put (zero_item zero_key zero_value) (Z.of_nat i) (key, value) a).
    set (t1 := set_data p (LeafPage h next a2) t).
    assert (contents t1 !! p = Some (LeafPage h next a2)) as Hc1
      by (by apply (set_data_lookup p _ t (LeafPage h next a))).
    rewrite (IncreaseSize_leaf p 1 t1 h next a2 Hc1). steps.
    unfold t1. rewrite set_data_set_data.
    set (h' := mkPage (size_ h + 1) (max_size_ h) (parent_page_id_ h)
                      (page_id_ h)).
    set (t2 := set_data p (LeafPage h' next a2) t).
    assert (contents t2 !! p = Some (LeafPage h' next a2)) as Hc2
      by (by apply (set_data_lookup p _ t (LeafPage h next a))).
    rewrite GetSize_spec, Hc2. cbn [page_fields].
    assert (length a2 = Nat.max (length a) (S (Z.to_nat (Z.of_nat i))))
      as Hl2 by (apply length_put; lia).
    assert (leaf_entries (LeafPage h' next a2)
            = take i (take (Z.to_nat (size_ h)) a)
              ++ (key, value) :: drop i (take (Z.to_nat (size_ h)) a))
      as Hes.
    { cbn [leaf_entries size_ h'].
      replace (Z.to_nat (size_ h + 1)) with (S (Z.to_nat (size_ h))) by lia.
      apply (entries_inserted (zero_item zero_key zero_value)); [lia..|].
      intros j Hj. unfold a2. rewrite slot_put by lia.
      destruct (Z.ltb_spec j (Z.of_nat i)), (Z.eqb_spec j (Z.of_nat i));
        try done; lia. }
    exists t2, (LeafPage h' next a2). split_and!; try done.
    + cbn. lia.
    + intros q Hq. by apply set_data_other.
    + intros Hrefl.
      destruct (LookUp_split_at p key t2 h' next a2 i Hc2) as [_ Hlook].
      * cbn. lia.
      * rewrite Hes. split_and!.
        -- rewrite length_app, length_cons, !length_take, length_drop,
             length_take. lia.
        -- rewrite take_app_le by (rewrite !length_take; lia).
           rewrite take_take. by replace (i `min` i)%nat with i by lia.
        -- rewrite drop_app_ge by (rewrite !length_take; lia).
           rewrite !length_take.
           replace (i - i `min` (Z.to_nat (size_ h) `min` length a))%nat
             with 0%nat by lia.
           cbn [drop]. apply Forall_cons. split; [cbn; lia|done].
      * rewrite Hlook, Hes. unfold found_at.
        rewrite lookup_app_r by (rewrite !length_take; lia).
        rewrite !length_take.
        replace (i - i `min` (Z.to_nat (size_ h) `min` length a))%nat
          with 0%nat by lia.
        cbn. by rewrite Hrefl.
  - rewrite lookup_take_lt by lia.
    destruct (lookup_lt_is_Some_2 a i) as [x Hx]; [lia|]. rewrite Hx.
    steps. rewrite (leaf_item_spec zero_key zero_value p _ t h next a Hc).
    destruct (Z.ltb_spec (Z.of_nat i) 0); [lia|]. steps.
    rewrite slot_lookup, Nat2Z.id, Hx. cbn [default from_option id].
    destruct (comparator x.1 key =? 0) eqn:Hcmp; steps.
    { by rewrite GetSize_spec, Hc. }
    (* the entries from [i] on move up *)
    unfold distance.
    destruct (Z.ltb_spec (size_ h) (Z.of_nat i)); [lia|]. steps.
    destruct (leaf_copy_backward_shift p h next
                (Z.to_nat (size_ h - Z.of_nat i)) t a (size_ h) Hc)
      as (a1 & Hrun & Hlen1 & Hlast & Hslot1); [lia|].
    rewrite Hrun. steps.
    set (t1 := set_data p (LeafPage h next a1) t).
    assert (contents t1 !! p = Some (LeafPage h next a1)) as Hc1
      by (by apply (set_data_lookup p _ t (LeafPage h next a))).
    rewrite (set_leaf_item_spec p _ _ t1 h next a1 Hc1) by lia. steps.
    unfold t1. rewrite set_data_set_data.
    set (a2 := put (zero_item zero_key zero_value) (Z.of_nat i) (key, value)
                   a1).
    set (t2 := set_data p (LeafPage h next a2) t).
    assert (contents t2 !! p = Some (LeafPage h next a2)) as Hc2
      by (by apply (set_data_lookup p _ t (LeafPage h next a))).
    rewrite (IncreaseSize_leaf p 1 t2 h next a2 Hc2). steps.
    unfold t2. rewrite set_data_set_data.
    set (h' := mkPage (size_ h + 1) (max_size_ h) (parent_page_id_ h)
                      (page_id_ h)).
    set (t3 := set_data p (LeafPage h' next a2) t).
    assert (contents t3 !! p = Some (LeafPage h' next a2)) as Hc3
      by (by apply (set_data_lookup p _ t (LeafPage h next a))).
    rewrite GetSize_spec, Hc3. cbn [page_fields].
    assert (length a2 = Nat.max (length a1) (S (Z.to_nat (Z.of_nat i))))
      as Hl2 by (apply length_put; lia).
    assert (size_ h < Z.of_nat (length a1)) as Hlast' by (apply Hlast; lia).
    assert (leaf_entries (LeafPage h' next a2)
            = take i (take (Z.to_nat (size_ h)) a)
              ++ (key, value) :: drop i (take (Z.to_nat (size_ h)) a))
      as Hes.
    { cbn [leaf_entries size_ h'].
      replace (Z.to_nat (size_ h + 1)) with (S (Z.to_nat (size_ h))) by lia.
      apply (entries_inserted (zero_item zero_key zero_value)); [lia..|].
      intros j Hj. unfold a2. rewrite slot_put by lia.
      rewrite Hslot1 by lia.
      destruct (Z.ltb_spec j (Z.of_nat i)), (Z.eqb_spec j (Z.of_nat i)),
               (Z.ltb_spec (size_ h - Z.of_nat (Z.to_nat (size_ h - Z.of_nat i))) j),
               (Z.leb_spec j (size_ h)); cbn [andb]; try done; lia. }
    exists t3, (LeafPage h' next a2). split_and!; try done.
    + cbn. lia.
    + intros q Hq. by apply set_data_other.
    + intros Hrefl.
      destruct (LookUp_split_at p key t3 h' next a2 i Hc3) as [_ Hlook].
      * cbn. lia.
      * rewrite Hes. split_and!.
        -- rewrite length_app, length_cons, !length_take, length_drop,
             length_take. lia.
        -- rewrite take_app_le by (rewrite !length_take; lia).
           rewrite take_take. by replace (i `min` i)%nat with i by lia.
        -- rewrite drop_app_ge by (rewrite !length_take; lia).
           rewrite !length_take.
           replace (i - i `min` (Z.to_nat (size_ h) `min` length a))%nat
             with 0%nat by lia.
           cbn [drop]. apply Forall_cons. split; [cbn; lia|done].
      * rewrite Hlook, Hes. unfold found_at.
        rewrite lookup_app_r by (rewrite !length_take; lia).
        rewrite !length_take.
        replace (i - i `min` (Z.to_nat (size_ h) `min` length a))%nat
          with 0%nat by lia.
        cbn. by rewrite Hrefl.
Qed.

(** X22.  [Remove] from a leaf page whose entries are split by the key
    at position [i].  When entry [i] does not have the key, the page is
    left as it is and its size is returned.  Otherwise entry [i] goes
    away, the entries behind it move down by one, the size shrinks by
    one and is returned, and no other page changes; [LookUp] then finds
    nothing under the key when no entry behind [i] has it. *)
Theorem leaf_remove_outcome p key t nd i :
  contents t !! p = Some nd ->
  slots_written nd ->
  split_at comparator key i (leaf_entries nd) ->
  match found_at comparator key i (leaf_entries nd) with
  | None =>
      Leaf_Remove comparator zero_key zero_value p key t
      = Ok (Z.of_nat (length (leaf_entries nd))) t
  | Some _ =>
      exists t' nd',
        Leaf_Remove comparator zero_key zero_value p key t
        = Ok (Z.of_nat (length (leaf_entries nd)) - 1) t' /\
        contents t' !! p = Some nd' /\
        slots_written nd' /\
        leaf_entries nd'
        = take i (leaf_entries nd) ++ drop (S i) (leaf_entries nd) /\
        (forall q, q <> p -> frames t' !! q = frames t !! q) /\
        (Forall (fun x => 0 < comparator x.1 key)
                (drop (S i) (leaf_entries nd)) ->
         LookUp comparator zero_key zero_value p key t' = Ok None t')
  end.
Proof.
  intros Hc Hw Hs. destruct nd as [h next a|h a| |]; try done.
  destruct (LookUp_split_at p key t h next a i Hc Hw Hs) as [Hki _].
  destruct Hs as (Hi & Hlow & Hhigh). cbn in Hw, Hi, Hlow, Hhigh.
  rewrite length_take in Hi. cbn [leaf_entries]. rewrite length_take.
  replace (Z.of_nat (Z.to_nat (size_ h) `min` length a)) with (size_ h)
    by lia.
  unfold Leaf_Remove. rewrite bindM_run, Hki. cbn [bind].
  rewrite bindM_run, GetSize_spec, Hc. cbn [page_fields bind].
  unfold found_at.
  destruct (Z.eqb_spec (Z.of_nat i) (size_ h)) as [Heq|Hne].
  { rewrite lookup_ge_None_2 by (rewrite length_take; lia).
    steps. by rewrite GetSize_spec, Hc. }
  rewrite lookup_take_lt by lia.
  destruct (lookup_lt_is_Some_2 a i) as [x Hx]; [lia|]. rewrite Hx.
  steps. rewrite (leaf_item_spec zero_key zero_value p _ t h next a Hc).
  destruct (Z.ltb_spec (Z.of_nat i) 0); [lia|]. steps.
  rewrite slot_lookup, Nat2Z.id, Hx. cbn [default from_option id].
  destruct (comparator x.1 key =? 0) eqn:Hcmp; steps.
  2:{ by rewrite GetSize_spec, Hc. }
  unfold distance.
  destruct (Z.ltb_spec (size_ h) (Z.of_nat i + 1)); [lia|]. steps.
  destruct (leaf_copy_shift p h next
              (Z.to_nat (size_ h - (Z.of_nat i + 1))) t a (Z.of_nat i + 1) Hc)
    as (a1 & Hrun & Hlen1 & Hslot1); [lia|].
  replace (Z.of_nat i + 1 - 1) with (Z.of_nat i) in Hrun, Hslot1 by lia.
  rewrite Hrun. steps.
  set (t1 := set_data p (LeafPage h next a1) t).
  assert (contents t1 !! p = Some (LeafPage h next a1)) as Hc1
    by (by apply (set_data_lookup p _ t (LeafPage h next a))).
  rewrite (IncreaseSize_leaf p (-1) t1 h next a1 Hc1). steps.
  unfold t1. rewrite set_data_set_data.
  set (h' := mkPage (size_ h + -1) (max_size_ h) (parent_page_id_ h)
                    (page_id_ h)).
  set (t2 := set_data p (LeafPage h' next a1) t).
  assert (contents t2 !! p = Some (LeafPage h' next a1)) as Hc2
    by (by apply (set_data_lookup p _ t (LeafPage h next a))).
  rewrite GetSize_spec, Hc2. cbn [page_fields].
  assert (leaf_entries (LeafPage h' next a1)
          = take i (take (Z.to_nat (size_ h)) a)
            ++ drop (S i) (take (Z.to_nat (size_ h)) a)) as Hes.
  { cbn [leaf_entries size_ h'].
    replace (Z.to_nat (size_ h + -1)) with (Z.to_nat (size_ h) - 1)%nat by lia.
    apply (entries_removed (zero_item zero_key zero_value)); [lia..|].
    intros j Hj. rewrite Hslot1 by lia.
    destruct (Z.ltb_spec j (Z.of_nat i)), (Z.leb_spec (Z.of_nat i) j),
             (Z.ltb_spec j (Z.of_nat i
                            + Z.of_nat (Z.to_nat (size_ h
                                                  - (Z.of_nat i + 1)))));
      cbn [andb]; try done; lia. }
  exists t2, (LeafPage h' next a1). split_and!; try done.
  - cbn. lia.
  - intros q Hq. by apply set_data_other.
  - intros Hstrict.
    destruct (LookUp_split_at p key t2 h' next a1 i Hc2) as [_ Hlook].
    + cbn. lia.
    + rewrite Hes. split_and!.
      * rewrite length_app, !length_take, length_drop, length_take. lia.
      * rewrite take_app_le by (rewrite !length_take; lia).
        rewrite take_take. by replace (i `min` i)%nat with i by lia.
      * rewrite drop_app_ge by (rewrite !length_take; lia).
        rewrite !length_take.
        replace (i - i `min` (Z.to_nat (size_ h) `min` length a))%nat
          with 0%nat by lia.
        cbn [drop]. eapply Forall_impl; [exact Hstrict|]. cbn. intros; lia.
    + rewrite Hlook, Hes. unfold found_at.
      rewrite lookup_app_r by (rewrite !length_take; lia).
      rewrite !length_take.
      replace (i - i `min` (Z.to_nat (size_ h) `min` length a))%nat
        with 0%nat by lia.
      destruct (drop (S i) (take (Z.to_nat (size_ h)) a)) as [|y ys] eqn:Hd;
        [done|].
      cbn. apply Forall_cons in Hstrict as [Hy _].
      destruct (Z.eqb_spec (comparator y.1 key) 0); [lia|done].
Qed.

End Leaf.

(** ** Calls on the tree *)

Section Tree.

Context {K V : Type}.
Variable comparator : K -> K -> Z.
Variable zero_key : K.
Variable zero_value : V.

Implicit Types (t : @BPlusTree K V) (nd : @Node K V) (h : BPlusTreePage).

Local Arguments FetchPage : simpl never.
Local Arguments UnpinPage : simpl never.
Local Arguments IsLeafPage : simpl never.
Local Arguments IsPageSafe : simpl never.
Local Arguments find_child : simpl never.
Local Arguments ReleaseWLatches : simpl never.
Local Arguments AddIntoPageSet : simpl never.
Local Arguments GetSize : simpl never.
Local Arguments GetPageId : simpl never.
Local Arguments LookUp : simpl never.
Local Arguments Leaf_Remove : simpl never.
Local Arguments Leaf_KeyIndex : simpl never.

(** On a tree that is not empty, [Insert] and [Remove] called
    without a transaction throw [std::logic_error] before they touch
    anything: [GetLeafPage] refuses a null transaction for every
    operation but a search. *)
Theorem update_requires_transaction fuel key value t :
  root_page_id_ t <> INVALID_PAGE_ID ->
  Insert comparator zero_key zero_value fuel key value false t
  = Throw logic_error t /\
  Remove comparator zero_key zero_value fuel key false t
  = Throw logic_error t.
Proof.
  intros Hroot. apply Z.eqb_neq in Hroot.
  unfold Insert, InsertIntoLeaf, Remove, GetLeafPage, GetLeafPage_pass.
  steps. cbn [IsEmpty gets bind]. rewrite Hroot. by steps.
Qed.

(** *** Searching *)

Lemma lower_bound_ge {A} (zero : K * A) a key : forall fuel first len,
  first <= lower_bound comparator fuel zero a key first len.
Proof.
  induction fuel as [|fuel IH]; intros first len; simpl; [lia|].
  destruct (Z.ltb_spec 0 len) as [Hpos|]; [|lia].
  assert (0 <= Z.shiftr len 1) by (apply Z.shiftr_nonneg; lia).
  destruct (comparator _ _ <? 0).
  - etrans; [|apply IH]. lia.
  - apply IH.
Qed.

Lemma LookUp_leaf_find p key t h next a :
  contents t !! p = Some (LeafPage h next a) ->
  LookUp comparator zero_key zero_value p key t
  = Ok (leaf_find comparator zero_key zero_value (LeafPage h next a) key) t.
Proof.
  intros Hc. unfold LookUp. rewrite bindM_run, Leaf_KeyIndex_spec, Hc.
  cbn [bind]. rewrite bindM_run, GetSize_spec, Hc. cbn [page_fields bind].
  cbn [leaf_find].
  pose proof (lower_bound_ge (zero_item zero_key zero_value) a key
                (Z.to_nat (size_ h)) 0 (size_ h)) as Hge.
  set (key_it := lower_bound _ _ _ _ _ _ _) in *.
  destruct (key_it =? size_ h); [done|].
  destruct (Z.ltb_spec key_it 0) as [|Hpos]; [lia|]. cbn [orb].
  rewrite bindM_run, (leaf_item_spec zero_key zero_value p _ t h next a Hc).
  destruct (Z.ltb_spec key_it 0); [lia|]. cbn [bind].
  by destruct (comparator _ _ =? 0).
Qed.








(** *** Removing a key that is not there *)

Lemma Leaf_Remove_absent p key t h next a :
  contents t !! p = Some (LeafPage h next a) ->
  leaf_find comparator zero_key zero_value (LeafPage h next a) key = None ->
  Leaf_Remove comparator zero_key zero_value p key t = Ok (size_ h) t.
Proof.
  intros Hc. cbn [leaf_find]. unfold Leaf_Remove.
  rewrite bindM_run, Leaf_KeyIndex_spec, Hc. cbn [bind].
  rewrite bindM_run, GetSize_spec, Hc. cbn [page_fields bind].
  pose proof (lower_bound_ge (zero_item zero_key zero_value) a key
                (Z.to_nat (size_ h)) 0 (size_ h)) as Hge.
  set (key_it := lower_bound _ _ _ _ _ _ _) in *. intros Hfind.
  assert (GetSize p t = Ok (size_ h) t) as Hsize
    by (by rewrite GetSize_spec, Hc).
  destruct (key_it =? size_ h); steps; [done|].
  rewrite (leaf_item_spec zero_key zero_value p _ t h next a Hc).
  destruct (Z.ltb_spec key_it 0); [lia|]. cbn [orb] in Hfind. steps.
  by destruct (comparator _ _ =? 0).
Qed.

(** X24.  [Remove] of a key that [GetValue] does not find, called with
    a transaction in a pool that has a frame without a pinned page for
    every page on the way from the root to the leaf, leaves the tree as
    it was: the data of every page, the root page id and the set of
    pages to delete are the same.  On a tree that is not empty the
    pages that the call pinned and recorded in the page set of the
    transaction are released again. *)
Theorem remove_absent_key fuel key t t1 :
  GetValue comparator zero_key zero_value fuel key t = Ok None t1 ->
  pinned_frames t
  + Z.of_nat (depth comparator zero_key fuel (contents t) key
                    (root_page_id_ t))
  <= pool_size_ t ->
  exists t',
    Remove comparator zero_key zero_value fuel key true t = Ok tt t' /\
    same_tree t t' /\
    (root_page_id_ t <> INVALID_PAGE_ID -> page_set_ (txn t') = []).
Proof.
  unfold GetValue, Remove. rewrite !bindM_run. cbn [IsEmpty gets bind].
  destruct (Z.eqb_spec (root_page_id_ t) INVALID_PAGE_ID) as [Hroot|Hroot].
  { intros _ _. exists t. split; [done|]. split; [apply same_tree_refl|done]. }
  unfold GetLeafPage at 1, GetLeafPage_pass at 1.
  assert (bool_decide (SEARCH = SEARCH) = true) as -> by done. steps.
  destruct (descend comparator zero_key fuel key false SEARCH true
                    (root_page_id_ t) None t) as [r t2| | |] eqn:Hd;
    try done.
  destruct (descend_search _ _ _ _ _ _ _ _ _ Hd)
    as (leaf & -> & Hfind & H2).
  steps.
  destruct (find_leaf_is_leaf comparator zero_key fuel key _ _ _ Hfind)
    as (h & next & a & Hc).
  assert (contents t2 !! leaf = Some (LeafPage h next a)) as Hc2
    by (by rewrite (same_contents _ _ H2)).
  rewrite (LookUp_leaf_find leaf key t2 h next a Hc2). steps.
  destruct (GetPageId leaf t2) as [id t4| | |]; try done. steps.
  destruct (UnpinPage id false t4) as [b t5| | |]; try done. steps.
  intros [= Habsent _] Hroom.
  destruct (GetLeafPage_update comparator zero_key fuel key DELETE t leaf)
    as (pages & t3 & -> & H3); [done..|]. steps.
  assert (contents t3 !! leaf = Some (LeafPage h next a)) as Hc3
    by (destruct H3 as (-> & _); done).
  rewrite GetSize_spec, Hc3. cbn [page_fields]. steps.
  rewrite (Leaf_Remove_absent leaf key t3 h next a Hc3 Habsent). steps.
  rewrite Z.eqb_refl.
  destruct (ReleaseWLatches_holds pages t t3 false H3) as (t' & Hrel & H' & He).
  rewrite Hrel. exists t'. split; [done|].
  split; [by eapply holds_same_tree|done].
Qed.

End Tree.

Lemma update_requires_transaction_witness :
  exists t,
    five_keys = Ok tt t /\
    Insert compare_int 0 0 8 2 99 false t = Throw logic_error t /\
    Remove compare_int 0 0 8 2 false t = Throw logic_error t.
Proof.
  eexists. split; [vm_compute; reflexivity|].
  apply (update_requires_transaction compare_int 0 0 8 2 99).
  vm_compute. discriminate.
Defined.

Ltac leaf_hypotheses :=
  first
    [ vm_compute; reflexivity
    | vm_compute; split; discriminate
    | split_and!; [vm_compute; lia|..];
        repeat constructor; vm_compute; discriminate ].

Lemma leaf_lookup_outcome_witness :
  exists t nd,
    two_keys = Ok tt t /\ contents t !! 1 = Some nd /\
    Leaf_KeyIndex compare_int 0 0 1 3 t = Ok (Z.of_nat 1) t /\
    LookUp compare_int 0 0 1 3 t
    = Ok (found_at compare_int 3 1 (leaf_entries nd)) t.
Proof.
  eexists _, _. split; [vm_compute; reflexivity|].
  split; [vm_compute; reflexivity|].
  apply (leaf_lookup_outcome compare_int 0 0 1 3 _ _ 1); leaf_hypotheses.
Defined.

Lemma leaf_insert_outcome_witness :
  exists t nd,
    two_keys = Ok tt t /\ contents t !! 1 = Some nd /\
    match found_at compare_int 2 1 (leaf_entries nd) with
    | Some _ =>
        Leaf_Insert compare_int 0 0 1 2 20 t
        = Ok (Z.of_nat (length (leaf_entries nd))) t
    | None =>
        exists t' nd',
          Leaf_Insert compare_int 0 0 1 2 20 t
          = Ok (Z.of_nat (length (leaf_entries nd)) + 1) t' /\
          contents t' !! 1 = Some nd' /\
          slots_written nd' /\
          leaf_entries nd'
          = take 1 (leaf_entries nd) ++ (2, 20) :: drop 1 (leaf_entries nd) /\
          (forall q, q <> 1 -> frames t' !! q = frames t !! q) /\
          (compare_int 2 2 = 0 ->
           LookUp compare_int 0 0 1 2 t' = Ok (Some 20) t')
    end.
Proof.
  eexists _, _. split; [vm_compute; reflexivity|].
  split; [vm_compute; reflexivity|].
  apply (leaf_insert_outcome compare_int 0 0 1 2 20 _ _ 1); leaf_hypotheses.
Defined.

Lemma leaf_remove_outcome_witness :
  exists t nd,
    two_keys = Ok tt t /\ contents t !! 1 = Some nd /\
    match found_at compare_int 1 0 (leaf_entries nd) with
    | None =>
        Leaf_Remove compare_int 0 0 1 1 t
        = Ok (Z.of_nat (length (leaf_entries nd))) t
    | Some _ =>
        exists t' nd',
          Leaf_Remove compare_int 0 0 1 1 t
          = Ok (Z.of_nat (length (leaf_entries nd)) - 1) t' /\
          contents t' !! 1 = Some nd' /\
          slots_written nd' /\
          leaf_entries nd'
          = take 0 (leaf_entries nd) ++ drop 1 (leaf_entries nd) /\
          (forall q, q <> 1 -> frames t' !! q = frames t !! q) /\
          (Forall (fun x => 0 < compare_int x.1 1)
                  (drop 1 (leaf_entries nd)) ->
           LookUp compare_int 0 0 1 1 t' = Ok None t')
    end.
Proof.
  eexists _, _. split; [vm_compute; reflexivity|].
  split; [vm_compute; reflexivity|].
  apply (leaf_remove_outcome compare_int 0 0 1 1 _ _ 0); leaf_hypotheses.
Defined.

(** In the page with the keys 1 and 3: the key 2 goes between them,
    and the key 1 goes away. *)
Example leaf_insert_and_remove :
  match two_keys with
  | Ok _ t =>
      (leaf_entries <$> contents t !! 1) = Some [(1, 10); (3, 30)] /\
      (exists t', Leaf_Insert compare_int 0 0 1 2 20 t = Ok 3 t' /\
         (leaf_entries <$> contents t' !! 1)
         = Some [(1, 10); (2, 20); (3, 30)]) /\
      (exists t', Leaf_Remove compare_int 0 0 1 1 t = Ok 1 t' /\
         (leaf_entries <$> contents t' !! 1) = Some [(3, 30)])
  | _ => False
  end.
Proof.
  vm_compute. split_and!; [reflexivity|eexists; split; reflexivity..].
Qed.


Lemma remove_absent_key_witness :
  exists t,
    five_keys = Ok tt t /\
    exists t',
      Remove compare_int 0 0 8 7 true t = Ok tt t' /\
      same_tree t t' /\
      (root_page_id_ t <> INVALID_PAGE_ID -> page_set_ (txn t') = []).
Proof.
  eexists. split; [vm_compute; reflexivity|].
  eapply (remove_absent_key compare_int 0 0 8 7).
  - vm_compute. reflexivity.
  - vm_compute. discriminate.
Defined.

End BPlusTreeFacts.
(** * Index iterator: facts *)

Module IteratorFacts.

Import BPlusTree BPlusTreeProofs BPlusTreeLeaf BPlusTreeFacts Iterator.

Section Iterators.

Context {K V : Type}.
Variable comparator : K -> K -> Z.
Variable zero_key : K.
Variable zero_value : V.

Implicit Types (t : @BPlusTree K V) (it : IndexIterator).

Lemma increment_page_id it t it' t' :
  increment it t = Ok it' t' ->
  page_id_ it' = page_id_ it.
Proof.
  unfold increment. destruct (page_ it) as [leaf_page|]; [|done]. steps.
  destruct (GetNextPageId leaf_page t) as [next t1| | |]; try done. steps.
  destruct (GetSize leaf_page t1) as [size t2| | |]; try done. steps.
  destruct ((index_ it =? size - 1) && negb (next =? INVALID_PAGE_ID)).
  - steps. destruct (FetchPage next t2) as [[page|] t3| | |]; try done.
    steps. destruct (GetPageId leaf_page t3) as [id t4| | |]; try done.
    steps. destruct (UnpinPage id false t4) as [b t5| | |]; try done.
    steps. by intros [= <- _].
  - destruct (index_ it =? INT32_MAX); [done|]. steps. by intros [= <- _].
Qed.

Lemma increments_page_id : forall n it t it' t',
  increments n it t = Ok it' t' ->
  page_id_ it' = page_id_ it.
Proof.
  induction n as [|n IH]; intros it t it' t'; cbn [increments].
  - steps. by intros [= <- _].
  - steps.
    destruct (increment it t) as [it1 t1| | |] eqn:Hi;
      try done.
    steps. intros Hn. rewrite (IH _ _ _ _ Hn).
    by eapply increment_page_id.
Qed.

(** X25.  [operator++] never updates [page_id_], the member that
    [operator==] and [operator!=] compare: an iterator keeps the page
    id it was built with when it moves on to the next leaf page.  So an
    iterator that [Begin()] returned on the leaf page [p] never becomes
    equal to the iterator that [End()] returned on another leaf page,
    however often it is incremented. *)
Theorem begin_never_equals_end fuel t b t1 e t2 p q n it t3 :
  Begin zero_key fuel t = Ok b t1 ->
  End zero_key fuel t1 = Ok e t2 ->
  page_ b = Some p -> page_ e = Some q -> p <> q ->
  increments n b t2 = Ok it t3 ->
  equal it e = false /\ not_equal it e = true.
Proof.
  intros Hb He Hp Hq Hpq Hn.
  assert (page_id_ b = p) as Hbid.
  { revert Hb. unfold Begin. steps. cbn [IsEmpty gets bind].
    destruct (root_page_id_ t =? INVALID_PAGE_ID); steps.
    - intros [= <- _]. done.
    - destruct (GetLeftMostLeafPage zero_key fuel t) as [page t'| | |];
        try done.
      steps. intros [= <- _]. cbn in *. by simplify_eq. }
  assert (page_id_ e = q) as Heid.
  { revert He. unfold End. steps. cbn [IsEmpty gets bind].
    destruct (root_page_id_ t1 =? INVALID_PAGE_ID); steps.
    - intros [= <- _]. done.
    - destruct (GetRightMostLeafPage zero_key fuel t1) as [page t'| | |];
        try done.
      steps. destruct (GetSize page t') as [size t''| | |]; try done.
      steps. intros [= <- _]. cbn in *. by simplify_eq. }
  apply increments_page_id in Hn.
  unfold equal, not_equal. rewrite Hn, Hbid, Heid.
  destruct (Z.eqb_spec p q); [done|]. done.
Qed.

(** ** Scanning the leaf pages *)







End Iterators.

Lemma begin_never_equals_end_witness :
  exists t b t1 e t2 it t3,
    five_keys = Ok tt t /\
    Begin 0 8 t = Ok b t1 /\
    End 0 8 t1 = Ok e t2 /\
    increments 5 b t2 = Ok it t3 /\
    equal it e = false /\ not_equal it e = true.
Proof.
  eexists _, _, _, _, _, _, _.
  lazymatch goal with
  | |- _ = Ok tt ?t /\ _ = Ok ?b ?t1 /\ _ = Ok ?e ?t2 /\ _ = Ok ?it ?t3 /\ _ =>
      split; [vm_compute; reflexivity|];
      split; [vm_compute; reflexivity|];
      split; [vm_compute; reflexivity|];
      split; [vm_compute; reflexivity|];
      apply (begin_never_equals_end 0 8 t b t1 e t2 1 2 5 it t3);
      first [vm_compute; reflexivity | vm_compute; discriminate]
  end.
Defined.



(** In that tree the slots behind the two entries of leaf 1 still hold
    the pairs that moved to leaf 2 when the page was split: the scan
    from [Begin(3)] reads them. *)
Example scan_behind_leaf :
  match gap_keys with
  | Ok _ t =>
      exists it t1, Begin_key compare_int 0 0 8 3 t = Ok it t1 /\
        deref 0 0 it t1 = Ok (4, 40) t1
  | _ => False
  end.
Proof. vm_compute. eexists _, _. split; reflexivity. Qed.

End IteratorFacts.
(** * Deadlock detection: facts about the cycle search *)

Module DeadlockFacts.

Import LockManager LockManagerProofs Deadlock.

Lemma flag_of_spec next st v st1 :
  flag_of next st = (v, st1) ->
  flags_ok st ->
  cycle_stack st1 = cycle_stack st /\
  has_traversed_txn_set st1 = has_traversed_txn_set st /\
  flags_ok st1 /\
  (v = 1 <-> next ∈ cycle_stack st).
Proof.
  unfold flag_of. intros Hf Hok.
  destruct (traversed_flag st !! next) as [v'|] eqn:Hv; simplify_eq.
  - split_and!; try done. rewrite <- (Hok next), Hv.
    split; [by intros ->|congruence].
  - simpl. split_and!; try done.
    + intros x. simpl. rewrite <- (Hok x).
      destruct (decide (x = next)) as [->|Hne].
      * rewrite lookup_insert_eq, Hv. split; discriminate.
      * by rewrite lookup_insert_ne.
    + rewrite <- (Hok next), Hv. split; discriminate.
Qed.

Lemma pop_flags_ok n st stack :
  cycle_stack st = n :: stack -> n ∉ stack -> flags_ok st ->
  flags_ok (pop n st) /\ cycle_stack (pop n st) = stack.
Proof.
  intros Hst Hn Hok. split; [|simpl; by rewrite Hst].
  intros x. simpl. rewrite Hst. simpl.
  destruct (decide (x = n)) as [->|Hne].
  - rewrite lookup_insert_eq. split; [discriminate|done].
  - rewrite lookup_insert_ne by done. rewrite (Hok x), Hst.
    rewrite elem_of_cons. split; [by intros [?|?]|by right].
Qed.

Lemma push_flags_ok n st :
  flags_ok st -> flags_ok (push n st).
Proof.
  intros Hok x. simpl. rewrite elem_of_cons.
  destruct (decide (x = n)) as [->|Hne].
  - rewrite lookup_insert_eq. split; [by left|done].
  - rewrite lookup_insert_ne by done. rewrite (Hok x).
    split; [by right|by intros [?|?]].
Qed.

Lemma NoDup_length_size (l : list Z) (N : gset Z) :
  NoDup l -> (forall x, x ∈ l -> x ∈ N) -> (length l <= size N)%nat.
Proof.
  intros Hnd Hsub.
  rewrite <- (size_list_to_set (C := gset Z) l) by done.
  apply subseteq_size. intros x Hx. apply Hsub.
  by apply elem_of_list_to_set in Hx.
Qed.

Section Search.

Variable order : gset Z -> list Z.
Hypothesis order_elem : forall ts x, x ∈ order ts <-> x ∈ ts.
Variable w : gmap Z (gset Z).
Variable N : gset Z.
Hypothesis edge_closed : forall a b, edge w a b -> b ∈ N.

(** What a call [DFS(n, ...)] from the state [st] has done when it
    returns [b] in the state [st']. *)
Lemma DFS_spec : forall fuel n st,
  flags_ok st -> NoDup (cycle_stack st) ->
  (forall x, x ∈ cycle_stack st -> x ∈ N) ->
  n ∈ N -> n ∉ cycle_stack st -> chain w (n :: cycle_stack st) ->
  (size N < fuel + length (cycle_stack st))%nat ->
  exists b st', DFS order fuel w n st = Some (b, st') /\
    has_traversed_txn_set st ⊆ has_traversed_txn_set st' /\
    n ∈ has_traversed_txn_set st' /\
    (forall x, x ∈ has_traversed_txn_set st' ->
               x ∈ has_traversed_txn_set st \/ rtc (edge w) n x) /\
    if b then
      (exists pre, cycle_stack st' = pre ++ n :: cycle_stack st) /\
      closes_cycle w (cycle_stack st')
    else
      cycle_stack st' = cycle_stack st /\ flags_ok st' /\
      ~ doomed w (cycle_stack st) n.
Proof.
  induction fuel as [|fuel IH]; intros n st Hok Hnd Hsub HnN Hn Hch Hsz.
  { exfalso.
    assert (length (n :: cycle_stack st) <= size N)%nat as Hle.
    { apply NoDup_length_size; [by apply NoDup_cons|].
      intros x [->|Hx]%elem_of_cons; [done|by apply Hsub]. }
    simpl in Hle, Hsz. lia. }
  simpl.
  destruct (w !! n) as [ts|] eqn:Hw.
  2:{ destruct (pop_flags_ok n (push n st) (cycle_stack st)) as [Hok' Hst'];
        [done|done|by apply push_flags_ok|].
      exists false, (pop n (push n st)). split_and!; try done.
      - simpl. apply union_subseteq_r.
      - simpl. apply elem_of_union_l. by apply elem_of_singleton.
      - simpl. intros x [Hx|Hx]%elem_of_union; [|by left].
        apply elem_of_singleton in Hx as ->. by right.
      - intros Hd. inversion Hd as [? ? m He _|? ? m He _];
          destruct He as [ts [Hts _]]; congruence. }
  set (S0 := cycle_stack st) in *.
  set (T0 := has_traversed_txn_set st) in *.
  assert (forall l cur,
    cycle_stack cur = n :: S0 -> flags_ok cur ->
    (forall x, x ∈ l -> x ∈ ts) ->
    (forall m, m ∈ ts ->
       m ∈ l \/ ((m ∉ n :: S0) /\ ~ doomed w (n :: S0) m)) ->
    T0 ⊆ has_traversed_txn_set cur -> n ∈ has_traversed_txn_set cur ->
    (forall x, x ∈ has_traversed_txn_set cur ->
               x ∈ T0 \/ rtc (edge w) n x) ->
    exists b st', visit (DFS order fuel w) n l cur = Some (b, st') /\
      T0 ⊆ has_traversed_txn_set st' /\
      n ∈ has_traversed_txn_set st' /\
      (forall x, x ∈ has_traversed_txn_set st' ->
                 x ∈ T0 \/ rtc (edge w) n x) /\
      if b then
        (exists pre, cycle_stack st' = pre ++ n :: S0) /\
        closes_cycle w (cycle_stack st')
      else
        cycle_stack st' = S0 /\ flags_ok st' /\ ~ doomed w S0 n) as Hvisit.
  { induction l as [|next l IHl];
      intros cur Hst Hcok Hl Hdone HT0 HnT HT.
    - simpl.
      destruct (pop_flags_ok n cur S0 Hst Hn Hcok) as [Hok' Hst'].
      exists false, (pop n cur). split_and!; try done.
      intros Hd.
      inversion Hd as [? ? m He Hin|? ? m He Hdm]; subst;
        destruct He as [ts' [Hts Hm]];
        rewrite Hw in Hts; simplify_eq;
        destruct (Hdone m Hm) as [Hnil|[Hfresh Hsafe]];
        try (by apply elem_of_nil in Hnil); done.
    - simpl.
      destruct (flag_of next cur) as [v st1] eqn:Hf.
      destruct (flag_of_spec _ _ _ _ Hf Hcok) as (Hst1 & HT1 & Hok1 & Hv).
      assert (edge w n next) as Hedge.
      { exists ts. split; [done|]. apply Hl. by left. }
      destruct (v =? 1) eqn:Hv1.
      + apply Z.eqb_eq in Hv1. apply Hv in Hv1. rewrite Hst in Hv1.
        exists true, st1. rewrite HT1, Hst1, Hst. split_and!; try done.
        * by exists (@nil Z).
        * split; [done|]. exists n, next. by split_and!.
      + apply Z.eqb_neq in Hv1.
        assert (next ∉ n :: S0) as Hfresh.
        { intros Hin. apply Hv1, Hv. by rewrite Hst. }
        destruct (IH next st1) as (b & st2 & Hdfs & HTa & HTb & HTc & Hpost).
        * done.
        * rewrite Hst1, Hst. by apply NoDup_cons.
        * rewrite Hst1, Hst. intros x [->|Hx]%elem_of_cons; [done|].
          by apply Hsub.
        * by apply (edge_closed n).
        * by rewrite Hst1, Hst.
        * rewrite Hst1, Hst. by split.
        * rewrite Hst1, Hst. simpl. simpl in Hsz. lia.
        * rewrite Hdfs. rewrite HT1 in HTa, HTc.
          assert (forall x, x ∈ has_traversed_txn_set st2 ->
                            x ∈ T0 \/ rtc (edge w) n x) as HT2.
          { intros x Hx. destruct (HTc x Hx) as [Hx'|Hx'].
            - by apply HT.
            - right. by eapply rtc_l. }
          destruct b.
          -- destruct Hpost as [[pre Hpre] Hcyc].
             exists true, st2. split_and!; try done.
             ++ by etrans.
             ++ by apply HTa.
             ++ exists (pre ++ [next]). rewrite Hpre, Hst1, Hst.
                by rewrite <- app_assoc.
          -- destruct Hpost as (Hst2 & Hok2 & Hsafe).
             rewrite Hst1, Hst in Hst2, Hsafe.
             apply IHl; try done.
             ++ intros x Hx. apply Hl. by right.
             ++ intros m Hm. destruct (Hdone m Hm) as [Hin|Hin]; [|by right].
                apply elem_of_cons in Hin as [->|Hin]; [by right|by left].
             ++ by etrans.
             ++ by apply HTa. }
  destruct (Hvisit (order ts) (push n st)) as (b & st' & Hv & Hpost).
  - done.
  - by apply push_flags_ok.
  - intros x Hx. by apply order_elem.
  - intros m Hm. left. by apply order_elem.
  - simpl. apply union_subseteq_r.
  - simpl. apply elem_of_union_l. by apply elem_of_singleton.
  - simpl. intros x [Hx|Hx]%elem_of_union; [|by left].
    apply elem_of_singleton in Hx as ->. by right.
  - exists b, st'. by split.
Qed.

End Search.

(** ** Stacks that close a cycle *)

Lemma chain_rtc w : forall pre m rest top,
  chain w (pre ++ m :: rest) -> head (pre ++ m :: rest) = Some top ->
  rtc (edge w) m top.
Proof.
  induction pre as [|a pre IH]; intros m rest top Hch Hhd; simpl in *.
  - by simplify_eq.
  - simplify_eq.
    destruct (pre ++ m :: rest) as [|b l] eqn:Hl.
    + by destruct pre.
    + destruct Hch as [Hedge Hch].
      eapply rtc_r; [|exact Hedge].
      apply (IH m rest b); [by rewrite Hl|by rewrite Hl].
Qed.

Lemma closes_cycle_tc w stack :
  closes_cycle w stack -> exists c, c ∈ stack /\ tc (edge w) c c.
Proof.
  intros [Hch (top & m & Hhd & Hedge & Hm)].
  apply list_elem_of_split in Hm as (pre & rest & ->).
  exists top. split.
  - destruct pre; simpl in Hhd; simplify_eq; by left.
  - eapply tc_rtc_r; [by apply tc_once|]. by eapply chain_rtc.
Qed.

Lemma chain_out w : forall stack x,
  chain w stack -> x ∈ tail stack -> exists y, edge w x y.
Proof.
  induction stack as [|a stack IH]; intros x Hch Hx; simpl in *.
  - by apply elem_of_nil in Hx.
  - destruct stack as [|b stack]; [by apply elem_of_nil in Hx|].
    destruct Hch as [Hedge Hch].
    apply elem_of_cons in Hx as [->|Hx]; [by exists a|].
    by apply IH.
Qed.

Lemma closes_cycle_out w stack x :
  closes_cycle w stack -> x ∈ stack -> exists y, edge w x y.
Proof.
  intros [Hch (top & m & Hhd & Hedge & Hm)] Hx.
  destruct stack as [|a stack]; [by apply elem_of_nil in Hx|].
  simpl in Hhd. simplify_eq.
  apply elem_of_cons in Hx as [->|Hx]; [by exists m|].
  by apply (chain_out w (top :: stack)).
Qed.

Lemma foldl_max_spec : forall rest top,
  foldl (fun txn_id x => Z.max x txn_id) top rest ∈ top :: rest /\
  forall x, x ∈ top :: rest ->
            x <= foldl (fun txn_id x => Z.max x txn_id) top rest.
Proof.
  induction rest as [|a rest IH]; intros top; simpl.
  - split; [by left|]. intros x Hx%list_elem_of_singleton. lia.
  - destruct (IH (Z.max a top)) as [Hin Hmax]. split.
    + apply elem_of_cons in Hin as [Hin|Hin]; [|by do 2 right].
      rewrite Hin. destruct (Z.max_spec a top) as [[_ ->]|[_ ->]];
        [by left|right; by left].
    + intros x Hx.
      assert (x <= Z.max a top \/ x ∈ rest) as [Hle|Hin'].
      { apply elem_of_cons in Hx as [->|Hx]; [left; lia|].
        apply elem_of_cons in Hx as [->|Hx]; [left; lia|by right]. }
      * etrans; [exact Hle|]. apply Hmax. by left.
      * apply Hmax. by right.
Qed.

Lemma largest_spec stack v :
  largest stack = Some v -> v ∈ stack /\ forall x, x ∈ stack -> x <= v.
Proof.
  destruct stack as [|top rest]; [done|]. simpl. intros [= <-].
  apply foldl_max_spec.
Qed.

(** ** Walks that run into a cycle *)

Lemma doomed_tc w : forall m c stack,
  tc (edge w) m c -> c ∈ m :: stack -> doomed w stack m.
Proof.
  intros m c stack Htc. revert stack.
  induction Htc as [m c Hedge|m x c Hedge _ IH]; intros stack Hc.
  - by eapply doomed_hit.
  - eapply doomed_step; [exact Hedge|]. apply IH. by right.
Qed.

Lemma reaches_cycle_doomed w n stack :
  reaches_cycle w n -> doomed w stack n.
Proof.
  intros (c & Hreach & Hcyc). revert stack.
  induction Hreach as [c|n x c Hedge _ IH]; intros stack.
  - eapply doomed_tc; [exact Hcyc|by left].
  - eapply doomed_step; [exact Hedge|]. by apply IH.
Qed.

Lemma reaches_cycle_rtc w n x :
  rtc (edge w) n x -> reaches_cycle w x -> reaches_cycle w n.
Proof.
  intros Hnx (c & Hxc & Hcyc). exists c. split; [by etrans|done].
Qed.

(** ** The smallest candidate *)

Lemma next_min_list (T : gset Z) : forall l : list (Z * Z),
  let m := foldr (fun '(key, val) min_txn_id =>
                    if (val =? 1) && bool_decide (key ∉ T)
                    then Z.min min_txn_id key else min_txn_id)
                 INT_MAX l in
  m <= INT_MAX /\
  (m = INT_MAX \/ ((m, 1) ∈ l /\ m ∉ T)) /\
  forall key, (key, 1) ∈ l -> key ∉ T -> m <= key.
Proof.
  induction l as [|[key val] l IH]; simpl.
  - split_and!; [done|by left|]. intros key Hk. by apply elem_of_nil in Hk.
  - simpl in IH. destruct IH as (Hle & Hm & Hmin).
    set (m := foldr _ INT_MAX l) in *.
    destruct ((val =? 1) && bool_decide (key ∉ T)) eqn:Hc.
    + apply andb_true_iff in Hc as [Hv%Z.eqb_eq HT%bool_decide_eq_true_1].
      subst val. split_and!.
      * lia.
      * destruct (Z.min_spec m key) as [[Hlt ->]|[Hge ->]].
        -- destruct Hm as [Hm|[Hin Hm]]; [by left|right].
           split; [by right|done].
        -- right. split; [by left|done].
      * intros k Hk HkT. apply elem_of_cons in Hk as [Hk|Hk].
        -- simplify_eq. lia.
        -- specialize (Hmin k Hk HkT). lia.
    + split_and!; [done| |].
      * destruct Hm as [->|[Hin Hm]]; [by left|right]. split; [by right|done].
      * intros k Hk HkT. apply elem_of_cons in Hk as [Hk|Hk]; [|by apply Hmin].
        simplify_eq. exfalso.
        by rewrite Z.eqb_refl, bool_decide_eq_true_2 in Hc.
Qed.

Lemma next_min_spec ids T :
  next_min ids T <= INT_MAX /\
  (next_min ids T = INT_MAX \/
   (ids !! next_min ids T = Some 1 /\ next_min ids T ∉ T)) /\
  forall key, ids !! key = Some 1 -> key ∉ T -> next_min ids T <= key.
Proof.
  destruct (next_min_list T (map_to_list ids)) as (Hle & Hm & Hmin).
  unfold next_min. split_and!; [done| |].
  - destruct Hm as [Hm|[Hin Hm]]; [by left|right].
    split; [by apply elem_of_map_to_list|done].
  - intros key Hk HT. apply Hmin; [by apply elem_of_map_to_list|done].
Qed.

Lemma first_min_next_min ids : first_min ids = next_min ids ∅.
Proof.
  unfold first_min, next_min. apply foldr_ext; [|done|done].
  intros [key val] acc.
  rewrite (bool_decide_eq_true_2 (key ∉ (∅ : gset Z)))
    by apply not_elem_of_empty.
  by rewrite andb_true_r.
Qed.

Lemma elem_of_nodes s x :
  x ∈ nodes s <->
  is_Some (txn_id_set_ s !! x) \/ is_Some (waits_for_ s !! x) \/
  exists a, has_edge s a x.
Proof.
  unfold nodes. rewrite !elem_of_union, !elem_of_dom, elem_of_union_list.
  split.
  - intros [[?|?]|(ts & Hts & Hx)]; [by left|right; by left|].
    right. right.
    apply list_elem_of_fmap in Hts as ([a ts'] & -> & Hin).
    apply elem_of_map_to_list in Hin. exists a, ts'. by split.
  - intros [?|[?|(a & ts & Hts & Hx)]]; [left; by left|left; by right|].
    right. exists ts. split; [|done].
    apply list_elem_of_fmap. exists (a, ts). split; [done|].
    by apply elem_of_map_to_list.
Qed.

(** ** Building the graph *)

Section Build.

Variable P : LockManager -> Prop.
Variable Q : Z -> Prop.
Hypothesis P_AddEdge :
  forall t1 t2 s, Q t1 -> Q t2 -> P s -> P (AddEdge t1 t2 s).

Lemma table_edges_from_preserves first : forall rest s,
  Q (req_txn_id_ first) -> (forall r, r ∈ rest -> Q (req_txn_id_ r)) ->
  P s -> P (table_edges_from first rest s).
Proof.
  induction rest as [|second rest IH]; intros s Hf Hr Hs; simpl; [done|].
  assert (Q (req_txn_id_ second)) as Hq by (apply Hr; by left).
  apply IH; [done|intros r Hin; apply Hr; by right|].
  destruct (conflicting first second); [|done].
  destruct (granted_ first); by apply P_AddEdge.
Qed.

Lemma table_edges_preserves : forall l s,
  (forall r, r ∈ l -> Q (req_txn_id_ r)) -> P s -> P (table_edges l s).
Proof.
  induction l as [|first rest IH]; intros s Hl Hs; simpl; [done|].
  apply IH; [intros r Hin; apply Hl; by right|].
  apply table_edges_from_preserves; [apply Hl; by left| |done].
  intros r Hin. apply Hl. by right.
Qed.

Lemma row_edges_from_preserves first : forall rest s,
  Q (req_txn_id_ first) -> (forall r, r ∈ rest -> Q (req_txn_id_ r)) ->
  P s -> P (row_edges_from first rest s).
Proof.
  induction rest as [|second rest IH]; intros s Hf Hr Hs; simpl; [done|].
  assert (Q (req_txn_id_ second)) as Hq by (apply Hr; by left).
  apply IH; [done|intros r Hin; apply Hr; by right|].
  destruct (conflicting first second); [|done].
  destruct (granted_ first); by apply P_AddEdge.
Qed.

Lemma row_edges_preserves : forall l s,
  (forall r, r ∈ l -> Q (req_txn_id_ r)) -> P s -> P (row_edges l s).
Proof.
  induction l as [|first rest IH]; intros s Hl Hs; simpl; [done|].
  apply IH; [intros r Hin; apply Hl; by right|].
  apply row_edges_from_preserves; [apply Hl; by left| |done].
  intros r Hin. apply Hl. by right.
Qed.

Lemma build_waits_for_preserves s :
  (forall oid q r, table_lock_map_ s !! oid = Some q ->
                   r ∈ request_queue_ q -> Q (req_txn_id_ r)) ->
  (forall rid q r, row_lock_map_ s !! rid = Some q ->
                   r ∈ request_queue_ q -> Q (req_txn_id_ r)) ->
  P s -> P (build_waits_for s).
Proof.
  intros Htab Hrow Hs. unfold build_waits_for.
  assert (forall (l : list (RID * LockRequestQueue)) s0,
            (forall k q, (k, q) ∈ l -> row_lock_map_ s !! k = Some q) ->
            P s0 ->
            P (foldr (fun '(_, q) acc => row_edges (request_queue_ q) acc)
                     s0 l)) as Hrows.
  { induction l as [|[k q] l IH]; intros s0 Hl Hs0; simpl; [done|].
    apply row_edges_preserves.
    - intros r Hr. apply (Hrow k q r); [apply Hl; by left|done].
    - apply IH; [|done]. intros k' q' Hin. apply Hl. by right. }
  assert (forall (l : list (Z * LockRequestQueue)) s0,
            (forall k q, (k, q) ∈ l -> table_lock_map_ s !! k = Some q) ->
            P s0 ->
            P (foldr (fun '(_, q) acc => table_edges (request_queue_ q) acc)
                     s0 l)) as Htabs.
  { induction l as [|[k q] l IH]; intros s0 Hl Hs0; simpl; [done|].
    apply table_edges_preserves.
    - intros r Hr. apply (Htab k q r); [apply Hl; by left|done].
    - apply IH; [|done]. intros k' q' Hin. apply Hl. by right. }
  apply Hrows; [intros k q Hin; by apply elem_of_map_to_list|].
  apply Htabs; [intros k q Hin; by apply elem_of_map_to_list|done].
Qed.

End Build.

Lemma build_waits_for_graph_ok s :
  graph_ok s -> requests_ok s ->
  graph_ok (build_waits_for s) /\
  table_lock_map_ (build_waits_for s) = table_lock_map_ s /\
  row_lock_map_ (build_waits_for s) = row_lock_map_ s /\
  txn_map_ (build_waits_for s) = txn_map_ s.
Proof.
  intros Hok [Htab Hrow].
  apply (build_waits_for_preserves
           (fun s' => graph_ok s' /\
                      table_lock_map_ s' = table_lock_map_ s /\
                      row_lock_map_ s' = row_lock_map_ s /\
                      txn_map_ s' = txn_map_ s)
           (fun t => t < INT_MAX /\ is_Some (txn_map_ s !! t))).
  - intros t1 t2 s' [Hlt1 Hk1] _ (Hok' & Ht & Hr & Hm).
    split_and!; try done.
    intros a b Hab. apply has_edge_AddEdge in Hab.
    assert (forall x, txn_id_set_ s' !! x = Some 1 \/ x = t1 ->
                      txn_id_set_ (AddEdge t1 t2 s') !! x = Some 1) as Hmark.
    { intros x Hx. simpl.
      destruct (decide (x = t2)) as [->|Hne2]; [by rewrite lookup_insert_eq|].
      rewrite lookup_insert_ne by done.
      destruct (decide (x = t1)) as [->|Hne1]; [by rewrite lookup_insert_eq|].
      rewrite lookup_insert_ne by done. by destruct Hx. }
    change (txn_map_ (AddEdge t1 t2 s')) with (txn_map_ s'). rewrite Hm.
    destruct Hab as [[-> ->]|Hab].
    + split_and!; [apply Hmark; by right|done|done].
    + destruct (Hok' a b Hab) as (Hid & Hlt & Hk). rewrite Hm in Hk.
      split_and!; [apply Hmark; by left|done|done].
  - exact Htab.
  - exact Hrow.
  - by split_and!.
Qed.

(** ** Removing a victim *)

Lemma remove_edges_fold v : forall (l : list (Z * gset Z)) s0,
  let s' := foldr (fun '(key, _) acc => RemoveEdge key v acc) s0 l in
  table_lock_map_ s' = table_lock_map_ s0 /\
  row_lock_map_ s' = row_lock_map_ s0 /\
  txn_id_set_ s' = txn_id_set_ s0 /\
  txn_map_ s' = txn_map_ s0 /\
  forall a, waits_for_ s' !! a
            = if decide (a ∈ l.*1)
              then Some (default ∅ (waits_for_ s0 !! a) ∖ {[v]})
              else waits_for_ s0 !! a.
Proof.
  induction l as [|[key ts] l IH]; intros s0; simpl.
  - by split_and!.
  - destruct (IH s0) as (Ht & Hr & Hi & Hm & Hw). split_and!; try done.
    intros a. destruct (decide (a = key)) as [->|Hne].
    + rewrite lookup_insert_eq, decide_True by by left.
      rewrite Hw. f_equal. destruct (decide (key ∈ l.*1)); simpl; [|done].
      apply set_eq. intros x. rewrite !elem_of_difference. tauto.
    + rewrite lookup_insert_ne by done. rewrite Hw.
      destruct (decide (a ∈ l.*1)) as [Hin|Hout].
      * by rewrite decide_True by by right.
      * rewrite decide_False; [done|].
        by intros [?|?]%elem_of_cons.
Qed.

Lemma abort_victim_spec v txn s :
  let s' := abort_victim v txn s in
  table_lock_map_ s' = table_lock_map_ s /\
  row_lock_map_ s' = row_lock_map_ s /\
  txn_id_set_ s' = txn_id_set_ s /\
  txn_map_ s' = <[v := SetState ABORTED txn]> (txn_map_ s) /\
  (forall a, waits_for_ s' !! a
             = (fun ts => ts ∖ {[v]}) <$> delete v (waits_for_ s) !! a) /\
  forall a b, has_edge s' a b <-> has_edge s a b /\ a <> v /\ b <> v.
Proof.
  unfold abort_victim.
  set (s2 := with_graph _ _ _).
  destruct (remove_edges_fold v (map_to_list (waits_for_ s2)) s2)
    as (Ht & Hr & Hi & Hm & Hw).
  assert (forall a,
    waits_for_ (foldr (fun '(key, _) acc => RemoveEdge key v acc) s2
                  (map_to_list (waits_for_ s2))) !! a
    = (fun ts => ts ∖ {[v]}) <$> delete v (waits_for_ s) !! a) as Hw'.
  { intros a. rewrite Hw.
    change (waits_for_ s2) with (delete v (waits_for_ s)).
    destruct (delete v (waits_for_ s) !! a) as [ts|] eqn:Ha.
    - rewrite decide_True; [done|].
      apply list_elem_of_fmap. exists (a, ts). split; [done|].
      by apply elem_of_map_to_list.
    - rewrite decide_False; [done|].
      intros ([a' ts] & -> & Hin%elem_of_map_to_list)%list_elem_of_fmap.
      simpl in Ha. congruence. }
  split_and!; try done.
  intros a b. unfold has_edge. split.
  - intros (ts & Hts & Hb). rewrite Hw' in Hts.
    destruct (delete v (waits_for_ s) !! a) as [ts'|] eqn:Ha; [|done].
    simpl in Hts. simplify_eq.
    apply lookup_delete_Some in Ha as [Hne Ha].
    apply elem_of_difference in Hb as [Hb Hbv].
    split_and!; [by exists ts'|done|].
    intros ->. by apply Hbv, elem_of_singleton.
  - intros [(ts & Hts & Hb) [Hav Hbv]].
    exists (ts ∖ {[v]}). rewrite Hw', lookup_delete_ne, Hts by done.
    split; [done|]. apply elem_of_difference. split; [done|].
    by intros ?%elem_of_singleton.
Qed.

Section Cycles.

Variable order : gset Z -> list Z.
Hypothesis order_elem : forall ts x, x ∈ order ts <-> x ∈ ts.

Lemma search_from_spec s fuel : forall rounds root st,
  (size (nodes s) < fuel)%nat ->
  cycle_stack st = [] -> flags_ok st ->
  (forall x, x ∈ has_traversed_txn_set st ->
             ~ reaches_cycle (waits_for_ s) x) ->
  (size (dom (txn_id_set_ s) ∖ has_traversed_txn_set st) < rounds)%nat ->
  is_Some (txn_id_set_ s !! root) -> root ∉ has_traversed_txn_set st ->
  exists r,
    search_from order rounds fuel (waits_for_ s) (txn_id_set_ s) root st
    = Some r /\
    match r with
    | Some st' => closes_cycle (waits_for_ s) (cycle_stack st')
    | None =>
        forall key, txn_id_set_ s !! key = Some 1 -> key < INT_MAX ->
                    ~ reaches_cycle (waits_for_ s) key
    end.
Proof.
  induction rounds as [|rounds IH];
    intros root st Hsz Hst Hok HT Hrounds Hroot HrootT; [lia|].
  simpl.
  destruct (DFS_spec order order_elem (waits_for_ s) (nodes s)) with
    (fuel := fuel) (n := root) (st := st)
    as (b & st1 & Hdfs & HTa & HTb & HTc & Hpost).
  - intros a b Hab. apply elem_of_nodes. right. right. by exists a.
  - done.
  - rewrite Hst. apply NoDup_nil_2.
  - rewrite Hst. intros x Hx. by apply elem_of_nil in Hx.
  - apply elem_of_nodes. by left.
  - rewrite Hst. apply not_elem_of_nil.
  - by rewrite Hst.
  - rewrite Hst. simpl. lia.
  - rewrite Hdfs. destruct b.
    + exists (Some st1). split; [done|]. apply Hpost.
    + destruct Hpost as (Hst1 & Hok1 & Hsafe). rewrite Hst in Hst1, Hsafe.
      assert (~ reaches_cycle (waits_for_ s) root) as Hnot.
      { intros Hr. by apply Hsafe, reaches_cycle_doomed. }
      assert (forall x, x ∈ has_traversed_txn_set st1 ->
                        ~ reaches_cycle (waits_for_ s) x) as HT1.
      { intros x Hx Hr. destruct (HTc x Hx) as [Hx'|Hx'].
        - by apply (HT x).
        - apply Hnot. by eapply reaches_cycle_rtc. }
      destruct (next_min_spec (txn_id_set_ s) (has_traversed_txn_set st1))
        as (_ & Hm & Hmin).
      destruct (next_min (txn_id_set_ s) (has_traversed_txn_set st1)
                =? INT_MAX) eqn:Hmx.
      * apply Z.eqb_eq in Hmx. exists None. split; [done|].
        intros key Hkey Hlt.
        destruct (decide (key ∈ has_traversed_txn_set st1)) as [Hin|Hout];
          [by apply HT1|].
        specialize (Hmin key Hkey Hout). lia.
      * apply Z.eqb_neq in Hmx. destruct Hm as [Hm|[Hm HmT]]; [done|].
        apply IH; try done.
        assert (dom (txn_id_set_ s) ∖ has_traversed_txn_set st1
                ⊂ dom (txn_id_set_ s) ∖ has_traversed_txn_set st) as Hsub.
        { split.
          - intros x [Hx1 Hx2]%elem_of_difference.
            apply elem_of_difference. split; [done|].
            intros Hx. by apply Hx2, HTa.
          - intros Hsub. specialize (Hsub root).
            assert (root ∈ dom (txn_id_set_ s) ∖ has_traversed_txn_set st1)
              as Hbad.
            { apply Hsub. apply elem_of_difference.
              split; [by apply elem_of_dom|done]. }
            by apply elem_of_difference in Hbad as [_ Hbad]. }
        apply subset_size in Hsub. lia.
Qed.

(** What [HasCycle] returns when it has enough fuel. *)
Lemma HasCycle_spec s fuel :
  (size (nodes s) < fuel)%nat ->
  exists r, HasCycle order fuel s = Some r /\
    match r with
    | (Some v, s') =>
        s' = with_graph (waits_for_ s) (<[v := 0]> (txn_id_set_ s)) s /\
        exists stack,
          closes_cycle (waits_for_ s) stack /\ largest stack = Some v
    | (None, s') =>
        s' = s /\
        forall key, txn_id_set_ s !! key = Some 1 -> key < INT_MAX ->
                    ~ reaches_cycle (waits_for_ s) key
    end.
Proof.
  intros Hsz. unfold HasCycle.
  destruct (next_min_spec (txn_id_set_ s) ∅) as (_ & Hm & Hmin).
  rewrite <- first_min_next_min in Hm, Hmin.
  destruct (first_min (txn_id_set_ s) =? INT_MAX) eqn:Hmx.
  - apply Z.eqb_eq in Hmx. exists (None, s). split; [done|].
    split; [done|]. intros key Hkey Hlt.
    specialize (Hmin key Hkey (not_elem_of_empty _)). lia.
  - apply Z.eqb_neq in Hmx. destruct Hm as [Hm|[Hm _]]; [done|].
    destruct (search_from_spec s fuel fuel (first_min (txn_id_set_ s))
                (mkSearch [] ∅ ∅)) as (r & Hr & Hpost); try done.
    + intros x. simpl. rewrite lookup_empty. split; [done|].
      intros Hx. by apply elem_of_nil in Hx.
    + simpl.
      assert (size (dom (txn_id_set_ s) ∖ (∅ : gset Z))
              <= size (nodes s))%nat; [|lia].
      apply subseteq_size. intros x [Hx _]%elem_of_difference.
      apply elem_of_dom in Hx. apply elem_of_nodes. by left.
    + rewrite Hr. destruct r as [st|].
      * destruct (largest (cycle_stack st)) as [v|] eqn:Hv.
        -- eexists. split; [done|]. split; [done|].
           by exists (cycle_stack st).
        -- exfalso. destruct Hpost as [_ (top & m & Hhd & _)].
           by destruct (cycle_stack st).
      * exists (None, s). by split.
Qed.

Lemma resolve_spec fuel : forall rounds s,
  graph_ok s ->
  (size (nodes s) < fuel)%nat ->
  (size (dom (waits_for_ s)) < rounds)%nat ->
  exists vs s', resolve order rounds fuel s = Some (vs, s') /\
    (forall c, ~ tc (edge (waits_for_ s')) c c) /\
    graph_ok s' /\
    table_lock_map_ s' = table_lock_map_ s /\
    row_lock_map_ s' = row_lock_map_ s /\
    (forall a b, has_edge s' a b <-> has_edge s a b /\ (a ∉ vs) /\ (b ∉ vs)) /\
    (forall v, v ∈ vs -> exists y, has_edge s v y) /\
    (forall t, txn_map_ s' !! t
               = if decide (t ∈ vs)
                 then SetState ABORTED <$> txn_map_ s !! t
                 else txn_map_ s !! t).
Proof.
  induction rounds as [|rounds IH]; intros s Hok Hsz Hrounds; [lia|].
  simpl.
  destruct (HasCycle_spec s fuel Hsz) as ([[v|] s1] & Hhc & Hpost);
    rewrite Hhc.
  2:{ destruct Hpost as [-> Hnone]. exists [], s. split_and!; try done.
      - intros c Hc.
        assert (exists y, edge (waits_for_ s) c y) as [y Hy].
        { inversion Hc; eauto. }
        destruct (Hok c y Hy) as (Hmark & Hlt & _).
        apply (Hnone c Hmark Hlt). by exists c.
      - intros a b. split; [|by intros [? _]].
        intros Hab. split_and!; [done|apply not_elem_of_nil..].
      - intros v Hv. by apply elem_of_nil in Hv. }
  destruct Hpost as [-> (stack & Hcyc & Hlargest)].
  apply largest_spec in Hlargest as [Hv _].
  destruct (closes_cycle_out _ _ _ Hcyc Hv) as [y Hy].
  destruct (Hok v y Hy) as (Hmark & Hlt & [txn Htxn]).
  change (txn_map_ (with_graph (waits_for_ s) (<[v:=0]> (txn_id_set_ s)) s))
    with (txn_map_ s).
  rewrite Htxn.
  set (s1 := with_graph (waits_for_ s) (<[v:=0]> (txn_id_set_ s)) s).
  destruct (abort_victim_spec v txn s1) as (Ht & Hr & Hi & Hm & Hw & He).
  change (waits_for_ s1) with (waits_for_ s) in Hw.
  change (txn_map_ s1) with (txn_map_ s) in Hm.
  change (txn_id_set_ s1) with (<[v:=0]> (txn_id_set_ s)) in Hi.
  change (table_lock_map_ s1) with (table_lock_map_ s) in Ht.
  change (row_lock_map_ s1) with (row_lock_map_ s) in Hr.
  change (has_edge s1) with (has_edge s) in He.
  set (s2 := abort_victim v txn s1) in *.
  assert (dom (waits_for_ s2) ⊆ dom (waits_for_ s) ∖ {[v]}) as Hdom.
  { intros a Ha. apply elem_of_dom in Ha as [ts Hts]. rewrite Hw in Hts.
    destruct (delete v (waits_for_ s) !! a) as [ts'|] eqn:Hd; [|done].
    apply lookup_delete_Some in Hd as [Hne Hd].
    apply elem_of_difference. split; [by apply elem_of_dom|].
    by intros ?%elem_of_singleton. }
  assert (graph_ok s2) as Hok2.
  { intros a b Hab. apply He in Hab as (Hab & Hav & Hbv).
    destruct (Hok a b Hab) as (Hma & Hlta & Hka).
    rewrite Hi, Hm. simpl. rewrite !lookup_insert_ne by done. done. }
  assert (nodes s2 ⊆ nodes s) as Hnodes.
  { intros x Hx. apply elem_of_nodes in Hx. apply elem_of_nodes.
    destruct Hx as [Hx|[Hx|[a Hx]]].
    - left. rewrite Hi in Hx. simpl in Hx.
      destruct (decide (x = v)) as [->|Hne]; [by rewrite Hmark|].
      by rewrite lookup_insert_ne in Hx.
    - right. left. apply elem_of_dom in Hx. apply Hdom in Hx.
      apply elem_of_difference in Hx as [Hx _]. by apply elem_of_dom.
    - right. right. exists a. by apply He in Hx as [Hx _]. }
  destruct (IH s2) as (vs & s' & Hres & Hac & Hok' & Ht' & Hr' & He' & Hv'
                         & Hm'); [done| | |].
  { apply subseteq_size in Hnodes. lia. }
  { assert (size (dom (waits_for_ s) ∖ {[v]}) < size (dom (waits_for_ s)))%nat.
    { apply subset_size. split.
      - intros x [Hx _]%elem_of_difference. done.
      - intros Hsub.
        assert (v ∈ dom (waits_for_ s) ∖ {[v]}) as Hbad.
        { apply Hsub. destruct Hy as (ts & Hts & _). by apply elem_of_dom. }
        apply elem_of_difference in Hbad as [_ Hbad].
        by apply Hbad, elem_of_singleton. }
    apply subseteq_size in Hdom. lia. }
  rewrite Hres. exists (v :: vs), s'. split_and!; try done.
  - by rewrite Ht'.
  - by rewrite Hr'.
  - intros a b. rewrite He', He, !not_elem_of_cons. tauto.
  - intros x [->|Hx]%elem_of_cons; [by exists y|].
    destruct (Hv' x Hx) as [z Hz]. exists z. by apply He in Hz as [Hz _].
  - intros t. rewrite Hm', Hm. simpl.
    destruct (decide (t = v)) as [->|Hne].
    + rewrite lookup_insert_eq, Htxn.
      destruct (decide (v ∈ v :: vs)) as [_|Hbad];
        [|exfalso; apply Hbad; by left].
      by destruct (decide (v ∈ vs)).
    + rewrite lookup_insert_ne by done.
      destruct (decide (t ∈ vs)) as [Hin|Hout];
        destruct (decide (t ∈ v :: vs)) as [Hin'|Hout']; try done.
      * exfalso. apply Hout'. by right.
      * exfalso. by apply elem_of_cons in Hin' as [?|?].
Qed.

(** X28.  When [HasCycle] reports a deadlock, there is one.  The stack
    that [DFS] leaves behind is a chain of waits-for edges whose top
    waits for a transaction of the stack, so a cycle runs through the
    top of the stack; the transaction handed back is the largest id of
    the whole stack, it waits for some transaction, and all the call
    changes is its mark in [txn_id_set_], which becomes 0. *)
Theorem cycle_search_sound s fuel v s' :
  (size (nodes s) < fuel)%nat ->
  HasCycle order fuel s = Some (Some v, s') ->
  s' = with_graph (waits_for_ s) (<[v := 0]> (txn_id_set_ s)) s /\
  exists stack,
    closes_cycle (waits_for_ s) stack /\
    v ∈ stack /\ (forall x, x ∈ stack -> x <= v) /\
    (exists c, c ∈ stack /\ tc (has_edge s) c c) /\
    exists y, has_edge s v y.
Proof.
  intros Hsz Hhc.
  destruct (HasCycle_spec s fuel Hsz) as (r & Hr & Hpost).
  rewrite Hhc in Hr. simplify_eq.
  destruct Hpost as [-> (stack & Hcyc & Hlargest)]. split; [done|].
  apply largest_spec in Hlargest as [Hv Hmax].
  exists stack. split_and!; try done.
  - by apply closes_cycle_tc.
  - by apply (closes_cycle_out _ stack).
Qed.

(** X29.  With fuel for the depth of the graph [HasCycle] returns, and
    it returns [false] only when no transaction that is marked 1 in
    [txn_id_set_] and whose id is below [INT_MAX] can reach a cycle of
    the waits-for graph; the lock manager is unchanged then. *)
Theorem cycle_search_complete s fuel :
  (size (nodes s) < fuel)%nat ->
  (exists v s', HasCycle order fuel s = Some (Some v, s')) \/
  (HasCycle order fuel s = Some (None, s) /\
   forall key, txn_id_set_ s !! key = Some 1 -> key < INT_MAX ->
     forall c, rtc (has_edge s) key c -> ~ tc (has_edge s) c c).
Proof.
  intros Hsz.
  destruct (HasCycle_spec s fuel Hsz) as ([[v|] s'] & Hr & Hpost).
  - left. by exists v, s'.
  - right. destruct Hpost as [-> Hnone]. split; [done|].
    intros key Hkey Hlt c Hreach Hcyc.
    apply (Hnone key Hkey Hlt). by exists c.
Qed.

(** X30.  One pass of the deadlock detector ends and leaves no cycle in
    the waits-for graph.  The pass adds the edges of the queues to the
    graph that is there, and aborts one transaction for every cycle
    search that succeeds: every transaction it aborts had an edge to
    another transaction in the graph it built, the edges that are left
    are those between transactions that were not aborted, the state of
    no other transaction changes and no queue is touched: the requests
    of the aborted transactions stay where they are. *)
Theorem detection_breaks_every_cycle s rounds fuel :
  graph_ok s -> requests_ok s ->
  (size (nodes (build_waits_for s)) < fuel)%nat ->
  (size (dom (waits_for_ (build_waits_for s))) < rounds)%nat ->
  exists vs s', detect order rounds fuel s = Some (vs, s') /\
    (forall c, ~ tc (has_edge s') c c) /\
    graph_ok s' /\
    table_lock_map_ s' = table_lock_map_ s /\
    row_lock_map_ s' = row_lock_map_ s /\
    (forall a b, has_edge s' a b <->
                 has_edge (build_waits_for s) a b /\ (a ∉ vs) /\ (b ∉ vs)) /\
    (forall v, v ∈ vs -> exists y, has_edge (build_waits_for s) v y) /\
    (forall t, txn_map_ s' !! t
               = if decide (t ∈ vs)
                 then SetState ABORTED <$> txn_map_ s !! t
                 else txn_map_ s !! t).
Proof.
  intros Hok Hreq Hsz Hrounds.
  destruct (build_waits_for_graph_ok s Hok Hreq) as (Hok' & Ht & Hr & Hm).
  destruct (resolve_spec fuel rounds (build_waits_for s) Hok' Hsz Hrounds)
    as (vs & s' & Hres & Hac & Hok'' & Ht' & Hr' & He & Hv & Hm').
  exists vs, s'. split_and!; try done.
  - by rewrite Ht'.
  - by rewrite Hr'.
  - intros t. by rewrite Hm', Hm.
Qed.

End Cycles.

Lemma ascending_elem ts x : x ∈ ascending ts <-> x ∈ ts.
Proof.
  unfold ascending. rewrite merge_sort_Permutation. apply elem_of_elements.
Qed.

Lemma cycle_search_sound_witness :
  exists v s',
    HasCycle ascending 10 tail_into_cycle = Some (Some v, s') /\
    s' = with_graph (waits_for_ tail_into_cycle)
           (<[v := 0]> (txn_id_set_ tail_into_cycle)) tail_into_cycle /\
    exists stack,
      closes_cycle (waits_for_ tail_into_cycle) stack /\
      v ∈ stack /\ (forall x, x ∈ stack -> x <= v) /\
      (exists c, c ∈ stack /\ tc (has_edge tail_into_cycle) c c) /\
      exists y, has_edge tail_into_cycle v y.
Proof.
  eexists _, _. split; [vm_compute; reflexivity|].
  eapply (cycle_search_sound ascending ascending_elem tail_into_cycle 10).
  - vm_compute. lia.
  - vm_compute. reflexivity.
Defined.

Lemma cycle_search_complete_witness :
  (exists v s', HasCycle ascending 10 tail_into_cycle = Some (Some v, s')) \/
  (HasCycle ascending 10 tail_into_cycle = Some (None, tail_into_cycle) /\
   forall key, txn_id_set_ tail_into_cycle !! key = Some 1 ->
     key < INT_MAX ->
     forall c, rtc (has_edge tail_into_cycle) key c ->
               ~ tc (has_edge tail_into_cycle) c c).
Proof.
  apply (cycle_search_complete ascending ascending_elem tail_into_cycle 10).
  vm_compute. lia.
Defined.

Lemma detection_breaks_every_cycle_witness :
  exists vs s', detect ascending 10 10 deadlocked = Some (vs, s') /\
    (forall c, ~ tc (has_edge s') c c) /\
    graph_ok s' /\
    table_lock_map_ s' = table_lock_map_ deadlocked /\
    row_lock_map_ s' = row_lock_map_ deadlocked /\
    (forall a b, has_edge s' a b <->
                 has_edge (build_waits_for deadlocked) a b /\
                 (a ∉ vs) /\ (b ∉ vs)) /\
    (forall v, v ∈ vs ->
               exists y, has_edge (build_waits_for deadlocked) v y) /\
    (forall t, txn_map_ s' !! t
               = if decide (t ∈ vs)
                 then SetState ABORTED <$> txn_map_ deadlocked !! t
                 else txn_map_ deadlocked !! t).
Proof.
  apply (detection_breaks_every_cycle ascending ascending_elem deadlocked
           10 10).
  - intros a b (ts & Hts & _). simpl in Hts. by rewrite lookup_empty in Hts.
  - split.
    + intros oid q r Hq Hr. simpl in Hq.
      apply lookup_insert_Some in Hq as [[<- <-]|[_ Hq]];
        [|apply lookup_singleton_Some in Hq as [<- <-]];
        simpl in Hr;
        repeat (apply elem_of_cons in Hr as [->|Hr];
                [split; [reflexivity|eexists; reflexivity]|]);
        by apply elem_of_nil in Hr.
    + intros rid q r Hq. simpl in Hq. by rewrite lookup_empty in Hq.
  - vm_compute. lia.
  - vm_compute. lia.
Defined.

(** The victim of a search need not be on a cycle: from transaction 1
    the search runs through 5 into the cycle of 2 and 3, and hands back
    5, which no cycle runs through. *)
Example victim_off_the_cycle :
  (exists s', HasCycle ascending 10 tail_into_cycle = Some (Some 5, s')) /\
  ~ tc (has_edge tail_into_cycle) 5 5.
Proof.
  split; [eexists; vm_compute; reflexivity|].
  assert (waits_for_ tail_into_cycle
          = {[1 := {[5]}; 5 := {[2]}; 2 := {[3]}; 3 := {[2]}]}) as Hw
    by (vm_compute; reflexivity).
  assert (forall x z, tc (has_edge tail_into_cycle) x z -> z = 5 -> x = 1)
    as Hinto.
  { assert (forall x z, has_edge tail_into_cycle x z ->
                        (z = 5 -> x = 1) /\ z <> 1) as Hedge.
    { intros x z (ts & Hts & Hz). rewrite Hw in Hts.
      repeat (apply lookup_insert_Some in Hts as [[<- <-]|[_ Hts]];
              [apply elem_of_singleton in Hz; subst z; split; [done|lia]|]).
      apply lookup_singleton_Some in Hts as [<- <-].
      apply elem_of_singleton in Hz. subst z. split; [done|lia]. }
    induction 1 as [x z Hxz|x y z Hxy _ IH]; intros ->.
    - by apply (Hedge x 5).
    - specialize (IH eq_refl). subst y. by destruct (Hedge x 1 Hxy). }
  intros Hc. by specialize (Hinto 5 5 Hc eq_refl).
Qed.

End DeadlockFacts.
